(** * The F2FS garbage collector core (fs/f2fs/gc.c): model and properties

    The C functions of gc.c are embedded as executable Rocq functions.
    Machine integers are integers of [Z] with the wrap-around of their C
    type written out, bitmaps are integers read with [Z.testbit], and the
    kernel services gc.c calls are an interface the model is parametric in. *)

From Stdlib Require Import ZArith List Bool Lia.
Import ListNotations.
Local Open Scope Z_scope.

(** ** Machine integers *)

Module MachineInt.

Definition UINT_MAX : Z := 2 ^ 32 - 1.

(** Conversion to [unsigned char], [unsigned int] and [unsigned long long]. *)
Definition u8 (x : Z) : Z := x mod 2 ^ 8.
Definition u32 (x : Z) : Z := x mod 2 ^ 32.
Definition u64 (x : Z) : Z := x mod 2 ^ 64.

(** Conversion to [int] (two's complement). *)
Definition s32 (x : Z) : Z :=
  let y := u32 x in if y <? 2 ^ 31 then y else y - 2 ^ 32.

End MachineInt.
Import MachineInt.

(** ** Start block index of a node page: [start_bidx_of_node] *)

Section NodeLayout.

(** The layout constants of f2fs_fs.h, which gc.c only uses. *)
Variables NIDS_PER_BLOCK ADDRS_PER_BLOCK ADDRS_PER_INODE : Z.

(** [node_ofs], [bidx] and [indirect_blks] are [unsigned int], [dec] is
    [int] and the result is a [block_t] (32 bits).  On the path of
    [node_ofs == 0] the local [bidx] is not assigned and not read. *)
Definition start_bidx_of_node (node_ofs : Z) : Z :=
  let indirect_blks := u32 (2 * NIDS_PER_BLOCK + 4) in
  let '(start_bidx, bidx) :=
    if node_ofs =? 0 then (0, 0)
    else if node_ofs <=? 2 then (1, u32 (node_ofs - 1))
    else if node_ofs <=? indirect_blks then
      let dec := s32 (u32 (node_ofs - 4) / u32 (NIDS_PER_BLOCK + 1)) in
      (1, u32 (node_ofs - 2 - dec))
    else
      let dec :=
        s32 (u32 (node_ofs - indirect_blks - 3) / u32 (NIDS_PER_BLOCK + 1)) in
      (1, u32 (node_ofs - 5 - dec)) in
  if start_bidx =? 0 then start_bidx
  else u32 (bidx * ADDRS_PER_BLOCK + ADDRS_PER_INODE).

(** The arithmetic of the specification, over the integers, with the
    floor division of its text. *)
Definition bidx_spec (nofs : Z) : Z :=
  if nofs <=? 2 then nofs - 1
  else if nofs <=? 2 * NIDS_PER_BLOCK + 4
       then nofs - 2 - (nofs - 4) / (NIDS_PER_BLOCK + 1)
       else nofs - 5
            - (nofs - (2 * NIDS_PER_BLOCK + 4) - 3) / (NIDS_PER_BLOCK + 1).

Definition start_bidx_spec (nofs : Z) : Z :=
  if nofs =? 0 then 0
  else bidx_spec nofs * ADDRS_PER_BLOCK + ADDRS_PER_INODE.

(** The offsets of the indirect node pages at which a subtraction of the
    code wraps: the first indirect node and the two nodes that open the
    double indirect tree. *)
Definition wraps_at (nofs : Z) : bool :=
  (nofs =? 3) || (nofs =? 2 * NIDS_PER_BLOCK + 5)
  || (nofs =? 2 * NIDS_PER_BLOCK + 6).

End NodeLayout.

(** ** Bitmaps

    A kernel bitmap is an integer whose binary digits are the bits; the
    kernel's bit operations are not part of gc.c and are given their usual
    meaning. *)

Definition bitmap := Z.

Definition test_bit (nr : Z) (map : bitmap) : bool := Z.testbit map nr.
Definition set_bit (nr : Z) (map : bitmap) : bitmap := Z.setbit map nr.
Definition clear_bit (nr : Z) (map : bitmap) : bitmap := Z.clearbit map nr.

Fixpoint find_bit_from (n : nat) (map : bitmap) (size i : Z) : Z :=
  match n with
  | O => size
  | S n' => if Z.testbit map i then i else find_bit_from n' map size (i + 1)
  end.

(** [find_next_bit map size offset]: the first set bit at or after
    [offset] and below [size], or [size] when there is none. *)
Definition find_next_bit (map : bitmap) (size offset : Z) : Z :=
  find_bit_from (Z.to_nat (size - offset)) map size offset.

(** ** Data model of the victim selector *)

Inductive gc_type_t := BG_GC | FG_GC.
Inductive gc_mode_t := GC_CB | GC_GREEDY.
Inductive alloc_mode_t := LFS | SSR.

Inductive seg_type :=
| CURSEG_HOT_DATA | CURSEG_WARM_DATA | CURSEG_COLD_DATA
| CURSEG_HOT_NODE | CURSEG_WARM_NODE | CURSEG_COLD_NODE.

(** The index of [dirty_segmap]: one map for each segment type and the map
    [DIRTY] of their union. *)
Inductive dirty_type := DIRTY_OF (t : seg_type) | DIRTY.

(** Modelled from the spec: the [type] argument of [get_victim], which
    IS_SSR_TYPE and GET_SSR_TYPE of segment.h take apart: [NO_CHECK_TYPE]
    from the collector, or the type of the log the allocator looks a
    reusable segment for. *)
Inductive type_hint := NO_CHECK_TYPE | SSR_TYPE (t : seg_type).

Inductive gc_status := GC_NONE | GC_ERROR | GC_OK | GC_NEXT | GC_BLOCKED | GC_DONE.

Definition gc_type_eqb (a b : gc_type_t) : bool :=
  match a, b with BG_GC, BG_GC | FG_GC, FG_GC => true | _, _ => false end.

Definition gc_mode_eqb (a b : gc_mode_t) : bool :=
  match a, b with GC_CB, GC_CB | GC_GREEDY, GC_GREEDY => true | _, _ => false end.

Definition alloc_mode_eqb (a b : alloc_mode_t) : bool :=
  match a, b with LFS, LFS | SSR, SSR => true | _, _ => false end.

Definition gc_status_eqb (a b : gc_status) : bool :=
  match a, b with
  | GC_NONE, GC_NONE | GC_ERROR, GC_ERROR | GC_OK, GC_OK
  | GC_NEXT, GC_NEXT | GC_BLOCKED, GC_BLOCKED | GC_DONE, GC_DONE => true
  | _, _ => false
  end.

Record seg_entry := mk_seg_entry {
  ckpt_valid_blocks : Z;
  cur_valid_map : bitmap;
  mtime : Z                       (* unsigned long long *)
}.

Record f2fs_sb_info := mk_sbi {
  log_blocks_per_seg : Z;
  blocks_per_seg : Z;
  log_segs_per_sec : Z;
  segs_per_sec : Z;
  main_segments : Z;              (* what TOTAL_SEGS(sbi) reads *)
  last_victim : gc_mode_t -> Z;
  bg_gc : Z;
  last_gc_status : gc_status;
  (* SIT_I(sbi) *)
  sentries : Z -> seg_entry;
  sit_valid_blocks : Z -> Z -> Z; (* what get_valid_blocks reads *)
  min_mtime : Z;
  max_mtime : Z;
  (* DIRTY_I(sbi) *)
  dirty_segmap : dirty_type -> bitmap;
  victim_segmap : gc_type_t -> bitmap;
  (* CURSEG_I(sbi, type)->segno *)
  curseg_segno : seg_type -> Z
}.

Definition set_last_victim (m : gc_mode_t) (v : Z) (sbi : f2fs_sb_info) :=
  mk_sbi (log_blocks_per_seg sbi) (blocks_per_seg sbi) (log_segs_per_sec sbi)
    (segs_per_sec sbi) (main_segments sbi)
    (fun m' => if gc_mode_eqb m' m then v else last_victim sbi m')
    (bg_gc sbi) (last_gc_status sbi) (sentries sbi) (sit_valid_blocks sbi)
    (min_mtime sbi) (max_mtime sbi) (dirty_segmap sbi) (victim_segmap sbi)
    (curseg_segno sbi).

Definition set_bg_gc (v : Z) (sbi : f2fs_sb_info) :=
  mk_sbi (log_blocks_per_seg sbi) (blocks_per_seg sbi) (log_segs_per_sec sbi)
    (segs_per_sec sbi) (main_segments sbi) (last_victim sbi)
    v (last_gc_status sbi) (sentries sbi) (sit_valid_blocks sbi)
    (min_mtime sbi) (max_mtime sbi) (dirty_segmap sbi) (victim_segmap sbi)
    (curseg_segno sbi).

Definition set_last_gc_status (v : gc_status) (sbi : f2fs_sb_info) :=
  mk_sbi (log_blocks_per_seg sbi) (blocks_per_seg sbi) (log_segs_per_sec sbi)
    (segs_per_sec sbi) (main_segments sbi) (last_victim sbi)
    (bg_gc sbi) v (sentries sbi) (sit_valid_blocks sbi)
    (min_mtime sbi) (max_mtime sbi) (dirty_segmap sbi) (victim_segmap sbi)
    (curseg_segno sbi).

Definition set_min_mtime (v : Z) (sbi : f2fs_sb_info) :=
  mk_sbi (log_blocks_per_seg sbi) (blocks_per_seg sbi) (log_segs_per_sec sbi)
    (segs_per_sec sbi) (main_segments sbi) (last_victim sbi)
    (bg_gc sbi) (last_gc_status sbi) (sentries sbi) (sit_valid_blocks sbi)
    v (max_mtime sbi) (dirty_segmap sbi) (victim_segmap sbi)
    (curseg_segno sbi).

Definition set_max_mtime (v : Z) (sbi : f2fs_sb_info) :=
  mk_sbi (log_blocks_per_seg sbi) (blocks_per_seg sbi) (log_segs_per_sec sbi)
    (segs_per_sec sbi) (main_segments sbi) (last_victim sbi)
    (bg_gc sbi) (last_gc_status sbi) (sentries sbi) (sit_valid_blocks sbi)
    (min_mtime sbi) v (dirty_segmap sbi) (victim_segmap sbi)
    (curseg_segno sbi).

Definition set_victim_segmap (t : gc_type_t) (map : bitmap)
    (sbi : f2fs_sb_info) :=
  mk_sbi (log_blocks_per_seg sbi) (blocks_per_seg sbi) (log_segs_per_sec sbi)
    (segs_per_sec sbi) (main_segments sbi) (last_victim sbi)
    (bg_gc sbi) (last_gc_status sbi) (sentries sbi) (sit_valid_blocks sbi)
    (min_mtime sbi) (max_mtime sbi) (dirty_segmap sbi)
    (fun t' => if gc_type_eqb t' t then map else victim_segmap sbi t')
    (curseg_segno sbi).

(** *** The accessors of f2fs.h and segment.h *)

(** Modelled from the spec: NULL_SEGNO of segment.h, the value of
    [min_segno] while no victim is found; it is the [unsigned int] with all
    bits set, which is no segment number of the main area. *)
Definition NULL_SEGNO : Z := UINT_MAX.

Definition TOTAL_SEGS (sbi : f2fs_sb_info) : Z := main_segments sbi.

Definition get_seg_entry (sbi : f2fs_sb_info) (segno : Z) : seg_entry :=
  sentries sbi segno.

Definition get_valid_blocks (sbi : f2fs_sb_info) (segno log_unit : Z) : Z :=
  sit_valid_blocks sbi segno log_unit.

(** Modelled from the spec: GET_SECNO of segment.h.  A section is a group of
    [2^s] contiguous segments whose first segment number is aligned, so the
    section of a segment is its number shifted right by
    [log_segs_per_sec], as [f2fs_update_stat] computes [cursec]. *)
Definition GET_SECNO (sbi : f2fs_sb_info) (segno : Z) : Z :=
  Z.shiftr segno (log_segs_per_sec sbi).

Definition all_seg_types : list seg_type :=
  [CURSEG_HOT_DATA; CURSEG_WARM_DATA; CURSEG_COLD_DATA;
   CURSEG_HOT_NODE; CURSEG_WARM_NODE; CURSEG_COLD_NODE].

(** Modelled from the spec: IS_CURSEC of segment.h.  A section is current
    when it contains one of the six current segments. *)
Definition IS_CURSEC (sbi : f2fs_sb_info) (secno : Z) : bool :=
  existsb (fun t => secno =? GET_SECNO sbi (curseg_segno sbi t)) all_seg_types.

(** ** Victim selection *)

Record victim_sel_policy := mk_policy {
  p_alloc_mode : alloc_mode_t;
  p_gc_mode : gc_mode_t;
  p_dirty_segmap : dirty_type;    (* the map of DIRTY_I(sbi) it points to *)
  p_type : seg_type;
  p_log_ofs_unit : Z;
  p_offset : Z;                   (* unsigned int *)
  p_min_cost : Z;                 (* unsigned int *)
  p_min_segno : Z                 (* unsigned int *)
}.

Definition set_offset (v : Z) (p : victim_sel_policy) :=
  mk_policy (p_alloc_mode p) (p_gc_mode p) (p_dirty_segmap p) (p_type p)
    (p_log_ofs_unit p) v (p_min_cost p) (p_min_segno p).

Definition set_min_cost (v : Z) (p : victim_sel_policy) :=
  mk_policy (p_alloc_mode p) (p_gc_mode p) (p_dirty_segmap p) (p_type p)
    (p_log_ofs_unit p) (p_offset p) v (p_min_segno p).

Definition set_min_segno (v : Z) (p : victim_sel_policy) :=
  mk_policy (p_alloc_mode p) (p_gc_mode p) (p_dirty_segmap p) (p_type p)
    (p_log_ofs_unit p) (p_offset p) (p_min_cost p) v.

Definition select_gc_type (gc_type : gc_type_t) : gc_mode_t :=
  if gc_type_eqb gc_type BG_GC then GC_CB else GC_GREEDY.

(** The fields [min_cost] and [min_segno] are not written by
    [select_policy]; the caller assigns them before any read, and they
    start here with the values the caller gives them. *)
Definition select_policy (sbi : f2fs_sb_info) (gc_type : gc_type_t)
    (type : type_hint) : victim_sel_policy :=
  match type with
  | SSR_TYPE t =>
      mk_policy SSR GC_GREEDY (DIRTY_OF t) t 0
        (last_victim sbi GC_GREEDY) 0 NULL_SEGNO
  | NO_CHECK_TYPE =>
      let m := select_gc_type gc_type in
      mk_policy LFS m DIRTY CURSEG_HOT_DATA (log_segs_per_sec sbi)
        (last_victim sbi m) 0 NULL_SEGNO
  end.

Definition get_max_cost (sbi : f2fs_sb_info) (p : victim_sel_policy) : Z :=
  match p_gc_mode p with
  | GC_GREEDY => u32 (Z.shiftl 1 (log_blocks_per_seg sbi + p_log_ofs_unit p))
  | GC_CB => UINT_MAX
  end.

Definition check_bg_victims (sbi : f2fs_sb_info) : Z * f2fs_sb_info :=
  let segno := find_next_bit (victim_segmap sbi BG_GC) (TOTAL_SEGS sbi) 0 in
  if segno <? TOTAL_SEGS sbi
  then (segno,
        set_victim_segmap BG_GC (clear_bit segno (victim_segmap sbi BG_GC)) sbi)
  else (NULL_SEGNO, sbi).

(** The sum of the [mtime] of the [n] segments from [start], in
    [unsigned long long]; [start + i] is an [unsigned int]. *)
Definition sum_mtime (sbi : f2fs_sb_info) (start : Z) (n : nat) : Z :=
  fold_left
    (fun acc i => u64 (acc + mtime (get_seg_entry sbi (u32 (start + Z.of_nat i)))))
    (seq 0 n) 0.

(** [u] and [age] are [unsigned char]; the benefit is computed in [int],
    with the division of C, and subtracted from [UINT_MAX] as an
    [unsigned int].  The function widens [min_mtime] and [max_mtime]. *)
Definition get_cb_cost (sbi : f2fs_sb_info) (segno : Z) : Z * f2fs_sb_info :=
  let secno := GET_SECNO sbi segno in
  let start := u32 (Z.shiftl secno (log_segs_per_sec sbi)) in
  let mtime := sum_mtime sbi start (Z.to_nat (segs_per_sec sbi)) in
  let vblocks := get_valid_blocks sbi segno (log_segs_per_sec sbi) in
  let mtime := Z.shiftr mtime (log_segs_per_sec sbi) in
  let vblocks := Z.shiftr vblocks (log_segs_per_sec sbi) in
  let u := u8 (Z.shiftr (u32 (vblocks * 100)) (log_blocks_per_seg sbi)) in
  let sbi := if mtime <? min_mtime sbi then set_min_mtime mtime sbi else sbi in
  let sbi := if max_mtime sbi <? mtime then set_max_mtime mtime sbi else sbi in
  let age :=
    if negb (max_mtime sbi =? min_mtime sbi)
    then u8 (100 - u64 (100 * u64 (mtime - min_mtime sbi))
                   / u64 (max_mtime sbi - min_mtime sbi))
    else 0 in
  (u32 (UINT_MAX - Z.quot (100 * (100 - u) * age) (100 + u)), sbi).

Definition get_gc_cost (sbi : f2fs_sb_info) (segno : Z)
    (p : victim_sel_policy) : Z * f2fs_sb_info :=
  match p_alloc_mode p with
  | SSR => (ckpt_valid_blocks (get_seg_entry sbi segno), sbi)
  | LFS =>
      match p_gc_mode p with
      | GC_GREEDY => (get_valid_blocks sbi segno (log_segs_per_sec sbi), sbi)
      | GC_CB => get_cb_cost sbi segno
      end
  end.

Section VictimScan.

(** The search bound of gc.h. *)
Variable MAX_VICTIM_SEARCH : Z.

(** The state of the scan loop of [get_victim_by_default]: the superblock
    information, the policy and the local counter [nsearched]. *)
Record scan_state := mk_scan {
  sc_sbi : f2fs_sb_info;
  sc_p : victim_sel_policy;
  sc_nsearched : Z
}.

(** How an iteration of the loop ends: the [continue] after the rewind, any
    other [continue] (or the end of the body), the [break] when no dirty
    segment is left, and the [break] of the search bound. *)
Inductive scan_ctl := ScanRewind | ScanNext | ScanExhausted | ScanLimit.

Definition next_offset (p : victim_sel_policy) (segno : Z) : Z :=
  u32 (Z.shiftl (Z.shiftr segno (p_log_ofs_unit p)) (p_log_ofs_unit p)
       + Z.shiftl 1 (p_log_ofs_unit p)).

(** One iteration of the [while (1)] loop.  [nsearched++ >= MAX_VICTIM_SEARCH]
    compares the value the counter had before the increment. *)
Definition scan_body (gc_type : gc_type_t) (st : scan_state)
    : scan_ctl * scan_state :=
  let sbi := sc_sbi st in
  let p := sc_p st in
  let segno :=
    find_next_bit (dirty_segmap sbi (p_dirty_segmap p)) (TOTAL_SEGS sbi)
      (p_offset p) in
  if TOTAL_SEGS sbi <=? segno then
    if negb (last_victim sbi (p_gc_mode p) =? 0) then
      (ScanRewind,
       mk_scan (set_last_victim (p_gc_mode p) 0 sbi) (set_offset 0 p)
         (sc_nsearched st))
    else (ScanExhausted, st)
  else
    let p := set_offset (next_offset p segno) p in
    if test_bit segno (victim_segmap sbi FG_GC) then
      (ScanNext, mk_scan sbi p (sc_nsearched st))
    else if gc_type_eqb gc_type BG_GC
            && test_bit segno (victim_segmap sbi BG_GC) then
      (ScanNext, mk_scan sbi p (sc_nsearched st))
    else if IS_CURSEC sbi (GET_SECNO sbi segno) then
      (ScanNext, mk_scan sbi p (sc_nsearched st))
    else
      let '(cost, sbi) := get_gc_cost sbi segno p in
      let p :=
        if cost <? p_min_cost p
        then set_min_cost cost (set_min_segno segno p) else p in
      if cost =? get_max_cost sbi p then
        (ScanNext, mk_scan sbi p (sc_nsearched st))
      else if MAX_VICTIM_SEARCH <=? sc_nsearched st then
        (ScanLimit,
         mk_scan (set_last_victim (p_gc_mode p) segno sbi) p
           (sc_nsearched st + 1))
      else (ScanNext, mk_scan sbi p (sc_nsearched st + 1)).

Definition scan_continues (c : scan_ctl) : bool :=
  match c with ScanRewind | ScanNext => true | _ => false end.

(** The loop, run for at most [fuel] iterations; the list is the sequence
    of the ways the iterations ended. *)
Fixpoint scan_loop (fuel : nat) (gc_type : gc_type_t) (st : scan_state)
    : option (list scan_ctl * scan_state) :=
  match fuel with
  | O => None
  | S fuel' =>
      let '(c, st') := scan_body gc_type st in
      if scan_continues c then
        match scan_loop fuel' gc_type st' with
        | Some (cs, st'') => Some (c :: cs, st'')
        | None => None
        end
      else Some ([c], st')
  end.

(** Two passes over the segments and the two iterations that end them. *)
Definition scan_fuel (sbi : f2fs_sb_info) : nat :=
  Z.to_nat (2 * TOTAL_SEGS sbi + 2).

(** The loop that sets the bits [result + i] for [i] from [0] below
    [1 << log_ofs_unit]; the index is an [unsigned int]. *)
Definition set_victim_bits (result : Z) (count : Z) (map : bitmap) : bitmap :=
  fold_left (fun m i => set_bit (u32 (result + Z.of_nat i)) m)
    (seq 0 (Z.to_nat count)) map.

(** The code from the label [got_it]: the value returned, the value of
    [*result] and the superblock information. *)
Definition got_it (gc_type : gc_type_t) (result : Z) (sbi : f2fs_sb_info)
    (p : victim_sel_policy) : Z * Z * f2fs_sb_info :=
  if negb (p_min_segno p =? NULL_SEGNO) then
    let result :=
      u32 (Z.shiftl (Z.shiftr (p_min_segno p) (p_log_ofs_unit p))
             (p_log_ofs_unit p)) in
    let sbi :=
      match p_alloc_mode p with
      | LFS =>
          set_victim_segmap gc_type
            (set_victim_bits result (Z.shiftl 1 (p_log_ofs_unit p))
               (victim_segmap sbi gc_type)) sbi
      | SSR => sbi
      end in
    (1, result, sbi)
  else (0, result, sbi).

(** [result] is the value [*result] has at the call; the function returns
    its return value, the value of [*result] and the state, or [None] when
    the scan is not over after [scan_fuel] iterations. *)
Definition get_victim_by_default (sbi : f2fs_sb_info) (result : Z)
    (gc_type : gc_type_t) (type : type_hint)
    : option (Z * Z * f2fs_sb_info) :=
  let p := select_policy sbi gc_type type in
  let p := set_min_segno NULL_SEGNO p in
  let p := set_min_cost (get_max_cost sbi p) p in
  let '(jump, sbi, p) :=
    if alloc_mode_eqb (p_alloc_mode p) LFS && gc_type_eqb gc_type FG_GC then
      let '(segno, sbi) := check_bg_victims sbi in
      (negb (segno =? NULL_SEGNO), sbi, set_min_segno segno p)
    else (false, sbi, p) in
  if jump then Some (got_it gc_type result sbi p)
  else
    match scan_loop (scan_fuel sbi) gc_type (mk_scan sbi p 0) with
    | Some (_, st) => Some (got_it gc_type result (sc_sbi st) (sc_p st))
    | None => None
    end.

End VictimScan.

(** ** Segment evacuation and the collector

    The node manager, the page cache, the inode cache, the checkpoint and
    the space accounting live outside gc.c.  The model is parametric in
    their state [K], in the types of the inode and page objects gc.c holds
    pointers to, and in the operations it calls on them ([kernel_ops]).
    Lock and unlock calls change nothing a sequential run can observe and
    are left out; the result of [mutex_trylock] comes from the interface.
    The little-endian fields of a summary entry are read decoded. *)

Record f2fs_summary := mk_summary {
  sum_nid : Z;
  sum_version : Z;
  sum_ofs_in_node : Z
}.

Inductive sum_type := SUM_TYPE_NODE | SUM_TYPE_DATA | SUM_TYPE_OTHER.

Record f2fs_summary_block := mk_sum_block {
  entries : Z -> f2fs_summary;
  footer_type : sum_type          (* GET_SUM_TYPE(&sum->footer) *)
}.

Record node_info := mk_node_info {
  ni_nid : Z;
  ni_ino : Z;
  ni_blk_addr : Z;
  ni_version : Z
}.

Section Collector.

Variables (K inode page : Type).

(** Comparison of two inode pointers, and the inode number read through
    one. *)
Variable inode_eq_dec : forall a b : inode, {a = b} + {a <> b}.
Variable i_ino : inode -> Z.

Variables NIDS_PER_BLOCK ADDRS_PER_BLOCK ADDRS_PER_INODE : Z.

(** The sleep times of gc.h and its two adjustments of the sleep time. *)
Variables GC_THREAD_MIN_SLEEP_TIME GC_THREAD_MAX_SLEEP_TIME
          GC_THREAD_NOGC_SLEEP_TIME : Z.
Variables increase_sleep_time decrease_sleep_time : Z -> Z.

Record world := mk_world { w_sbi : f2fs_sb_info; w_kernel : K }.

Record kernel_ops := mk_kernel_ops {
  (* the worker thread *)
  try_to_freeze : world -> bool * world;
  wait_event_interruptible_timeout : Z -> world -> world;
  kthread_should_stop : world -> bool;
  f2fs_balance_fs : world -> world;
  test_opt_BG_GC : world -> bool;
  mutex_trylock_gc_mutex : world -> bool * world;
  is_idle : world -> bool;
  has_enough_invalid_blocks : world -> bool;
  (* checkpoint and space accounting *)
  should_do_checkpoint : world -> bool;
  block_operations : world -> world;
  write_checkpoint : bool -> bool -> world -> world;
  has_not_enough_free_secs : world -> bool;
  reserved_sections : world -> Z;
  free_sections : world -> Z;
  sb_active : world -> bool;      (* sbi->sb->s_flags & MS_ACTIVE *)
  (* the victim selector installed in DIRTY_I(sbi)->v_ops: its return
     value and the value of the result it is given a pointer to *)
  get_victim : Z -> gc_type_t -> type_hint -> world -> (Z * Z) * world;
  (* segments and summaries *)
  f2fs_test_bit : Z -> bitmap -> Z;
  START_BLOCK : f2fs_sb_info -> Z -> Z;
  get_sum_page : Z -> world -> option page * world;
  unlock_page : page -> world -> world;
  page_address : page -> world -> f2fs_summary_block;
  (* node pages *)
  ra_node_page : Z -> world -> world;
  get_node_page : Z -> world -> option page * world;
  get_node_info : Z -> world -> node_info * world;
  ofs_of_node : page -> world -> Z;
  datablock_addr : page -> Z -> world -> Z;
  sync_node_pages : world -> world;
  (* pages *)
  PageWriteback : page -> world -> bool;
  set_page_dirty : page -> world -> world;
  f2fs_put_page : page -> Z -> world -> world;
  page_mapping : page -> world -> Z;
  mapping_host : Z -> world -> inode;
  set_cold_data : page -> world -> world;
  clear_cold_data : page -> world -> world;
  clear_page_dirty_for_io : page -> world -> bool * world;
  do_write_data_page : page -> world -> world;
  find_data_page : inode -> Z -> world -> option page * world;
  get_lock_data_page : inode -> Z -> world -> option page * world;
  f2fs_submit_bio : world -> world;
  (* inodes *)
  f2fs_iget_nowait : Z -> world -> option inode * world;
  iput_inode : inode -> world -> world;
  i_mapping : inode -> Z;
  S_ISDIR : inode -> bool;
  dec_page_count_dirty_dents : world -> world;
  inode_dec_dirty_dents : inode -> world -> world;
  (* the slab of inode entries: how many times the allocation fails before
     it succeeds, and the calls around it *)
  winode_alloc_failures : world -> nat;
  cond_resched : world -> world;
  kmem_cache_alloc : world -> world;
  kmem_cache_free : world -> world;
  (* statistics *)
  gc_stat_inc_node_blk_count : world -> world;
  gc_stat_inc_data_blk_count : world -> world;
  gc_stat_inc_seg_count : sum_type -> world -> world;
  gc_stat_inc_call_count : world -> world
}.

Variable ops : kernel_ops.

(** *** The monad of the model: state and a log of the references taken
    and dropped on inodes *)

Inductive event := Acquire (i : inode) | Release (i : inode).

Definition M (A : Type) : Type := world -> A * world * list event.

Definition ret {A} (a : A) : M A := fun w => (a, w, []).

Definition bind {A B} (m : M A) (f : A -> M B) : M B :=
  fun w =>
    let '(a, w1, t1) := m w in
    let '(b, w2, t2) := f a w1 in
    (b, w2, t1 ++ t2).

Notation "x <- m ;; k" := (bind m (fun x => k))
  (at level 61, m at next level, right associativity).
Notation "' pat <- m ;; k" := (bind m (fun x => let pat := x in k))
  (at level 61, pat pattern, m at next level, right associativity).
Notation "m ;;; k" := (bind m (fun _ => k))
  (at level 61, right associativity).

Definition read {A} (f : world -> A) : M A := fun w => (f w, w, []).
Definition exec (f : world -> world) : M unit := fun w => (tt, f w, []).
Definition call {A} (f : world -> A * world) : M A :=
  fun w => let '(a, w') := f w in (a, w', []).

Definition iput (i : inode) : M unit :=
  fun w => (tt, iput_inode ops i w, [Release i]).

Definition iget_nowait (ino : Z) : M (option inode) :=
  fun w =>
    let '(r, w') := f2fs_iget_nowait ops ino w in
    (r, w', match r with Some i => [Acquire i] | None => [] end).

(** *** The list of pinned inodes *)

Record inode_entry := mk_inode_entry { ie_inode : inode }.

Fixpoint find_gc_inode (ino : Z) (ilist : list inode_entry) : option inode :=
  match ilist with
  | [] => None
  | ie :: rest =>
      if i_ino (ie_inode ie) =? ino then Some (ie_inode ie)
      else find_gc_inode ino rest
  end.

Fixpoint gc_inode_listed (i : inode) (ilist : list inode_entry) : bool :=
  match ilist with
  | [] => false
  | ie :: rest =>
      if inode_eq_dec (ie_inode ie) i then true else gc_inode_listed i rest
  end.

(** The loop at [repeat:], taken once for each failed allocation. *)
Fixpoint alloc_inode_entry (failures : nat) : M unit :=
  match failures with
  | O => exec (kmem_cache_alloc ops)
  | S n => exec (kmem_cache_alloc ops) ;;; exec (cond_resched ops) ;;;
           alloc_inode_entry n
  end.

Definition add_gc_inode (i : inode) (ilist : list inode_entry)
    : M (list inode_entry) :=
  if gc_inode_listed i ilist then iput i ;;; ret ilist
  else
    failures <- read (winode_alloc_failures ops) ;;
    alloc_inode_entry failures ;;;
    ret (ilist ++ [mk_inode_entry i]).

(** [list_del]: the list without the entry, which is found by the inode it
    holds. *)
Fixpoint list_del (ie : inode_entry) (ilist : list inode_entry)
    : list inode_entry :=
  match ilist with
  | [] => []
  | e :: rest =>
      if inode_eq_dec (ie_inode e) (ie_inode ie) then rest
      else e :: list_del ie rest
  end.

(** The traversal of [list_for_each_entry_safe]: [todo] is what is left to
    visit and [ilist] is the list, from which every visited entry is
    deleted. *)
Fixpoint put_gc_inode_from (todo ilist : list inode_entry)
    : M (list inode_entry) :=
  match todo with
  | [] => ret ilist
  | ie :: next_ie =>
      iput (ie_inode ie) ;;;
      let ilist := list_del ie ilist in
      exec (kmem_cache_free ops) ;;;
      put_gc_inode_from next_ie ilist
  end.

Definition put_gc_inode (ilist : list inode_entry) : M (list inode_entry) :=
  put_gc_inode_from ilist ilist.

(** *** Validity of a block and of its parent node *)

Definition check_valid_map (segno offset : Z) : M gc_status :=
  sbi <- read w_sbi ;;
  let sentry := get_seg_entry sbi segno in
  let r := f2fs_test_bit ops offset (cur_valid_map sentry) in
  ret (if negb (r =? 0) then GC_OK else GC_NEXT).

(** [dni] and [nofs] are the values behind the two pointers at the call;
    the function returns them as they are at its return. *)
Definition check_dnode (sum : f2fs_summary) (dni : node_info)
    (blkaddr nofs : Z) : M (gc_status * node_info * Z) :=
  let nid := sum_nid sum in
  let ofs_in_node := sum_ofs_in_node sum in
  np <- call (get_node_page ops nid) ;;
  match np with
  | None => ret (GC_NEXT, dni, nofs)
  | Some node_page =>
      dni <- call (get_node_info ops nid) ;;
      if negb (sum_version sum =? ni_version dni) then
        exec (f2fs_put_page ops node_page 1) ;;; ret (GC_NEXT, dni, nofs)
      else
        nofs <- read (ofs_of_node ops node_page) ;;
        source_blkaddr <- read (datablock_addr ops node_page ofs_in_node) ;;
        exec (f2fs_put_page ops node_page 1) ;;;
        if negb (source_blkaddr =? blkaddr) then ret (GC_NEXT, dni, nofs)
        else ret (GC_OK, dni, nofs)
  end.

(** *** Evacuation of a node segment *)

(** One pass of the [for] loop over the [n] entries from [off]: [Some] of
    the status the function returns from inside the loop, or [None] when
    the loop runs to its end.  The bound [blocks_per_seg] and the entries
    of the summary are read when the pass starts: the geometry is fixed at
    mount, and the summary page, as [do_garbage_collect] notes, is not
    updated before the collection is done. *)
Fixpoint gc_node_pass (n : nat) (off : Z) (initial : bool)
    (sum : Z -> f2fs_summary) (segno : Z) : M (option gc_status) :=
  match n with
  | O => ret None
  | S n' =>
      let entry := sum off in
      let nid := sum_nid entry in
      cp <- read (should_do_checkpoint ops) ;;
      if cp then exec (block_operations ops) ;;; ret (Some GC_BLOCKED)
      else
        err <- check_valid_map segno off ;;
        if gc_status_eqb err GC_ERROR then ret (Some err)
        else if gc_status_eqb err GC_NEXT then
          gc_node_pass n' (off + 1) initial sum segno
        else if initial then
          exec (ra_node_page ops nid) ;;;
          gc_node_pass n' (off + 1) initial sum segno
        else
          np <- call (get_node_page ops nid) ;;
          match np with
          | None => gc_node_pass n' (off + 1) initial sum segno
          | Some node_page =>
              wb <- read (PageWriteback ops node_page) ;;
              (if negb wb then exec (set_page_dirty ops node_page)
               else ret tt) ;;;
              exec (f2fs_put_page ops node_page 1) ;;;
              exec (gc_stat_inc_node_blk_count ops) ;;;
              gc_node_pass n' (off + 1) initial sum segno
          end
  end.

Definition gc_node_segment (sum : Z -> f2fs_summary) (segno : Z)
    (gc_type : gc_type_t) : M gc_status :=
  sbi <- read w_sbi ;;
  r <- gc_node_pass (Z.to_nat (blocks_per_seg sbi)) 0 true sum segno ;;
  match r with
  | Some err => ret err
  | None =>
      sbi <- read w_sbi ;;
      r <- gc_node_pass (Z.to_nat (blocks_per_seg sbi)) 0 false sum segno ;;
      match r with
      | Some err => ret err
      | None =>
          (if gc_type_eqb gc_type FG_GC then exec (sync_node_pages ops)
           else ret tt) ;;;
          ret GC_DONE
      end
  end.

(** *** Evacuation of a data segment *)

Definition move_data_page (i : inode) (pg : page) (gc_type : gc_type_t)
    : M unit :=
  mapping <- read (page_mapping ops pg) ;;
  (if negb (mapping =? i_mapping ops i) then ret tt
   else
     host <- read (mapping_host ops mapping) ;;
     if inode_eq_dec i host then
       wb <- read (PageWriteback ops pg) ;;
       if wb then ret tt
       else if gc_type_eqb gc_type BG_GC then
         exec (set_page_dirty ops pg) ;;; exec (set_cold_data ops pg)
       else
         cleared <- call (clear_page_dirty_for_io ops pg) ;;
         (if cleared && S_ISDIR ops i then
            exec (dec_page_count_dirty_dents ops) ;;;
            exec (inode_dec_dirty_dents ops i)
          else ret tt) ;;;
         exec (set_cold_data ops pg) ;;;
         exec (do_write_data_page ops pg) ;;;
         exec (clear_cold_data ops pg)
     else ret tt) ;;;
  exec (f2fs_put_page ops pg 1).

(** The locals [dni] and [nofs] of the loop body are not initialised; they
    are read only after [check_dnode] returned [GC_OK] and wrote them. *)
Definition dni_unset : node_info := mk_node_info 0 0 0 0.

(** One pass of the [for] loop of [gc_data_segment] in phase [phase]: the
    status to leave with through [stop], if any, and the list of pinned
    inodes. *)
Fixpoint gc_data_pass (n : nat) (off : Z) (phase : Z)
    (sum : Z -> f2fs_summary) (ilist : list inode_entry)
    (segno : Z) (gc_type : gc_type_t) (start_addr : Z)
    : M (option gc_status * list inode_entry) :=
  match n with
  | O => ret (None, ilist)
  | S n' =>
      let entry := sum off in
      let continue := fun ilist =>
        gc_data_pass n' (off + 1) phase sum ilist segno gc_type start_addr in
      cp <- read (should_do_checkpoint ops) ;;
      if cp then exec (block_operations ops) ;;; ret (Some GC_BLOCKED, ilist)
      else
        err <- check_valid_map segno off ;;
        if gc_status_eqb err GC_ERROR then ret (Some err, ilist)
        else if gc_status_eqb err GC_NEXT then continue ilist
        else if phase =? 0 then
          exec (ra_node_page ops (sum_nid entry)) ;;; continue ilist
        else
          '(err, dni, nofs) <-
            check_dnode entry dni_unset (u32 (start_addr + off)) 0 ;;
          if gc_status_eqb err GC_ERROR then ret (Some err, ilist)
          else if gc_status_eqb err GC_NEXT then continue ilist
          else if phase =? 1 then
            exec (ra_node_page ops (ni_ino dni)) ;;; continue ilist
          else
            let start_bidx :=
              start_bidx_of_node NIDS_PER_BLOCK ADDRS_PER_BLOCK
                ADDRS_PER_INODE nofs in
            let ofs_in_node := sum_ofs_in_node entry in
            if phase =? 2 then
              r <- iget_nowait (ni_ino dni) ;;
              match r with
              | None => continue ilist
              | Some i =>
                  dp <- call (find_data_page ops i
                                (u32 (start_bidx + ofs_in_node))) ;;
                  match dp with
                  | None => iput i ;;; continue ilist
                  | Some data_page =>
                      exec (f2fs_put_page ops data_page 0) ;;;
                      ilist <- add_gc_inode i ilist ;;
                      continue ilist
                  end
              end
            else
              match find_gc_inode (ni_ino dni) ilist with
              | Some i =>
                  dp <- call (get_lock_data_page ops i
                                (u32 (start_bidx + ofs_in_node))) ;;
                  match dp with
                  | None => continue ilist
                  | Some data_page =>
                      move_data_page i data_page gc_type ;;;
                      exec (gc_stat_inc_data_blk_count ops) ;;;
                      continue ilist
                  end
              | None => continue ilist
              end
  end.

(** The passes for the phases left, [++phase < 4] leading from one to the
    next. *)
Fixpoint gc_data_phases (phases : list Z) (sum : Z -> f2fs_summary)
    (ilist : list inode_entry) (segno : Z) (gc_type : gc_type_t)
    (start_addr : Z) : M (gc_status * list inode_entry) :=
  match phases with
  | [] => ret (GC_DONE, ilist)
  | phase :: later =>
      sbi <- read w_sbi ;;
      '(r, ilist) <-
        gc_data_pass (Z.to_nat (blocks_per_seg sbi)) 0 phase sum ilist segno
          gc_type start_addr ;;
      match r with
      | Some err => ret (err, ilist)
      | None => gc_data_phases later sum ilist segno gc_type start_addr
      end
  end.

Definition gc_data_segment (sum : Z -> f2fs_summary)
    (ilist : list inode_entry) (segno : Z) (gc_type : gc_type_t)
    : M (gc_status * list inode_entry) :=
  sbi <- read w_sbi ;;
  let start_addr := START_BLOCK ops sbi segno in
  '(err, ilist) <-
    gc_data_phases [0; 1; 2; 3] sum ilist segno gc_type start_addr ;;
  (if gc_type_eqb gc_type FG_GC then exec (f2fs_submit_bio ops)
   else ret tt) ;;;
  ret (err, ilist).

Definition do_garbage_collect (segno : Z) (ilist : list inode_entry)
    (gc_type : gc_type_t) : M (gc_status * list inode_entry) :=
  sp <- call (get_sum_page ops segno) ;;
  match sp with
  | None => ret (GC_ERROR, ilist)
  | Some sum_page =>
      exec (unlock_page ops sum_page) ;;;
      sum <- read (page_address ops sum_page) ;;
      '(r, ilist) <-
        match footer_type sum with
        | SUM_TYPE_NODE =>
            r <- gc_node_segment (entries sum) segno gc_type ;;
            ret (r, ilist)
        | SUM_TYPE_DATA =>
            gc_data_segment (entries sum) ilist segno gc_type
        | SUM_TYPE_OTHER => ret (GC_DONE, ilist)
        end ;;
      exec (gc_stat_inc_seg_count ops (footer_type sum)) ;;;
      exec (gc_stat_inc_call_count ops) ;;;
      exec (f2fs_put_page ops sum_page 0) ;;;
      ret (r, ilist)
  end.

(** *** The collector: [f2fs_gc]

    The two loops of [f2fs_gc] are bounded by nothing in the code; they are
    run with fuel, and a run that is not over when the fuel is spent has no
    result. *)

Definition Mo (A : Type) : Type := world -> option (A * world * list event).

Definition lift {A} (m : M A) : Mo A := fun w => Some (m w).

Definition bindo {A B} (m : Mo A) (f : A -> Mo B) : Mo B :=
  fun w =>
    match m w with
    | None => None
    | Some (a, w1, t1) =>
        match f a w1 with
        | None => None
        | Some (b, w2, t2) => Some (b, w2, t1 ++ t2)
        end
    end.

Definition out_of_fuel {A} : Mo A := fun _ => None.

Notation "x <-- m ;; k" := (bindo m (fun x => k))
  (at level 61, m at next level, right associativity).
Notation "' pat <-- m ;; k" := (bindo m (fun x => let pat := x in k))
  (at level 61, pat pattern, m at next level, right associativity).
Notation "m ;;> k" := (bindo m (fun _ => k))
  (at level 61, right associativity).

(** The [for] loop over the segments of the victim section: whether it is
    left through [goto stop], and the locals [gc_status], [ilist] and
    [nfree]. *)
Fixpoint gc_section (n : nat) (i : Z) (segno : Z) (ilist : list inode_entry)
    (gc_type : gc_type_t) (status : gc_status) (nfree : Z)
    : M (bool * gc_status * list inode_entry * Z) :=
  match n with
  | O => ret (false, status, ilist, nfree)
  | S n' =>
      '(status, ilist) <- do_garbage_collect (u32 (segno + i)) ilist gc_type ;;
      if negb (gc_status_eqb status GC_DONE)
      then ret (true, status, ilist, nfree)
      else gc_section n' (i + 1) segno ilist gc_type status (nfree + 1)
  end.

Record gc_locals := mk_locals {
  l_segno : Z;
  l_ilist : list inode_entry;
  l_gc_type : gc_type_t;
  l_status : gc_status;
  l_nfree : Z
}.

(** The [while] loop, up to the label [stop]. *)
Fixpoint gc_while (fuel : nat) (nGC old_free_secs : Z) (l : gc_locals)
    : Mo gc_locals :=
  match fuel with
  | O => out_of_fuel
  | S fuel' =>
      active <-- lift (read (sb_active ops)) ;;
      if negb active then lift (ret l)
      else
        pressed <-- lift (read (has_not_enough_free_secs ops)) ;;
        let gc_type := if pressed then FG_GC else l_gc_type l in
        free <-- lift (read (free_sections ops)) ;;
        let cur_free_secs := free + l_nfree l in
        let l := mk_locals (l_segno l) (l_ilist l) gc_type (l_status l)
                   (l_nfree l) in
        if nGC <? cur_free_secs - old_free_secs then lift (ret l)
        else
          '(found, segno) <--
            lift (call (get_victim ops (l_segno l) gc_type NO_CHECK_TYPE)) ;;
          let l := mk_locals segno (l_ilist l) gc_type (l_status l)
                     (l_nfree l) in
          if found =? 0 then lift (ret l)
          else
            sbi <-- lift (read w_sbi) ;;
            '(stop, status, ilist, nfree) <--
              lift (gc_section (Z.to_nat (segs_per_sec sbi)) 0 segno
                      (l_ilist l) gc_type (l_status l) (l_nfree l)) ;;
            let l := mk_locals segno ilist gc_type status nfree in
            if stop then lift (ret l)
            else gc_while fuel' nGC old_free_secs l
  end.

(** The code from the label [gc_more] to the decision to jump back to it:
    the status, and the list of pinned inodes. *)
Fixpoint f2fs_gc_more (fuel : nat) (nGC : Z) (segno : Z)
    (ilist : list inode_entry) (gc_type : gc_type_t)
    : Mo (gc_status * list inode_entry) :=
  match fuel with
  | O => out_of_fuel
  | S fuel' =>
      pressed <-- lift (read (has_not_enough_free_secs ops)) ;;
      old_free_secs <--
        lift (if pressed then read (reserved_sections ops)
              else read (free_sections ops)) ;;
      l <-- gc_while fuel nGC old_free_secs
              (mk_locals segno ilist gc_type GC_NONE 0) ;;
      pressed <-- lift (read (has_not_enough_free_secs ops)) ;;
      let blocked := gc_status_eqb (l_status l) GC_BLOCKED in
      if pressed || blocked then
        lift (exec (write_checkpoint ops blocked false)) ;;>
        (if negb (l_nfree l =? 0)
         then f2fs_gc_more fuel' nGC (l_segno l) (l_ilist l) (l_gc_type l)
         else lift (ret (l_status l, l_ilist l)))
      else lift (ret (l_status l, l_ilist l))
  end.

(** What [f2fs_gc] leaves with: the status it returns, the local list
    [ilist] at the return, and whether the [BUG_ON] on it fired. *)
Record gc_exit := mk_gc_exit {
  exit_status : gc_status;
  exit_ilist : list inode_entry;
  exit_bug : bool
}.

Definition list_empty (ilist : list inode_entry) : bool :=
  match ilist with [] => true | _ => false end.

Definition set_sbi (f : f2fs_sb_info -> f2fs_sb_info) (w : world) : world :=
  mk_world (f (w_sbi w)) (w_kernel w).

(** The local [segno] is not initialised: the victim selector is given the
    pointer to it and writes it before it is read. *)
Definition f2fs_gc (fuel : nat) (nGC : Z) : Mo gc_exit :=
  '(status, ilist) <-- f2fs_gc_more fuel nGC 0 [] BG_GC ;;
  lift (exec (set_sbi (set_last_gc_status status))) ;;>
  ilist <-- lift (put_gc_inode ilist) ;;
  lift (ret (mk_gc_exit status ilist (negb (list_empty ilist)))).

(** *** The background worker: [gc_thread_func] *)

(** What an iteration of the worker's loop leaves with: whether it left
    the loop by [break], the sleep time, and, when it called [f2fs_gc], the
    sleep time at the call and the status the call returned. *)
Record tick := mk_tick {
  tick_break : bool;
  tick_wait_ms : Z;
  tick_gc : option (Z * gc_status)
}.

Definition gc_thread_body (fuel : nat) (wait_ms : Z) : Mo tick :=
  frozen <-- lift (call (try_to_freeze ops)) ;;
  if frozen then lift (ret (mk_tick false wait_ms None))
  else
    lift (exec (wait_event_interruptible_timeout ops wait_ms)) ;;>
    stop <-- lift (read (kthread_should_stop ops)) ;;
    if stop then lift (ret (mk_tick true wait_ms None))
    else
      lift (exec (f2fs_balance_fs ops)) ;;>
      bg <-- lift (read (test_opt_BG_GC ops)) ;;
      if negb bg then lift (ret (mk_tick false wait_ms None))
      else
        locked <-- lift (call (mutex_trylock_gc_mutex ops)) ;;
        if negb locked then lift (ret (mk_tick false wait_ms None))
        else
          idle <-- lift (read (is_idle ops)) ;;
          if negb idle
          then lift (ret (mk_tick false (increase_sleep_time wait_ms) None))
          else
            enough <-- lift (read (has_enough_invalid_blocks ops)) ;;
            let wait_ms :=
              if enough then decrease_sleep_time wait_ms
              else increase_sleep_time wait_ms in
            lift (exec (set_sbi (fun sbi => set_bg_gc (bg_gc sbi + 1) sbi))) ;;>
            e <-- f2fs_gc fuel 1 ;;
            let wait_ms' :=
              if gc_status_eqb (exit_status e) GC_NONE
              then GC_THREAD_NOGC_SLEEP_TIME
              else if wait_ms =? GC_THREAD_NOGC_SLEEP_TIME
                   then GC_THREAD_MAX_SLEEP_TIME
                   else wait_ms in
            lift (ret (mk_tick false wait_ms'
                         (Some (wait_ms, exit_status e)))).

(** The [do ... while (!kthread_should_stop())] loop, for at most [ticks]
    iterations; a [continue] in the body leads to the test of the loop. *)
Fixpoint gc_thread_loop (ticks fuel : nat) (wait_ms : Z) : Mo Z :=
  match ticks with
  | O => out_of_fuel
  | S ticks' =>
      t <-- gc_thread_body fuel wait_ms ;;
      if tick_break t then lift (ret 0)
      else
        stop <-- lift (read (kthread_should_stop ops)) ;;
        if stop then lift (ret 0)
        else gc_thread_loop ticks' fuel (tick_wait_ms t)
  end.

Definition gc_thread_func (ticks fuel : nat) : Mo Z :=
  gc_thread_loop ticks fuel GC_THREAD_MIN_SLEEP_TIME.

End Collector.

(** The types of the kernel state and of its objects are inferred from the
    interface. *)
Arguments ret {K inode A}.
Arguments bind {K inode A B}.
Arguments read {K inode A}.
Arguments exec {K inode}.
Arguments call {K inode A}.
Arguments iput {K inode page}.
Arguments iget_nowait {K inode page}.
Arguments find_gc_inode {inode}.
Arguments gc_inode_listed {inode}.
Arguments alloc_inode_entry {K inode page}.
Arguments add_gc_inode {K inode page}.
Arguments list_del {inode}.
Arguments put_gc_inode_from {K inode page}.
Arguments put_gc_inode {K inode page}.
Arguments check_valid_map {K inode page}.
Arguments check_dnode {K inode page}.
Arguments gc_node_pass {K inode page}.
Arguments gc_node_segment {K inode page}.
Arguments move_data_page {K inode page}.
Arguments gc_data_pass {K inode page}.
Arguments gc_data_phases {K inode page}.
Arguments gc_data_segment {K inode page}.
Arguments do_garbage_collect {K inode page}.
Arguments lift {K inode A}.
Arguments bindo {K inode A B}.
Arguments out_of_fuel {K inode A}.
Arguments gc_section {K inode page}.
Arguments gc_while {K inode page}.
Arguments f2fs_gc_more {K inode page}.
Arguments list_empty {inode}.
Arguments set_sbi {K}.
Arguments f2fs_gc {K inode page}.
Arguments gc_thread_body {K inode page}.
Arguments gc_thread_loop {K inode page}.
Arguments gc_thread_func {K inode page}.
Arguments mk_world {K}.
Arguments w_sbi {K}.
Arguments w_kernel {K}.
Arguments mk_kernel_ops {K inode page}.
Arguments try_to_freeze {K inode page}.
Arguments wait_event_interruptible_timeout {K inode page}.
Arguments kthread_should_stop {K inode page}.
Arguments f2fs_balance_fs {K inode page}.
Arguments test_opt_BG_GC {K inode page}.
Arguments mutex_trylock_gc_mutex {K inode page}.
Arguments is_idle {K inode page}.
Arguments has_enough_invalid_blocks {K inode page}.
Arguments should_do_checkpoint {K inode page}.
Arguments block_operations {K inode page}.
Arguments write_checkpoint {K inode page}.
Arguments has_not_enough_free_secs {K inode page}.
Arguments reserved_sections {K inode page}.
Arguments free_sections {K inode page}.
Arguments sb_active {K inode page}.
Arguments get_victim {K inode page}.
Arguments f2fs_test_bit {K inode page}.
Arguments START_BLOCK {K inode page}.
Arguments get_sum_page {K inode page}.
Arguments unlock_page {K inode page}.
Arguments page_address {K inode page}.
Arguments ra_node_page {K inode page}.
Arguments get_node_page {K inode page}.
Arguments get_node_info {K inode page}.
Arguments ofs_of_node {K inode page}.
Arguments datablock_addr {K inode page}.
Arguments sync_node_pages {K inode page}.
Arguments PageWriteback {K inode page}.
Arguments set_page_dirty {K inode page}.
Arguments f2fs_put_page {K inode page}.
Arguments page_mapping {K inode page}.
Arguments mapping_host {K inode page}.
Arguments set_cold_data {K inode page}.
Arguments clear_cold_data {K inode page}.
Arguments clear_page_dirty_for_io {K inode page}.
Arguments do_write_data_page {K inode page}.
Arguments find_data_page {K inode page}.
Arguments get_lock_data_page {K inode page}.
Arguments f2fs_submit_bio {K inode page}.
Arguments f2fs_iget_nowait {K inode page}.
Arguments iput_inode {K inode page}.
Arguments i_mapping {K inode page}.
Arguments S_ISDIR {K inode page}.
Arguments dec_page_count_dirty_dents {K inode page}.
Arguments inode_dec_dirty_dents {K inode page}.
Arguments winode_alloc_failures {K inode page}.
Arguments cond_resched {K inode page}.
Arguments kmem_cache_alloc {K inode page}.
Arguments kmem_cache_free {K inode page}.
Arguments gc_stat_inc_node_blk_count {K inode page}.
Arguments gc_stat_inc_data_blk_count {K inode page}.
Arguments gc_stat_inc_seg_count {K inode page}.
Arguments gc_stat_inc_call_count {K inode page}.
Arguments mk_inode_entry {inode}.
Arguments ie_inode {inode}.
Arguments mk_locals {inode}.
Arguments l_segno {inode}.
Arguments l_ilist {inode}.
Arguments l_gc_type {inode}.
Arguments l_status {inode}.
Arguments l_nfree {inode}.
Arguments mk_gc_exit {inode}.
Arguments exit_status {inode}.
Arguments exit_ilist {inode}.
Arguments exit_bug {inode}.
Arguments Acquire {inode}.
Arguments Release {inode}.

(** [default_v_ops]: the victim selector [build_gc_manager] installs in
    [DIRTY_I(sbi)->v_ops] is [get_victim_by_default], which works on the
    superblock information.  A scan that is not over within its fuel, which
    no state that passes [selector_wf] below has, reports no victim. *)
Definition default_v_ops {K : Type} (MAX_VICTIM_SEARCH : Z) (result : Z)
    (gc_type : gc_type_t) (type : type_hint) (w : world K)
    : (Z * Z) * world K :=
  match get_victim_by_default MAX_VICTIM_SEARCH (w_sbi w) result gc_type type with
  | Some (found, segno, sbi) => ((found, segno), mk_world sbi (w_kernel w))
  | None => ((0, result), w)
  end.

(** ** Definitions of the statements

    What the properties below are stated with. *)

(** The sum of the modification times of the [n] segments from [start],
    over the integers. *)
Definition section_mtime (sbi : f2fs_sb_info) (start : Z) (n : nat) : Z :=
  fold_left (fun acc i => acc + mtime (get_seg_entry sbi (start + Z.of_nat i)))
    (seq 0 n) 0.

(** The inputs of [get_cb_cost] for which none of its machine operations
    wraps: the geometry is that of a file system, the segments of the
    section are numbered on 32 bits, the times are 64-bit values whose sum
    and whose hundredfold do not overflow, and the section holds no more
    valid blocks than it has blocks. *)
Record cb_in_range (sbi : f2fs_sb_info) (segno : Z) : Prop := {
  cbr_s : 0 <= log_segs_per_sec sbi;
  cbr_b : 0 <= log_blocks_per_seg sbi <= 25;
  cbr_segno : 0 <= segno;
  cbr_segs : 0 < segs_per_sec sbi;
  cbr_sec : Z.shiftl (GET_SECNO sbi segno) (log_segs_per_sec sbi)
            + segs_per_sec sbi <= 2 ^ 32;
  cbr_mtime : forall i, 0 <= mtime (get_seg_entry sbi i);
  cbr_sum : 100 * section_mtime sbi
                    (Z.shiftl (GET_SECNO sbi segno) (log_segs_per_sec sbi))
                    (Z.to_nat (segs_per_sec sbi)) < 2 ^ 64;
  cbr_min : 0 <= min_mtime sbi < 2 ^ 64;
  cbr_max : 0 <= max_mtime sbi < 2 ^ 64;
  cbr_vblocks :
    0 <= Z.shiftr (get_valid_blocks sbi segno (log_segs_per_sec sbi))
           (log_segs_per_sec sbi)
      <= 2 ^ log_blocks_per_seg sbi
}.

(** The cost the specification gives: the age is [100] when the two bounds
    of the modification times are equal. *)
Definition cb_cost_spec (age_at_equal_bounds : Z) (sbi : f2fs_sb_info)
    (segno : Z) : Z :=
  let s := log_segs_per_sec sbi in
  let start := Z.shiftl (GET_SECNO sbi segno) s in
  let mtime_avg :=
    Z.shiftr (section_mtime sbi start (Z.to_nat (segs_per_sec sbi))) s in
  let vblocks := Z.shiftr (get_valid_blocks sbi segno s) s in
  let u := Z.shiftr (vblocks * 100) (log_blocks_per_seg sbi) in
  let lo := Z.min (min_mtime sbi) mtime_avg in
  let hi := Z.max (max_mtime sbi) mtime_avg in
  let age :=
    if hi =? lo then age_at_equal_bounds
    else 100 - 100 * (mtime_avg - lo) / (hi - lo) in
  UINT_MAX - 100 * (100 - u) * age / (100 + u).

(** What the victim selector leaves as it is: the geometry, the segment
    entries and the maps of dirty and of claimed segments are not written
    by the scan, which writes [last_victim] and widens the time bounds. *)
Definition same_layout (a b : f2fs_sb_info) : Prop :=
  log_blocks_per_seg a = log_blocks_per_seg b /\
  blocks_per_seg a = blocks_per_seg b /\
  log_segs_per_sec a = log_segs_per_sec b /\
  segs_per_sec a = segs_per_sec b /\
  main_segments a = main_segments b /\
  sentries a = sentries b /\
  sit_valid_blocks a = sit_valid_blocks b /\
  dirty_segmap a = dirty_segmap b /\
  victim_segmap a = victim_segmap b /\
  curseg_segno a = curseg_segno b.

(** The policy fields [select_policy] fixes for the whole scan. *)
Definition same_policy (p q : victim_sel_policy) : Prop :=
  p_alloc_mode p = p_alloc_mode q /\
  p_gc_mode p = p_gc_mode q /\
  p_dirty_segmap p = p_dirty_segmap q /\
  p_log_ofs_unit p = p_log_ofs_unit q.

(** The states of the scan on which its 32-bit offsets do not wrap: the
    segment numbers and the end of the last scan unit fit in an
    [unsigned int]. *)
Record scan_wf (st : scan_state) : Prop := {
  swf_unit : 0 <= p_log_ofs_unit (sc_p st);
  swf_total : 0 <= TOTAL_SEGS (sc_sbi st);
  swf_fit : TOTAL_SEGS (sc_sbi st) + 2 ^ p_log_ofs_unit (sc_p st) <= 2 ^ 32;
  swf_offset : 0 <= p_offset (sc_p st)
}.


(** What an iteration of the scan does, by the way it ends; [segno] is the
    bit [find_next_bit] returns in it. *)
Definition scan_step_spec (MAX_VICTIM_SEARCH : Z) (st : scan_state)
    (c : scan_ctl) (st' : scan_state) : Prop :=
  let sbi := sc_sbi st in
  let p := sc_p st in
  let total := TOTAL_SEGS sbi in
  let segno := find_next_bit (dirty_segmap sbi (p_dirty_segmap p)) total
                 (p_offset p) in
  let lv s := last_victim (sc_sbi s) (p_gc_mode p) in
  match c with
  | ScanRewind =>
      total <= segno /\ lv st <> 0 /\ lv st' = 0 /\ p_offset (sc_p st') = 0 /\
      sc_nsearched st' = sc_nsearched st
  | ScanExhausted =>
      total <= segno /\ lv st = 0 /\ st' = st
  | ScanNext =>
      segno < total /\ lv st' = lv st /\
      p_offset (sc_p st')
      = Z.shiftl (Z.shiftr segno (p_log_ofs_unit p)) (p_log_ofs_unit p)
        + 2 ^ p_log_ofs_unit p /\
      p_offset p <= segno < p_offset (sc_p st') /\
      (sc_nsearched st' = sc_nsearched st \/
       (sc_nsearched st < MAX_VICTIM_SEARCH /\
        sc_nsearched st' = sc_nsearched st + 1))
  | ScanLimit =>
      segno < total /\ MAX_VICTIM_SEARCH <= sc_nsearched st /\
      sc_nsearched st' = sc_nsearched st + 1 /\ lv st' = segno
  end.

(** The number of iterations the scan has left at most. *)
Definition scan_measure (st : scan_state) : Z :=
  let total := TOTAL_SEGS (sc_sbi st) in
  (if last_victim (sc_sbi st) (p_gc_mode (sc_p st)) =? 0 then 0 else total + 1)
  + (total - Z.min total (p_offset (sc_p st))) + 1.

(** A segment the scan may keep as its minimum: a segment of the main area
    that neither collector has claimed (for the foreground collector: that
    the foreground collector has not claimed) and whose section holds no
    current segment. *)
Definition victim_candidate (gc_type : gc_type_t) (sbi : f2fs_sb_info)
    (segno : Z) : Prop :=
  0 <= segno < TOTAL_SEGS sbi /\
  test_bit segno (victim_segmap sbi FG_GC) = false /\
  (gc_type = BG_GC -> test_bit segno (victim_segmap sbi BG_GC) = false) /\
  IS_CURSEC sbi (GET_SECNO sbi segno) = false.

(** The superblock informations on which the selector's 32-bit segment
    numbers do not wrap. *)
Record selector_wf (sbi : f2fs_sb_info) : Prop := {
  sel_unit : 0 <= log_segs_per_sec sbi;
  sel_total : 0 <= TOTAL_SEGS sbi;
  sel_fit : TOTAL_SEGS sbi + 2 ^ log_segs_per_sec sbi <= 2 ^ 32;
  sel_last : forall m, 0 <= last_victim sbi m
}.

(** The policy the scan starts with. *)
Definition initial_policy (sbi : f2fs_sb_info) (gc_type : gc_type_t)
    (type : type_hint) : victim_sel_policy :=
  let p := set_min_segno NULL_SEGNO (select_policy sbi gc_type type) in
  set_min_cost (get_max_cost sbi p) p.

(** The inodes a list of entries pins. *)
Definition pinned {inode : Type} (ilist : list (inode_entry inode))
    : list inode :=
  map ie_inode ilist.

(** [post m Q]: the value [m] returns satisfies [Q], from every state;
    [posto m Q]: so does the value of every run of [m] that returns. *)
Definition post {K inode A : Type} (m : M K inode A) (Q : A -> Prop) : Prop :=
  forall w, Q (fst (fst (m w))).

Definition posto {K inode A : Type} (m : Mo K inode A) (Q : A -> Prop)
    : Prop :=
  forall w a w' t, m w = Some (a, w', t) -> Q a.

Definition event_eq_dec {inode : Type}
    (inode_eq_dec : forall a b : inode, {a = b} + {a <> b})
    (a b : event inode) : {a = b} + {a <> b}.
Proof. decide equality. Defined.

(** ** Example states

    A file system of eight segments of 512 blocks in sections of two
    segments.  Segments 2 and 4 are dirty, the last section holds the
    current segments, the segments below 4 are older than the others, each
    section has 200 valid blocks and each segment its first two blocks
    valid. *)
Definition sample_sbi : f2fs_sb_info :=
  mk_sbi 9 512 1 2 8 (fun _ => 0) 0 GC_NONE
    (fun segno => mk_seg_entry 100 3 (if segno <? 4 then 1020 else 1060))
    (fun _ _ => 200) 1000 1100
    (fun t => match t with DIRTY => 20 | DIRTY_OF _ => 0 end)
    (fun _ => 0)
    (fun t => match t with CURSEG_HOT_DATA => 6 | _ => 7 end).

(** The same file system with every segment modified at the same time,
    which is both bounds of the modification times, and no valid block. *)
Definition flat_sbi : f2fs_sb_info :=
  mk_sbi 9 512 1 2 8 (fun _ => 0) 0 GC_NONE
    (fun _ => mk_seg_entry 0 0 1000) (fun _ _ => 0) 1000 1000
    (fun t => match t with DIRTY => 20 | DIRTY_OF _ => 0 end)
    (fun _ => 0)
    (fun t => match t with CURSEG_HOT_DATA => 6 | _ => 7 end).

(** The sample file system with segment 7, of the current section, still
    claimed in [victim_segmap[BG]]: what is left of a background claim on
    segments 6 and 7 once a foreground selection has taken it, which clears
    the bit of segment 6 only, when the section is written again. *)
Definition claimed_cursec_sbi : f2fs_sb_info :=
  set_victim_segmap BG_GC 128 sample_sbi.

(** The sample file system after a background selection, and after the
    foreground selection that follows it. *)
Definition sample_sbi_bg : f2fs_sb_info :=
  match get_victim_by_default 20 sample_sbi 0 BG_GC NO_CHECK_TYPE with
  | Some (_, _, sbi) => sbi
  | None => sample_sbi
  end.

Definition sample_sbi_fg : f2fs_sb_info :=
  match get_victim_by_default 20 sample_sbi_bg 0 FG_GC NO_CHECK_TYPE with
  | Some (_, _, sbi) => sbi
  | None => sample_sbi_bg
  end.


(** The rest of the kernel, reduced to what lets a collection run: it is
    idle and active with space left, pages and inodes are numbers, every
    page is found, the summary of a segment says that its block [off] is
    block [off] of the node of the same number as the block, and a node
    belongs to inode 7 or 8. *)
Definition toy_ops : kernel_ops unit Z Z := {|
  try_to_freeze := fun w => (false, w);
  wait_event_interruptible_timeout := fun _ w => w;
  kthread_should_stop := fun _ => false;
  f2fs_balance_fs := fun w => w;
  test_opt_BG_GC := fun _ => true;
  mutex_trylock_gc_mutex := fun w => (true, w);
  is_idle := fun _ => true;
  has_enough_invalid_blocks := fun _ => true;
  should_do_checkpoint := fun _ => false;
  block_operations := fun w => w;
  write_checkpoint := fun _ _ w => w;
  has_not_enough_free_secs := fun _ => false;
  reserved_sections := fun _ => 1;
  free_sections := fun _ => 2;
  sb_active := fun _ => true;
  get_victim := default_v_ops 20;
  f2fs_test_bit := fun off map => if Z.testbit map off then 1 else 0;
  START_BLOCK := fun sbi segno => segno * blocks_per_seg sbi;
  get_sum_page := fun segno w => (Some segno, w);
  unlock_page := fun _ w => w;
  page_address := fun pg _ =>
    mk_sum_block (fun off => mk_summary (pg * 512 + off) 0 0) SUM_TYPE_DATA;
  ra_node_page := fun _ w => w;
  get_node_page := fun nid w => (Some nid, w);
  get_node_info := fun nid w => (mk_node_info nid (7 + nid mod 2) nid 0, w);
  ofs_of_node := fun _ _ => 1;
  datablock_addr := fun pg _ _ => pg;
  sync_node_pages := fun w => w;
  PageWriteback := fun _ _ => false;
  set_page_dirty := fun _ w => w;
  f2fs_put_page := fun _ _ w => w;
  page_mapping := fun _ _ => 0;
  mapping_host := fun _ _ => 7;
  set_cold_data := fun _ w => w;
  clear_cold_data := fun _ w => w;
  clear_page_dirty_for_io := fun _ w => (true, w);
  do_write_data_page := fun _ w => w;
  find_data_page := fun _ idx w => (Some idx, w);
  get_lock_data_page := fun _ idx w => (Some idx, w);
  f2fs_submit_bio := fun w => w;
  f2fs_iget_nowait := fun ino w => (Some ino, w);
  iput_inode := fun _ w => w;
  i_mapping := fun _ => 0;
  S_ISDIR := fun _ => false;
  dec_page_count_dirty_dents := fun w => w;
  inode_dec_dirty_dents := fun _ w => w;
  winode_alloc_failures := fun _ => 1%nat;
  cond_resched := fun w => w;
  kmem_cache_alloc := fun w => w;
  kmem_cache_free := fun w => w;
  gc_stat_inc_node_blk_count := fun w => w;
  gc_stat_inc_data_blk_count := fun w => w;
  gc_stat_inc_seg_count := fun _ w => w;
  gc_stat_inc_call_count := fun w => w
|}.

Definition toy_world : world unit := mk_world sample_sbi tt.

(** A collection of the toy world for one section, with the layout
    constants of the F2FS disk format. *)
Definition toy_gc (fuel : nat) (nGC : Z)
    : Mo unit Z (gc_exit Z) :=
  f2fs_gc Z.eq_dec (fun i => i) 1018 1018 923 toy_ops fuel nGC.

(** The adjustments of the sleep time, for sleep times of 10, 30 and 10
    seconds: one MIN step up to MAX, one MIN step down to MIN. *)
Definition toy_increase (wait : Z) : Z :=
  if 30000 <? wait + 10000 then 30000 else wait + 10000.

Definition toy_decrease (wait : Z) : Z :=
  if wait - 10000 <=? 10000 then 10000 else wait - 10000.

Definition toy_tick (wait_ms : Z) : Mo unit Z tick :=
  gc_thread_body Z.eq_dec (fun i => i) 1018 1018 923 30000 10000
    toy_increase toy_decrease toy_ops 10 wait_ms.


(** ** References on inodes

    [held t j]: the references taken on inode [j] less the references
    dropped on it, along the log [t]; [pin_count l j]: the entries of the
    list [l] that pin [j]. *)
Fixpoint held {inode : Type}
    (inode_eq_dec : forall a b : inode, {a = b} + {a <> b})
    (t : list (event inode)) (j : inode) : Z :=
  match t with
  | [] => 0
  | Acquire i :: t' =>
      (if inode_eq_dec i j then 1 else 0) + held inode_eq_dec t' j
  | Release i :: t' =>
      held inode_eq_dec t' j - (if inode_eq_dec i j then 1 else 0)
  end.

Definition pin_count {inode : Type}
    (inode_eq_dec : forall a b : inode, {a = b} + {a <> b})
    (l : list (inode_entry inode)) (j : inode) : Z :=
  Z.of_nat (count_occ inode_eq_dec (pinned l) j).

(** [postT m Q]: the value [m] returns and the log of its run satisfy [Q];
    [postoT m Q]: so do they for every run of [m] that returns;
    [quiet m]: [m] takes and drops no reference. *)
Definition postT {K inode A : Type} (m : M K inode A)
    (Q : A -> list (event inode) -> Prop) : Prop :=
  forall w, Q (fst (fst (m w))) (snd (m w)).

Definition postoT {K inode A : Type} (m : Mo K inode A)
    (Q : A -> list (event inode) -> Prop) : Prop :=
  forall w a w' t, m w = Some (a, w', t) -> Q a t.

Definition quiet {K inode A : Type} (m : M K inode A) : Prop :=
  postT m (fun _ t => t = []).

(** The references a run holds more at its end are those of the entries
    its list has more. *)
Definition balanced {inode : Type}
    (inode_eq_dec : forall a b : inode, {a = b} + {a <> b})
    (before after : list (inode_entry inode)) (t : list (event inode))
    : Prop :=
  forall j,
    held inode_eq_dec t j + pin_count inode_eq_dec before j
    = pin_count inode_eq_dec after j.


(** ** Definitions of further statements *)

(** The calls of [get_victim_by_default] that reach its scan: all but those
    of the foreground collector, in LFS mode, for which [check_bg_victims]
    finds a segment the background collector has claimed. *)
Definition reaches_scan (sbi : f2fs_sb_info) (gc_type : gc_type_t)
    (type : type_hint) : Prop :=
  p_alloc_mode (select_policy sbi gc_type type) = LFS -> gc_type = FG_GC ->
  fst (check_bg_victims sbi) = NULL_SEGNO.

(** The segments the scan compares when it starts at segment 0: in each
    scan unit of [2 ^ log_ofs_unit] segments, the first segment that is
    dirty in the map the policy reads. *)
Definition scan_head (sbi : f2fs_sb_info) (p : victim_sel_policy)
    (segno : Z) : Prop :=
  0 <= segno < TOTAL_SEGS sbi /\
  test_bit segno (dirty_segmap sbi (p_dirty_segmap p)) = true /\
  forall k,
    Z.shiftl (Z.shiftr segno (p_log_ofs_unit p)) (p_log_ofs_unit p) <= k < segno ->
    test_bit k (dirty_segmap sbi (p_dirty_segmap p)) = false.

(** Two states that differ in [last_victim[m]] at most. *)
Definition same_but_last_victim (m : gc_mode_t) (a b : f2fs_sb_info) : Prop :=
  same_layout a b /\
  bg_gc a = bg_gc b /\ last_gc_status a = last_gc_status b /\
  min_mtime a = min_mtime b /\ max_mtime a = max_mtime b /\
  forall m', m' <> m -> last_victim a m' = last_victim b m'.

(** What a greedy scan that started from the policy [p0] in the state [sbi]
    has as its minimum: no segment and the maximal cost, or a dirty
    candidate and its cost, which is below the maximal cost. *)
Definition greedy_minimum (sbi : f2fs_sb_info) (gc_type : gc_type_t)
    (p0 : victim_sel_policy) (s : scan_state) : Prop :=
  same_policy p0 (sc_p s) /\ same_layout sbi (sc_sbi s) /\
  ((p_min_segno (sc_p s) = NULL_SEGNO /\
    p_min_cost (sc_p s) = get_max_cost sbi p0)
   \/
   (victim_candidate gc_type sbi (p_min_segno (sc_p s)) /\
    test_bit (p_min_segno (sc_p s)) (dirty_segmap sbi (p_dirty_segmap p0))
    = true /\
    p_min_cost (sc_p s) = fst (get_gc_cost sbi (p_min_segno (sc_p s)) p0) /\
    p_min_cost (sc_p s) < get_max_cost sbi p0)).

(** The minimum of the scan is no more than the cost of any candidate the
    scan compares below [bound], and less than the cost of those that come
    before the segment it keeps. *)
Definition compared_below (sbi : f2fs_sb_info) (gc_type : gc_type_t)
    (p0 : victim_sel_policy) (bound : Z) (s : scan_state) : Prop :=
  forall h,
    scan_head sbi p0 h -> victim_candidate gc_type sbi h -> h < bound ->
    p_min_cost (sc_p s) <= fst (get_gc_cost sbi h p0) /\
    (p_min_segno (sc_p s) <> NULL_SEGNO -> h < p_min_segno (sc_p s) ->
     p_min_cost (sc_p s) < fst (get_gc_cost sbi h p0)).

(** The invariant of a greedy scan that started at segment 0 with
    [last_victim] at 0. *)
Definition greedy_exhaustive (sbi : f2fs_sb_info) (gc_type : gc_type_t)
    (p0 : victim_sel_policy) (s : scan_state) : Prop :=
  greedy_minimum sbi gc_type p0 s /\
  last_victim (sc_sbi s) GC_GREEDY = 0 /\
  (sc_nsearched s = 0 \/ 1 <= p_offset (sc_p s)) /\
  (p_min_segno (sc_p s) = NULL_SEGNO \/
   p_min_segno (sc_p s) < p_offset (sc_p s)) /\
  compared_below sbi gc_type p0 (p_offset (sc_p s)) s.


(** The statuses [f2fs_gc] hands to its caller; [GC_OK] and [GC_NEXT] are
    the answers of the validity checks inside the evacuators. *)
Definition returned_status (st : gc_status) : Prop :=
  st = GC_NONE \/ st = GC_ERROR \/ st = GC_BLOCKED \/ st = GC_DONE.

(** ** The calls a kernel sees the collector make

    The model takes the kernel as an interface; to state what the collector
    calls, how often and in which order, the interface is wrapped so that
    its operations record these calls in a log kept beside the state of the
    kernel: the pages the four page getters hand out, the pages put, the
    calls that block and that write a checkpoint, and the calls that write
    on behalf of the caller.  The wrapped operations behave as the
    operations they wrap, which do not see the log. *)

Inductive kcall (page : Type) :=
| CallGetPage (pg : page)
| CallPutPage (pg : page) (unlock : Z)
| CallBlockOperations
| CallWriteCheckpoint (blocked : bool)
| CallSyncNodePages
| CallSubmitBio
| CallWriteDataPage (pg : page).

Arguments CallGetPage {page}.
Arguments CallPutPage {page}.
Arguments CallBlockOperations {page}.
Arguments CallWriteCheckpoint {page}.
Arguments CallSyncNodePages {page}.
Arguments CallSubmitBio {page}.
Arguments CallWriteDataPage {page}.

Section CallLog.

Variables (K inode page : Type).

Definition klog (w : world (K * list (kcall page))) : list (kcall page) :=
  snd (w_kernel w).

Definition unlogged (w : world (K * list (kcall page))) : world K :=
  mk_world (w_sbi w) (fst (w_kernel w)).

Definition relog (l : list (kcall page)) (w : world K)
    : world (K * list (kcall page)) :=
  mk_world (w_sbi w) (w_kernel w, l).

Definition log_read {A : Type} (f : world K -> A)
    : world (K * list (kcall page)) -> A :=
  fun w => f (unlogged w).

Definition log_exec (ev : list (kcall page)) (f : world K -> world K)
    : world (K * list (kcall page)) -> world (K * list (kcall page)) :=
  fun w => relog (klog w ++ ev) (f (unlogged w)).

Definition log_call {A : Type} (ev : A -> list (kcall page))
    (f : world K -> A * world K)
    : world (K * list (kcall page)) -> A * world (K * list (kcall page)) :=
  fun w =>
    let r := f (unlogged w) in
    (fst r, relog (klog w ++ ev (fst r)) (snd r)).

Definition got_page (r : option page) : list (kcall page) :=
  match r with Some pg => [CallGetPage pg] | None => [] end.

Definition logged (ops : kernel_ops K inode page)
    : kernel_ops (K * list (kcall page)) inode page := {|
  try_to_freeze := log_call (fun _ => []) (try_to_freeze ops);
  wait_event_interruptible_timeout := fun ms =>
    log_exec [] (wait_event_interruptible_timeout ops ms);
  kthread_should_stop := log_read (kthread_should_stop ops);
  f2fs_balance_fs := log_exec [] (f2fs_balance_fs ops);
  test_opt_BG_GC := log_read (test_opt_BG_GC ops);
  mutex_trylock_gc_mutex := log_call (fun _ => []) (mutex_trylock_gc_mutex ops);
  is_idle := log_read (is_idle ops);
  has_enough_invalid_blocks := log_read (has_enough_invalid_blocks ops);
  should_do_checkpoint := log_read (should_do_checkpoint ops);
  block_operations := log_exec [CallBlockOperations] (block_operations ops);
  write_checkpoint := fun blocked is_umount =>
    log_exec [CallWriteCheckpoint blocked]
      (write_checkpoint ops blocked is_umount);
  has_not_enough_free_secs := log_read (has_not_enough_free_secs ops);
  reserved_sections := log_read (reserved_sections ops);
  free_sections := log_read (free_sections ops);
  sb_active := log_read (sb_active ops);
  get_victim := fun result gc_type type =>
    log_call (fun _ => []) (get_victim ops result gc_type type);
  f2fs_test_bit := f2fs_test_bit ops;
  START_BLOCK := START_BLOCK ops;
  get_sum_page := fun segno => log_call got_page (get_sum_page ops segno);
  unlock_page := fun pg => log_exec [] (unlock_page ops pg);
  page_address := fun pg => log_read (page_address ops pg);
  ra_node_page := fun nid => log_exec [] (ra_node_page ops nid);
  get_node_page := fun nid => log_call got_page (get_node_page ops nid);
  get_node_info := fun nid => log_call (fun _ => []) (get_node_info ops nid);
  ofs_of_node := fun pg => log_read (ofs_of_node ops pg);
  datablock_addr := fun pg ofs => log_read (datablock_addr ops pg ofs);
  sync_node_pages := log_exec [CallSyncNodePages] (sync_node_pages ops);
  PageWriteback := fun pg => log_read (PageWriteback ops pg);
  set_page_dirty := fun pg => log_exec [] (set_page_dirty ops pg);
  f2fs_put_page := fun pg unlock =>
    log_exec [CallPutPage pg unlock] (f2fs_put_page ops pg unlock);
  page_mapping := fun pg => log_read (page_mapping ops pg);
  mapping_host := fun mapping => log_read (mapping_host ops mapping);
  set_cold_data := fun pg => log_exec [] (set_cold_data ops pg);
  clear_cold_data := fun pg => log_exec [] (clear_cold_data ops pg);
  clear_page_dirty_for_io := fun pg =>
    log_call (fun _ => []) (clear_page_dirty_for_io ops pg);
  do_write_data_page := fun pg =>
    log_exec [CallWriteDataPage pg] (do_write_data_page ops pg);
  find_data_page := fun i index =>
    log_call got_page (find_data_page ops i index);
  get_lock_data_page := fun i index =>
    log_call got_page (get_lock_data_page ops i index);
  f2fs_submit_bio := log_exec [CallSubmitBio] (f2fs_submit_bio ops);
  f2fs_iget_nowait := fun ino =>
    log_call (fun _ => []) (f2fs_iget_nowait ops ino);
  iput_inode := fun i => log_exec [] (iput_inode ops i);
  i_mapping := i_mapping ops;
  S_ISDIR := S_ISDIR ops;
  dec_page_count_dirty_dents := log_exec [] (dec_page_count_dirty_dents ops);
  inode_dec_dirty_dents := fun i => log_exec [] (inode_dec_dirty_dents ops i);
  winode_alloc_failures := log_read (winode_alloc_failures ops);
  cond_resched := log_exec [] (cond_resched ops);
  kmem_cache_alloc := log_exec [] (kmem_cache_alloc ops);
  kmem_cache_free := log_exec [] (kmem_cache_free ops);
  gc_stat_inc_node_blk_count := log_exec [] (gc_stat_inc_node_blk_count ops);
  gc_stat_inc_data_blk_count := log_exec [] (gc_stat_inc_data_blk_count ops);
  gc_stat_inc_seg_count := fun t => log_exec [] (gc_stat_inc_seg_count ops t);
  gc_stat_inc_call_count := log_exec [] (gc_stat_inc_call_count ops)
|}.

End CallLog.

Arguments klog {K page}.
Arguments unlogged {K page}.
Arguments relog {K page}.
Arguments log_read {K page A}.
Arguments log_exec {K page}.
Arguments log_call {K page A}.
Arguments got_page {page}.
Arguments logged {K inode page}.

(** The references on a page along a log: those handed out less those put;
    and the lowest value this count takes along the log. *)
Definition page_delta {page : Type}
    (page_eq_dec : forall a b : page, {a = b} + {a <> b})
    (c : kcall page) (pg : page) : Z :=
  match c with
  | CallGetPage p => if page_eq_dec p pg then 1 else 0
  | CallPutPage p _ => if page_eq_dec p pg then -1 else 0
  | _ => 0
  end.

Fixpoint page_refs {page : Type}
    (page_eq_dec : forall a b : page, {a = b} + {a <> b})
    (d : list (kcall page)) (pg : page) : Z :=
  match d with
  | [] => 0
  | c :: d' => page_delta page_eq_dec c pg + page_refs page_eq_dec d' pg
  end.

Fixpoint page_low {page : Type}
    (page_eq_dec : forall a b : page, {a = b} + {a <> b})
    (d : list (kcall page)) (pg : page) : Z :=
  match d with
  | [] => 0
  | c :: d' =>
      Z.min 0 (page_delta page_eq_dec c pg + page_low page_eq_dec d' pg)
  end.

(** A log along which no page is put that is not held, and at whose end no
    page is held. *)
Definition pages_ok {page : Type}
    (page_eq_dec : forall a b : page, {a = b} + {a <> b})
    (d : list (kcall page)) : Prop :=
  forall pg, page_refs page_eq_dec d pg = 0 /\ page_low page_eq_dec d pg = 0.

(** The protocol of the checkpoint along a log, from the state [blocked]:
    [block_operations] is called only when the operations are not blocked;
    [write_checkpoint] is called with [blocked] set exactly when they are,
    and unblocks them.  The result is the state at the end of the log, or
    [None] when a call breaks the protocol. *)
Fixpoint cp_run {page : Type} (blocked : bool) (d : list (kcall page))
    : option bool :=
  match d with
  | [] => Some blocked
  | CallBlockOperations :: d' => if blocked then None else cp_run true d'
  | CallWriteCheckpoint b :: d' =>
      if Bool.eqb b blocked then cp_run false d' else None
  | _ :: d' => cp_run blocked d'
  end.

(** A log without any call that writes on behalf of the caller. *)
Definition writes_nothing {page : Type} (d : list (kcall page)) : Prop :=
  forall c, In c d ->
    match c with
    | CallSyncNodePages | CallSubmitBio | CallWriteDataPage _ => False
    | _ => True
    end.

(** [logs m Q]: from every state, a run of [m] appends to the log a
    sequence of calls that, with the value returned, satisfies [Q];
    [logso m Q]: so does every run of [m] that returns. *)
Definition logs {K inode page A : Type}
    (m : M (K * list (kcall page)) inode A)
    (Q : A -> list (kcall page) -> Prop) : Prop :=
  forall w, exists d,
    klog (snd (fst (m w))) = klog w ++ d /\ Q (fst (fst (m w))) d.

Definition logso {K inode page A : Type}
    (m : Mo (K * list (kcall page)) inode A)
    (Q : A -> list (kcall page) -> Prop) : Prop :=
  forall w a w' t, m w = Some (a, w', t) ->
    exists d, klog w' = klog w ++ d /\ Q a d.

(** What the evacuation of a segment leaves in the log: no page held, the
    operations blocked exactly when the status is [GC_BLOCKED], and, for the
    background collector, no write on behalf of the caller. *)
Definition evacuation_log {page : Type}
    (page_eq_dec : forall a b : page, {a = b} + {a <> b})
    (gc_type : gc_type_t) (blocked : bool) (d : list (kcall page)) : Prop :=
  pages_ok page_eq_dec d /\
  cp_run false d = Some blocked /\
  (gc_type = BG_GC -> writes_nothing d).

(** Whether a pass over the entries of a summary was left with a status. *)
Definition pass_left (r : option gc_status) : bool :=
  match r with Some _ => true | None => false end.

(** What a collection leaves in the log: no page held, the operations
    blocked or not as [blocked] says, and, when [background] holds, no
    write on behalf of the caller. *)
Definition collection_log {page : Type}
    (page_eq_dec : forall a b : page, {a = b} + {a <> b})
    (background : Prop) (blocked : bool) (d : list (kcall page)) : Prop :=
  pages_ok page_eq_dec d /\
  cp_run false d = Some blocked /\
  (background -> writes_nothing d).

(** The kernels in which free sections never run short, so that the
    collector is never turned into the foreground collector. *)
Definition never_pressed {K inode page : Type}
    (ops : kernel_ops K inode page) : Prop :=
  forall w, has_not_enough_free_secs ops w = false.

(** ** Further example states *)

(** A file system for the allocator: segments 1, 3 and 4 are dirty for
    every log, and segment 3 held fewer valid blocks than the others at the
    last checkpoint. *)
Definition ssr_sbi : f2fs_sb_info :=
  mk_sbi 9 512 1 2 8 (fun _ => 0) 0 GC_NONE
    (fun segno => mk_seg_entry (if segno =? 3 then 40 else 90) 3 1020)
    (fun _ _ => 200) 1000 1100
    (fun t => match t with DIRTY => 20 | DIRTY_OF _ => 26 end)
    (fun _ => 0)
    (fun t => match t with CURSEG_HOT_DATA => 6 | _ => 7 end).

(** The sample file system with every block of every section valid. *)
Definition full_sbi : f2fs_sb_info :=
  mk_sbi 9 512 1 2 8 (fun _ => 0) 0 GC_NONE
    (fun segno => mk_seg_entry 512 3 (if segno <? 4 then 1020 else 1060))
    (fun _ _ => 1024) 1000 1100
    (fun t => match t with DIRTY => 20 | DIRTY_OF _ => 0 end)
    (fun _ => 0)
    (fun t => match t with CURSEG_HOT_DATA => 6 | _ => 7 end).

(** The toy kernel with a state that counts the waits of the worker, which
    is asked to stop at its second wait; [active] says whether the file
    system is active. *)
Definition counting_ops (active : bool) : kernel_ops Z Z Z := {|
  try_to_freeze := fun w => (false, w);
  wait_event_interruptible_timeout :=
    fun _ w => mk_world (w_sbi w) (w_kernel w + 1);
  kthread_should_stop := fun w => 2 <=? w_kernel w;
  f2fs_balance_fs := fun w => w;
  test_opt_BG_GC := fun _ => true;
  mutex_trylock_gc_mutex := fun w => (true, w);
  is_idle := fun _ => true;
  has_enough_invalid_blocks := fun _ => true;
  should_do_checkpoint := fun _ => false;
  block_operations := fun w => w;
  write_checkpoint := fun _ _ w => w;
  has_not_enough_free_secs := fun _ => false;
  reserved_sections := fun _ => 1;
  free_sections := fun _ => 2;
  sb_active := fun _ => active;
  get_victim := default_v_ops 20;
  f2fs_test_bit := fun off map => if Z.testbit map off then 1 else 0;
  START_BLOCK := fun sbi segno => segno * blocks_per_seg sbi;
  get_sum_page := fun segno w => (Some segno, w);
  unlock_page := fun _ w => w;
  page_address := fun pg _ =>
    mk_sum_block (fun off => mk_summary (pg * 512 + off) 0 0) SUM_TYPE_DATA;
  ra_node_page := fun _ w => w;
  get_node_page := fun nid w => (Some nid, w);
  get_node_info := fun nid w => (mk_node_info nid (7 + nid mod 2) nid 0, w);
  ofs_of_node := fun _ _ => 1;
  datablock_addr := fun pg _ _ => pg;
  sync_node_pages := fun w => w;
  PageWriteback := fun _ _ => false;
  set_page_dirty := fun _ w => w;
  f2fs_put_page := fun _ _ w => w;
  page_mapping := fun _ _ => 0;
  mapping_host := fun _ _ => 7;
  set_cold_data := fun _ w => w;
  clear_cold_data := fun _ w => w;
  clear_page_dirty_for_io := fun _ w => (true, w);
  do_write_data_page := fun _ w => w;
  find_data_page := fun _ idx w => (Some idx, w);
  get_lock_data_page := fun _ idx w => (Some idx, w);
  f2fs_submit_bio := fun w => w;
  f2fs_iget_nowait := fun ino w => (Some ino, w);
  iput_inode := fun _ w => w;
  i_mapping := fun _ => 0;
  S_ISDIR := fun _ => false;
  dec_page_count_dirty_dents := fun w => w;
  inode_dec_dirty_dents := fun _ w => w;
  winode_alloc_failures := fun _ => 1%nat;
  cond_resched := fun w => w;
  kmem_cache_alloc := fun w => w;
  kmem_cache_free := fun w => w;
  gc_stat_inc_node_blk_count := fun w => w;
  gc_stat_inc_data_blk_count := fun w => w;
  gc_stat_inc_seg_count := fun _ w => w;
  gc_stat_inc_call_count := fun w => w
|}.

(** The worker of the counting kernel, from the sample file system. *)
Definition counting_worker (active : bool) (ticks : nat) : Mo Z Z Z :=
  gc_thread_func Z.eq_dec (fun i => i) 1018 1018 923 10000 30000 10000
    toy_increase toy_decrease (counting_ops active) ticks 10.

(** The collection of the toy world with the calls logged, from an empty
    log. *)
Definition logged_toy_world : world (unit * list (kcall Z)) :=
  mk_world sample_sbi (tt, []).

Definition logged_toy_gc (fuel : nat) (nGC : Z)
    : Mo (unit * list (kcall Z)) Z (gc_exit Z) :=
  f2fs_gc Z.eq_dec (fun i => i) 1018 1018 923 (logged toy_ops) fuel nGC.

(** ** The statistics of the collector: [f2fs_update_gc_metric] *)

(** [struct f2fs_stat_info], with the fields that gc.c writes outside
    [f2fs_update_stat]: the pointer [sbi] (an address, [0] for NULL), the
    counts of the areas, which are [int], and the metric, which is
    [unsigned int]; [dirty_count], an [int], is read by the metric. *)
Record f2fs_stat_info := mk_stat_info {
  si_sbi : Z;
  all_area_segs : Z;
  sit_area_segs : Z;
  nat_area_segs : Z;
  ssa_area_segs : Z;
  main_area_segs : Z;
  main_area_sections : Z;
  main_area_zones : Z;
  dirty_count : Z;
  bimodal : Z;
  avg_vblocks : Z
}.

(** The object that [kzalloc] returns: all fields are zero. *)
Definition zero_stat_info : f2fs_stat_info :=
  mk_stat_info 0 0 0 0 0 0 0 0 0 0 0.

Definition set_si_sbi (v : Z) (si : f2fs_stat_info) : f2fs_stat_info :=
  mk_stat_info v (all_area_segs si) (sit_area_segs si) (nat_area_segs si)
    (ssa_area_segs si) (main_area_segs si) (main_area_sections si)
    (main_area_zones si) (dirty_count si) (bimodal si) (avg_vblocks si).

Definition set_area_segs (all sit nat ssa main sections : Z)
    (si : f2fs_stat_info) : f2fs_stat_info :=
  mk_stat_info (si_sbi si) all sit nat ssa main sections
    (main_area_zones si) (dirty_count si) (bimodal si) (avg_vblocks si).

Definition set_main_area_zones (v : Z) (si : f2fs_stat_info)
    : f2fs_stat_info :=
  mk_stat_info (si_sbi si) (all_area_segs si) (sit_area_segs si)
    (nat_area_segs si) (ssa_area_segs si) (main_area_segs si)
    (main_area_sections si) v (dirty_count si) (bimodal si) (avg_vblocks si).

Definition set_dirty_count (v : Z) (si : f2fs_stat_info) : f2fs_stat_info :=
  mk_stat_info (si_sbi si) (all_area_segs si) (sit_area_segs si)
    (nat_area_segs si) (ssa_area_segs si) (main_area_segs si)
    (main_area_sections si) (main_area_zones si) v (bimodal si)
    (avg_vblocks si).

Definition set_bimodal (v : Z) (si : f2fs_stat_info) : f2fs_stat_info :=
  mk_stat_info (si_sbi si) (all_area_segs si) (sit_area_segs si)
    (nat_area_segs si) (ssa_area_segs si) (main_area_segs si)
    (main_area_sections si) (main_area_zones si) (dirty_count si) v
    (avg_vblocks si).

Definition set_avg_vblocks (v : Z) (si : f2fs_stat_info) : f2fs_stat_info :=
  mk_stat_info (si_sbi si) (all_area_segs si) (sit_area_segs si)
    (nat_area_segs si) (ssa_area_segs si) (main_area_segs si)
    (main_area_sections si) (main_area_zones si) (dirty_count si)
    (bimodal si) v.

(** The locals that the loop over the sections writes: [bimodal] and
    [total_vblocks] are [unsigned int], [ndirty] is an [int]. *)
Record metric_locals := mk_metric_locals {
  m_bimodal : Z;
  m_total_vblocks : Z;
  m_ndirty : Z
}.

(** [abs] of kernel.h, which takes its argument as a signed integer. *)
Definition kernel_abs (x : Z) : Z := Z.abs (s32 x).

(** [blks_per_sec = 1 << (sbi->log_segs_per_sec + sbi->log_blocks_per_seg)]
    and [hblks_per_sec = blks_per_sec / 2], both [unsigned int]. *)
Definition blks_per_sec (sbi : f2fs_sb_info) : Z :=
  u32 (Z.shiftl 1 (log_segs_per_sec sbi + log_blocks_per_seg sbi)).

Definition hblks_per_sec (sbi : f2fs_sb_info) : Z := blks_per_sec sbi / 2.

(** The body of the loop, for the section that starts at [segno]. *)
Definition metric_body (sbi : f2fs_sb_info) (segno : Z) (l : metric_locals)
    : metric_locals :=
  let vblocks := u32 (get_valid_blocks sbi segno (log_segs_per_sec sbi)) in
  let dist := u32 (kernel_abs (u32 (vblocks - hblks_per_sec sbi))) in
  let bimodal := u32 (m_bimodal l + u32 (dist * dist)) in
  if (0 <? vblocks) && (vblocks <? blks_per_sec sbi)
  then mk_metric_locals bimodal (u32 (m_total_vblocks l + vblocks))
         (s32 (m_ndirty l + 1))
  else mk_metric_locals bimodal (m_total_vblocks l) (m_ndirty l).

(** The loop [for (segno = 0; segno < TOTAL_SEGS(sbi);
    segno += sbi->segs_per_sec)], from [segno]; [segno] is an
    [unsigned int]. *)
Fixpoint metric_loop (fuel : nat) (sbi : f2fs_sb_info) (segno : Z)
    (l : metric_locals) : option metric_locals :=
  match fuel with
  | O => None
  | S fuel' =>
      if segno <? TOTAL_SEGS sbi
      then metric_loop fuel' sbi (u32 (segno + segs_per_sec sbi))
             (metric_body sbi segno l)
      else Some l
  end.

(** How the function ends: it returns, with the statistics it has written,
    or one of its two divisions is a division by zero. *)
Inductive metric_exit :=
| MetricDone (si : f2fs_stat_info)
| MetricDivideError.

(** [total_sections] is the field [sbi->total_sections], an [unsigned int]
    that only this function reads.  The divisor [ndirty] of the second
    division is converted to [unsigned int]. *)
Definition f2fs_update_gc_metric (fuel : nat) (sbi : f2fs_sb_info)
    (total_sections : Z) (si : f2fs_stat_info) : option metric_exit :=
  match metric_loop fuel sbi 0 (mk_metric_locals 0 0 0) with
  | None => None
  | Some l =>
      let dist :=
        u32 (u32 (total_sections * hblks_per_sec sbi) * hblks_per_sec sbi)
        / 100 in
      if dist =? 0 then Some MetricDivideError
      else
        let si := set_bimodal (m_bimodal l / dist) si in
        if negb (dirty_count si =? 0)
        then
          if u32 (m_ndirty l) =? 0 then Some MetricDivideError
          else Some (MetricDone
                       (set_avg_vblocks
                          (m_total_vblocks l / u32 (m_ndirty l)) si))
        else Some (MetricDone (set_avg_vblocks 0 si))
  end.

(** A section that holds valid blocks and is not full of them: what the
    loop counts in [ndirty]. *)
Definition partly_valid (sbi : f2fs_sb_info) (segno : Z) : Prop :=
  0 < u32 (get_valid_blocks sbi segno (log_segs_per_sec sbi))
    < blks_per_sec sbi.

(** The sections the loop visits from [segno]. *)
Definition visited_from (sbi : f2fs_sb_info) (segno x : Z) : Prop :=
  exists j, 0 <= j /\ x = segno + j * segs_per_sec sbi /\ x < TOTAL_SEGS sbi.

(** The geometry under which the loop ends without a wrap of [segno] or
    of [ndirty]. *)
Record metric_wf (sbi : f2fs_sb_info) : Prop := {
  mwf_unit : 0 < segs_per_sec sbi;
  mwf_total : 0 <= TOTAL_SEGS sbi < 2 ^ 31;
  mwf_fit : TOTAL_SEGS sbi + segs_per_sec sbi <= 2 ^ 32
}.

(** A main area of 65536 segments of 512 blocks, one segment per section
    (128 GiB of 4 KiB blocks), every section half valid. *)
Definition big_sbi : f2fs_sb_info :=
  mk_sbi 9 512 0 1 65536 (fun _ => 0) 0 GC_NONE
    (fun _ => mk_seg_entry 256 3 1020)
    (fun _ _ => 256) 1000 1100
    (fun _ => 0) (fun _ => 0) (fun _ => 0).

(** ** Set-up and tear-down *)

From Stdlib Require String.

(** Kernel objects are named by their addresses, [0] being NULL.  A store
    holds the allocated objects of one type.  A function that reads or
    writes through NULL or through an address at which no object is
    allocated, frees such an address, or divides by zero, does not return:
    its result is [None]. *)
Definition store (A : Type) : Type := Z -> option A.

Definition load {A : Type} (s : store A) (p : Z) : option A :=
  if p =? 0 then None else s p.

Definition store_set {A : Type} (p : Z) (v : option A) (s : store A)
    : store A :=
  fun q => if q =? p then v else s q.

(** A write through [p] of the fields that [f] changes. *)
Definition store_update {A : Type} (p : Z) (f : A -> A) (s : store A)
    : option (store A) :=
  match load s p with
  | Some v => Some (store_set p (Some (f v)) s)
  | None => None
  end.

(** [kmalloc] or [kzalloc] that returns [p]: NULL, or the address of an
    object whose contents are [v]. *)
Definition store_alloc {A : Type} (p : Z) (v : A) (s : store A) : store A :=
  if p =? 0 then s else store_set p (Some v) s.

(** [kfree], which accepts NULL. *)
Definition store_free {A : Type} (p : Z) (s : store A) : option (store A) :=
  if p =? 0 then Some s
  else match s p with
       | Some _ => Some (store_set p None s)
       | None => None
       end.

Fixpoint remove_first (p : Z) (l : list Z) : list Z :=
  match l with
  | [] => []
  | q :: l' => if q =? p then l' else q :: remove_first p l'
  end.

Definition ENOMEM : Z := 12.

Notation "x <== m ;; k" := (match m with Some x => k | None => None end)
  (at level 61, m at next level, right associativity).

(** *** The worker: [start_gc_thread] and [stop_gc_thread] *)

(** What [kthread_run] returns: a task, or an error pointer. *)
Inductive task_ptr := TaskPtr (t : Z) | ErrPtr (errno : Z).

Definition IS_ERR (p : task_ptr) : bool :=
  match p with ErrPtr _ => true | TaskPtr _ => false end.

(** [struct f2fs_gc_kthread]; [kmalloc] does not initialise it: the task
    is [None] until it is written. *)
Record f2fs_gc_kthread := mk_gc_kthread {
  f2fs_gc_task : option task_ptr;
  gc_wait_queue_head : bool       (* initialised *)
}.

(** [sbi->gc_thread], the allocated [struct f2fs_gc_kthread] objects and
    the kernel threads that run. *)
Record thread_world := mk_thread_world {
  gc_thread : Z;
  kthreads : store f2fs_gc_kthread;
  tasks : list Z
}.

Definition set_gc_thread (p : Z) (w : thread_world) : thread_world :=
  mk_thread_world p (kthreads w) (tasks w).

Definition set_kthreads (s : store f2fs_gc_kthread) (w : thread_world)
    : thread_world :=
  mk_thread_world (gc_thread w) s (tasks w).

(** [kthread_run] that returns [r]: the task runs unless [r] is an error
    pointer. *)
Definition kthread_run (r : task_ptr) (w : thread_world) : thread_world :=
  match r with
  | TaskPtr t => mk_thread_world (gc_thread w) (kthreads w) (t :: tasks w)
  | ErrPtr _ => w
  end.

(** [kthread_stop], which needs a task that runs. *)
Definition kthread_stop (task : option task_ptr) (w : thread_world)
    : option thread_world :=
  match task with
  | Some (TaskPtr t) =>
      if existsb (Z.eqb t) (tasks w)
      then Some (mk_thread_world (gc_thread w) (kthreads w)
                   (remove_first t (tasks w)))
      else None
  | _ => None
  end.

(** [kmalloc_ret] and [kthread_run_ret] are what [kmalloc] and
    [kthread_run] return. *)
Definition start_gc_thread (kmalloc_ret : Z) (kthread_run_ret : task_ptr)
    (w : thread_world) : option (Z * thread_world) :=
  let gc_th := kmalloc_ret in
  let w := set_kthreads
             (store_alloc gc_th (mk_gc_kthread None false) (kthreads w)) w in
  if gc_th =? 0 then Some (- ENOMEM, w)
  else
    let w := set_gc_thread gc_th w in
    s <== store_update (gc_thread w)
            (fun o => mk_gc_kthread (f2fs_gc_task o) true) (kthreads w) ;;
    let w := set_kthreads s w in
    let w := kthread_run kthread_run_ret w in
    s <== store_update (gc_thread w)
            (fun o => mk_gc_kthread (Some kthread_run_ret)
                        (gc_wait_queue_head o)) (kthreads w) ;;
    let w := set_kthreads s w in
    o <== load (kthreads w) gc_th ;;
    task <== f2fs_gc_task o ;;
    if IS_ERR task then
      s <== store_free gc_th (kthreads w) ;;
      Some (- ENOMEM, set_kthreads s w)
    else Some (0, w).

Definition stop_gc_thread (w : thread_world) : option thread_world :=
  let gc_th := gc_thread w in
  if gc_th =? 0 then Some w
  else
    o <== load (kthreads w) gc_th ;;
    w <== kthread_stop (f2fs_gc_task o) w ;;
    s <== store_free gc_th (kthreads w) ;;
    let w := set_kthreads s w in
    Some (set_gc_thread 0 w).

(** *** The manager: [build_gc_manager] and [destroy_gc_manager] *)

(** [struct f2fs_gc_info]; [stat_list] says whether the node of that name
    is linked on [f2fs_stat_list]. *)
Record f2fs_gc_info := mk_gc_info {
  rsvd_segment_count : Z;
  overp_segment_count : Z;
  stat_info : Z;
  stat_list : bool
}.

(** The fields of the raw superblock that [build_gc_manager] reads. *)
Record f2fs_super_block := mk_super_block {
  segment_count : Z;
  segment_count_sit : Z;
  segment_count_nat : Z;
  segment_count_ssa : Z;
  segment_count_main : Z;
  section_count : Z;
  secs_per_zone : Z
}.

(** [sbi->gc_info], whether [DIRTY_I(sbi)->v_ops] is [&default_v_ops], the
    allocated objects and the global list [f2fs_stat_list], which holds
    the addresses of the [f2fs_gc_info] objects linked on it. *)
Record manager_world := mk_manager_world {
  gc_info : Z;
  v_ops_default : bool;
  gc_infos : store f2fs_gc_info;
  stat_infos : store f2fs_stat_info;
  f2fs_stat_list : list Z
}.

Definition set_gc_info (p : Z) (w : manager_world) : manager_world :=
  mk_manager_world p (v_ops_default w) (gc_infos w) (stat_infos w)
    (f2fs_stat_list w).

Definition set_v_ops_default (w : manager_world) : manager_world :=
  mk_manager_world (gc_info w) true (gc_infos w) (stat_infos w)
    (f2fs_stat_list w).

Definition set_gc_infos (s : store f2fs_gc_info) (w : manager_world)
    : manager_world :=
  mk_manager_world (gc_info w) (v_ops_default w) s (stat_infos w)
    (f2fs_stat_list w).

Definition set_stat_infos (s : store f2fs_stat_info) (w : manager_world)
    : manager_world :=
  mk_manager_world (gc_info w) (v_ops_default w) (gc_infos w) s
    (f2fs_stat_list w).

(** [list_add_tail(&gc_i->stat_list, &f2fs_stat_list)]. *)
Definition stat_list_add_tail (gc_i : Z) (w : manager_world)
    : option manager_world :=
  s <== store_update gc_i
          (fun g => mk_gc_info (rsvd_segment_count g) (overp_segment_count g)
                      (stat_info g) true) (gc_infos w) ;;
  Some (mk_manager_world (gc_info w) (v_ops_default w) s (stat_infos w)
          (f2fs_stat_list w ++ [gc_i])).

(** [list_del(&gc_i->stat_list)]: the node of an object that [kzalloc]
    returned and that was never linked holds two NULL pointers, through
    which [list_del] writes. *)
Definition stat_list_del (gc_i : Z) (w : manager_world) : option manager_world :=
  g <== load (gc_infos w) gc_i ;;
  if stat_list g then
    s <== store_update gc_i
            (fun g => mk_gc_info (rsvd_segment_count g)
                        (overp_segment_count g) (stat_info g) false)
            (gc_infos w) ;;
    Some (mk_manager_world (gc_info w) (v_ops_default w) s (stat_infos w)
            (remove_first gc_i (f2fs_stat_list w)))
  else None.

(** [sbi] is the address of the superblock information, [rsvd] and
    [overprov] are the fields of the checkpoint that the function reads,
    [kzalloc_gc_i] and [kzalloc_si] are what the two calls of [kzalloc]
    return.  The part under [CONFIG_F2FS_STAT_FS] is compiled when
    [config_stat_fs] is set. *)
Definition build_gc_manager (config_stat_fs : bool) (sbi : Z)
    (rsvd overprov : Z) (raw_super : f2fs_super_block)
    (kzalloc_gc_i kzalloc_si : Z) (w : manager_world)
    : option (Z * manager_world) :=
  let gc_i := kzalloc_gc_i in
  let w := set_gc_infos
             (store_alloc gc_i (mk_gc_info 0 0 0 false) (gc_infos w)) w in
  if gc_i =? 0 then Some (- ENOMEM, w)
  else
    let w := set_gc_info gc_i w in
    s <== store_update gc_i
            (fun g => mk_gc_info (u32 rsvd) (overp_segment_count g)
                        (stat_info g) (stat_list g)) (gc_infos w) ;;
    let w := set_gc_infos s w in
    s <== store_update gc_i
            (fun g => mk_gc_info (rsvd_segment_count g) (u32 overprov)
                        (stat_info g) (stat_list g)) (gc_infos w) ;;
    let w := set_gc_infos s w in
    let w := set_v_ops_default w in
    if config_stat_fs then
      let w := set_stat_infos
                 (store_alloc kzalloc_si zero_stat_info (stat_infos w)) w in
      s <== store_update gc_i
              (fun g => mk_gc_info (rsvd_segment_count g)
                          (overp_segment_count g) kzalloc_si (stat_list g))
              (gc_infos w) ;;
      let w := set_gc_infos s w in
      g <== load (gc_infos w) gc_i ;;
      if stat_info g =? 0 then Some (- ENOMEM, w)
      else
        let si := stat_info g in
        w <== stat_list_add_tail gc_i w ;;
        s <== store_update si
                (set_area_segs (s32 (segment_count raw_super))
                   (s32 (segment_count_sit raw_super))
                   (s32 (segment_count_nat raw_super))
                   (s32 (segment_count_ssa raw_super))
                   (s32 (segment_count_main raw_super))
                   (s32 (section_count raw_super))) (stat_infos w) ;;
        let w := set_stat_infos s w in
        o <== load (stat_infos w) si ;;
        if u32 (secs_per_zone raw_super) =? 0 then None
        else
          s <== store_update si
                  (set_main_area_zones
                     (s32 (u32 (main_area_sections o)
                           / u32 (secs_per_zone raw_super))))
                  (stat_infos w) ;;
          let w := set_stat_infos s w in
          s <== store_update si (set_si_sbi sbi) (stat_infos w) ;;
          Some (0, set_stat_infos s w)
    else Some (0, w).

(** Under [CONFIG_F2FS_STAT_FS] the initialiser of [si] reads
    [gc_i->stat_info] before [gc_i] is tested. *)
Definition destroy_gc_manager (config_stat_fs : bool) (w : manager_world)
    : option manager_world :=
  let gc_i := gc_info w in
  si <== (if config_stat_fs
          then g <== load (gc_infos w) gc_i ;; Some (stat_info g)
          else Some 0) ;;
  if gc_i =? 0 then Some w
  else
    w <== (if config_stat_fs then
             w <== stat_list_del gc_i w ;;
             s <== store_update si (set_si_sbi 0) (stat_infos w) ;;
             let w := set_stat_infos s w in
             g <== load (gc_infos w) gc_i ;;
             s <== store_free (stat_info g) (stat_infos w) ;;
             Some (set_stat_infos s w)
           else Some w) ;;
    let w := set_gc_info 0 w in
    s <== store_free gc_i (gc_infos w) ;;
    Some (set_gc_infos s w).

(** *** The entries under /proc: [f2fs_stat_init] and [f2fs_stat_exit] *)

Inductive read_proc_t := f2fs_read_gc | f2fs_read_sit | f2fs_read_mem.

(** An entry of the proc file system, under the directory [pde_parent]. *)
Record proc_dir_entry := mk_proc_dir_entry {
  pde_name : String.string;
  pde_parent : Z;
  read_proc : option read_proc_t;
  write_proc : option read_proc_t
}.

Module ProcNames.
Import String.
Local Open Scope string_scope.
Definition f2fs_stat : string := "f2fs_stat".
Definition f2fs_sit_stat : string := "f2fs_sit_stat".
Definition f2fs_mem_stat : string := "f2fs_mem_stat".
End ProcNames.

(** The entries that are registered, the last one created first.
    [create_proc_entry] registers a new entry, unless it fails ([ok] is
    unset); the entry it returns is the first of the list. *)
Definition create_proc_entry (ok : bool) (name : String.string) (parent : Z)
    (w : list proc_dir_entry) : bool * list proc_dir_entry :=
  if ok then (true, mk_proc_dir_entry name parent None None :: w)
  else (false, w).

(** The writes [entry->read_proc = f; entry->write_proc = NULL]. *)
Definition set_entry_procs (f : read_proc_t) (w : list proc_dir_entry)
    : list proc_dir_entry :=
  match w with
  | e :: w' =>
      mk_proc_dir_entry (pde_name e) (pde_parent e) (Some f) None :: w'
  | [] => []
  end.

(** [remove_proc_entry] removes the first entry of that name under that
    parent, if there is one. *)
Fixpoint remove_proc_entry (name : String.string) (parent : Z)
    (w : list proc_dir_entry) : list proc_dir_entry :=
  match w with
  | [] => []
  | e :: w' =>
      if String.eqb (pde_name e) name && (pde_parent e =? parent)
      then w'
      else e :: remove_proc_entry name parent w'
  end.

(** [s_proc] is [sbi->s_proc]; [ok1], [ok2] and [ok3] say whether the
    three calls of [create_proc_entry] succeed. *)
Definition f2fs_stat_init (s_proc : Z) (ok1 ok2 ok3 : bool)
    (w : list proc_dir_entry) : Z * list proc_dir_entry :=
  let '(entry, w) := create_proc_entry ok1 ProcNames.f2fs_stat s_proc w in
  if negb entry then (- ENOMEM, w)
  else
    let w := set_entry_procs f2fs_read_gc w in
    let '(entry, w) :=
      create_proc_entry ok2 ProcNames.f2fs_sit_stat s_proc w in
    if negb entry then
      let w := remove_proc_entry ProcNames.f2fs_stat s_proc w in
      (- ENOMEM, w)
    else
      let w := set_entry_procs f2fs_read_sit w in
      let '(entry, w) :=
        create_proc_entry ok3 ProcNames.f2fs_mem_stat s_proc w in
      if negb entry then
        let w := remove_proc_entry ProcNames.f2fs_sit_stat s_proc w in
        let w := remove_proc_entry ProcNames.f2fs_stat s_proc w in
        (- ENOMEM, w)
      else
        let w := set_entry_procs f2fs_read_mem w in
        (0, w).

Definition f2fs_stat_exit (s_proc : Z) (w : list proc_dir_entry)
    : list proc_dir_entry :=
  if negb (s_proc =? 0) then
    let w := remove_proc_entry ProcNames.f2fs_stat s_proc w in
    let w := remove_proc_entry ProcNames.f2fs_sit_stat s_proc w in
    let w := remove_proc_entry ProcNames.f2fs_mem_stat s_proc w in
    w
  else w.

(** The three entries that a successful [f2fs_stat_init] registers. *)
Definition f2fs_stat_entries (s_proc : Z) : list proc_dir_entry :=
  [mk_proc_dir_entry ProcNames.f2fs_mem_stat s_proc (Some f2fs_read_mem) None;
   mk_proc_dir_entry ProcNames.f2fs_sit_stat s_proc (Some f2fs_read_sit) None;
   mk_proc_dir_entry ProcNames.f2fs_stat s_proc (Some f2fs_read_gc) None].

(** Stores with the same objects. *)
Definition same_store {A : Type} (s t : store A) : Prop :=
  forall p, s p = t p.

(** Example worlds: nothing allocated, nothing running, nothing linked. *)
Definition empty_thread_world : thread_world :=
  mk_thread_world 0 (fun _ => None) [].

Definition empty_manager_world : manager_world :=
  mk_manager_world 0 false (fun _ => None) (fun _ => None) [].

Definition sample_super_block : f2fs_super_block :=
  mk_super_block 12 1 1 1 8 4 2.

(** * Properties *)

(** ** Machine integers *)

Lemma u32_small x : 0 <= x < 2 ^ 32 -> u32 x = x.
Proof. intros H. unfold u32. now apply Z.mod_small. Qed.

Lemma u64_small x : 0 <= x < 2 ^ 64 -> u64 x = x.
Proof. intros H. unfold u64. now apply Z.mod_small. Qed.

Lemma u8_small x : 0 <= x < 2 ^ 8 -> u8 x = x.
Proof. intros H. unfold u8. now apply Z.mod_small. Qed.

Lemma u32_range x : 0 <= u32 x < 2 ^ 32.
Proof. unfold u32. apply Z.mod_pos_bound. lia. Qed.

Lemma u8_range x : 0 <= u8 x < 2 ^ 8.
Proof. unfold u8. apply Z.mod_pos_bound. lia. Qed.

Lemma s32_small x : 0 <= x < 2 ^ 31 -> s32 x = x.
Proof.
  intros H. unfold s32. rewrite u32_small by lia.
  destruct (Z.ltb_spec x (2 ^ 31)); lia.
Qed.

(** An [int] converted back to [unsigned int] is the value it came from. *)
Lemma u32_s32 x : u32 (s32 x) = u32 x.
Proof.
  unfold s32. destruct (Z.ltb_spec (u32 x) (2 ^ 31)).
  - unfold u32. apply Z.mod_mod. lia.
  - unfold u32. rewrite Zminus_mod, Z.mod_same, Z.sub_0_r by lia.
    now rewrite !Z.mod_mod by lia.
Qed.

Lemma u32_sub_s32 a x : u32 (a - s32 x) = u32 (a - x).
Proof.
  unfold u32. rewrite Zminus_mod. fold (u32 (s32 x)). rewrite u32_s32.
  unfold u32. now rewrite <- Zminus_mod.
Qed.

Lemma u32_mul_add_l x a b : u32 (u32 x * a + b) = u32 (x * a + b).
Proof.
  unfold u32.
  rewrite Zplus_mod, Zmult_mod_idemp_l, <- Zplus_mod. reflexivity.
Qed.

(** ** [start_bidx_of_node] *)

Section NodeLayoutProofs.

Variables NIDS_PER_BLOCK ADDRS_PER_BLOCK ADDRS_PER_INODE : Z.

(** [2 * NIDS_PER_BLOCK + 4] is computed in [int]. *)
Hypothesis nids_range : 0 <= NIDS_PER_BLOCK /\ 2 * NIDS_PER_BLOCK + 4 < 2 ^ 31.

Lemma dec_le a b : 0 <= a -> 0 < b -> 0 <= a / b <= a.
Proof.
  intros Ha Hb. split.
  - apply Z.div_pos; lia.
  - destruct (Z.eq_dec b 1) as [->|]; [rewrite Z.div_1_r; lia|].
    destruct (Z.eq_dec a 0) as [->|]; [rewrite Z.div_0_l; lia|].
    assert (a / b < a) by (apply Z.div_lt; lia). lia.
Qed.

(** C4 (amended): for every 32-bit node offset other than the three
    indirect-node offsets [3], [2*NIDS_PER_BLOCK+5] and [2*NIDS_PER_BLOCK+6],
    [start_bidx_of_node] returns [0] at offset [0] and otherwise
    [bidx * ADDRS_PER_BLOCK + ADDRS_PER_INODE] truncated to 32 bits, with
    [bidx = nofs - 1] for [1 <= nofs <= 2],
    [bidx = nofs - 2 - (nofs - 4) / (NIDS_PER_BLOCK + 1)] for
    [4 <= nofs <= 2*NIDS_PER_BLOCK+4], and
    [bidx = nofs - 5 - (nofs - (2*NIDS_PER_BLOCK+4) - 3) / (NIDS_PER_BLOCK + 1)]
    from [2*NIDS_PER_BLOCK+7] on. *)
Theorem start_bidx_of_node_cases (nofs : Z) :
  0 <= nofs < 2 ^ 32 ->
  wraps_at NIDS_PER_BLOCK nofs = false ->
  start_bidx_of_node NIDS_PER_BLOCK ADDRS_PER_BLOCK ADDRS_PER_INODE nofs
  = u32 (start_bidx_spec NIDS_PER_BLOCK ADDRS_PER_BLOCK ADDRS_PER_INODE nofs).
Proof.
  intros Hr Hw. destruct nids_range as [HN0 HN1].
  unfold wraps_at in Hw.
  apply orb_false_elim in Hw as [Hw H6]. apply orb_false_elim in Hw as [H3 H5].
  apply Z.eqb_neq in H3, H5, H6.
  unfold start_bidx_of_node, start_bidx_spec, bidx_spec.
  rewrite (u32_small (2 * NIDS_PER_BLOCK + 4)) by lia.
  rewrite (u32_small (NIDS_PER_BLOCK + 1)) by lia.
  destruct (Z.eqb_spec nofs 0) as [->|Hz]; [reflexivity|].
  destruct (Z.leb_spec nofs 2) as [H2|H2].
  - cbn [Z.eqb]. apply u32_mul_add_l.
  - destruct (Z.leb_spec nofs (2 * NIDS_PER_BLOCK + 4)) as [Hi|Hi]; cbn [Z.eqb].
    + rewrite (u32_small (nofs - 4)) by lia.
      rewrite u32_sub_s32. apply u32_mul_add_l.
    + rewrite (u32_small (nofs - (2 * NIDS_PER_BLOCK + 4) - 3)) by lia.
      rewrite u32_sub_s32. apply u32_mul_add_l.
Qed.

End NodeLayoutProofs.

(** The witness uses the layout constants of the F2FS disk format. *)
Lemma start_bidx_of_node_cases_witness :
  start_bidx_of_node 1018 1018 923 5 = 3977 /\
  start_bidx_of_node 1018 1018 923 2047 = 2079679.
Proof.
  split.
  - rewrite (start_bidx_of_node_cases 1018 1018 923); [reflexivity|lia|lia|reflexivity].
  - rewrite (start_bidx_of_node_cases 1018 1018 923); [reflexivity|lia|lia|reflexivity].
Defined.

(** C4 as stated fails at node offset 3, inside the range
    [3 <= nofs <= 2*NIDS_PER_BLOCK+4] of its third case: [nofs - 4] is
    computed in [unsigned int] and wraps, so the code does not return
    [bidx * ADDRS_PER_BLOCK + ADDRS_PER_INODE] for the [bidx] of the claim,
    whether its division rounds down ([bidx = 2]) or towards zero
    ([bidx = 1]). *)
Lemma start_bidx_of_node_offset_3 :
  start_bidx_of_node 1018 1018 923 3 = 4217325 /\
  start_bidx_of_node 1018 1018 923 3 <> start_bidx_spec 1018 1018 923 3 /\
  start_bidx_of_node 1018 1018 923 3 <> (3 - 2 - Z.quot (3 - 4) (1018 + 1)) * 1018 + 923.
Proof. vm_compute. repeat split; discriminate. Qed.

(** ** Bitmaps *)

Lemma find_bit_from_spec n map size i :
  i + Z.of_nat n = size ->
  let r := find_bit_from n map size i in
  i <= r <= size /\
  (r < size -> Z.testbit map r = true) /\
  (forall j, i <= j < r -> Z.testbit map j = false).
Proof.
  revert i. induction n as [|n IH]; intros i Hn; cbn [find_bit_from].
  - cbn zeta. repeat split; intros; lia.
  - destruct (Z.testbit map i) eqn:Hb; cbn zeta.
    + repeat split; intros; (lia || exact Hb).
    + specialize (IH (i + 1) ltac:(lia)). cbn zeta in IH.
      destruct IH as (Hr & Ht & Hf). repeat split; try lia; [exact Ht|].
      intros j Hj. destruct (Z.eq_dec j i) as [->|]; [exact Hb|].
      apply Hf. lia.
Qed.

Lemma find_next_bit_le map size offset : find_next_bit map size offset <= size.
Proof.
  unfold find_next_bit. destruct (Z_le_gt_dec offset size) as [H|H].
  - apply (find_bit_from_spec (Z.to_nat (size - offset)) map size offset). lia.
  - replace (Z.to_nat (size - offset)) with O by lia. cbn. lia.
Qed.

Lemma find_next_bit_found map size offset :
  find_next_bit map size offset < size ->
  offset <= find_next_bit map size offset /\
  Z.testbit map (find_next_bit map size offset) = true.
Proof.
  unfold find_next_bit. intros Hlt.
  destruct (Z_le_gt_dec offset size) as [H|H].
  - destruct (find_bit_from_spec (Z.to_nat (size - offset)) map size offset)
      as (Hr & Ht & _); [lia|]. split; [lia|auto].
  - replace (Z.to_nat (size - offset)) with O in Hlt by lia. cbn in Hlt. lia.
Qed.

Lemma find_next_bit_first map size offset j :
  offset <= j < find_next_bit map size offset -> Z.testbit map j = false.
Proof.
  unfold find_next_bit. intros Hj.
  destruct (Z_le_gt_dec offset size) as [H|H].
  - destruct (find_bit_from_spec (Z.to_nat (size - offset)) map size offset)
      as (_ & _ & Hf); [lia|]. apply Hf, Hj.
  - replace (Z.to_nat (size - offset)) with O in Hj by lia. cbn in Hj. lia.
Qed.

Lemma test_set_bit nr map j :
  0 <= nr -> test_bit j (set_bit nr map) = (j =? nr) || test_bit j map.
Proof.
  intros H. unfold test_bit, set_bit.
  rewrite Z.setbit_eqb by lia. now rewrite (Z.eqb_sym nr j).
Qed.

Lemma test_clear_bit nr map j :
  0 <= nr -> test_bit j (clear_bit nr map) = test_bit j map && negb (j =? nr).
Proof.
  intros H. unfold test_bit, clear_bit.
  rewrite Z.clearbit_eqb by lia. now rewrite (Z.eqb_sym nr j).
Qed.

(** Aligning down to a multiple of [2^k]. *)
Lemma align_down_spec x k :
  0 <= k ->
  Z.shiftl (Z.shiftr x k) k = x - x mod 2 ^ k.
Proof.
  intros Hk. rewrite Z.shiftl_mul_pow2, Z.shiftr_div_pow2 by lia.
  assert (0 < 2 ^ k) by (apply Z.pow_pos_nonneg; lia).
  pose proof (Z.div_mod x (2 ^ k) ltac:(lia)). lia.
Qed.

Lemma align_down_range x k :
  0 <= k -> 0 <= x ->
  0 <= Z.shiftl (Z.shiftr x k) k <= x /\
  x < Z.shiftl (Z.shiftr x k) k + 2 ^ k.
Proof.
  intros Hk Hx. rewrite align_down_spec by lia.
  assert (0 < 2 ^ k) by (apply Z.pow_pos_nonneg; lia).
  pose proof (Z.mod_pos_bound x (2 ^ k) ltac:(lia)).
  pose proof (Z.mod_le x (2 ^ k) ltac:(lia) ltac:(lia)). lia.
Qed.

Lemma shiftl_1 k : 0 <= k -> Z.shiftl 1 k = 2 ^ k.
Proof. intros. rewrite Z.shiftl_mul_pow2 by lia. lia. Qed.

(** ** The cost of a section under the cost-benefit policy *)

Lemma section_mtime_step sbi start n :
  section_mtime sbi start (S n)
  = section_mtime sbi start n + mtime (get_seg_entry sbi (start + Z.of_nat n)).
Proof.
  unfold section_mtime. rewrite seq_S, fold_left_app. reflexivity.
Qed.

Lemma section_mtime_nonneg sbi start n :
  (forall i, 0 <= mtime (get_seg_entry sbi i)) ->
  0 <= section_mtime sbi start n.
Proof.
  intros H. induction n as [|n IH]; [unfold section_mtime; cbn; lia|].
  rewrite section_mtime_step. specialize (H (start + Z.of_nat n)). lia.
Qed.

Lemma sum_mtime_exact sbi start n :
  (forall i, 0 <= mtime (get_seg_entry sbi i)) ->
  0 <= start -> start + Z.of_nat n <= 2 ^ 32 ->
  section_mtime sbi start n < 2 ^ 64 ->
  sum_mtime sbi start n = section_mtime sbi start n.
Proof.
  intros Hm Hs. induction n as [|n IH]; intros Hn Hlt; [reflexivity|].
  rewrite section_mtime_step in *.
  pose proof (Hm (start + Z.of_nat n)).
  pose proof (section_mtime_nonneg sbi start n Hm).
  unfold sum_mtime in *. rewrite seq_S, fold_left_app. cbn [fold_left].
  rewrite IH by lia. cbn [Nat.add].
  rewrite (u32_small (start + Z.of_nat n)) by lia.
  apply u64_small. lia.
Qed.

Lemma shiftr_nonneg_le x k : 0 <= k -> 0 <= x -> 0 <= Z.shiftr x k <= x.
Proof.
  intros Hk Hx. rewrite Z.shiftr_div_pow2 by lia.
  assert (0 < 2 ^ k) by (apply Z.pow_pos_nonneg; lia).
  split; [apply Z.div_pos; lia|].
  apply Z.div_le_upper_bound; [lia|]. nia.
Qed.

Lemma widened_bounds sbi m :
  let sbi1 := if m <? min_mtime sbi then set_min_mtime m sbi else sbi in
  let sbi2 := if max_mtime sbi1 <? m then set_max_mtime m sbi1 else sbi1 in
  min_mtime sbi2 = Z.min (min_mtime sbi) m /\
  max_mtime sbi2 = Z.max (max_mtime sbi) m.
Proof.
  cbn zeta.
  destruct (Z.ltb_spec m (min_mtime sbi));
    destruct (Z.ltb_spec (max_mtime sbi) m); cbn;
    repeat match goal with
           | |- context [?a <? ?b] => destruct (Z.ltb_spec a b)
           end; cbn; lia.
Qed.

Lemma utilization_range vb b :
  0 <= b <= 25 -> 0 <= vb <= 2 ^ b ->
  u8 (Z.shiftr (u32 (vb * 100)) b) = Z.shiftr (vb * 100) b /\
  0 <= Z.shiftr (vb * 100) b <= 100.
Proof.
  intros Hb Hv.
  assert (0 < 2 ^ b) by (apply Z.pow_pos_nonneg; lia).
  assert (2 ^ b <= 2 ^ 25) by (apply Z.pow_le_mono_r; lia).
  rewrite u32_small by lia.
  rewrite Z.shiftr_div_pow2 by lia.
  assert (0 <= vb * 100 / 2 ^ b <= 100).
  { split; [apply Z.div_pos; lia|].
    apply Z.div_le_upper_bound; lia. }
  split; [apply u8_small; lia|lia].
Qed.

Lemma age_range m lo hi :
  lo <= m <= hi -> lo < hi ->
  0 <= 100 * (m - lo) / (hi - lo) <= 100.
Proof.
  intros Hm Hlt. split.
  - apply Z.div_pos; lia.
  - apply Z.div_le_upper_bound; nia.
Qed.

Lemma benefit_range u age :
  0 <= u <= 100 -> 0 <= age <= 100 ->
  Z.quot (100 * (100 - u) * age) (100 + u) = 100 * (100 - u) * age / (100 + u) /\
  0 <= 100 * (100 - u) * age / (100 + u) <= 10000.
Proof.
  intros Hu Ha.
  assert (0 <= 100 * (100 - u) * age) by nia.
  split; [apply Z.quot_div_nonneg; lia|].
  split; [apply Z.div_pos; lia|].
  apply Z.div_le_upper_bound; nia.
Qed.

(** C1 (amended): for every section whose inputs are in range,
    [get_cb_cost] returns exactly
    [UINT_MAX - (100 * (100 - u) * age) / (100 + u)], where
    [u = (vblocks * 100) >> b] for [vblocks] the valid blocks of the section
    shifted right by [s], [mtime_avg = (sum of mtime over the segments of
    the section) >> s], and, for [min_mtime] and [max_mtime] widened to
    contain [mtime_avg], [age = 0] when they are equal and
    [age = 100 - 100 * (mtime_avg - min_mtime) / (max_mtime - min_mtime)]
    otherwise. *)
Theorem get_cb_cost_formula (sbi : f2fs_sb_info) (segno : Z) :
  cb_in_range sbi segno ->
  fst (get_cb_cost sbi segno) = cb_cost_spec 0 sbi segno.
Proof.
  intros [Hs Hb Hsegno Hsegs Hsec Hmt Hsum Hmin Hmax Hvb].
  unfold get_cb_cost, cb_cost_spec.
  set (s := log_segs_per_sec sbi) in *.
  set (b := log_blocks_per_seg sbi) in *.
  set (start := Z.shiftl (GET_SECNO sbi segno) s) in *.
  assert (Hstart : 0 <= start).
  { unfold start, GET_SECNO. fold s. apply Z.shiftl_nonneg.
    apply Z.shiftr_nonneg. lia. }
  rewrite (u32_small start) by lia.
  set (n := Z.to_nat (segs_per_sec sbi)) in *.
  pose proof (section_mtime_nonneg sbi start n Hmt) as Hsum0.
  rewrite (sum_mtime_exact sbi start n) by (auto; lia).
  set (m := Z.shiftr (section_mtime sbi start n) s).
  pose proof (shiftr_nonneg_le (section_mtime sbi start n) s Hs Hsum0) as Hm.
  fold m in Hm.
  set (vb := Z.shiftr (get_valid_blocks sbi segno s) s) in *.
  destruct (utilization_range vb b Hb Hvb) as [Hu Hur]. rewrite Hu.
  set (u := Z.shiftr (vb * 100) b) in *.
  destruct (widened_bounds sbi m) as [Hlo Hhi]. cbn zeta in Hlo, Hhi.
  set (sbi2 := if max_mtime (if m <? min_mtime sbi then set_min_mtime m sbi else sbi) <? m
               then _ else _) in *.
  cbn [fst]. rewrite Hlo, Hhi.
  set (lo := Z.min (min_mtime sbi) m). set (hi := Z.max (max_mtime sbi) m).
  assert (Hlohi : 0 <= lo <= m /\ m <= hi < 2 ^ 64) by (unfold lo, hi; lia).
  destruct (Z.eqb_spec hi lo) as [Heq|Hne]; cbn [negb].
  - rewrite Z.mul_0_r. rewrite Z.quot_0_l by lia.
    rewrite Z.div_0_l by lia. apply u32_small. unfold UINT_MAX. lia.
  - rewrite (u64_small (m - lo)) by lia.
    rewrite (u64_small (100 * (m - lo))) by lia.
    rewrite (u64_small (hi - lo)) by lia.
    pose proof (age_range m lo hi ltac:(lia) ltac:(lia)) as Hq.
    rewrite (u8_small (100 - _)) by lia.
    set (age := 100 - 100 * (m - lo) / (hi - lo)) in *.
    destruct (benefit_range u age ltac:(lia) ltac:(lia)) as [Hquot Hben].
    rewrite Hquot. apply u32_small. unfold UINT_MAX. lia.
Qed.

(** ** The scan of [get_victim_by_default] *)

Lemma same_layout_refl a : same_layout a a.
Proof. unfold same_layout. repeat split. Qed.

Lemma same_layout_trans a b c :
  same_layout a b -> same_layout b c -> same_layout a c.
Proof.
  unfold same_layout. intros H1 H2.
  repeat match goal with H : _ /\ _ |- _ => destruct H end.
  repeat split; congruence.
Qed.

Lemma get_cb_cost_frame sbi segno :
  same_layout sbi (snd (get_cb_cost sbi segno)) /\
  last_victim (snd (get_cb_cost sbi segno)) = last_victim sbi.
Proof.
  unfold get_cb_cost. cbn [snd].
  repeat match goal with
         | |- context [if ?a <? ?b then _ else _] => destruct (a <? b)
         end; (split; [unfold same_layout; cbn; repeat split|reflexivity]).
Qed.

Lemma get_gc_cost_frame sbi segno p :
  same_layout sbi (snd (get_gc_cost sbi segno p)) /\
  last_victim (snd (get_gc_cost sbi segno p)) = last_victim sbi.
Proof.
  unfold get_gc_cost.
  destruct (p_alloc_mode p); [destruct (p_gc_mode p)|]; cbn [snd];
    try (split; [apply same_layout_refl|reflexivity]).
  apply get_cb_cost_frame.
Qed.

Lemma IS_CURSEC_same a b secno :
  same_layout a b -> IS_CURSEC b secno = IS_CURSEC a secno.
Proof.
  unfold same_layout, IS_CURSEC, GET_SECNO.
  intros (_ & _ & Hs & _ & _ & _ & _ & _ & _ & Hc).
  now rewrite Hs, Hc.
Qed.

Section ScanProofs.

Variable MAX_VICTIM_SEARCH : Z.
Variable gc_type : gc_type_t.

Lemma next_offset_spec p segno total :
  0 <= p_log_ofs_unit p -> 0 <= segno < total ->
  total + 2 ^ p_log_ofs_unit p <= 2 ^ 32 ->
  next_offset p segno
  = Z.shiftl (Z.shiftr segno (p_log_ofs_unit p)) (p_log_ofs_unit p)
    + 2 ^ p_log_ofs_unit p /\
  segno < next_offset p segno.
Proof.
  intros Hu Hs Hfit. unfold next_offset.
  rewrite shiftl_1 by lia.
  pose proof (align_down_range segno (p_log_ofs_unit p) Hu ltac:(lia)).
  rewrite u32_small by lia. lia.
Qed.

(** An iteration does what [scan_step_spec] says, keeps what the scan
    does not write, and keeps its minimum or moves it to a candidate. *)
Lemma scan_body_cases st c st' :
  scan_wf st -> scan_body MAX_VICTIM_SEARCH gc_type st = (c, st') ->
  scan_step_spec MAX_VICTIM_SEARCH st c st' /\
  same_layout (sc_sbi st) (sc_sbi st') /\
  same_policy (sc_p st) (sc_p st') /\
  (p_min_segno (sc_p st') = p_min_segno (sc_p st) \/
   victim_candidate gc_type (sc_sbi st) (p_min_segno (sc_p st'))).
Proof.
  intros [Hu Ht Hfit Ho]. unfold scan_body, scan_step_spec. cbn zeta.
  set (sbi := sc_sbi st) in *. set (p := sc_p st) in *.
  set (segno := find_next_bit _ _ _).
  pose proof (find_next_bit_le (dirty_segmap sbi (p_dirty_segmap p))
                (TOTAL_SEGS sbi) (p_offset p)) as Hle. fold segno in Hle.
  destruct (Z.leb_spec (TOTAL_SEGS sbi) segno) as [Hge|Hlt].
  - destruct (Z.eqb_spec (last_victim sbi (p_gc_mode p)) 0) as [Hz|Hnz];
      cbn [negb]; intros E; inversion E; subst c st'; clear E; cbn.
    + split; [repeat split; auto|].
      split; [apply same_layout_refl|]. split; [repeat split|now left].
    + split; [repeat split; auto; destruct (p_gc_mode p); reflexivity|].
      split; [unfold same_layout; cbn; repeat split|].
      split; [repeat split|now left].
  - destruct (find_next_bit_found _ _ _ Hlt) as [Hoff Hbit]. fold segno in Hoff.
    destruct (next_offset_spec p segno (TOTAL_SEGS sbi) Hu ltac:(lia) Hfit)
      as [Hno Hadv].
    assert (Hskip : forall n,
      let st1 := mk_scan sbi (set_offset (next_offset p segno) p) n in
      (n = sc_nsearched st) ->
      (segno < TOTAL_SEGS sbi /\
       last_victim (sc_sbi st1) (p_gc_mode p) = last_victim sbi (p_gc_mode p) /\
       p_offset (sc_p st1)
       = Z.shiftl (Z.shiftr segno (p_log_ofs_unit p)) (p_log_ofs_unit p)
         + 2 ^ p_log_ofs_unit p /\
       p_offset p <= segno < p_offset (sc_p st1) /\
       (sc_nsearched st1 = sc_nsearched st \/
        sc_nsearched st < MAX_VICTIM_SEARCH /\
        sc_nsearched st1 = sc_nsearched st + 1)) /\
      same_layout sbi (sc_sbi st1) /\ same_policy p (sc_p st1) /\
      (p_min_segno (sc_p st1) = p_min_segno p \/
       victim_candidate gc_type sbi (p_min_segno (sc_p st1)))).
    { intros n st1 ->. subst st1. cbn.
      split; [repeat split; auto; lia|].
      split; [apply same_layout_refl|]. split; [repeat split|now left]. }
    destruct (test_bit segno (victim_segmap sbi FG_GC)) eqn:Hfg;
      [intros E; inversion E; subst c st'; apply Hskip; reflexivity|].
    destruct (gc_type_eqb gc_type BG_GC && test_bit segno (victim_segmap sbi BG_GC))
      eqn:Hbg;
      [intros E; inversion E; subst c st'; apply Hskip; reflexivity|].
    destruct (IS_CURSEC sbi (GET_SECNO sbi segno)) eqn:Hcur;
      [intros E; inversion E; subst c st'; apply Hskip; reflexivity|].
    assert (Hcand : victim_candidate gc_type sbi segno).
    { repeat split; auto; try lia. intros ->. cbn in Hbg. exact Hbg. }
    destruct (get_gc_cost sbi segno (set_offset (next_offset p segno) p))
      as [cost sbi1] eqn:Hcost.
    pose proof (get_gc_cost_frame sbi segno (set_offset (next_offset p segno) p))
      as [Hframe Hlv].
    rewrite Hcost in Hframe, Hlv. cbn [snd] in Hframe, Hlv.
    set (p1 := if cost <? _ then _ else _).
    assert (Hp1 : same_policy p p1 /\ p_offset p1 = next_offset p segno /\
                  (p_min_segno p1 = p_min_segno p \/
                   victim_candidate gc_type sbi (p_min_segno p1))).
    { subst p1. destruct (cost <? _); cbn;
        (split; [repeat split|split; [reflexivity|auto]]). }
    destruct Hp1 as (Hp1 & Hp1o & Hp1m).
    destruct (cost =? get_max_cost sbi1 p1).
    + intros E; inversion E; subst c st'; clear E. cbn.
      rewrite Hlv, Hp1o. split; [repeat split; auto; lia|].
      split; [exact Hframe|split; [exact Hp1|exact Hp1m]].
    + destruct (Z.leb_spec MAX_VICTIM_SEARCH (sc_nsearched st)) as [Hmax|Hmax];
        intros E; inversion E; subst c st'; clear E; cbn.
      * destruct Hp1 as (Ham & Hgm & Hdm & Hun). rewrite <- Hgm.
        split; [|split; [|split; [repeat split; assumption|assumption]]].
        -- repeat split; auto; try lia. destruct (p_gc_mode p); reflexivity.
        -- eapply same_layout_trans; [exact Hframe|].
           unfold same_layout; cbn; repeat split.
      * rewrite Hlv, Hp1o.
        split; [repeat split; auto; lia|].
      split; [exact Hframe|split; [exact Hp1|exact Hp1m]].
Qed.

End ScanProofs.

Section ScanRun.

Variable MAX_VICTIM_SEARCH : Z.
Variable gc_type : gc_type_t.

Lemma scan_body_continue st c st' :
  scan_wf st -> scan_body MAX_VICTIM_SEARCH gc_type st = (c, st') ->
  scan_continues c = true ->
  scan_wf st' /\ scan_measure st' < scan_measure st.
Proof.
  intros Hwf Hb Hc.
  destruct (scan_body_cases _ _ st c st' Hwf Hb) as (Hs & Hl & Hp & _).
  destruct Hwf as [Hu Ht Hfit Ho].
  destruct Hl as (_ & _ & _ & _ & Hms & _). destruct Hp as (_ & Hgm & _ & Hun).
  unfold scan_step_spec in Hs. cbn zeta in Hs.
  unfold scan_measure, TOTAL_SEGS in *. rewrite <- Hgm, <- Hms.
  destruct c; try discriminate.
  - destruct Hs as (Hge & Hnz & Hz & Hoff & _).
    split; [constructor; unfold TOTAL_SEGS; rewrite <- ?Hun, <- ?Hms; lia|].
    rewrite Hz, Hoff. apply Z.eqb_neq in Hnz. rewrite Hnz. cbn [Z.eqb]. lia.
  - destruct Hs as (Hlt & Hlv & Hoff & Hadv & _).
    split; [constructor; unfold TOTAL_SEGS; rewrite <- ?Hun, <- ?Hms; lia|].
    rewrite Hlv. lia.
Qed.

Lemma scan_measure_bound st :
  scan_wf st -> 1 <= scan_measure st <= 2 * TOTAL_SEGS (sc_sbi st) + 2.
Proof.
  intros [Hu Ht Hfit Ho]. unfold scan_measure.
  destruct (_ =? 0); lia.
Qed.

(** The scan ends within the iterations its measure counts. *)
Lemma scan_loop_total fuel st :
  scan_wf st -> scan_measure st <= Z.of_nat fuel ->
  exists cs st', scan_loop MAX_VICTIM_SEARCH fuel gc_type st = Some (cs, st').
Proof.
  revert st. induction fuel as [|fuel IH]; intros st Hwf Hm.
  - pose proof (scan_measure_bound st Hwf). lia.
  - cbn [scan_loop].
    destruct (scan_body MAX_VICTIM_SEARCH gc_type st) as [c st1] eqn:Hb.
    destruct (scan_continues c) eqn:Hc; [|eauto].
    destruct (scan_body_continue st c st1 Hwf Hb Hc) as [Hwf1 Hdec].
    destruct (IH st1 Hwf1 ltac:(lia)) as (cs & st' & ->). eauto.
Qed.

(** A property every iteration keeps holds when the scan ends. *)
Lemma scan_loop_invariant (P : scan_state -> Prop) :
  (forall s c s', scan_wf s -> P s ->
     scan_body MAX_VICTIM_SEARCH gc_type s = (c, s') -> P s') ->
  forall fuel st cs st',
    scan_wf st -> P st ->
    scan_loop MAX_VICTIM_SEARCH fuel gc_type st = Some (cs, st') -> P st'.
Proof.
  intros Hstep. induction fuel as [|fuel IH]; intros st cs st' Hwf HP;
    cbn [scan_loop]; [discriminate|].
  destruct (scan_body MAX_VICTIM_SEARCH gc_type st) as [c st1] eqn:Hb.
  pose proof (Hstep st c st1 Hwf HP Hb) as HP1.
  destruct (scan_continues c) eqn:Hc.
  - destruct (scan_body_continue st c st1 Hwf Hb Hc) as [Hwf1 _].
    destruct (scan_loop MAX_VICTIM_SEARCH fuel gc_type st1)
      as [[cs1 st2]|] eqn:Hl; [|discriminate].
    intros E; inversion E; subst. eapply IH; eauto.
  - intros E; inversion E; subst. exact HP1.
Qed.





End ScanRun.

(** ** [get_victim_by_default] *)

Lemma victim_candidate_same gc_type a b segno :
  same_layout a b ->
  victim_candidate gc_type a segno -> victim_candidate gc_type b segno.
Proof.
  intros Hl (Hr & Hfg & Hbg & Hcur).
  pose proof (IS_CURSEC_same a b (GET_SECNO b segno) Hl) as Hc.
  destruct Hl as (_ & _ & Hs & _ & Hm & _ & _ & _ & Hv & _).
  unfold victim_candidate, TOTAL_SEGS, GET_SECNO in *.
  rewrite <- Hv, <- Hm, Hc, <- Hs. auto.
Qed.

Lemma same_layout_sym a b : same_layout a b -> same_layout b a.
Proof.
  unfold same_layout. intros H.
  repeat match goal with H : _ /\ _ |- _ => destruct H end.
  repeat split; congruence.
Qed.

Lemma same_policy_refl p : same_policy p p.
Proof. repeat split. Qed.

Lemma same_policy_trans p q r :
  same_policy p q -> same_policy q r -> same_policy p r.
Proof.
  unfold same_policy. intros H1 H2.
  repeat match goal with H : _ /\ _ |- _ => destruct H end.
  repeat split; congruence.
Qed.

Lemma select_policy_unit sbi gc_type type :
  p_log_ofs_unit (select_policy sbi gc_type type)
  = match p_alloc_mode (select_policy sbi gc_type type) with
    | LFS => log_segs_per_sec sbi
    | SSR => 0
    end.
Proof. destruct type; reflexivity. Qed.

Lemma initial_scan_wf sbi gc_type type :
  selector_wf sbi -> scan_wf (mk_scan sbi (initial_policy sbi gc_type type) 0).
Proof.
  intros [Hu Ht Hfit Hl].
  assert (0 < 2 ^ log_segs_per_sec sbi) by (apply Z.pow_pos_nonneg; lia).
  constructor; cbn; auto.
  - destruct type; cbn; lia.
  - destruct type; cbn; lia.
  - destruct type; cbn; apply Hl.
Qed.

Lemma check_bg_victims_spec sbi :
  selector_wf sbi ->
  let segno := find_next_bit (victim_segmap sbi BG_GC) (TOTAL_SEGS sbi) 0 in
  (segno < TOTAL_SEGS sbi /\ 0 <= segno /\ segno <> NULL_SEGNO /\
   test_bit segno (victim_segmap sbi BG_GC) = true /\
   (forall j, 0 <= j < segno -> test_bit j (victim_segmap sbi BG_GC) = false) /\
   check_bg_victims sbi
   = (segno, set_victim_segmap BG_GC
               (clear_bit segno (victim_segmap sbi BG_GC)) sbi)) \/
  (segno = TOTAL_SEGS sbi /\
   (forall j, 0 <= j < TOTAL_SEGS sbi ->
              test_bit j (victim_segmap sbi BG_GC) = false) /\
   check_bg_victims sbi = (NULL_SEGNO, sbi)).
Proof.
  intros [Hu Ht Hfit Hl]. cbn zeta. unfold check_bg_victims.
  assert (0 < 2 ^ log_segs_per_sec sbi) by (apply Z.pow_pos_nonneg; lia).
  pose proof (find_next_bit_le (victim_segmap sbi BG_GC) (TOTAL_SEGS sbi) 0) as Hle.
  destruct (Z.ltb_spec (find_next_bit (victim_segmap sbi BG_GC) (TOTAL_SEGS sbi) 0)
              (TOTAL_SEGS sbi)) as [Hlt|Hge].
  - left. destruct (find_next_bit_found _ _ _ Hlt) as [H0 Hb].
    repeat split; auto.
    + unfold NULL_SEGNO, UINT_MAX. lia.
    + intros j Hj. apply (find_next_bit_first _ (TOTAL_SEGS sbi) 0). lia.
  - right. repeat split; [lia|].
    intros j Hj. apply (find_next_bit_first _ (TOTAL_SEGS sbi) 0). lia.
Qed.

Lemma set_victim_bits_spec result count map j :
  0 <= result -> 0 <= count -> result + count <= 2 ^ 32 ->
  test_bit j (set_victim_bits result count map)
  = ((result <=? j) && (j <? result + count)) || test_bit j map.
Proof.
  intros Hr Hc Hfit. unfold set_victim_bits.
  rewrite <- (Z2Nat.id count) in Hfit |- * by lia.
  rewrite Nat2Z.id.
  induction (Z.to_nat count) as [|n IH].
  - cbn. destruct (Z.leb_spec result j), (Z.ltb_spec j (result + 0)); cbn; auto; lia.
  - rewrite seq_S, fold_left_app. cbn [fold_left Nat.add].
    rewrite (u32_small (result + Z.of_nat n)) by lia.
    rewrite test_set_bit by lia. rewrite IH by lia.
    destruct (Z.eqb_spec j (result + Z.of_nat n)), (Z.leb_spec result j),
      (Z.ltb_spec j (result + Z.of_nat n)),
      (Z.ltb_spec j (result + Z.of_nat (S n))); cbn; auto; lia.
Qed.

Lemma scan_body_last_victim MAX_VICTIM_SEARCH gc_type st c st' :
  scan_wf st -> (forall m, 0 <= last_victim (sc_sbi st) m) ->
  scan_body MAX_VICTIM_SEARCH gc_type st = (c, st') ->
  forall m, 0 <= last_victim (sc_sbi st') m.
Proof.
  intros [Hu Ht Hfit Ho] Hl. unfold scan_body. cbn zeta.
  set (sbi := sc_sbi st) in *. set (p := sc_p st) in *.
  set (segno := find_next_bit _ _ _).
  destruct (Z.leb_spec (TOTAL_SEGS sbi) segno) as [Hge|Hlt].
  - destruct (negb _); intros E; inversion E; subst; cbn; auto.
    intros m. destruct (gc_mode_eqb m (p_gc_mode p)); auto; lia.
  - destruct (find_next_bit_found _ _ _ Hlt) as [Hoff _]. fold segno in Hoff.
    destruct (test_bit segno (victim_segmap sbi FG_GC));
      [intros E; inversion E; subst; cbn; auto|].
    destruct (gc_type_eqb gc_type BG_GC && _);
      [intros E; inversion E; subst; cbn; auto|].
    destruct (IS_CURSEC sbi (GET_SECNO sbi segno));
      [intros E; inversion E; subst; cbn; auto|].
    destruct (get_gc_cost sbi segno (set_offset (next_offset p segno) p))
      as [cost sbi1] eqn:Hcost.
    pose proof (get_gc_cost_frame sbi segno (set_offset (next_offset p segno) p))
      as [_ Hlv].
    rewrite Hcost in Hlv. cbn [snd] in Hlv.
    set (p1 := if cost <? _ then _ else _).
    destruct (cost =? get_max_cost sbi1 p1);
      [intros E; inversion E; subst; cbn; rewrite Hlv; auto|].
    destruct (MAX_VICTIM_SEARCH <=? sc_nsearched st);
      intros E; inversion E; subst; cbn; [|rewrite Hlv; auto].
    intros m. destruct (gc_mode_eqb m (p_gc_mode p1)); [lia|].
    rewrite Hlv. auto.
Qed.

Lemma selector_wf_same a b :
  same_layout a b -> (forall m, 0 <= last_victim b m) ->
  selector_wf a -> selector_wf b.
Proof.
  intros (_ & _ & Hs & _ & Hm & _) Hl [Hu Ht Hfit _].
  constructor; unfold TOTAL_SEGS in *; rewrite <- ?Hs, <- ?Hm; auto.
Qed.

Section Selector.

Variable MAX_VICTIM_SEARCH : Z.

(** The call always returns, and what it returns comes from [got_it] on a
    minimum found either by the fast path of the foreground collector or by
    the scan. *)
Lemma get_victim_by_default_inv sbi result gc_type type :
  selector_wf sbi ->
  exists sbi_m p,
    get_victim_by_default MAX_VICTIM_SEARCH sbi result gc_type type
    = Some (got_it gc_type result sbi_m p) /\
    same_policy (select_policy sbi gc_type type) p /\
    selector_wf sbi_m /\
    ((p_alloc_mode p = LFS /\ gc_type = FG_GC /\
      check_bg_victims sbi = (p_min_segno p, sbi_m) /\
      p_min_segno p <> NULL_SEGNO)
     \/
     (same_layout sbi sbi_m /\
      (p_min_segno p = NULL_SEGNO \/
       victim_candidate gc_type sbi (p_min_segno p)) /\
      (p_alloc_mode p = LFS -> gc_type = FG_GC ->
       check_bg_victims sbi = (NULL_SEGNO, sbi)))).
Proof.
  intros Hwf. unfold get_victim_by_default.
  fold (initial_policy sbi gc_type type).
  set (p0 := initial_policy sbi gc_type type).
  assert (Hp0 : same_policy (select_policy sbi gc_type type) p0)
    by (repeat split).
  assert (Hscan :
    exists sbi_m p,
      match scan_loop MAX_VICTIM_SEARCH (scan_fuel sbi) gc_type (mk_scan sbi p0 0) with
      | Some (_, st) => Some (got_it gc_type result (sc_sbi st) (sc_p st))
      | None => None
      end = Some (got_it gc_type result sbi_m p) /\
      same_policy (select_policy sbi gc_type type) p /\
      same_layout sbi sbi_m /\
      (p_min_segno p = NULL_SEGNO \/ victim_candidate gc_type sbi (p_min_segno p)) /\
      selector_wf sbi_m).
  { pose proof (initial_scan_wf sbi gc_type type Hwf) as Hwf0. fold p0 in Hwf0.
    destruct (scan_loop_total MAX_VICTIM_SEARCH gc_type (scan_fuel sbi) _ Hwf0)
      as (cs & st' & Hl).
    { pose proof (scan_measure_bound _ Hwf0). destruct Hwf.
      unfold scan_fuel. cbn [sc_sbi] in *. lia. }
    rewrite Hl. exists (sc_sbi st'), (sc_p st'). split; [reflexivity|].
    pose proof (scan_loop_invariant MAX_VICTIM_SEARCH gc_type
      (fun s => same_policy p0 (sc_p s) /\ same_layout sbi (sc_sbi s) /\
                (p_min_segno (sc_p s) = NULL_SEGNO \/
                 victim_candidate gc_type sbi (p_min_segno (sc_p s))))) as Hinv.
    cbv beta in Hinv.
    assert (Hstep : forall s c s', scan_wf s ->
      same_policy p0 (sc_p s) /\ same_layout sbi (sc_sbi s) /\
      (p_min_segno (sc_p s) = NULL_SEGNO \/
       victim_candidate gc_type sbi (p_min_segno (sc_p s))) ->
      scan_body MAX_VICTIM_SEARCH gc_type s = (c, s') ->
      same_policy p0 (sc_p s') /\ same_layout sbi (sc_sbi s') /\
      (p_min_segno (sc_p s') = NULL_SEGNO \/
       victim_candidate gc_type sbi (p_min_segno (sc_p s')))).
    { intros s c s' Hs (HP & HL & HM) Hb.
      destruct (scan_body_cases _ _ s c s' Hs Hb) as (_ & Hl1 & Hp1 & Hm1).
      split; [exact (same_policy_trans _ _ _ HP Hp1)|].
      split; [exact (same_layout_trans _ _ _ HL Hl1)|].
      destruct Hm1 as [->|Hc]; [exact HM|].
      right. eapply victim_candidate_same; [|exact Hc].
      now apply same_layout_sym. }
    assert (Hinit : same_policy p0 p0 /\ same_layout sbi sbi /\
      (p_min_segno p0 = NULL_SEGNO \/
       victim_candidate gc_type sbi (p_min_segno p0))).
    { split; [apply same_policy_refl|].
      split; [apply same_layout_refl|]. left. reflexivity. }
    destruct (Hinv Hstep (scan_fuel sbi) (mk_scan sbi p0 0) cs st' Hwf0 Hinit Hl)
      as (Hp & Hl' & Hm).
    split; [exact (same_policy_trans _ _ _ Hp0 Hp)|].
    split; [exact Hl'|]. split; [exact Hm|].
    apply (selector_wf_same sbi); auto.
    apply (scan_loop_invariant MAX_VICTIM_SEARCH gc_type
             (fun s => forall m, 0 <= last_victim (sc_sbi s) m))
      with (fuel := scan_fuel sbi) (st := mk_scan sbi p0 0) (cs := cs); auto.
    - intros s c s' Hs HP Hb. eapply scan_body_last_victim; eauto.
    - apply Hwf. }
  destruct (alloc_mode_eqb (p_alloc_mode p0) LFS && gc_type_eqb gc_type FG_GC)
    eqn:Hfast.
  - apply andb_prop in Hfast as [Ha Hg].
    assert (Halloc : p_alloc_mode p0 = LFS)
      by (destruct (p_alloc_mode p0); auto; discriminate).
    assert (Hfg : gc_type = FG_GC) by (destruct gc_type; auto; discriminate).
    destruct (check_bg_victims_spec sbi Hwf)
      as [(Hlt & Hge0 & Hnn & Hb & Hf & ->)|(Hn & Hf & ->)].
    + apply Z.eqb_neq in Hnn. rewrite Hnn. cbn [negb].
      eexists _, _. split; [reflexivity|]. split; [repeat split|].
      split; [destruct Hwf; constructor; auto|].
      left. cbn. apply Z.eqb_neq in Hnn. auto.
    + rewrite Z.eqb_refl. cbn [negb].
      replace (set_min_segno NULL_SEGNO p0) with p0 by reflexivity.
      destruct Hscan as (sbi_m & p & He & Hp & Hl & Hm & Hw).
      exists sbi_m, p. split; [exact He|]. split; [exact Hp|].
      split; [exact Hw|]. right. auto.
  - destruct Hscan as (sbi_m & p & He & Hp & Hl & Hm & Hw).
    exists sbi_m, p. split; [exact He|]. split; [exact Hp|].
    split; [exact Hw|]. right.
    split; [exact Hl|]. split; [exact Hm|].
    intros Ha ->. destruct Hp as (Hpa & _). 
    replace (p_alloc_mode p0) with (p_alloc_mode (select_policy sbi FG_GC type))
      in Hfast by reflexivity.
    rewrite Hpa, Ha in Hfast. discriminate.
Qed.

End Selector.

Lemma align_down_idem x k :
  0 <= k ->
  Z.shiftr (Z.shiftl (Z.shiftr x k) k) k = Z.shiftr x k.
Proof.
  intros Hk. rewrite Z.shiftr_shiftl_l by lia.
  now rewrite Z.sub_diag, Z.shiftl_0_r.
Qed.

(** What the code at [got_it] returns for a minimum that is a segment of
    the main area. *)
Lemma got_it_found gc_type result sbi p :
  0 <= p_log_ofs_unit p -> 0 <= p_min_segno p < TOTAL_SEGS sbi ->
  TOTAL_SEGS sbi + 2 ^ p_log_ofs_unit p <= 2 ^ 32 ->
  let r := Z.shiftl (Z.shiftr (p_min_segno p) (p_log_ofs_unit p))
             (p_log_ofs_unit p) in
  got_it gc_type result sbi p
  = (1, r,
     match p_alloc_mode p with
     | LFS =>
         set_victim_segmap gc_type
           (set_victim_bits r (2 ^ p_log_ofs_unit p) (victim_segmap sbi gc_type))
           sbi
     | SSR => sbi
     end).
Proof.
  intros Hu Hm Hfit. cbn zeta. unfold got_it.
  assert (0 < 2 ^ p_log_ofs_unit p) by (apply Z.pow_pos_nonneg; lia).
  assert (Hn : p_min_segno p <> NULL_SEGNO) by (unfold NULL_SEGNO, UINT_MAX; lia).
  apply Z.eqb_neq in Hn. rewrite Hn. cbn [negb].
  pose proof (align_down_range (p_min_segno p) (p_log_ofs_unit p) Hu ltac:(lia)).
  rewrite u32_small by lia. now rewrite shiftl_1 by lia.
Qed.

Lemma got_it_none gc_type result sbi p :
  p_min_segno p = NULL_SEGNO -> got_it gc_type result sbi p = (0, result, sbi).
Proof. intros H. unfold got_it. rewrite H, Z.eqb_refl. reflexivity. Qed.

Section SelectorProperties.

Variable MAX_VICTIM_SEARCH : Z.

(** The call returns from every state the selector works on. *)
Lemma get_victim_by_default_returns sbi result gc_type type :
  selector_wf sbi ->
  exists found segno sbi',
    get_victim_by_default MAX_VICTIM_SEARCH sbi result gc_type type
    = Some (found, segno, sbi').
Proof.
  intros Hwf.
  destruct (get_victim_by_default_inv MAX_VICTIM_SEARCH sbi result gc_type type Hwf)
    as (sbi_m & p & He & _).
  destruct (got_it gc_type result sbi_m p) as [[found segno] sbi'].
  eauto.
Qed.

(** A successful call, taken apart: the minimum [m] it found, the state
    [sbi_m] in which it reached [got_it], and the path it took. *)
Lemma get_victim_success sbi result gc_type type r sbi' :
  selector_wf sbi ->
  get_victim_by_default MAX_VICTIM_SEARCH sbi result gc_type type
  = Some (1, r, sbi') ->
  exists sbi_m p,
    let u := p_log_ofs_unit p in
    let m := p_min_segno p in
    same_policy (select_policy sbi gc_type type) p /\
    selector_wf sbi_m /\
    0 <= m < TOTAL_SEGS sbi /\
    r = Z.shiftl (Z.shiftr m u) u /\
    sbi' = match p_alloc_mode p with
           | LFS =>
               set_victim_segmap gc_type
                 (set_victim_bits r (2 ^ u) (victim_segmap sbi_m gc_type)) sbi_m
           | SSR => sbi_m
           end /\
    ((p_alloc_mode p = LFS /\ gc_type = FG_GC /\
      m = find_next_bit (victim_segmap sbi BG_GC) (TOTAL_SEGS sbi) 0 /\
      (forall j, 0 <= j < m -> test_bit j (victim_segmap sbi BG_GC) = false) /\
      sbi_m = set_victim_segmap BG_GC (clear_bit m (victim_segmap sbi BG_GC)) sbi)
     \/
     (same_layout sbi sbi_m /\ victim_candidate gc_type sbi m /\
      (p_alloc_mode p = LFS -> gc_type = FG_GC ->
       check_bg_victims sbi = (NULL_SEGNO, sbi)))).
Proof.
  intros Hwf Hg.
  destruct (get_victim_by_default_inv MAX_VICTIM_SEARCH sbi result gc_type type Hwf)
    as (sbi_m & p & He & Hp & Hwm & Hpath).
  rewrite He in Hg. injection Hg as Hg.
  exists sbi_m, p. cbn zeta.
  assert (Hunit : 0 <= p_log_ofs_unit p /\
                  TOTAL_SEGS sbi + 2 ^ p_log_ofs_unit p <= 2 ^ 32).
  { destruct Hp as (Ha & _ & _ & Hu). rewrite <- Hu, select_policy_unit.
    destruct Hwf as [Hs Ht Hfit _].
    assert (0 < 2 ^ log_segs_per_sec sbi) by (apply Z.pow_pos_nonneg; lia).
    destruct (p_alloc_mode _); cbn; lia. }
  assert (Hm : 0 <= p_min_segno p < TOTAL_SEGS sbi /\
               TOTAL_SEGS sbi_m = TOTAL_SEGS sbi).
  { destruct Hpath as [(Ha & Hfg & Hc & Hn)|(Hl & [Hn|Hc] & _)].
    - destruct (check_bg_victims_spec sbi Hwf)
        as [(Hlt & H0 & _ & _ & _ & Hcb)|(_ & _ & Hcb)];
        rewrite Hcb in Hc; injection Hc as Hc1 Hc2.
      + subst sbi_m. split; [lia|reflexivity].
      + congruence.
    - rewrite got_it_none in Hg by exact Hn. discriminate.
    - destruct Hc as (Hr & _). split; [exact Hr|].
      unfold TOTAL_SEGS. symmetry. apply Hl. }
  destruct Hm as [Hm Ht].
  rewrite got_it_found in Hg by (rewrite ?Ht; lia).
  injection Hg as Hr Hs.
  split; [exact Hp|]. split; [exact Hwm|]. split; [exact Hm|].
  split; [auto|]. split; [subst r; auto|].
  destruct Hpath as [(Ha & Hfg & Hc & Hn)|(Hl & [Hn|Hc] & Hnb)].
  - left. destruct (check_bg_victims_spec sbi Hwf)
      as [(Hlt & H0 & _ & _ & Hf & Hcb)|(_ & _ & Hcb)];
      rewrite Hcb in Hc; injection Hc as Hc1 Hc2; [|congruence].
    rewrite <- Hc1. auto.
  - unfold NULL_SEGNO, UINT_MAX in Hn. destruct Hwf as [Hs' Ht' Hfit _].
    assert (0 < 2 ^ log_segs_per_sec sbi) by (apply Z.pow_pos_nonneg; lia). lia.
  - right. auto.
Qed.

(** C3: whenever [get_victim_by_default] succeeds with [alloc_mode = LFS],
    the segment number it returns is the first of its section, and every
    segment number from it up to the end of the section has its bit set in
    [victim_segmap[gc_type]] on return. *)
Theorem get_victim_lfs_claims_section sbi result gc_type type r sbi' :
  selector_wf sbi ->
  p_alloc_mode (select_policy sbi gc_type type) = LFS ->
  get_victim_by_default MAX_VICTIM_SEARCH sbi result gc_type type
  = Some (1, r, sbi') ->
  Z.shiftl (GET_SECNO sbi r) (log_segs_per_sec sbi) = r /\
  forall i, r <= i < r + 2 ^ log_segs_per_sec sbi ->
            test_bit i (victim_segmap sbi' gc_type) = true.
Proof.
  intros Hwf Hlfs Hg.
  destruct (get_victim_success sbi result gc_type type r sbi' Hwf Hg)
    as (sbi_m & p & Hp & Hwm & Hm & Hr & Hs & _). cbn zeta in *.
  destruct Hp as (Ha & _ & _ & Hu).
  rewrite select_policy_unit, Hlfs in Hu. rewrite <- Ha, Hlfs in Hs.
  rewrite <- Hu in *.
  destruct Hwf as [Hs0 Ht Hfit _].
  pose proof (align_down_range (p_min_segno p) (log_segs_per_sec sbi) Hs0
                ltac:(lia)) as Hal. rewrite <- Hr in Hal.
  split.
  - unfold GET_SECNO. rewrite Hr. now rewrite align_down_idem by lia.
  - intros i Hi. subst sbi'. cbn.
    replace (gc_type_eqb gc_type gc_type) with true by (destruct gc_type; reflexivity).
    assert (0 < 2 ^ log_segs_per_sec sbi) by (apply Z.pow_pos_nonneg; lia).
    rewrite set_victim_bits_spec by lia.
    destruct (Z.leb_spec r i), (Z.ltb_spec i (r + 2 ^ log_segs_per_sec sbi));
      cbn; auto; lia.
Qed.

(** The scan never keeps a segment of a current section: a successful call
    that does not take the fast path of the foreground collector returns a
    segment whose section holds no current segment. *)
Lemma get_victim_scan_avoids_cursec sbi result gc_type type r sbi' :
  selector_wf sbi ->
  get_victim_by_default MAX_VICTIM_SEARCH sbi result gc_type type
  = Some (1, r, sbi') ->
  (p_alloc_mode (select_policy sbi gc_type type) = LFS -> gc_type = FG_GC ->
   fst (check_bg_victims sbi) = NULL_SEGNO) ->
  IS_CURSEC sbi' (GET_SECNO sbi' r) = false.
Proof.
  intros Hwf Hg Hscan.
  destruct (get_victim_success sbi result gc_type type r sbi' Hwf Hg)
    as (sbi_m & p & Hp & Hwm & Hm & Hr & Hs & Hpath). cbn zeta in *.
  destruct Hp as (Ha & _ & _ & Hu).
  destruct Hpath as [(Hlfs & Hfg & Hfind & _ & _)|(Hl & Hc & _)].
  - exfalso. rewrite Ha in Hscan. specialize (Hscan Hlfs Hfg).
    destruct (check_bg_victims_spec sbi Hwf)
      as [(Hlt & H0 & Hn & _ & _ & Hcb)|(Heq & _ & _)].
    + rewrite Hcb in Hscan. cbn [fst] in Hscan. congruence.
    + rewrite <- Hfind in Heq. lia.
  - destruct Hc as (_ & _ & _ & Hcur).
    destruct Hl as (_ & _ & Hls & _ & _ & _ & _ & _ & _ & Hlc).
    assert (Hgeo : log_segs_per_sec sbi' = log_segs_per_sec sbi /\
                   curseg_segno sbi' = curseg_segno sbi).
    { subst sbi'. destruct (p_alloc_mode p); cbn; split; congruence. }
    destruct Hgeo as [Hgs Hgc].
    assert (Hsec : GET_SECNO sbi' r = GET_SECNO sbi (p_min_segno p)).
    { unfold GET_SECNO. rewrite Hgs, Hr, <- Hu, select_policy_unit.
      destruct Hwf as [Hs0 _ _ _].
      destruct (p_alloc_mode (select_policy sbi gc_type type)).
      - now rewrite align_down_idem by lia.
      - now rewrite Z.shiftr_0_r, Z.shiftl_0_r. }
    rewrite Hsec, <- Hcur. unfold IS_CURSEC, GET_SECNO. now rewrite Hgs, Hgc.
Qed.

End SelectorProperties.

Section HandOver.

Variable MAX_VICTIM_SEARCH : Z.

Lemma get_victim_keeps_wf sbi result gc_type type r sbi' :
  selector_wf sbi ->
  get_victim_by_default MAX_VICTIM_SEARCH sbi result gc_type type
  = Some (1, r, sbi') ->
  selector_wf sbi'.
Proof.
  intros Hwf Hg.
  destruct (get_victim_success _ sbi result gc_type type r sbi' Hwf Hg)
    as (sbi_m & p & _ & Hwm & _ & _ & Hs & _). cbn zeta in *.
  subst sbi'. destruct (p_alloc_mode p); [|exact Hwm].
  destruct Hwm. constructor; auto.
Qed.

(** C5 (amended): after a background selection has claimed a section,
    setting its [2^s] bits in [victim_segmap[BG]], a foreground selection
    that takes the fast path and returns that section clears one bit only,
    the bit of the first segment of the section: over the pair,
    [victim_segmap[BG]] keeps its value at every other segment outside the
    section and has the bits of the [2^s - 1] other segments of the section
    set.  It is equal to its value before the background selection when a
    section is one segment ([s = 0]). *)
Theorem bg_victim_taken_by_fg sbi0 res0 res1 r sbi1 sbi2 :
  selector_wf sbi0 ->
  get_victim_by_default MAX_VICTIM_SEARCH sbi0 res0 BG_GC NO_CHECK_TYPE
  = Some (1, r, sbi1) ->
  get_victim_by_default MAX_VICTIM_SEARCH sbi1 res1 FG_GC NO_CHECK_TYPE
  = Some (1, r, sbi2) ->
  (forall i,
     test_bit i (victim_segmap sbi2 BG_GC)
     = if i =? r then false
       else if (r <? i) && (i <? r + 2 ^ log_segs_per_sec sbi0) then true
       else test_bit i (victim_segmap sbi0 BG_GC)) /\
  (log_segs_per_sec sbi0 = 0 ->
   victim_segmap sbi2 BG_GC = victim_segmap sbi0 BG_GC).
Proof.
  intros Hwf Hbg Hfg.
  pose proof (get_victim_keeps_wf _ _ _ _ _ _ Hwf Hbg) as Hwf1.
  destruct (get_victim_success _ _ _ _ _ _ _ Hwf Hbg)
    as (sbi_m & p & Hp & Hwm & Hm & Hr & Hs1 & Hpath). cbn zeta in *.
  destruct Hpath as [(_ & Habs & _)|(Hl & Hc & _)]; [discriminate|].
  destruct Hp as (Ha & _ & _ & Hu). cbn in Ha, Hu.
  rewrite <- Ha in Hs1. rewrite <- Hu in Hr, Hs1.
  set (s := log_segs_per_sec sbi0) in *.
  destruct Hwf as [Hs0 Ht Hfit _]. fold s in Hs0, Hfit.
  assert (Hpow : 0 < 2 ^ s) by (apply Z.pow_pos_nonneg; lia).
  pose proof (align_down_range (p_min_segno p) s Hs0 ltac:(lia)) as Hal.
  rewrite <- Hr in Hal.
  assert (Hv0 : victim_segmap sbi_m BG_GC = victim_segmap sbi0 BG_GC).
  { destruct Hl as (_ & _ & _ & _ & _ & _ & _ & _ & Hv & _). now rewrite Hv. }
  assert (Hgeo1 : TOTAL_SEGS sbi1 = TOTAL_SEGS sbi0 /\ log_segs_per_sec sbi1 = s).
  { subst sbi1. destruct Hl as (_ & _ & Hls & _ & Hlm & _).
    split; [unfold TOTAL_SEGS; cbn; congruence|cbn; unfold s; congruence]. }
  destruct Hgeo1 as [Ht1 Hs1'].
  assert (Hv1 : forall i, test_bit i (victim_segmap sbi1 BG_GC)
                = ((r <=? i) && (i <? r + 2 ^ s))
                  || test_bit i (victim_segmap sbi0 BG_GC)).
  { intros i. subst sbi1. cbn. rewrite set_victim_bits_spec by lia.
    now rewrite Hv0. }
  destruct (get_victim_success _ _ _ _ _ _ _ Hwf1 Hfg)
    as (sbi_n & q & Hq & Hwn & Hn & Hr2 & Hs2 & Hpath). cbn zeta in *.
  destruct Hq as (Hqa & _ & _ & Hqu). cbn in Hqa, Hqu.
  rewrite <- Hqa in Hs2. rewrite <- Hqu in Hr2, Hs2. rewrite Hs1' in Hr2, Hs2.
  rewrite Ht1 in Hn.
  destruct Hpath as [(_ & _ & Hfind & Hlow & Hsn)|(_ & _ & Hnone)].
  2:{ exfalso. specialize (Hnone (eq_sym Hqa) eq_refl).
      destruct (check_bg_victims_spec sbi1 Hwf1)
        as [(_ & _ & Hne & _ & _ & Hcb)|(_ & Hall & _)].
      - rewrite Hcb in Hnone. injection Hnone as Hx _. contradiction.
      - specialize (Hall r ltac:(lia)). rewrite Hv1 in Hall.
        destruct (Z.leb_spec r r), (Z.ltb_spec r (r + 2 ^ s)); cbn in Hall;
          try discriminate; lia. }
  pose proof (align_down_range (p_min_segno q) s Hs0 ltac:(lia)) as Hal2.
  rewrite <- Hr2 in Hal2.
  assert (Hqr : p_min_segno q = r).
  { destruct (Z_lt_le_dec r (p_min_segno q)) as [Hlt|Hge]; [|lia].
    specialize (Hlow r ltac:(lia)). rewrite Hv1 in Hlow.
    destruct (Z.leb_spec r r), (Z.ltb_spec r (r + 2 ^ s)); cbn in Hlow;
      try discriminate; lia. }
  rewrite Hqr in Hsn.
  assert (Hbits : forall i,
     test_bit i (victim_segmap sbi2 BG_GC)
     = if i =? r then false
       else if (r <? i) && (i <? r + 2 ^ s) then true
       else test_bit i (victim_segmap sbi0 BG_GC)).
  { intros i. subst sbi2 sbi_n. cbn. rewrite test_clear_bit by lia.
    rewrite Hv1.
    destruct (Z.eqb_spec i r), (Z.leb_spec r i), (Z.ltb_spec r i),
      (Z.ltb_spec i (r + 2 ^ s)); cbn; try lia; auto using andb_true_r, andb_false_r.
    all: now rewrite ?andb_true_r, ?andb_false_r. }
  split; [exact Hbits|].
  intros Hz. apply Z.bits_inj'. intros i Hi.
  fold (test_bit i (victim_segmap sbi2 BG_GC)).
  fold (test_bit i (victim_segmap sbi0 BG_GC)).
  rewrite Hbits, Hz, Z.pow_0_r.
  destruct (Z.eqb_spec i r) as [->|Hne].
  - destruct Hc as (_ & _ & Hnb & _).
    rewrite Hr, Hz, Z.shiftr_0_r, Z.shiftl_0_r. symmetry. now apply Hnb.
  - destruct (Z.ltb_spec r i), (Z.ltb_spec i (r + 1)); cbn; auto; lia.
Qed.

End HandOver.

(** ** The collector *)

Section CollectorProofs.

Variables (K inode page : Type).
Variable inode_eq_dec : forall a b : inode, {a = b} + {a <> b}.
Variable ops : kernel_ops K inode page.

Lemma post_ret {A} (a : A) (Q : A -> Prop) :
  Q a -> post (K := K) (inode := inode) (ret a) Q.
Proof. intros H w. exact H. Qed.

Lemma post_bind {A B} (m : M K inode A) (f : A -> M K inode B) (R : A -> Prop)
    (Q : B -> Prop) :
  post m R -> (forall a, R a -> post (f a) Q) -> post (bind m f) Q.
Proof.
  intros Hm Hf w. unfold bind. specialize (Hm w).
  destruct (m w) as [[a w1] t1]. cbn in Hm.
  specialize (Hf a Hm w1). destruct (f a w1) as [[b w2] t2]. exact Hf.
Qed.

Lemma post_any {A} (m : M K inode A) : post m (fun _ => True).
Proof. intros w. exact I. Qed.

Lemma post_weaken {A} (m : M K inode A) (P Q : A -> Prop) :
  post m P -> (forall a, P a -> Q a) -> post m Q.
Proof. intros H HPQ w. apply HPQ, H. Qed.

(** *** The list of pinned inodes *)

Lemma gc_inode_listed_In i ilist :
  gc_inode_listed inode_eq_dec i ilist = true <-> In i (pinned ilist).
Proof.
  induction ilist as [|ie rest IH]; cbn.
  - split; [discriminate|tauto].
  - destruct (inode_eq_dec (ie_inode ie) i) as [->|Hne].
    + split; auto.
    + rewrite IH. split; [auto|]. intros [H|H]; [contradiction|exact H].
Qed.

Lemma alloc_inode_entry_trace n w :
  snd (alloc_inode_entry ops n w) = [].
Proof.
  revert w. induction n as [|n IH]; intros w; [reflexivity|].
  cbn [alloc_inode_entry]. unfold bind, exec.
  specialize (IH (cond_resched ops (kmem_cache_alloc ops w))).
  destruct (alloc_inode_entry ops n _) as [[u w'] t]. cbn in *. now subst t.
Qed.

Lemma add_gc_inode_listed i ilist w :
  In i (pinned ilist) ->
  add_gc_inode inode_eq_dec ops i ilist w
  = (ilist, iput_inode ops i w, [Release i]).
Proof.
  intros Hin. apply gc_inode_listed_In in Hin.
  unfold add_gc_inode. rewrite Hin. reflexivity.
Qed.

Lemma add_gc_inode_fresh i ilist w :
  ~ In i (pinned ilist) ->
  fst (fst (add_gc_inode inode_eq_dec ops i ilist w))
  = ilist ++ [mk_inode_entry i] /\
  snd (add_gc_inode inode_eq_dec ops i ilist w) = [].
Proof.
  intros Hin. unfold add_gc_inode.
  destruct (gc_inode_listed inode_eq_dec i ilist) eqn:Hl;
    [apply gc_inode_listed_In in Hl; contradiction|].
  unfold bind, read, ret.
  pose proof (alloc_inode_entry_trace (winode_alloc_failures ops w) w) as Ht.
  destruct (alloc_inode_entry ops _ w) as [[u w'] t]. cbn in *.
  subst t. auto.
Qed.

Lemma add_gc_inode_NoDup i ilist :
  NoDup (pinned ilist) ->
  post (add_gc_inode inode_eq_dec ops i ilist) (fun l => NoDup (pinned l)).
Proof.
  intros Hnd w. destruct (in_dec inode_eq_dec i (pinned ilist)) as [Hin|Hin].
  - rewrite add_gc_inode_listed by exact Hin. exact Hnd.
  - destruct (add_gc_inode_fresh i ilist w Hin) as [-> _].
    unfold pinned. rewrite map_app. cbn.
    apply NoDup_app; [exact Hnd|repeat constructor; intros []|].
    intros x Hx [<-|[]]. contradiction.
Qed.

(** C8: adding an inode that is already in the list leaves the list as it
    is and drops the reference the caller holds, without a new entry; so
    adding the same inode twice gives the list that adding it once gives. *)
Theorem add_gc_inode_idempotent (i : inode) (ilist : list (inode_entry inode))
    (w w' : world K) :
  (In i (pinned ilist) ->
   add_gc_inode inode_eq_dec ops i ilist w
   = (ilist, iput_inode ops i w, [Release i])) /\
  (let once := fst (fst (add_gc_inode inode_eq_dec ops i ilist w)) in
   In i (pinned once) /\
   fst (fst (add_gc_inode inode_eq_dec ops i once w')) = once).
Proof.
  split; [apply add_gc_inode_listed|]. cbn zeta.
  assert (Hin : In i (pinned (fst (fst (add_gc_inode inode_eq_dec ops i ilist w))))).
  { destruct (in_dec inode_eq_dec i (pinned ilist)) as [Hin|Hin].
    - rewrite add_gc_inode_listed by exact Hin. exact Hin.
    - destruct (add_gc_inode_fresh i ilist w Hin) as [-> _].
      unfold pinned. rewrite map_app. apply in_or_app. right. now left. }
  split; [exact Hin|]. now rewrite add_gc_inode_listed.
Qed.

Lemma list_del_head ie rest :
  list_del inode_eq_dec ie (ie :: rest) = rest.
Proof.
  cbn. destruct (inode_eq_dec (ie_inode ie) (ie_inode ie)); congruence.
Qed.

(** [put_gc_inode] drops one reference for each entry, in the order of the
    list, and leaves the list empty. *)
Lemma put_gc_inode_spec ilist w :
  fst (fst (put_gc_inode inode_eq_dec ops ilist w)) = [] /\
  snd (put_gc_inode inode_eq_dec ops ilist w)
  = map Release (pinned ilist).
Proof.
  unfold put_gc_inode. revert w.
  induction ilist as [|ie rest IH]; intros w; [split; reflexivity|].
  cbn [put_gc_inode_from]. rewrite list_del_head.
  unfold bind, iput, exec.
  specialize (IH (kmem_cache_free ops (iput_inode ops (ie_inode ie) w))).
  destruct (put_gc_inode_from inode_eq_dec ops rest rest _) as [[l w'] t].
  cbn in *. destruct IH as [-> ->]. split; reflexivity.
Qed.


(** *** What the evacuators return *)

Variable i_ino : inode -> Z.
Variables NIDS_PER_BLOCK ADDRS_PER_BLOCK ADDRS_PER_INODE : Z.

Lemma check_valid_map_post segno off :
  post (check_valid_map ops segno off) (fun r => r = GC_OK \/ r = GC_NEXT).
Proof.
  intros w. unfold check_valid_map, bind, read, ret. cbn.
  destruct (negb _); auto.
Qed.

Ltac post_ext := eapply post_bind; [apply post_any|]; intros ? _.
Tactic Notation "post_ext_as" ident(x) :=
  eapply post_bind; [apply post_any|]; intros x _.

Ltac post_auto :=
  repeat first
    [ apply post_ret
    | match goal with
      | |- post (bind _ _) _ => post_ext
      | |- post (if ?b then _ else _) _ => destruct b
      | |- post (match ?x with _ => _ end) _ => destruct x
      end ].

Lemma check_dnode_post sum dni blkaddr nofs :
  post (check_dnode ops sum dni blkaddr nofs)
    (fun r => fst (fst r) = GC_OK \/ fst (fst r) = GC_NEXT).
Proof. unfold check_dnode. post_auto; cbn; auto. Qed.

Lemma gc_node_pass_post n off initial sum segno :
  post (gc_node_pass ops n off initial sum segno)
    (fun r => r = None \/ r = Some GC_BLOCKED).
Proof.
  revert off. induction n as [|n IH]; intros off; cbn [gc_node_pass].
  - apply post_ret. auto.
  - post_ext_as cp. destruct cp.
    + post_ext. apply post_ret. auto.
    + eapply post_bind; [apply check_valid_map_post|].
      intros err [->| ->]; cbn [gc_status_eqb]; [|apply IH].
      destruct initial; [post_ext; apply IH|].
      post_ext_as np. destruct np; [|apply IH].
      post_ext. post_ext. post_ext. post_ext. apply IH.
Qed.

Lemma gc_node_segment_post sum segno gc_type :
  post (gc_node_segment ops sum segno gc_type)
    (fun r => r = GC_BLOCKED \/ r = GC_DONE).
Proof.
  unfold gc_node_segment. post_ext.
  eapply post_bind; [apply gc_node_pass_post|].
  intros r [->| ->]; [|apply post_ret; auto].
  post_ext. eapply post_bind; [apply gc_node_pass_post|].
  intros r [->| ->]; [|apply post_ret; auto].
  post_ext. apply post_ret. auto.
Qed.

Lemma bind_call_value {A B} (f : world K -> A * world K)
    (k : A -> M K inode B) w :
  fst (fst (bind (call f) k w)) = fst (fst (k (fst (f w)) (snd (f w)))).
Proof.
  unfold bind, call. destruct (f w) as [a w1]. cbn.
  destruct (k a w1) as [[b w2] t]. reflexivity.
Qed.

Lemma posto_lift {A} (m : M K inode A) (Q : A -> Prop) :
  post m Q -> posto (lift m) Q.
Proof.
  intros H w a w' t E. unfold lift in E. specialize (H w).
  destruct (m w) as [[a1 w1] t1]. injection E as -> _ _. exact H.
Qed.

Lemma posto_bind {A B} (m : Mo K inode A) (f : A -> Mo K inode B)
    (R : A -> Prop) (Q : B -> Prop) :
  posto m R -> (forall a, R a -> posto (f a) Q) -> posto (bindo m f) Q.
Proof.
  intros Hm Hf w b w' t E. unfold bindo in E.
  destruct (m w) as [[[a w1] t1]|] eqn:Em; [|discriminate].
  destruct (f a w1) as [[[b1 w2] t2]|] eqn:Ef; [|discriminate].
  injection E as -> _ _. eapply Hf; [eapply Hm; exact Em|exact Ef].
Qed.

Lemma posto_any {A} (m : Mo K inode A) : posto m (fun _ => True).
Proof. intros w a w' t _. exact I. Qed.

Ltac posto_ext := eapply posto_bind; [apply posto_any|]; intros ? _.

Section ListInvariant.

(** A property of the list of pinned inodes that adding an inode keeps. *)
Variable P : list (inode_entry inode) -> Prop.
Hypothesis add_keeps :
  forall i l, P l -> post (add_gc_inode inode_eq_dec ops i l) P.

Lemma gc_data_pass_post n off phase sum ilist segno gc_type start_addr :
  P ilist ->
  post (gc_data_pass inode_eq_dec i_ino NIDS_PER_BLOCK ADDRS_PER_BLOCK
          ADDRS_PER_INODE ops n off phase sum ilist segno gc_type start_addr)
    (fun r => (fst r = None \/ fst r = Some GC_BLOCKED) /\ P (snd r)).
Proof.
  revert off ilist. induction n as [|n IH]; intros off ilist Hnd;
    cbn [gc_data_pass].
  - apply post_ret. auto.
  - cbn zeta. post_ext_as cp. destruct cp.
    + post_ext. apply post_ret. auto.
    + eapply post_bind; [apply check_valid_map_post|].
      intros err [->| ->]; cbn [gc_status_eqb]; [|apply IH; exact Hnd].
      destruct (phase =? 0); [post_ext; apply IH; exact Hnd|].
      eapply post_bind; [apply check_dnode_post|].
      intros [[err dni] nofs] Hr. cbn in Hr.
      destruct Hr as [->| ->]; cbn [gc_status_eqb]; [|apply IH; exact Hnd].
      destruct (phase =? 1); [post_ext; apply IH; exact Hnd|].
      destruct (phase =? 2).
      * post_ext_as r. destruct r as [i|]; [|apply IH; exact Hnd].
        post_ext_as dp. destruct dp as [data_page|].
        -- post_ext.
           eapply post_bind; [apply add_keeps; exact Hnd|].
           intros l Hl. apply IH. exact Hl.
        -- post_ext. apply IH. exact Hnd.
      * destruct (find_gc_inode i_ino (ni_ino dni) ilist);
          [|apply IH; exact Hnd].
        post_ext_as dp. destruct dp; [|apply IH; exact Hnd].
        post_ext. post_ext. apply IH. exact Hnd.
Qed.

Lemma gc_data_phases_post phases sum ilist segno gc_type start_addr :
  P ilist ->
  post (gc_data_phases inode_eq_dec i_ino NIDS_PER_BLOCK ADDRS_PER_BLOCK
          ADDRS_PER_INODE ops phases sum ilist segno gc_type start_addr)
    (fun r => (fst r = GC_BLOCKED \/ fst r = GC_DONE) /\ P (snd r)).
Proof.
  revert ilist. induction phases as [|phase later IH]; intros ilist Hnd;
    cbn [gc_data_phases].
  - apply post_ret. auto.
  - post_ext. eapply post_bind; [apply gc_data_pass_post; exact Hnd|].
    intros [r l] [Hr Hl]. cbn in Hr, Hl.
    destruct Hr as [->| ->]; [apply IH; exact Hl|].
    apply post_ret. auto.
Qed.

Lemma gc_data_segment_post sum ilist segno gc_type :
  P ilist ->
  post (gc_data_segment inode_eq_dec i_ino NIDS_PER_BLOCK ADDRS_PER_BLOCK
          ADDRS_PER_INODE ops sum ilist segno gc_type)
    (fun r => (fst r = GC_BLOCKED \/ fst r = GC_DONE) /\ P (snd r)).
Proof.
  intros Hnd. unfold gc_data_segment. post_ext.
  eapply post_bind; [apply gc_data_phases_post; exact Hnd|].
  intros [r l] Hr. post_ext. apply post_ret. exact Hr.
Qed.

(** With the summary page in hand, the segment is evacuated by the
    function for its type, or not at all. *)
Lemma evacuate_by_type_post (sb : f2fs_summary_block) segno ilist gc_type :
  P ilist ->
  post (match footer_type sb with
        | SUM_TYPE_NODE =>
            bind (gc_node_segment ops (entries sb) segno gc_type)
              (fun r => ret (r, ilist))
        | SUM_TYPE_DATA =>
            gc_data_segment inode_eq_dec i_ino NIDS_PER_BLOCK ADDRS_PER_BLOCK
              ADDRS_PER_INODE ops (entries sb) ilist segno gc_type
        | SUM_TYPE_OTHER => ret (GC_DONE, ilist)
        end)
    (fun r => (fst r = GC_BLOCKED \/ fst r = GC_DONE) /\ P (snd r)).
Proof.
  intros Hnd. destruct (footer_type sb).
  - eapply post_bind; [apply gc_node_segment_post|].
    intros r Hr. apply post_ret. auto.
  - apply gc_data_segment_post. exact Hnd.
  - apply post_ret. auto.
Qed.

Lemma do_garbage_collect_post segno ilist gc_type :
  P ilist ->
  forall w,
    let r := fst (fst (do_garbage_collect inode_eq_dec i_ino NIDS_PER_BLOCK
                         ADDRS_PER_BLOCK ADDRS_PER_INODE ops segno ilist
                         gc_type w)) in
    P (snd r) /\
    ((fst (get_sum_page ops segno w) = None /\ fst r = GC_ERROR) \/
     (fst (get_sum_page ops segno w) <> None /\
      (fst r = GC_BLOCKED \/ fst r = GC_DONE))).
Proof.
  intros Hnd w. cbn zeta. unfold do_garbage_collect.
  rewrite bind_call_value.
  destruct (get_sum_page ops segno w) as [[sum_page|] w1]; cbn [fst snd].
  - match goal with
    | |- context [fst (fst (?m w1))] =>
        assert (Hrest : post m (fun r => (fst r = GC_BLOCKED \/ fst r = GC_DONE)
                                         /\ P (snd r)))
    end.
    { post_ext. post_ext_as sb.
      eapply post_bind; [apply evacuate_by_type_post; exact Hnd|].
      intros [r l] Hr. post_ext. post_ext. post_ext. apply post_ret. exact Hr. }
    specialize (Hrest w1). cbv beta in Hrest. destruct Hrest as [Hr Hp].
    split; [exact Hp|]. right. split; [discriminate|exact Hr].
  - cbn. split; [exact Hnd|]. left. auto.
Qed.

Lemma gc_section_post n i segno ilist gc_type status nfree :
  P ilist ->
  post (gc_section inode_eq_dec i_ino NIDS_PER_BLOCK ADDRS_PER_BLOCK
          ADDRS_PER_INODE ops n i segno ilist gc_type status nfree)
    (fun r => P (snd (fst r))).
Proof.
  revert i ilist status nfree.
  induction n as [|n IH]; intros i ilist status nfree Hnd; cbn [gc_section].
  - apply post_ret. exact Hnd.
  - eapply post_bind with (R := fun r => P (snd r)).
    + intros w. apply (do_garbage_collect_post _ _ _ Hnd w).
    + intros [st l] Hl. cbn in Hl.
      destruct (negb _); [apply post_ret; exact Hl|apply IH; exact Hl].
Qed.

Lemma gc_while_post fuel nGC old_free_secs l :
  P (l_ilist l) ->
  posto (gc_while inode_eq_dec i_ino NIDS_PER_BLOCK ADDRS_PER_BLOCK
           ADDRS_PER_INODE ops fuel nGC old_free_secs l)
    (fun l' => P (l_ilist l')).
Proof.
  revert l. induction fuel as [|fuel IH]; intros l Hnd; cbn [gc_while].
  - intros w a w' t E. discriminate.
  - eapply posto_bind; [apply posto_any|]. intros active _.
    destruct (negb active); [apply posto_lift, post_ret; exact Hnd|].
    posto_ext. posto_ext.
    destruct (_ <? _); [apply posto_lift, post_ret; exact Hnd|].
    eapply posto_bind; [apply posto_any|]. intros [found segno] _.
    destruct (found =? 0); [apply posto_lift, post_ret; exact Hnd|].
    posto_ext.
    eapply posto_bind.
    + apply posto_lift. apply gc_section_post. exact Hnd.
    + intros [[[stop status] ilist] nfree] Hl. cbn in Hl.
      destruct stop; [apply posto_lift, post_ret; exact Hl|].
      apply IH. exact Hl.
Qed.

Lemma f2fs_gc_more_post fuel nGC segno ilist gc_type :
  P ilist ->
  posto (f2fs_gc_more inode_eq_dec i_ino NIDS_PER_BLOCK ADDRS_PER_BLOCK
           ADDRS_PER_INODE ops fuel nGC segno ilist gc_type)
    (fun r => P (snd r)).
Proof.
  revert segno ilist gc_type.
  induction fuel as [|fuel IH]; intros segno ilist gc_type Hnd;
    cbn [f2fs_gc_more].
  - intros w a w' t E. discriminate.
  - posto_ext. posto_ext.
    eapply posto_bind; [apply gc_while_post; exact Hnd|].
    intros l Hl. cbn in Hl. posto_ext.
    destruct (_ || _); [|apply posto_lift, post_ret; exact Hl].
    posto_ext.
    destruct (negb _); [apply IH; exact Hl|apply posto_lift, post_ret; exact Hl].
Qed.

End ListInvariant.

(** C10: [check_valid_map] returns [GC_OK] or [GC_NEXT], never [GC_ERROR];
    so the evacuators of node and of data segments never leave through the
    branches that test it (or the result of [check_dnode]) for [GC_ERROR]
    and return [GC_BLOCKED] or [GC_DONE]; and [do_garbage_collect] returns
    [GC_ERROR] exactly when the summary page of the victim cannot be
    fetched. *)
Theorem gc_error_only_from_summary (segno off : Z) (sum : Z -> f2fs_summary)
    (ilist : list (inode_entry inode)) (gc_type : gc_type_t) (w : world K) :
  (let r := fst (fst (check_valid_map ops segno off w)) in
   r = GC_OK \/ r = GC_NEXT) /\
  (let r := fst (fst (gc_node_segment ops sum segno gc_type w)) in
   r = GC_BLOCKED \/ r = GC_DONE) /\
  (let r := fst (fst (fst (gc_data_segment inode_eq_dec i_ino NIDS_PER_BLOCK
                             ADDRS_PER_BLOCK ADDRS_PER_INODE ops sum ilist
                             segno gc_type w))) in
   r = GC_BLOCKED \/ r = GC_DONE) /\
  (fst (fst (fst (do_garbage_collect inode_eq_dec i_ino NIDS_PER_BLOCK
                    ADDRS_PER_BLOCK ADDRS_PER_INODE ops segno ilist gc_type w)))
   = GC_ERROR
   <-> fst (get_sum_page ops segno w) = None).
Proof.
  split; [apply check_valid_map_post|].
  split; [apply gc_node_segment_post|].
  split.
  - apply (gc_data_segment_post (fun _ => True)); [intros; apply post_any|exact I].
  - destruct (do_garbage_collect_post (fun _ => True)
                ltac:(intros; apply post_any) segno ilist gc_type I w)
      as [_ [[Hn He]|[Hn [Hs|Hs]]]]; cbn zeta in *;
      (split; intros H; [congruence || (rewrite Hs in H; discriminate)
                        |congruence]).
Qed.

(** *** The references taken and dropped *)

Lemma postT_ret {A} (a : A) (Q : A -> list (event inode) -> Prop) :
  Q a [] -> postT (K := K) (ret a) Q.
Proof. intros H w. exact H. Qed.

Lemma postT_bind {A B} (m : M K inode A) (f : A -> M K inode B)
    (R : A -> list (event inode) -> Prop)
    (Q : B -> list (event inode) -> Prop) :
  postT m R ->
  (forall a t1, R a t1 -> postT (f a) (fun b t2 => Q b (t1 ++ t2))) ->
  postT (bind m f) Q.
Proof.
  intros Hm Hf w. unfold bind. specialize (Hm w).
  destruct (m w) as [[a w1] t1]. cbn in Hm.
  specialize (Hf a t1 Hm w1). destruct (f a w1) as [[b w2] t2]. exact Hf.
Qed.

Lemma postT_quiet_bind {A B} (m : M K inode A) (f : A -> M K inode B)
    (Q : B -> list (event inode) -> Prop) :
  quiet m -> (forall a, postT (f a) Q) -> postT (bind m f) Q.
Proof.
  intros Hm Hf. eapply postT_bind; [exact Hm|].
  intros a t1 ->. apply Hf.
Qed.

Lemma postT_weaken {A} (m : M K inode A)
    (P Q : A -> list (event inode) -> Prop) :
  postT m P -> (forall a t, P a t -> Q a t) -> postT m Q.
Proof. intros H HPQ w. apply HPQ, H. Qed.

Lemma quiet_ret {A} (a : A) : quiet (K := K) (inode := inode) (ret a).
Proof. intros w. reflexivity. Qed.

Lemma quiet_read {A} (f : world K -> A) : quiet (inode := inode) (read f).
Proof. intros w. reflexivity. Qed.

Lemma quiet_exec (f : world K -> world K) : quiet (inode := inode) (exec f).
Proof. intros w. reflexivity. Qed.

Lemma quiet_call {A} (f : world K -> A * world K) :
  quiet (inode := inode) (call f).
Proof. intros w. unfold call. destruct (f w). reflexivity. Qed.

Lemma quiet_bind {A B} (m : M K inode A) (f : A -> M K inode B) :
  quiet m -> (forall a, quiet (f a)) -> quiet (bind m f).
Proof. intros Hm Hf. apply postT_quiet_bind; assumption. Qed.

Ltac quiet_step :=
  first
    [ apply quiet_ret | apply quiet_read | apply quiet_exec | apply quiet_call
    | assumption
    | apply quiet_bind; [|intros ?]
    | match goal with
      | |- quiet (if ?b then _ else _) => destruct b
      | |- quiet (match ?x with _ => _ end) => destruct x
      end ].

Ltac quiet_auto := repeat quiet_step.

Lemma check_valid_map_quiet segno off : quiet (check_valid_map ops segno off).
Proof. unfold check_valid_map. quiet_auto. Qed.

Lemma check_dnode_quiet sum dni blkaddr nofs :
  quiet (check_dnode ops sum dni blkaddr nofs).
Proof. unfold check_dnode. quiet_auto. Qed.

Lemma move_data_page_quiet i pg gc_type :
  quiet (move_data_page inode_eq_dec ops i pg gc_type).
Proof. unfold move_data_page. quiet_auto. Qed.

Lemma alloc_inode_entry_quiet n : quiet (alloc_inode_entry ops n).
Proof. induction n as [|n IH]; cbn [alloc_inode_entry]; quiet_auto. Qed.

Lemma gc_node_pass_quiet n off initial sum segno :
  quiet (gc_node_pass ops n off initial sum segno).
Proof.
  revert off. induction n as [|n IH]; intros off; cbn [gc_node_pass].
  - apply quiet_ret.
  - apply quiet_bind; [apply quiet_read|]. intros cp. destruct cp.
    + quiet_auto.
    + apply quiet_bind; [apply check_valid_map_quiet|]. intros err.
      destruct (gc_status_eqb err GC_ERROR); [apply quiet_ret|].
      destruct (gc_status_eqb err GC_NEXT); [apply IH|].
      destruct initial.
      * apply quiet_bind; [apply quiet_exec|]. intros _. apply IH.
      * apply quiet_bind; [apply quiet_call|]. intros np.
        destruct np; [|apply IH].
        repeat (apply quiet_bind; [quiet_auto|]; intros ?). apply IH.
Qed.

Lemma gc_node_segment_quiet sum segno gc_type :
  quiet (gc_node_segment ops sum segno gc_type).
Proof.
  unfold gc_node_segment.
  apply quiet_bind; [apply quiet_read|]. intros sbi.
  apply quiet_bind; [apply gc_node_pass_quiet|]. intros r.
  destruct r; [apply quiet_ret|].
  apply quiet_bind; [apply quiet_read|]. intros sbi'.
  apply quiet_bind; [apply gc_node_pass_quiet|]. intros r.
  destruct r; [apply quiet_ret|]. quiet_auto.
Qed.

Lemma held_app t1 t2 j :
  held inode_eq_dec (t1 ++ t2) j
  = held inode_eq_dec t1 j + held inode_eq_dec t2 j.
Proof.
  induction t1 as [|[i|i] t1 IH]; cbn [app held]; [reflexivity| |];
    rewrite IH; lia.
Qed.

Lemma balanced_refl l : balanced inode_eq_dec l l [].
Proof. intros j. cbn. lia. Qed.

Lemma balanced_trans l1 l2 l3 t1 t2 :
  balanced inode_eq_dec l1 l2 t1 -> balanced inode_eq_dec l2 l3 t2 ->
  balanced inode_eq_dec l1 l3 (t1 ++ t2).
Proof.
  intros H1 H2 j. rewrite held_app. specialize (H1 j). specialize (H2 j). lia.
Qed.

(** Taking a reference and handing it to [add_gc_inode] is balanced: the
    reference is dropped, or a new entry holds it. *)
Lemma add_gc_inode_balanced i l :
  postT (add_gc_inode inode_eq_dec ops i l)
    (fun l' t => balanced inode_eq_dec l l' (Acquire i :: t)).
Proof.
  intros w. destruct (in_dec inode_eq_dec i (pinned l)) as [Hin|Hin].
  - rewrite add_gc_inode_listed by exact Hin. cbn [fst snd].
    intros j. cbn [held]. lia.
  - destruct (add_gc_inode_fresh i l w Hin) as [-> ->].
    intros j. cbn [held]. unfold pin_count, pinned.
    rewrite map_app, count_occ_app, Nat2Z.inj_add.
    cbn [map count_occ ie_inode].
    destruct (inode_eq_dec i j); lia.
Qed.

Lemma put_gc_inode_held l j :
  held inode_eq_dec (map Release (pinned l)) j = - pin_count inode_eq_dec l j.
Proof.
  unfold pin_count, pinned. induction l as [|ie l IH]; [reflexivity|].
  cbn [map held count_occ]. rewrite IH.
  destruct (inode_eq_dec (ie_inode ie) j); lia.
Qed.

Lemma iget_nowait_spec ino :
  postT (iget_nowait ops ino)
    (fun r t => t = match r with Some i => [Acquire i] | None => [] end).
Proof.
  intros w. unfold iget_nowait.
  destruct (f2fs_iget_nowait ops ino w) as [r w']. reflexivity.
Qed.

Lemma iput_spec i : postT (iput ops i) (fun _ t => t = [Release i]).
Proof. intros w. reflexivity. Qed.

Lemma balanced_acquire_release l i :
  balanced inode_eq_dec l l [Acquire i; Release i].
Proof. intros j. cbn [held]. destruct (inode_eq_dec i j); lia. Qed.

(** A run that goes on from a balanced log with a balanced run is
    balanced. *)
Lemma postT_balanced_after {A} (m : M K inode A)
    (proj : A -> list (inode_entry inode)) l l' t1 :
  balanced inode_eq_dec l l' t1 ->
  postT m (fun r t => balanced inode_eq_dec l' (proj r) t) ->
  postT m (fun r t => balanced inode_eq_dec l (proj r) (t1 ++ t)).
Proof.
  intros H1 Hm. eapply postT_weaken; [exact Hm|].
  intros a t Ha. cbv beta. eapply balanced_trans; eassumption.
Qed.

Lemma gc_data_pass_balanced n off phase sum l segno gc_type start_addr :
  postT (gc_data_pass inode_eq_dec i_ino NIDS_PER_BLOCK ADDRS_PER_BLOCK
           ADDRS_PER_INODE ops n off phase sum l segno gc_type start_addr)
    (fun r t => balanced inode_eq_dec l (snd r) t).
Proof.
  revert off l. induction n as [|n IH]; intros off l; cbn [gc_data_pass].
  - apply postT_ret. apply balanced_refl.
  - cbn zeta. apply postT_quiet_bind; [apply quiet_read|]. intros cp.
    destruct cp.
    + apply postT_quiet_bind; [apply quiet_exec|]. intros _.
      apply postT_ret. apply balanced_refl.
    + apply postT_quiet_bind; [apply check_valid_map_quiet|]. intros err.
      destruct (gc_status_eqb err GC_ERROR);
        [apply postT_ret; apply balanced_refl|].
      destruct (gc_status_eqb err GC_NEXT); [apply IH|].
      destruct (phase =? 0).
      { apply postT_quiet_bind; [apply quiet_exec|]. intros _. apply IH. }
      apply postT_quiet_bind; [apply check_dnode_quiet|].
      intros [[err' dni] nofs].
      destruct (gc_status_eqb err' GC_ERROR);
        [apply postT_ret; apply balanced_refl|].
      destruct (gc_status_eqb err' GC_NEXT); [apply IH|].
      destruct (phase =? 1).
      { apply postT_quiet_bind; [apply quiet_exec|]. intros _. apply IH. }
      destruct (phase =? 2).
      * eapply postT_bind; [apply iget_nowait_spec|]. intros r t1 ->.
        destruct r as [i|]; [|apply IH].
        apply postT_quiet_bind; [apply quiet_call|]. intros dp.
        destruct dp as [data_page|].
        -- apply postT_quiet_bind; [apply quiet_exec|]. intros _.
           eapply postT_bind; [apply add_gc_inode_balanced|].
           intros l' ta Ha.
           eapply postT_weaken; [apply IH|]. intros b t2 Hb. cbv beta.
           exact (balanced_trans l l' (snd b) (Acquire i :: ta) t2 Ha Hb).
        -- eapply postT_bind; [apply iput_spec|]. intros _ t2 ->.
           eapply postT_weaken; [apply IH|]. intros b t3 Hb. cbv beta.
           exact (balanced_trans l l (snd b) [Acquire i; Release i] t3
                    (balanced_acquire_release l i) Hb).
      * destruct (find_gc_inode i_ino (ni_ino dni) l); [|apply IH].
        apply postT_quiet_bind; [apply quiet_call|]. intros dp.
        destruct dp; [|apply IH].
        apply postT_quiet_bind; [apply move_data_page_quiet|]. intros _.
        apply postT_quiet_bind; [apply quiet_exec|]. intros _. apply IH.
Qed.

Lemma postT_balanced_bind {A B} (m : M K inode A) (f : A -> M K inode B)
    (pa : A -> list (inode_entry inode)) (pb : B -> list (inode_entry inode))
    l :
  postT m (fun r t => balanced inode_eq_dec l (pa r) t) ->
  (forall a, postT (f a) (fun r t => balanced inode_eq_dec (pa a) (pb r) t)) ->
  postT (bind m f) (fun r t => balanced inode_eq_dec l (pb r) t).
Proof.
  intros Hm Hf. eapply postT_bind; [exact Hm|].
  intros a t1 Ha. cbv beta in Ha.
  apply (postT_balanced_after (f a) pb l (pa a) t1 Ha). apply Hf.
Qed.

Lemma gc_data_phases_balanced phases sum l segno gc_type start_addr :
  postT (gc_data_phases inode_eq_dec i_ino NIDS_PER_BLOCK ADDRS_PER_BLOCK
           ADDRS_PER_INODE ops phases sum l segno gc_type start_addr)
    (fun r t => balanced inode_eq_dec l (snd r) t).
Proof.
  revert l. induction phases as [|phase later IH]; intros l;
    cbn [gc_data_phases].
  - apply postT_ret. apply balanced_refl.
  - apply postT_quiet_bind; [apply quiet_read|]. intros sbi.
    apply (postT_balanced_bind _ _ (@snd _ _) (@snd _ _) l);
      [apply gc_data_pass_balanced|].
    intros [r l']. cbn [snd]. destruct r; [|apply IH].
    apply postT_ret. apply balanced_refl.
Qed.

Lemma gc_data_segment_balanced sum l segno gc_type :
  postT (gc_data_segment inode_eq_dec i_ino NIDS_PER_BLOCK ADDRS_PER_BLOCK
           ADDRS_PER_INODE ops sum l segno gc_type)
    (fun r t => balanced inode_eq_dec l (snd r) t).
Proof.
  unfold gc_data_segment.
  apply postT_quiet_bind; [apply quiet_read|]. intros sbi.
  apply (postT_balanced_bind _ _ (@snd _ _) (@snd _ _) l);
    [apply gc_data_phases_balanced|].
  intros [err l']. cbn [snd].
  apply postT_quiet_bind; [quiet_auto|]. intros _.
  apply postT_ret. apply balanced_refl.
Qed.

Lemma do_garbage_collect_balanced segno l gc_type :
  postT (do_garbage_collect inode_eq_dec i_ino NIDS_PER_BLOCK ADDRS_PER_BLOCK
           ADDRS_PER_INODE ops segno l gc_type)
    (fun r t => balanced inode_eq_dec l (snd r) t).
Proof.
  unfold do_garbage_collect.
  apply postT_quiet_bind; [apply quiet_call|]. intros sp.
  destruct sp as [sum_page|]; [|apply postT_ret; apply balanced_refl].
  apply postT_quiet_bind; [apply quiet_exec|]. intros _.
  apply postT_quiet_bind; [apply quiet_read|]. intros sb.
  apply (postT_balanced_bind _ _ (@snd _ _) (@snd _ _) l).
  - destruct (footer_type sb).
    + apply postT_quiet_bind; [apply gc_node_segment_quiet|]. intros r.
      apply postT_ret. apply balanced_refl.
    + apply gc_data_segment_balanced.
    + apply postT_ret. apply balanced_refl.
  - intros [r l']. cbn [snd].
    repeat (apply postT_quiet_bind; [apply quiet_exec|]; intros _).
    apply postT_ret. apply balanced_refl.
Qed.

Lemma gc_section_balanced n i segno l gc_type status nfree :
  postT (gc_section inode_eq_dec i_ino NIDS_PER_BLOCK ADDRS_PER_BLOCK
           ADDRS_PER_INODE ops n i segno l gc_type status nfree)
    (fun r t => balanced inode_eq_dec l (snd (fst r)) t).
Proof.
  revert i l status nfree.
  induction n as [|n IH]; intros i l status nfree; cbn [gc_section].
  - apply postT_ret. apply balanced_refl.
  - apply (postT_balanced_bind _ _ (@snd _ _) (fun r => snd (fst r)) l);
      [apply do_garbage_collect_balanced|].
    intros [st l']. cbn [snd].
    destruct (negb _); [apply postT_ret; apply balanced_refl|apply IH].
Qed.

Lemma postoT_lift {A} (m : M K inode A) Q : postT m Q -> postoT (lift m) Q.
Proof.
  intros H w a w' t E. unfold lift in E. specialize (H w).
  destruct (m w) as [[a1 w1] t1]. injection E as -> _ ->. exact H.
Qed.

Lemma postoT_bind {A B} (m : Mo K inode A) (f : A -> Mo K inode B)
    (R : A -> list (event inode) -> Prop)
    (Q : B -> list (event inode) -> Prop) :
  postoT m R ->
  (forall a t1, R a t1 -> postoT (f a) (fun b t2 => Q b (t1 ++ t2))) ->
  postoT (bindo m f) Q.
Proof.
  intros Hm Hf w b w' t E. unfold bindo in E.
  destruct (m w) as [[[a w1] t1]|] eqn:Em; [|discriminate].
  destruct (f a w1) as [[[b1 w2] t2]|] eqn:Ef; [|discriminate].
  injection E as -> _ <-. eapply Hf; [eapply Hm; exact Em|exact Ef].
Qed.

Lemma postoT_quiet_bind {A B} (m : M K inode A) (f : A -> Mo K inode B) Q :
  quiet m -> (forall a, postoT (f a) Q) -> postoT (bindo (lift m) f) Q.
Proof.
  intros Hm Hf. eapply postoT_bind; [apply postoT_lift; exact Hm|].
  intros a t1 ->. apply Hf.
Qed.

Lemma postoT_balanced_after {A} (m : Mo K inode A)
    (proj : A -> list (inode_entry inode)) l l' t1 :
  balanced inode_eq_dec l l' t1 ->
  postoT m (fun r t => balanced inode_eq_dec l' (proj r) t) ->
  postoT m (fun r t => balanced inode_eq_dec l (proj r) (t1 ++ t)).
Proof.
  intros H1 Hm w a w' t E. cbv beta.
  eapply balanced_trans; [exact H1|]. exact (Hm w a w' t E).
Qed.

Lemma postoT_return {A} (a : A) (proj : A -> list (inode_entry inode)) :
  postoT (K := K) (lift (ret a))
    (fun r t => balanced inode_eq_dec (proj a) (proj r) t).
Proof. apply postoT_lift, postT_ret. apply balanced_refl. Qed.

Lemma gc_while_balanced fuel nGC old_free_secs l :
  postoT (gc_while inode_eq_dec i_ino NIDS_PER_BLOCK ADDRS_PER_BLOCK
            ADDRS_PER_INODE ops fuel nGC old_free_secs l)
    (fun l' t => balanced inode_eq_dec (l_ilist l) (l_ilist l') t).
Proof.
  revert l. induction fuel as [|fuel IH]; intros l; cbn [gc_while].
  - intros w a w' t E. discriminate.
  - apply postoT_quiet_bind; [apply quiet_read|]. intros active.
    destruct (negb active); [apply (postoT_return l (@l_ilist inode))|].
    apply postoT_quiet_bind; [apply quiet_read|]. intros pressed.
    apply postoT_quiet_bind; [apply quiet_read|]. intros free.
    destruct (_ <? _).
    { apply (postoT_return (mk_locals _ _ _ _ _) (@l_ilist inode)). }
    apply postoT_quiet_bind; [apply quiet_call|]. intros [found segno].
    destruct (found =? 0).
    { apply (postoT_return (mk_locals _ _ _ _ _) (@l_ilist inode)). }
    apply postoT_quiet_bind; [apply quiet_read|]. intros sbi.
    eapply postoT_bind; [apply postoT_lift, gc_section_balanced|].
    intros [[[stop status] ilist] nfree] t1 H1. cbn [fst snd l_ilist] in H1.
    apply (postoT_balanced_after _ (@l_ilist inode) _ ilist t1 H1).
    destruct stop.
    + apply (postoT_return (mk_locals _ _ _ _ _) (@l_ilist inode)).
    + apply (IH (mk_locals segno ilist _ status nfree)).
Qed.

Lemma f2fs_gc_more_balanced fuel nGC segno l gc_type :
  postoT (f2fs_gc_more inode_eq_dec i_ino NIDS_PER_BLOCK ADDRS_PER_BLOCK
            ADDRS_PER_INODE ops fuel nGC segno l gc_type)
    (fun r t => balanced inode_eq_dec l (snd r) t).
Proof.
  revert segno l gc_type.
  induction fuel as [|fuel IH]; intros segno l gc_type; cbn [f2fs_gc_more].
  - intros w a w' t E. discriminate.
  - apply postoT_quiet_bind; [apply quiet_read|]. intros pressed.
    apply postoT_quiet_bind; [destruct pressed; apply quiet_read|].
    intros old_free_secs.
    eapply postoT_bind; [apply gc_while_balanced|].
    intros ls t1 H1. cbn [l_ilist] in H1.
    apply (postoT_balanced_after _ (@snd _ _) _ (l_ilist ls) t1 H1).
    apply postoT_quiet_bind; [apply quiet_read|]. intros pressed'.
    destruct (_ || _).
    + apply postoT_quiet_bind; [apply quiet_exec|]. intros _.
      destruct (negb _); [apply IH|].
      apply (postoT_return (l_status ls, l_ilist ls) (@snd _ _)).
    + apply (postoT_return (l_status ls, l_ilist ls) (@snd _ _)).
Qed.

Lemma count_occ_Release (l : list inode) (i : inode) :
  count_occ (event_eq_dec inode_eq_dec) (map Release l) (Release i)
  = count_occ inode_eq_dec l i.
Proof.
  induction l as [|x l IH]; [reflexivity|]. cbn [map count_occ].
  destruct (event_eq_dec inode_eq_dec (Release x) (Release i)) as [E|E],
           (inode_eq_dec x i) as [E'|E']; try congruence.
Qed.

(** C6: when [f2fs_gc] returns, whatever the status, the list of pinned
    inodes it built is empty: [put_gc_inode] has deleted every entry, so
    the [BUG_ON] does not fire; the inodes of the list were distinct, and
    [put_gc_inode] dropped the reference of each of them once; over the
    call, every reference taken on an inode has been dropped. *)
Theorem f2fs_gc_releases_pins (fuel : nat) (nGC : Z) (w w' : world K)
    (e : gc_exit inode) (tr : list (event inode)) :
  f2fs_gc inode_eq_dec i_ino NIDS_PER_BLOCK ADDRS_PER_BLOCK ADDRS_PER_INODE
    ops fuel nGC w = Some (e, w', tr) ->
  exit_ilist e = [] /\ exit_bug e = false /\
  exists ilist w1 tr1,
    f2fs_gc_more inode_eq_dec i_ino NIDS_PER_BLOCK ADDRS_PER_BLOCK
      ADDRS_PER_INODE ops fuel nGC 0 [] BG_GC w
    = Some ((exit_status e, ilist), w1, tr1) /\
    NoDup (pinned ilist) /\
    tr = tr1 ++ map Release (pinned ilist) /\
    (forall i, In i (pinned ilist) ->
       count_occ (event_eq_dec inode_eq_dec) (map Release (pinned ilist))
         (Release i) = 1%nat) /\
    (forall i, held inode_eq_dec tr i = 0).
Proof.
  unfold f2fs_gc. unfold bindo at 1.
  destruct (f2fs_gc_more _ _ _ _ _ _ _ _ _ _ _ w) as [[[[st il] w1] t1]|] eqn:Hm;
    [|discriminate].
  assert (Hnd : NoDup (pinned il)).
  { apply (f2fs_gc_more_post (fun l => NoDup (pinned l)) add_gc_inode_NoDup
             fuel nGC 0 [] BG_GC ltac:(constructor) w (st, il) w1 t1 Hm). }
  unfold bindo, lift, exec, ret. cbn [fst snd].
  destruct (put_gc_inode_spec il (set_sbi (set_last_gc_status st) w1))
    as [Hl Ht].
  destruct (put_gc_inode inode_eq_dec ops il _) as [[l w2] t2].
  cbn [fst snd] in Hl, Ht. subst l t2.
  intros E. injection E as <- _ <-. cbn.
  split; [reflexivity|]. split; [reflexivity|].
  exists il, w1, t1. split; [reflexivity|]. split; [exact Hnd|].
  split; [now rewrite !app_nil_r|]. split.
  - intros i Hi. rewrite count_occ_Release.
    apply NoDup_count_occ'; assumption.
  - intros i. cbn [app]. rewrite app_nil_r, held_app, put_gc_inode_held.
    pose proof (f2fs_gc_more_balanced fuel nGC 0 [] BG_GC w (st, il) w1 t1 Hm i)
      as Hb.
    cbn [snd] in Hb. unfold pin_count at 1 in Hb. cbn in Hb. lia.
Qed.

Section Worker.

Variables GC_THREAD_MIN_SLEEP_TIME GC_THREAD_MAX_SLEEP_TIME
          GC_THREAD_NOGC_SLEEP_TIME : Z.
Variables increase_sleep_time decrease_sleep_time : Z -> Z.

(** C9: an iteration of the worker reaches the call of [f2fs_gc] when the
    thread is not frozen, is not asked to stop after its wait, the option
    BG_GC is set, the lock is taken and the device is idle.  It then calls
    [f2fs_gc(sbi, 1)], in the state that these steps and [sbi->bg_gc++]
    leave, with the sleep time that the density of invalid blocks chose
    (decreased or increased), and it returns exactly when that call does,
    in the state and with the references of the call; after the call the
    sleep time is the NOGC time if [f2fs_gc] returned [GC_NONE], the MAX
    time if it returned another status and the sleep time at the call was
    the NOGC time, and the sleep time at the call otherwise. *)
Theorem gc_thread_wait_after_gc (fuel : nat) (wait_ms : Z) (w : world K) :
  let w1 := snd (try_to_freeze ops w) in
  let w2 := wait_event_interruptible_timeout ops wait_ms w1 in
  let w3 := f2fs_balance_fs ops w2 in
  let w4 := snd (mutex_trylock_gc_mutex ops w3) in
  let at_call :=
    if has_enough_invalid_blocks ops w4 then decrease_sleep_time wait_ms
    else increase_sleep_time wait_ms in
  let w5 := set_sbi (fun sbi => set_bg_gc (bg_gc sbi + 1) sbi) w4 in
  fst (try_to_freeze ops w) = false ->
  kthread_should_stop ops w2 = false ->
  test_opt_BG_GC ops w3 = true ->
  fst (mutex_trylock_gc_mutex ops w3) = true ->
  is_idle ops w4 = true ->
  gc_thread_body inode_eq_dec i_ino NIDS_PER_BLOCK ADDRS_PER_BLOCK
    ADDRS_PER_INODE GC_THREAD_MAX_SLEEP_TIME GC_THREAD_NOGC_SLEEP_TIME
    increase_sleep_time decrease_sleep_time ops fuel wait_ms w
  = match f2fs_gc inode_eq_dec i_ino NIDS_PER_BLOCK ADDRS_PER_BLOCK
            ADDRS_PER_INODE ops fuel 1 w5 with
    | Some (e, w', tr) =>
        Some (mk_tick false
                match exit_status e with
                | GC_NONE => GC_THREAD_NOGC_SLEEP_TIME
                | _ => if at_call =? GC_THREAD_NOGC_SLEEP_TIME
                       then GC_THREAD_MAX_SLEEP_TIME else at_call
                end
                (Some (at_call, exit_status e)),
              w', tr)
    | None => None
    end.
Proof.
  cbv zeta. intros Hfrozen Hstop Hbg Hlock Hidle.
  unfold gc_thread_body, bindo, lift, call, read, exec, ret.
  destruct (try_to_freeze ops w) as [frozen w1] eqn:E1.
  cbn [fst snd] in *. subst frozen.
  rewrite Hstop, Hbg. cbn [negb].
  destruct (mutex_trylock_gc_mutex ops (f2fs_balance_fs ops _))
    as [locked w4] eqn:E4.
  cbn [fst snd] in *. subst locked. cbn [negb].
  rewrite Hidle. cbn [negb].
  destruct (f2fs_gc inode_eq_dec i_ino NIDS_PER_BLOCK ADDRS_PER_BLOCK
              ADDRS_PER_INODE ops fuel 1 _) as [[[e w'] tr]|];
    [|reflexivity].
  cbn [app]. rewrite app_nil_r.
  destruct (exit_status e); reflexivity.
Qed.

End Worker.

End CollectorProofs.

(** ** The properties on the example states *)

Lemma sample_selector_wf : selector_wf sample_sbi.
Proof. constructor; cbn; intros; lia. Qed.

Lemma get_cb_cost_formula_witness :
  cb_in_range sample_sbi 2 /\
  fst (get_cb_cost sample_sbi 2) = 4294961850.
Proof.
  assert (H : cb_in_range sample_sbi 2).
  { constructor; try (cbn; lia).
    - intros i. cbn. destruct (i <? 4); lia.
    - vm_compute. reflexivity. }
  split; [exact H|].
  rewrite (get_cb_cost_formula sample_sbi 2 H). reflexivity.
Defined.

(** C1 as stated fails where the two bounds of the modification times are
    equal: the code leaves [age] at [0] and returns [UINT_MAX], the cost of
    a section that brings no benefit, where the claim has an age of [100]
    and a cost of [UINT_MAX - 10000]. *)
Lemma get_cb_cost_equal_bounds :
  max_mtime flat_sbi = min_mtime flat_sbi /\
  fst (get_cb_cost flat_sbi 0) = UINT_MAX /\
  cb_cost_spec 100 flat_sbi 0 = UINT_MAX - 10000 /\
  fst (get_cb_cost flat_sbi 0) <> cb_cost_spec 100 flat_sbi 0.
Proof. vm_compute. repeat split; discriminate. Qed.

(** C2 fails on the fast path of the foreground collector: with segment 7,
    of the current section, claimed in [victim_segmap[BG]], the selection
    succeeds and returns segment 6, the first of the current section;
    [check_bg_victims] has no test of [IS_CURSEC], which the scan has. *)
Theorem fg_fast_path_returns_current_section :
  IS_CURSEC claimed_cursec_sbi (GET_SECNO claimed_cursec_sbi 7) = true /\
  check_bg_victims claimed_cursec_sbi
  = (7, set_victim_segmap BG_GC 0 claimed_cursec_sbi) /\
  match get_victim_by_default 20 claimed_cursec_sbi 0 FG_GC NO_CHECK_TYPE with
  | Some (found, segno, sbi) =>
      found = 1 /\ segno = 6 /\ IS_CURSEC sbi (GET_SECNO sbi segno) = true
  | None => False
  end.
Proof. vm_compute. repeat split. Qed.

Lemma sample_bg_selection :
  get_victim_by_default 20 sample_sbi 0 BG_GC NO_CHECK_TYPE
  = Some (1, 2, sample_sbi_bg).
Proof. vm_compute. reflexivity. Qed.

Lemma sample_fg_selection :
  get_victim_by_default 20 sample_sbi_bg 0 FG_GC NO_CHECK_TYPE
  = Some (1, 2, sample_sbi_fg).
Proof. vm_compute. reflexivity. Qed.

Lemma get_victim_lfs_claims_section_witness :
  Z.shiftl (GET_SECNO sample_sbi 2) (log_segs_per_sec sample_sbi) = 2 /\
  forall i, 2 <= i < 2 + 2 ^ log_segs_per_sec sample_sbi ->
            test_bit i (victim_segmap sample_sbi_bg BG_GC) = true.
Proof.
  apply (get_victim_lfs_claims_section 20 sample_sbi 0 BG_GC NO_CHECK_TYPE 2
           sample_sbi_bg).
  - constructor; cbn; intros; lia.
  - reflexivity.
  - vm_compute. reflexivity.
Defined.

Lemma bg_victim_taken_by_fg_witness :
  (forall i,
     test_bit i (victim_segmap sample_sbi_fg BG_GC)
     = if i =? 2 then false
       else if (2 <? i) && (i <? 2 + 2 ^ log_segs_per_sec sample_sbi) then true
       else test_bit i (victim_segmap sample_sbi BG_GC)) /\
  (log_segs_per_sec sample_sbi = 0 ->
   victim_segmap sample_sbi_fg BG_GC = victim_segmap sample_sbi BG_GC).
Proof.
  apply (bg_victim_taken_by_fg 20 sample_sbi 0 0 2 sample_sbi_bg sample_sbi_fg).
  - constructor; cbn; intros; lia.
  - vm_compute. reflexivity.
  - vm_compute. reflexivity.
Defined.

(** C5 as stated fails when a section has more than one segment: the
    background selection on the sample claims segments 2 and 3, the
    foreground selection takes that victim by the fast path and clears the
    bit of segment 2 only, and segment 3 stays claimed in
    [victim_segmap[BG]], which was empty before the pair. *)
Lemma bg_fg_pair_changes_victim_map :
  get_victim_by_default 20 sample_sbi 0 BG_GC NO_CHECK_TYPE
  = Some (1, 2, sample_sbi_bg) /\
  get_victim_by_default 20 sample_sbi_bg 0 FG_GC NO_CHECK_TYPE
  = Some (1, 2, sample_sbi_fg) /\
  victim_segmap sample_sbi BG_GC = 0 /\
  victim_segmap sample_sbi_bg BG_GC = 12 /\
  victim_segmap sample_sbi_fg BG_GC = 8 /\
  victim_segmap sample_sbi_fg BG_GC <> victim_segmap sample_sbi BG_GC.
Proof.
  split; [exact sample_bg_selection|]. split; [exact sample_fg_selection|].
  vm_compute. repeat split; discriminate.
Qed.



Lemma add_gc_inode_idempotent_witness :
  add_gc_inode Z.eq_dec toy_ops 7 [mk_inode_entry 7] toy_world
  = ([mk_inode_entry 7], toy_world, [Release 7]) /\
  fst (fst (add_gc_inode Z.eq_dec toy_ops 8 [mk_inode_entry 7] toy_world))
  = [mk_inode_entry 7; mk_inode_entry 8].
Proof.
  split.
  - apply (add_gc_inode_idempotent unit Z Z Z.eq_dec toy_ops 7
             [mk_inode_entry 7] toy_world toy_world).
    cbn. auto.
  - reflexivity.
Defined.

Lemma f2fs_gc_releases_pins_witness :
  exists e w' tr,
    toy_gc 10 1 toy_world = Some (e, w', tr) /\
    exit_status e = GC_DONE /\ exit_ilist e = [] /\ exit_bug e = false /\
    exists ilist w1 tr1,
      f2fs_gc_more Z.eq_dec (fun i => i) 1018 1018 923 toy_ops 10 1 0 [] BG_GC
        toy_world
      = Some ((exit_status e, ilist), w1, tr1) /\
      NoDup (pinned ilist) /\
      tr = tr1 ++ map Release (pinned ilist) /\
      (forall i, In i (pinned ilist) ->
         count_occ (event_eq_dec Z.eq_dec) (map Release (pinned ilist))
           (Release i) = 1%nat) /\
      (forall i, held Z.eq_dec tr i = 0).
Proof.
  destruct (toy_gc 10 1 toy_world) as [[[e w'] tr]|] eqn:E.
  - exists e, w', tr. split; [reflexivity|].
    assert (Hs : option_map (fun r => exit_status (fst (fst r)))
                   (toy_gc 10 1 toy_world) = Some GC_DONE)
      by (vm_compute; reflexivity).
    rewrite E in Hs. cbn in Hs. injection Hs as Hs.
    split; [exact Hs|].
    exact (f2fs_gc_releases_pins unit Z Z Z.eq_dec toy_ops (fun i => i)
             1018 1018 923 10 1 toy_world w' e tr E).
  - vm_compute in E. discriminate.
Defined.

(** The collection of the toy world pins the inodes 7 and 8 and returns
    with each reference it took dropped. *)
Example toy_gc_pins_two_inodes :
  option_map (fun r => (fst (fst r), snd r))
    (f2fs_gc_more Z.eq_dec (fun i => i) 1018 1018 923 toy_ops 10 1 0 [] BG_GC
       toy_world)
  = Some ((GC_DONE, [mk_inode_entry 7; mk_inode_entry 8]),
          [Acquire 7; Acquire 8; Acquire 7; Release 7; Acquire 8; Release 8])
  /\
  option_map (fun r => snd r) (toy_gc 10 1 toy_world)
  = Some [Acquire 7; Acquire 8; Acquire 7; Release 7; Acquire 8; Release 8;
          Release 7; Release 8].
Proof. vm_compute. split; reflexivity. Qed.

Lemma gc_thread_wait_after_gc_witness :
  gc_thread_body Z.eq_dec (fun i => i) 1018 1018 923 30000 10000
    toy_increase toy_decrease toy_ops 10 10000 toy_world
  = match f2fs_gc Z.eq_dec (fun i => i) 1018 1018 923 toy_ops 10 1
            (set_sbi (fun sbi => set_bg_gc (bg_gc sbi + 1) sbi) toy_world) with
    | Some (e, w', tr) =>
        Some (mk_tick false
                match exit_status e with
                | GC_NONE => 10000
                | _ => if toy_decrease 10000 =? 10000
                       then 30000 else toy_decrease 10000
                end
                (Some (toy_decrease 10000, exit_status e)),
              w', tr)
    | None => None
    end.
Proof.
  exact (gc_thread_wait_after_gc unit Z Z Z.eq_dec toy_ops (fun i => i)
           1018 1018 923 30000 10000 toy_increase toy_decrease 10 10000
           toy_world eq_refl eq_refl eq_refl eq_refl eq_refl).
Defined.

(** The iteration of the toy worker from the MIN sleep time: the density
    leaves the sleep time at 10 seconds, which is also the NOGC time, the
    call of [f2fs_gc] returns [GC_DONE], and the sleep time is reset to
    the MAX time. *)
Example toy_tick_resets_to_max :
  option_map (fun r => (tick_wait_ms (fst (fst r)), tick_gc (fst (fst r))))
    (toy_tick 10000 toy_world)
  = Some (30000, Some (10000, GC_DONE)) /\
  option_map (fun r => exit_status (fst (fst r)))
    (f2fs_gc Z.eq_dec (fun i => i) 1018 1018 923 toy_ops 10 1
       (set_sbi (fun sbi => set_bg_gc (bg_gc sbi + 1) sbi) toy_world))
  = Some GC_DONE.
Proof. vm_compute. split; reflexivity. Qed.

(** * Further properties *)

(** ** What the scan keeps as its minimum *)

Lemma get_gc_cost_same_policy sbi segno p q :
  same_policy p q -> get_gc_cost sbi segno p = get_gc_cost sbi segno q.
Proof. intros (Ha & Hg & _). unfold get_gc_cost. now rewrite Ha, Hg. Qed.

Lemma get_gc_cost_greedy sbi segno p :
  p_gc_mode p = GC_GREEDY -> snd (get_gc_cost sbi segno p) = sbi.
Proof.
  intros Hg. unfold get_gc_cost. rewrite Hg. now destruct (p_alloc_mode p).
Qed.

Lemma get_gc_cost_same_layout a b segno p :
  p_gc_mode p = GC_GREEDY -> same_layout a b ->
  fst (get_gc_cost b segno p) = fst (get_gc_cost a segno p).
Proof.
  intros Hg (_ & _ & Hs & _ & _ & He & Hv & _).
  unfold get_gc_cost, get_seg_entry, get_valid_blocks.
  rewrite Hg, He, Hv, Hs. now destruct (p_alloc_mode p).
Qed.

Section ScanMinimum.

Variable MAX_VICTIM_SEARCH : Z.
Variable gc_type : gc_type_t.

(** An iteration that finds a dirty segment either skips it, because it is
    no candidate, or compares its cost with the minimum and keeps the
    smaller, the segment found winning only when it is strictly cheaper. *)
Lemma scan_body_min st c st' :
  scan_wf st -> scan_body MAX_VICTIM_SEARCH gc_type st = (c, st') ->
  let sbi := sc_sbi st in
  let p := sc_p st in
  let segno := find_next_bit (dirty_segmap sbi (p_dirty_segmap p))
                 (TOTAL_SEGS sbi) (p_offset p) in
  (TOTAL_SEGS sbi <= segno /\
   p_min_segno (sc_p st') = p_min_segno p /\
   p_min_cost (sc_p st') = p_min_cost p)
  \/
  (segno < TOTAL_SEGS sbi /\ p_offset p <= segno /\
   test_bit segno (dirty_segmap sbi (p_dirty_segmap p)) = true /\
   ((~ victim_candidate gc_type sbi segno /\ c = ScanNext /\
     sc_sbi st' = sbi /\
     p_min_segno (sc_p st') = p_min_segno p /\
     p_min_cost (sc_p st') = p_min_cost p)
    \/
    (victim_candidate gc_type sbi segno /\
     let cost := fst (get_gc_cost sbi segno p) in
     let sbi1 := snd (get_gc_cost sbi segno p) in
     ((c = ScanNext /\ sc_sbi st' = sbi1) \/
      (c = ScanLimit /\
       sc_sbi st' = set_last_victim (p_gc_mode p) segno sbi1)) /\
     ((cost < p_min_cost p /\ p_min_segno (sc_p st') = segno /\
       p_min_cost (sc_p st') = cost)
      \/
      (p_min_cost p <= cost /\ p_min_segno (sc_p st') = p_min_segno p /\
       p_min_cost (sc_p st') = p_min_cost p))))).
Proof.
  intros [Hu Ht Hfit Ho]. unfold scan_body. cbn zeta.
  set (sbi := sc_sbi st) in *. set (p := sc_p st) in *.
  set (segno := find_next_bit _ _ _).
  destruct (Z.leb_spec (TOTAL_SEGS sbi) segno) as [Hge|Hlt].
  - destruct (negb _); intros E; inversion E; subst c st'; left; cbn; auto.
  - destruct (find_next_bit_found _ _ _ Hlt) as [Hoff Hbit].
    fold segno in Hoff, Hbit.
    intros E. right.
    split; [exact Hlt|]. split; [exact Hoff|]. split; [exact Hbit|].
    revert E.
    destruct (test_bit segno (victim_segmap sbi FG_GC)) eqn:Hfg.
    { intros E; inversion E; subst c st'. left. cbn.
      repeat split; auto. intros (_ & Hn & _). congruence. }
    destruct (gc_type_eqb gc_type BG_GC && test_bit segno (victim_segmap sbi BG_GC))
      eqn:Hbg.
    { intros E; inversion E; subst c st'. left. cbn.
      repeat split; auto. intros (_ & _ & Hn & _).
      apply andb_prop in Hbg as [Hg Hb].
      assert (gc_type = BG_GC) by (destruct gc_type; auto; discriminate).
      rewrite Hn in Hb by assumption. discriminate. }
    destruct (IS_CURSEC sbi (GET_SECNO sbi segno)) eqn:Hcur.
    { intros E; inversion E; subst c st'. left. cbn.
      repeat split; auto. intros (_ & _ & _ & Hn). congruence. }
    assert (Hcand : victim_candidate gc_type sbi segno).
    { repeat split; auto; try lia. intros ->. cbn in Hbg. exact Hbg. }
    change (get_gc_cost sbi segno (set_offset (next_offset p segno) p))
      with (get_gc_cost sbi segno p).
    destruct (get_gc_cost sbi segno p) as [cost sbi1]. cbn [fst snd].
    change (p_min_cost (set_offset (next_offset p segno) p))
      with (p_min_cost p).
    set (p1 := if cost <? p_min_cost p then _ else _).
    assert (Hp1 : p_gc_mode p1 = p_gc_mode p /\
                  ((cost < p_min_cost p /\ p_min_segno p1 = segno /\
                    p_min_cost p1 = cost) \/
                   (p_min_cost p <= cost /\ p_min_segno p1 = p_min_segno p /\
                    p_min_cost p1 = p_min_cost p))).
    { subst p1. destruct (Z.ltb_spec cost (p_min_cost p)); cbn; auto. }
    destruct Hp1 as [Hgm Hmin].
    destruct (cost =? get_max_cost sbi1 p1).
    { intros E; inversion E; subst c st'. right. cbn. auto. }
    destruct (MAX_VICTIM_SEARCH <=? sc_nsearched st);
      intros E; inversion E; subst c st'; right; cbn; rewrite ?Hgm; auto.
Qed.

(** What every continuing iteration keeps, and every ending iteration
    establishes, holds when the scan is over. *)
Lemma scan_loop_ends (P F : scan_state -> Prop) :
  (forall s c s', scan_wf s -> P s ->
     scan_body MAX_VICTIM_SEARCH gc_type s = (c, s') ->
     if scan_continues c then P s' else F s') ->
  forall fuel st cs st',
    scan_wf st -> P st ->
    scan_loop MAX_VICTIM_SEARCH fuel gc_type st = Some (cs, st') -> F st'.
Proof.
  intros Hstep. induction fuel as [|fuel IH]; intros st cs st' Hwf HP;
    cbn [scan_loop]; [discriminate|].
  destruct (scan_body MAX_VICTIM_SEARCH gc_type st) as [c st1] eqn:Hb.
  pose proof (Hstep st c st1 Hwf HP Hb) as HP1.
  destruct (scan_continues c) eqn:Hc.
  - destruct (scan_body_continue _ _ st c st1 Hwf Hb Hc) as [Hwf1 _].
    destruct (scan_loop MAX_VICTIM_SEARCH fuel gc_type st1)
      as [[cs1 st2]|] eqn:Hl; [|discriminate].
    intros E; inversion E; subst. eapply IH; eauto.
  - intros E; inversion E; subst. exact HP1.
Qed.

End ScanMinimum.

(** ** The outcomes of [get_victim_by_default] *)

Lemma align_down_unit x y k :
  0 <= k ->
  Z.shiftl (Z.shiftr x k) k <= y < Z.shiftl (Z.shiftr x k) k + 2 ^ k ->
  Z.shiftl (Z.shiftr y k) k = Z.shiftl (Z.shiftr x k) k.
Proof.
  intros Hk Hy.
  assert (Hp : 0 < 2 ^ k) by (apply Z.pow_pos_nonneg; lia).
  rewrite !Z.shiftl_mul_pow2, !Z.shiftr_div_pow2 in * by lia.
  f_equal. symmetry. apply (Z.div_unique y (2 ^ k) (x / 2 ^ k)
                              (y - x / 2 ^ k * 2 ^ k)); lia.
Qed.

Lemma NULL_SEGNO_out sbi segno :
  selector_wf sbi -> segno < TOTAL_SEGS sbi -> segno <> NULL_SEGNO.
Proof.
  intros [Hs Ht Hfit _] Hlt.
  assert (0 < 2 ^ log_segs_per_sec sbi) by (apply Z.pow_pos_nonneg; lia).
  unfold NULL_SEGNO, UINT_MAX. lia.
Qed.

Section SelectorScan.

Variable MAX_VICTIM_SEARCH : Z.

(** A call that reaches the scan returns what the code at [got_it] makes
    of the state in which the scan ends. *)
Lemma get_victim_scan_path sbi result gc_type type :
  selector_wf sbi -> reaches_scan sbi gc_type type ->
  exists cs st,
    scan_loop MAX_VICTIM_SEARCH (scan_fuel sbi) gc_type
      (mk_scan sbi (initial_policy sbi gc_type type) 0) = Some (cs, st) /\
    get_victim_by_default MAX_VICTIM_SEARCH sbi result gc_type type
    = Some (got_it gc_type result (sc_sbi st) (sc_p st)).
Proof.
  intros Hwf Hscan.
  pose proof (initial_scan_wf sbi gc_type type Hwf) as Hwf0.
  destruct (scan_loop_total MAX_VICTIM_SEARCH gc_type (scan_fuel sbi) _ Hwf0)
    as (cs & st & Hl).
  { pose proof (scan_measure_bound _ Hwf0). destruct Hwf.
    unfold scan_fuel. cbn [sc_sbi] in *. lia. }
  exists cs, st. split; [exact Hl|].
  unfold get_victim_by_default. fold (initial_policy sbi gc_type type).
  set (p0 := initial_policy sbi gc_type type) in *.
  destruct (alloc_mode_eqb (p_alloc_mode p0) LFS && gc_type_eqb gc_type FG_GC)
    eqn:Hfast.
  - apply andb_prop in Hfast as [Ha Hg].
    assert (Halloc : p_alloc_mode p0 = LFS)
      by (destruct (p_alloc_mode p0); auto; discriminate).
    assert (Hfg : gc_type = FG_GC) by (destruct gc_type; auto; discriminate).
    specialize (Hscan Halloc Hfg).
    destruct (check_bg_victims_spec sbi Hwf)
      as [(Hlt & Hge0 & Hnn & Hb & Hf & Hcb)|(Hn & Hf & Hcb)];
      rewrite Hcb in Hscan |- *; cbn [fst] in Hscan; [contradiction|].
    rewrite Z.eqb_refl. cbn [negb].
    replace (set_min_segno NULL_SEGNO p0) with p0 by reflexivity.
    now rewrite Hl.
  - now rewrite Hl.
Qed.

(** The scan keeps as its minimum a candidate that is dirty in the map the
    policy reads. *)
Lemma scan_minimum_dirty sbi gc_type type fuel cs st :
  selector_wf sbi ->
  scan_loop MAX_VICTIM_SEARCH fuel gc_type
    (mk_scan sbi (initial_policy sbi gc_type type) 0) = Some (cs, st) ->
  same_policy (select_policy sbi gc_type type) (sc_p st) /\
  same_layout sbi (sc_sbi st) /\
  (p_min_segno (sc_p st) = NULL_SEGNO \/
   (victim_candidate gc_type sbi (p_min_segno (sc_p st)) /\
    test_bit (p_min_segno (sc_p st))
      (dirty_segmap sbi (p_dirty_segmap (select_policy sbi gc_type type)))
    = true)).
Proof.
  intros Hwf Hl.
  set (p0 := initial_policy sbi gc_type type) in *.
  set (ps := select_policy sbi gc_type type).
  pose proof (initial_scan_wf sbi gc_type type Hwf) as Hwf0. fold p0 in Hwf0.
  apply (scan_loop_invariant MAX_VICTIM_SEARCH gc_type
    (fun s => same_policy ps (sc_p s) /\ same_layout sbi (sc_sbi s) /\
              (p_min_segno (sc_p s) = NULL_SEGNO \/
               (victim_candidate gc_type sbi (p_min_segno (sc_p s)) /\
                test_bit (p_min_segno (sc_p s))
                  (dirty_segmap sbi (p_dirty_segmap ps)) = true))))
    with (fuel := fuel) (st := mk_scan sbi p0 0) (cs := cs); auto.
  - intros s c s' Hs (HP & HL & HM) Hb.
    destruct (scan_body_cases _ _ s c s' Hs Hb) as (_ & Hl1 & Hp1 & _).
    split; [exact (same_policy_trans _ _ _ HP Hp1)|].
    split; [exact (same_layout_trans _ _ _ HL Hl1)|].
    destruct (scan_body_min _ _ s c s' Hs Hb)
      as [(_ & -> & _)
         |(_ & _ & Hbit & [(_ & _ & _ & -> & _)
                          |(Hc & _ & [(_ & -> & _)|(_ & -> & _)])])];
      auto.
    right. split.
    + eapply victim_candidate_same; [|exact Hc]. now apply same_layout_sym.
    + destruct HP as (_ & _ & Hd & _).
      destruct HL as (_ & _ & _ & _ & _ & _ & _ & Hdm & _).
      rewrite Hd, Hdm. exact Hbit.
  - split; [repeat split|]. split; [apply same_layout_refl|now left].
Qed.

(** X1: a successful call that reaches the scan returns the first segment
    of the scan unit of a segment [m] that is dirty in the map the policy
    reads, lies in the main area, is claimed by no collector that excludes
    it (the foreground collector; for a background call also the background
    collector), and whose section holds no current segment. *)
Theorem scan_victim_is_dirty_candidate sbi result gc_type type r sbi' :
  selector_wf sbi -> reaches_scan sbi gc_type type ->
  get_victim_by_default MAX_VICTIM_SEARCH sbi result gc_type type
  = Some (1, r, sbi') ->
  exists m,
    r = Z.shiftl (Z.shiftr m (p_log_ofs_unit (select_policy sbi gc_type type)))
          (p_log_ofs_unit (select_policy sbi gc_type type)) /\
    r <= m < r + 2 ^ p_log_ofs_unit (select_policy sbi gc_type type) /\
    test_bit m (dirty_segmap sbi (p_dirty_segmap (select_policy sbi gc_type type)))
    = true /\
    victim_candidate gc_type sbi m.
Proof.
  intros Hwf Hscan Hg.
  destruct (get_victim_scan_path sbi result gc_type type Hwf Hscan)
    as (cs & st & Hl & He).
  rewrite He in Hg. injection Hg as Hg.
  destruct (scan_minimum_dirty sbi gc_type type _ cs st Hwf Hl)
    as (Hp & Hlay & [Hn|(Hc & Hd)]).
  { rewrite got_it_none in Hg by exact Hn. discriminate. }
  destruct Hp as (_ & _ & _ & Hu).
  assert (Hunit : 0 <= p_log_ofs_unit (sc_p st) /\
                  TOTAL_SEGS sbi + 2 ^ p_log_ofs_unit (sc_p st) <= 2 ^ 32).
  { rewrite <- Hu, select_policy_unit. destruct Hwf as [Hs Ht Hfit _].
    assert (0 < 2 ^ log_segs_per_sec sbi) by (apply Z.pow_pos_nonneg; lia).
    destruct (p_alloc_mode _); cbn; lia. }
  assert (Ht : TOTAL_SEGS (sc_sbi st) = TOTAL_SEGS sbi)
    by (unfold TOTAL_SEGS; symmetry; apply Hlay).
  pose proof Hc as (Hr & _).
  rewrite got_it_found in Hg by (rewrite ?Ht; lia).
  injection Hg as Hr' _.
  exists (p_min_segno (sc_p st)). rewrite Hu.
  split; [auto|]. split; [|split; [exact Hd|exact Hc]].
  pose proof (align_down_range (p_min_segno (sc_p st)) (p_log_ofs_unit (sc_p st))
                ltac:(lia) ltac:(lia)).
  lia.
Qed.

(** X2: [get_victim_by_default] returns 0 or 1, and when it returns 0 it
    has not written [*result] and has changed neither the maps of claimed
    segments nor the maps of dirty segments nor the segment entries. *)
Theorem get_victim_none_changes_nothing sbi result gc_type type found r sbi' :
  selector_wf sbi ->
  get_victim_by_default MAX_VICTIM_SEARCH sbi result gc_type type
  = Some (found, r, sbi') ->
  (found = 0 \/ found = 1) /\
  (found = 0 -> r = result /\ same_layout sbi sbi').
Proof.
  intros Hwf Hg.
  destruct (get_victim_by_default_inv MAX_VICTIM_SEARCH sbi result gc_type type Hwf)
    as (sbi_m & p & He & Hp & Hwm & Hpath).
  rewrite He in Hg. injection Hg as Hg.
  unfold got_it in Hg.
  destruct (Z.eqb_spec (p_min_segno p) NULL_SEGNO) as [Hn|Hn]; cbn [negb] in Hg.
  - injection Hg as <- <- <-. split; [now left|]. intros _.
    split; [reflexivity|].
    destruct Hpath as [(_ & _ & _ & Hnn)|(Hl & _)]; [contradiction|exact Hl].
  - injection Hg as <- _ _. split; [now right|]. discriminate.
Qed.

(** X3: when no segment of the main area is dirty in the map the policy
    reads, a call that reaches the scan finds no victim: it returns 0,
    leaves [*result] as it was, and leaves [last_victim] of its mode at 0,
    so that the next scan starts at segment 0. *)
Theorem get_victim_nothing_dirty sbi result gc_type type :
  selector_wf sbi -> reaches_scan sbi gc_type type ->
  (forall j, 0 <= j < TOTAL_SEGS sbi ->
     test_bit j
       (dirty_segmap sbi (p_dirty_segmap (select_policy sbi gc_type type)))
     = false) ->
  exists sbi',
    get_victim_by_default MAX_VICTIM_SEARCH sbi result gc_type type
    = Some (0, result, sbi') /\
    same_layout sbi sbi' /\
    last_victim sbi' (p_gc_mode (select_policy sbi gc_type type)) = 0.
Proof.
  intros Hwf Hscan Hclean.
  destruct (get_victim_scan_path sbi result gc_type type Hwf Hscan)
    as (cs & st & Hl & He).
  set (ps := select_policy sbi gc_type type) in *.
  pose proof (initial_scan_wf sbi gc_type type Hwf) as Hwf0.
  assert (HF : (same_policy ps (sc_p st) /\ same_layout sbi (sc_sbi st) /\
                p_min_segno (sc_p st) = NULL_SEGNO) /\
               last_victim (sc_sbi st) (p_gc_mode ps) = 0).
  { apply (scan_loop_ends MAX_VICTIM_SEARCH gc_type
      (fun s => same_policy ps (sc_p s) /\ same_layout sbi (sc_sbi s) /\
                p_min_segno (sc_p s) = NULL_SEGNO)
      (fun s => (same_policy ps (sc_p s) /\ same_layout sbi (sc_sbi s) /\
                 p_min_segno (sc_p s) = NULL_SEGNO) /\
                last_victim (sc_sbi s) (p_gc_mode ps) = 0))
      with (fuel := scan_fuel sbi)
           (st := mk_scan sbi (initial_policy sbi gc_type type) 0) (cs := cs);
      auto.
    - intros s c s' Hs (HP & HL & HM) Hb.
      destruct (scan_body_cases _ _ s c s' Hs Hb) as (Hstep & Hl1 & Hp1 & _).
      assert (Hkeep : same_policy ps (sc_p s') /\ same_layout sbi (sc_sbi s') /\
                      p_min_segno (sc_p s') = NULL_SEGNO).
      { split; [exact (same_policy_trans _ _ _ HP Hp1)|].
        split; [exact (same_layout_trans _ _ _ HL Hl1)|].
        destruct (scan_body_min _ _ s c s' Hs Hb)
          as [(_ & -> & _)|(Hlt & Hoff & Hbit & _)]; [exact HM|].
        exfalso.
        match type of Hlt with ?x < _ => set (segno := x) in * end.
        destruct HP as (_ & _ & Hd & _).
        destruct HL as (_ & _ & _ & _ & Hm & _ & _ & Hdm & _).
        rewrite <- Hd, <- Hdm in Hbit. rewrite Hclean in Hbit; [discriminate|].
        destruct Hs as [_ _ _ Ho]. unfold TOTAL_SEGS in *. rewrite Hm. lia. }
      unfold scan_step_spec in Hstep. cbn zeta in Hstep.
      destruct c; cbn [scan_continues]; auto.
      + split; [exact Hkeep|].
        destruct Hstep as (_ & Hz & ->). destruct HP as (_ & Hgm & _).
        rewrite Hgm. exact Hz.
      + exfalso.
        destruct (scan_body_min _ _ s _ s' Hs Hb)
          as [(Hge & _)|(Hlt & Hoff & Hbit & _)];
          [destruct Hstep as (Hlt & _); lia|].
        match type of Hlt with ?x < _ => set (segno := x) in * end.
        destruct HP as (_ & _ & Hd & _).
        destruct HL as (_ & _ & _ & _ & Hm & _ & _ & Hdm & _).
        rewrite <- Hd, <- Hdm in Hbit. rewrite Hclean in Hbit; [discriminate|].
        destruct Hs as [_ _ _ Ho]. unfold TOTAL_SEGS in *. rewrite Hm. lia.
    - split; [repeat split|]. split; [apply same_layout_refl|reflexivity]. }
  destruct HF as ((Hp & Hlay & Hn) & Hz).
  exists (sc_sbi st). rewrite He, got_it_none by exact Hn. auto.
Qed.

End SelectorScan.

(** ** The greedy scan *)

Lemma scan_head_found map total offset u h :
  0 <= u ->
  let segno := find_next_bit map total offset in
  segno < total ->
  test_bit h map = true ->
  (forall k, Z.shiftl (Z.shiftr h u) u <= k < h -> test_bit k map = false) ->
  offset <= h < Z.shiftl (Z.shiftr segno u) u + 2 ^ u ->
  0 <= segno ->
  h = segno.
Proof.
  intros Hu segno Hlt Hbit Hfirst Hh H0.
  destruct (find_next_bit_found map total offset Hlt) as [Hoff Hs].
  fold segno in Hoff, Hs.
  destruct (Z.lt_trichotomy h segno) as [Hl|[He|Hg]]; [|exact He|].
  - pose proof (find_next_bit_first map total offset h ltac:(fold segno; lia)) as Hf.
    unfold test_bit in Hbit. congruence.
  - pose proof (align_down_range segno u Hu H0) as Ha.
    assert (Hal : Z.shiftl (Z.shiftr h u) u = Z.shiftl (Z.shiftr segno u) u)
      by (apply align_down_unit; lia).
    specialize (Hfirst segno ltac:(lia)). unfold test_bit in Hfirst. congruence.
Qed.

Section GreedyScan.

Variable MAX_VICTIM_SEARCH : Z.
Variables (sbi : f2fs_sb_info) (gc_type : gc_type_t) (type : type_hint).
Hypothesis Hwf : selector_wf sbi.
Hypothesis Hgreedy : p_gc_mode (select_policy sbi gc_type type) = GC_GREEDY.

(** An iteration of a greedy scan, read in the state the call started in:
    the scan writes nothing the costs or the candidates depend on. *)
Lemma greedy_scan_step s c s' :
  scan_wf s ->
  greedy_minimum sbi gc_type (select_policy sbi gc_type type) s ->
  scan_body MAX_VICTIM_SEARCH gc_type s = (c, s') ->
  let ps := select_policy sbi gc_type type in
  let segno := find_next_bit (dirty_segmap sbi (p_dirty_segmap ps))
                 (TOTAL_SEGS sbi) (p_offset (sc_p s)) in
  let cost := fst (get_gc_cost sbi segno ps) in
  greedy_minimum sbi gc_type ps s' /\
  match c with
  | ScanRewind => last_victim (sc_sbi s) GC_GREEDY <> 0
  | ScanExhausted =>
      TOTAL_SEGS sbi <= segno /\ s' = s /\
      last_victim (sc_sbi s) GC_GREEDY = 0
  | ScanNext =>
      0 <= segno < TOTAL_SEGS sbi /\
      p_offset (sc_p s) <= segno < p_offset (sc_p s') /\
      p_offset (sc_p s')
      = Z.shiftl (Z.shiftr segno (p_log_ofs_unit ps)) (p_log_ofs_unit ps)
        + 2 ^ p_log_ofs_unit ps /\
      last_victim (sc_sbi s') GC_GREEDY = last_victim (sc_sbi s) GC_GREEDY /\
      ((~ victim_candidate gc_type sbi segno /\
        p_min_segno (sc_p s') = p_min_segno (sc_p s) /\
        p_min_cost (sc_p s') = p_min_cost (sc_p s))
       \/
       (cost < p_min_cost (sc_p s) /\ p_min_segno (sc_p s') = segno /\
        p_min_cost (sc_p s') = cost)
       \/
       (p_min_cost (sc_p s) <= cost /\
        p_min_segno (sc_p s') = p_min_segno (sc_p s) /\
        p_min_cost (sc_p s') = p_min_cost (sc_p s)))
  | ScanLimit =>
      p_offset (sc_p s) <= segno /\ MAX_VICTIM_SEARCH <= sc_nsearched s /\
      last_victim (sc_sbi s') GC_GREEDY = segno
  end.
Proof.
  intros Hs (HP & HL & HM) Hb. cbn zeta.
  set (ps := select_policy sbi gc_type type) in *.
  destruct (scan_body_cases _ _ s c s' Hs Hb) as (Hstep & Hl1 & Hp1 & _).
  pose proof (scan_body_min _ _ s c s' Hs Hb) as Hmin. cbn zeta in Hmin.
  unfold scan_step_spec in Hstep. cbn zeta in Hstep.
  assert (Hgm : p_gc_mode (sc_p s) = GC_GREEDY)
    by (destruct HP as (_ & <- & _); exact Hgreedy).
  assert (Hd : dirty_segmap (sc_sbi s) (p_dirty_segmap (sc_p s))
               = dirty_segmap sbi (p_dirty_segmap ps)).
  { destruct HP as (_ & _ & <- & _).
    destruct HL as (_ & _ & _ & _ & _ & _ & _ & <- & _). reflexivity. }
  assert (Ht : TOTAL_SEGS (sc_sbi s) = TOTAL_SEGS sbi)
    by (unfold TOTAL_SEGS; symmetry; apply HL).
  assert (Hu : p_log_ofs_unit (sc_p s) = p_log_ofs_unit ps)
    by (symmetry; apply HP).
  rewrite Hgm, Hd, Ht, Hu in *.
  set (segno := find_next_bit _ _ _) in *.
  assert (Hcost : get_gc_cost (sc_sbi s) segno (sc_p s)
                  = (fst (get_gc_cost sbi segno ps), sc_sbi s)).
  { rewrite <- (get_gc_cost_same_policy (sc_sbi s) segno ps (sc_p s) HP).
    rewrite <- (get_gc_cost_same_layout sbi (sc_sbi s) segno ps Hgreedy HL).
    rewrite <- (get_gc_cost_greedy (sc_sbi s) segno ps Hgreedy) at 3.
    apply surjective_pairing. }
  rewrite Hcost in Hmin. cbn [fst snd] in Hmin.
  assert (Hcand : forall h, victim_candidate gc_type (sc_sbi s) h
                            <-> victim_candidate gc_type sbi h).
  { intros h. split; apply victim_candidate_same; auto.
    now apply same_layout_sym. }
  assert (HP' : same_policy ps (sc_p s'))
    by exact (same_policy_trans _ _ _ HP Hp1).
  assert (HL' : same_layout sbi (sc_sbi s'))
    by exact (same_layout_trans _ _ _ HL Hl1).
  assert (Hkeep : p_min_segno (sc_p s') = p_min_segno (sc_p s) ->
                  p_min_cost (sc_p s') = p_min_cost (sc_p s) ->
                  greedy_minimum sbi gc_type ps s').
  { intros E1 E2. split; [exact HP'|]. split; [exact HL'|].
    rewrite E1, E2. exact HM. }
  assert (Hmax : p_min_cost (sc_p s) <= get_max_cost sbi ps)
    by (destruct HM as [(_ & ->)|(_ & _ & _ & Hlt)]; lia).
  assert (Hnew : victim_candidate gc_type sbi segno ->
                 test_bit segno (dirty_segmap sbi (p_dirty_segmap ps)) = true ->
                 fst (get_gc_cost sbi segno ps) < p_min_cost (sc_p s) ->
                 p_min_segno (sc_p s') = segno ->
                 p_min_cost (sc_p s') = fst (get_gc_cost sbi segno ps) ->
                 greedy_minimum sbi gc_type ps s').
  { intros Hc Hbit Hlt E1 E2. split; [exact HP'|]. split; [exact HL'|].
    right. rewrite E1, E2. repeat split; auto; try apply Hc. lia. }
  destruct Hmin as [(Hge & E1 & E2)
                   |(Hlt & Hoff & Hbit & [(Hnc & Hcn & _ & E1 & E2)
                                         |(Hc & Hst & Hcmp)])].
  - split; [apply Hkeep; auto|].
    destruct c.
    + destruct Hstep as (_ & Hnz & _). exact Hnz.
    + destruct Hstep as (Hlt & _). lia.
    + destruct Hstep as (_ & Hz & Heq). auto.
    + destruct Hstep as (Hlt & _). lia.
  - subst c. split; [apply Hkeep; auto|].
    destruct Hstep as (_ & Hlv & Hofs & Hadv & _).
    assert (0 <= segno) by (destruct Hs; lia).
    rewrite Hcand in Hnc. repeat split; auto; lia.
  - rewrite Hcand in Hc.
    assert (H0 : 0 <= segno) by (destruct Hs; lia).
    assert (HG : greedy_minimum sbi gc_type ps s').
    { destruct Hcmp as [(Hlt' & E1 & E2)|(Hge & E1 & E2)];
        [apply Hnew; auto|apply Hkeep; auto]. }
    split; [exact HG|].
    destruct Hst as [(-> & Hst)|(-> & Hst)].
    + destruct Hstep as (_ & Hlv & Hofs & Hadv & _).
      repeat split; auto; try lia.
    + destruct Hstep as (_ & Hmx & _ & Hlv). auto.
Qed.

(** The invariant of the exhaustive scan is kept by every iteration that
    continues; an iteration that ends the scan either has compared every
    candidate of the main area or leaves [last_victim] other than 0. *)
Lemma greedy_exhaustive_step s c s' :
  0 < MAX_VICTIM_SEARCH ->
  scan_wf s ->
  greedy_exhaustive sbi gc_type (select_policy sbi gc_type type) s ->
  scan_body MAX_VICTIM_SEARCH gc_type s = (c, s') ->
  if scan_continues c
  then greedy_exhaustive sbi gc_type (select_policy sbi gc_type type) s'
  else last_victim (sc_sbi s') GC_GREEDY = 0 ->
       greedy_minimum sbi gc_type (select_policy sbi gc_type type) s' /\
       compared_below sbi gc_type (select_policy sbi gc_type type)
         (TOTAL_SEGS sbi) s'.
Proof.
  intros Hmaxpos Hs (HG & Hlv & Hns & Hmo & Hcb) Hb.
  destruct (greedy_scan_step s c s' Hs HG Hb) as (HG' & Hc). cbn zeta in Hc.
  set (ps := select_policy sbi gc_type type) in *.
  set (segno := find_next_bit _ _ _) in *.
  assert (Hunit : 0 <= p_log_ofs_unit ps).
  { unfold ps. rewrite select_policy_unit. destruct Hwf.
    destruct (p_alloc_mode _); lia. }
  destruct c; cbn [scan_continues].
  - contradiction.
  - destruct Hc as (H0 & Hadv & Hofs & Hlv' & Hmin).
    split; [exact HG'|]. split; [congruence|]. split; [right; lia|].
    split.
    { destruct Hmin as [(_ & -> & _)|[(_ & -> & _)|(_ & -> & _)]];
        [destruct Hmo; [auto|right; lia]|right; lia
        |destruct Hmo; [auto|right; lia]]. }
    intros h Hh Hch Hlt.
    destruct (Z.lt_ge_cases h (p_offset (sc_p s))) as [Hold|Hnew].
    + destruct (Hcb h Hh Hch Hold) as [Hle Htie].
      destruct Hmin as [(_ & -> & ->)|[(Hc1 & -> & ->)|(_ & -> & ->)]];
        auto.
      split; [lia|]. intros _ _. lia.
    + assert (h = segno).
      { destruct Hh as (Hr & Hbit & Hfirst).
        apply (scan_head_found _ (TOTAL_SEGS sbi) (p_offset (sc_p s))
                 (p_log_ofs_unit ps)); auto; try lia.
        fold segno. lia. }
      subst h.
      destruct Hmin as [(Hn & _)|[(Hc1 & -> & ->)|(Hle & -> & ->)]];
        [contradiction| |].
      * split; [lia|]. intros _ ?. lia.
      * split; [exact Hle|]. intros Hnn ?.
        destruct Hmo as [?|?]; [contradiction|lia].
  - destruct Hc as (Hge & -> & _). intros _. split; [exact HG'|].
    intros h Hh Hch Hlt.
    destruct (Z.lt_ge_cases h (p_offset (sc_p s))) as [Hold|Hnew];
      [exact (Hcb h Hh Hch Hold)|].
    exfalso. destruct Hh as (Hr & Hbit & _).
    pose proof (find_next_bit_first (dirty_segmap sbi (p_dirty_segmap ps))
                  (TOTAL_SEGS sbi) (p_offset (sc_p s)) h
                  ltac:(fold segno; lia)) as Hf.
    unfold test_bit in Hbit. congruence.
  - destruct Hc as (Hoff & Hmx & Hlv'). intros Hz. exfalso.
    destruct Hns as [Hn0|Hn1]; lia.
Qed.

(** The state in which a scan ends when it started with [last_victim] of
    the greedy mode at 0 and leaves it at 0. *)
Lemma greedy_exhaustive_end cs st :
  0 < MAX_VICTIM_SEARCH ->
  last_victim sbi GC_GREEDY = 0 ->
  scan_loop MAX_VICTIM_SEARCH (scan_fuel sbi) gc_type
    (mk_scan sbi (initial_policy sbi gc_type type) 0) = Some (cs, st) ->
  last_victim (sc_sbi st) GC_GREEDY = 0 ->
  greedy_minimum sbi gc_type (select_policy sbi gc_type type) st /\
  compared_below sbi gc_type (select_policy sbi gc_type type)
    (TOTAL_SEGS sbi) st.
Proof.
  intros Hmaxpos Hlv Hl.
  pose proof (initial_scan_wf sbi gc_type type Hwf) as Hwf0.
  apply (scan_loop_ends MAX_VICTIM_SEARCH gc_type
           (greedy_exhaustive sbi gc_type (select_policy sbi gc_type type))
           (fun s => last_victim (sc_sbi s) GC_GREEDY = 0 ->
                     greedy_minimum sbi gc_type (select_policy sbi gc_type type) s /\
                     compared_below sbi gc_type (select_policy sbi gc_type type)
                       (TOTAL_SEGS sbi) s))
    with (fuel := scan_fuel sbi)
         (st := mk_scan sbi (initial_policy sbi gc_type type) 0) (cs := cs);
    auto.
  - intros s c s' Hs HE Hb. exact (greedy_exhaustive_step s c s' Hmaxpos Hs HE Hb).
  - split; [|split; [exact Hlv|split; [now left|split; [now left|]]]].
    + split; [repeat split|]. split; [apply same_layout_refl|].
      left. split; reflexivity.
    + intros h Hh Hc Hlt. cbn [sc_p] in Hlt.
      assert (Hofs : p_offset (initial_policy sbi gc_type type) = 0).
      { unfold initial_policy. destruct type; cbn; [|exact Hlv].
        unfold select_gc_type in *. cbn in Hgreedy.
        destruct gc_type; cbn in *; [discriminate|exact Hlv]. }
      destruct Hh as ((H0 & _) & _). lia.
Qed.

(** The state in which any greedy scan ends. *)
Lemma greedy_minimum_end fuel cs st :
  scan_loop MAX_VICTIM_SEARCH fuel gc_type
    (mk_scan sbi (initial_policy sbi gc_type type) 0) = Some (cs, st) ->
  greedy_minimum sbi gc_type (select_policy sbi gc_type type) st.
Proof.
  intros Hl.
  pose proof (initial_scan_wf sbi gc_type type Hwf) as Hwf0.
  apply (scan_loop_invariant MAX_VICTIM_SEARCH gc_type
           (greedy_minimum sbi gc_type (select_policy sbi gc_type type)))
    with (fuel := fuel)
         (st := mk_scan sbi (initial_policy sbi gc_type type) 0) (cs := cs);
    auto.
  - intros s c s' Hs HG Hb. apply (greedy_scan_step s c s' Hs HG Hb).
  - split; [repeat split|]. split; [apply same_layout_refl|].
    left. split; reflexivity.
Qed.

End GreedyScan.

Lemma same_but_last_victim_refl m a : same_but_last_victim m a a.
Proof. split; [apply same_layout_refl|]. repeat split. Qed.

Lemma same_but_last_victim_trans m a b c :
  same_but_last_victim m a b -> same_but_last_victim m b c ->
  same_but_last_victim m a c.
Proof.
  intros (Hl1 & H1 & H2 & H3 & H4 & H5) (Hl2 & G1 & G2 & G3 & G4 & G5).
  split; [exact (same_layout_trans _ _ _ Hl1 Hl2)|].
  repeat split; try congruence.
  intros m' Hm. rewrite H5, G5; auto.
Qed.

(** An iteration of a greedy scan writes [last_victim] of the greedy mode
    and nothing else. *)
Lemma scan_body_greedy_frame MAX_VICTIM_SEARCH gc_type s c s' :
  p_gc_mode (sc_p s) = GC_GREEDY ->
  scan_body MAX_VICTIM_SEARCH gc_type s = (c, s') ->
  same_but_last_victim GC_GREEDY (sc_sbi s) (sc_sbi s').
Proof.
  intros Hg. unfold scan_body. cbn zeta. unfold get_gc_cost.
  cbn [p_alloc_mode p_gc_mode set_offset]. rewrite Hg.
  destruct (p_alloc_mode (sc_p s));
    repeat match goal with
           | |- context [if ?b then _ else _] => destruct b
           end;
    intros E; inversion E; subst; cbn; rewrite ?Hg;
    try apply same_but_last_victim_refl;
    (split; [unfold same_layout; cbn; repeat split|];
     repeat split; intros m' Hm; destruct m'; cbn; congruence).
Qed.

Section GreedySelection.

Variable MAX_VICTIM_SEARCH : Z.

(** X4: in greedy mode the scan never selects a segment of maximal cost:
    the victim it returns is the start of the scan unit of a candidate [m]
    whose cost, the valid blocks of its section for the collector and the
    valid blocks of the segment at the last checkpoint for the allocator,
    is less than [1 << (log_blocks_per_seg + log_ofs_unit)], the cost of a
    unit without any invalid block. *)
Theorem greedy_victim_below_max_cost sbi result gc_type type r sbi' :
  selector_wf sbi -> reaches_scan sbi gc_type type ->
  p_gc_mode (select_policy sbi gc_type type) = GC_GREEDY ->
  get_victim_by_default MAX_VICTIM_SEARCH sbi result gc_type type
  = Some (1, r, sbi') ->
  exists m,
    r = Z.shiftl (Z.shiftr m (p_log_ofs_unit (select_policy sbi gc_type type)))
          (p_log_ofs_unit (select_policy sbi gc_type type)) /\
    victim_candidate gc_type sbi m /\
    fst (get_gc_cost sbi m (select_policy sbi gc_type type))
    < get_max_cost sbi (select_policy sbi gc_type type).
Proof.
  intros Hwf Hscan Hgreedy Hg.
  destruct (get_victim_scan_path MAX_VICTIM_SEARCH sbi result gc_type type Hwf Hscan)
    as (cs & st & Hl & He).
  rewrite He in Hg. injection Hg as Hg.
  destruct (greedy_minimum_end MAX_VICTIM_SEARCH sbi gc_type type Hwf Hgreedy
              _ cs st Hl) as (Hp & Hlay & [(Hn & _)|(Hc & Hd & Hcost & Hlt)]).
  { rewrite got_it_none in Hg by exact Hn. discriminate. }
  destruct Hp as (_ & _ & _ & Hu).
  assert (Hunit : 0 <= p_log_ofs_unit (sc_p st) /\
                  TOTAL_SEGS sbi + 2 ^ p_log_ofs_unit (sc_p st) <= 2 ^ 32).
  { rewrite <- Hu, select_policy_unit. destruct Hwf as [Hs Ht Hfit _].
    assert (0 < 2 ^ log_segs_per_sec sbi) by (apply Z.pow_pos_nonneg; lia).
    destruct (p_alloc_mode _); cbn; lia. }
  assert (Ht : TOTAL_SEGS (sc_sbi st) = TOTAL_SEGS sbi)
    by (unfold TOTAL_SEGS; symmetry; apply Hlay).
  pose proof Hc as (Hr & _).
  rewrite got_it_found in Hg by (rewrite ?Ht; lia).
  injection Hg as Hr' _.
  exists (p_min_segno (sc_p st)). rewrite Hu.
  split; [auto|]. split; [exact Hc|]. rewrite <- Hcost. exact Hlt.
Qed.

(** What a greedy call that starts with [last_victim] at 0 and leaves it
    at 0 returns. *)
Lemma greedy_exhaustive_outcome sbi result gc_type type found r sbi' :
  selector_wf sbi -> reaches_scan sbi gc_type type ->
  p_gc_mode (select_policy sbi gc_type type) = GC_GREEDY ->
  0 < MAX_VICTIM_SEARCH ->
  last_victim sbi GC_GREEDY = 0 ->
  get_victim_by_default MAX_VICTIM_SEARCH sbi result gc_type type
  = Some (found, r, sbi') ->
  last_victim sbi' GC_GREEDY = 0 ->
  exists st,
    (found, r, sbi') = got_it gc_type result (sc_sbi st) (sc_p st) /\
    greedy_minimum sbi gc_type (select_policy sbi gc_type type) st /\
    compared_below sbi gc_type (select_policy sbi gc_type type)
      (TOTAL_SEGS sbi) st.
Proof.
  intros Hwf Hscan Hgreedy Hmax Hlv Hg Hlv'.
  destruct (get_victim_scan_path MAX_VICTIM_SEARCH sbi result gc_type type Hwf Hscan)
    as (cs & st & Hl & He).
  rewrite He in Hg. injection Hg as Hg.
  exists st. split; [auto|].
  apply (greedy_exhaustive_end MAX_VICTIM_SEARCH sbi gc_type type Hwf Hgreedy
           cs st Hmax Hlv Hl).
  rewrite <- Hlv'. unfold got_it in Hg.
  destruct (negb _); injection Hg as _ _ <-; [|reflexivity].
  now destruct (p_alloc_mode (sc_p st)).
Qed.

(** X5: a greedy call that reaches the scan with [last_victim] at 0 and
    does not stop at the search bound (it leaves [last_victim] at 0)
    returns the cheapest candidate: the victim is the start of the scan
    unit of a dirty candidate [m] whose cost is no more than the cost of
    any candidate that is the first dirty segment of its scan unit, and
    less than the cost of those of a lower segment number, so that among
    the cheapest the first one wins. *)
Theorem greedy_victim_is_minimum sbi result gc_type type r sbi' :
  selector_wf sbi -> reaches_scan sbi gc_type type ->
  p_gc_mode (select_policy sbi gc_type type) = GC_GREEDY ->
  0 < MAX_VICTIM_SEARCH ->
  last_victim sbi GC_GREEDY = 0 ->
  get_victim_by_default MAX_VICTIM_SEARCH sbi result gc_type type
  = Some (1, r, sbi') ->
  last_victim sbi' GC_GREEDY = 0 ->
  exists m,
    r = Z.shiftl (Z.shiftr m (p_log_ofs_unit (select_policy sbi gc_type type)))
          (p_log_ofs_unit (select_policy sbi gc_type type)) /\
    victim_candidate gc_type sbi m /\
    test_bit m (dirty_segmap sbi (p_dirty_segmap (select_policy sbi gc_type type)))
    = true /\
    forall h,
      scan_head sbi (select_policy sbi gc_type type) h ->
      victim_candidate gc_type sbi h ->
      fst (get_gc_cost sbi m (select_policy sbi gc_type type))
      <= fst (get_gc_cost sbi h (select_policy sbi gc_type type)) /\
      (h < m ->
       fst (get_gc_cost sbi m (select_policy sbi gc_type type))
       < fst (get_gc_cost sbi h (select_policy sbi gc_type type))).
Proof.
  intros Hwf Hscan Hgreedy Hmax Hlv Hg Hlv'.
  destruct (greedy_exhaustive_outcome sbi result gc_type type 1 r sbi'
              Hwf Hscan Hgreedy Hmax Hlv Hg Hlv')
    as (st & He & (Hp & Hlay & [(Hn & _)|(Hc & Hd & Hcost & Hlt)]) & Hcb).
  { rewrite got_it_none in He by exact Hn. discriminate. }
  destruct Hp as (_ & _ & _ & Hu).
  assert (Hunit : 0 <= p_log_ofs_unit (sc_p st) /\
                  TOTAL_SEGS sbi + 2 ^ p_log_ofs_unit (sc_p st) <= 2 ^ 32).
  { rewrite <- Hu, select_policy_unit. destruct Hwf as [Hs Ht Hfit _].
    assert (0 < 2 ^ log_segs_per_sec sbi) by (apply Z.pow_pos_nonneg; lia).
    destruct (p_alloc_mode _); cbn; lia. }
  assert (Ht : TOTAL_SEGS (sc_sbi st) = TOTAL_SEGS sbi)
    by (unfold TOTAL_SEGS; symmetry; apply Hlay).
  pose proof Hc as (Hr & _).
  rewrite got_it_found in He by (rewrite ?Ht; lia).
  injection He as Hr' _.
  exists (p_min_segno (sc_p st)). rewrite Hu.
  split; [auto|]. split; [exact Hc|]. split; [exact Hd|].
  intros h Hh Hch. rewrite <- Hcost.
  destruct (Hcb h Hh Hch ltac:(destruct Hh as ((_ & ?) & _); assumption))
    as [Hle Htie].
  split; [exact Hle|]. intros Hhm. apply Htie; [|exact Hhm].
  apply (NULL_SEGNO_out sbi); auto. lia.
Qed.

(** X6: a greedy call that reaches the scan with [last_victim] at 0 and
    does not stop at the search bound reports no victim only when no
    candidate is worth collecting: every candidate that is the first dirty
    segment of its scan unit has the maximal cost. *)
Theorem greedy_no_victim_all_full sbi result gc_type type r sbi' :
  selector_wf sbi -> reaches_scan sbi gc_type type ->
  p_gc_mode (select_policy sbi gc_type type) = GC_GREEDY ->
  0 < MAX_VICTIM_SEARCH ->
  last_victim sbi GC_GREEDY = 0 ->
  get_victim_by_default MAX_VICTIM_SEARCH sbi result gc_type type
  = Some (0, r, sbi') ->
  last_victim sbi' GC_GREEDY = 0 ->
  forall h,
    scan_head sbi (select_policy sbi gc_type type) h ->
    victim_candidate gc_type sbi h ->
    get_max_cost sbi (select_policy sbi gc_type type)
    <= fst (get_gc_cost sbi h (select_policy sbi gc_type type)).
Proof.
  intros Hwf Hscan Hgreedy Hmax Hlv Hg Hlv' h Hh Hch.
  destruct (greedy_exhaustive_outcome sbi result gc_type type 0 r sbi'
              Hwf Hscan Hgreedy Hmax Hlv Hg Hlv')
    as (st & He & (Hp & Hlay & [(Hn & Hcost)|(Hc & Hd & Hcost & Hlt)]) & Hcb).
  - rewrite <- Hcost.
    apply (Hcb h Hh Hch). destruct Hh as ((_ & ?) & _). assumption.
  - exfalso. destruct Hp as (_ & _ & _ & Hu).
    assert (Hunit : 0 <= p_log_ofs_unit (sc_p st) /\
                    TOTAL_SEGS sbi + 2 ^ p_log_ofs_unit (sc_p st) <= 2 ^ 32).
    { rewrite <- Hu, select_policy_unit. destruct Hwf as [Hs Ht Hfit _].
      assert (0 < 2 ^ log_segs_per_sec sbi) by (apply Z.pow_pos_nonneg; lia).
      destruct (p_alloc_mode _); cbn; lia. }
    assert (Ht : TOTAL_SEGS (sc_sbi st) = TOTAL_SEGS sbi)
      by (unfold TOTAL_SEGS; symmetry; apply Hlay).
    pose proof Hc as (Hr & _).
    rewrite got_it_found in He by (rewrite ?Ht; lia).
    discriminate.
Qed.

(** X7: a selection for the allocator (an SSR type) claims nothing: it
    returns with the maps of claimed and of dirty segments, the segment
    entries, the geometry, the bounds of the modification times and
    [last_victim] of the cost-benefit mode as they were; it writes
    [last_victim] of the greedy mode only. *)
Theorem ssr_selection_claims_nothing sbi result gc_type t found r sbi' :
  selector_wf sbi ->
  get_victim_by_default MAX_VICTIM_SEARCH sbi result gc_type (SSR_TYPE t)
  = Some (found, r, sbi') ->
  same_but_last_victim GC_GREEDY sbi sbi'.
Proof.
  intros Hwf Hg.
  assert (Hscan : reaches_scan sbi gc_type (SSR_TYPE t))
    by (intros Ha; discriminate).
  destruct (get_victim_scan_path MAX_VICTIM_SEARCH sbi result gc_type _ Hwf Hscan)
    as (cs & st & Hl & He).
  rewrite He in Hg. injection Hg as Hg.
  pose proof (initial_scan_wf sbi gc_type (SSR_TYPE t) Hwf) as Hwf0.
  assert (HF : same_policy (select_policy sbi gc_type (SSR_TYPE t)) (sc_p st) /\
               same_but_last_victim GC_GREEDY sbi (sc_sbi st)).
  { apply (scan_loop_invariant MAX_VICTIM_SEARCH gc_type
      (fun s => same_policy (select_policy sbi gc_type (SSR_TYPE t)) (sc_p s) /\
                same_but_last_victim GC_GREEDY sbi (sc_sbi s)))
      with (fuel := scan_fuel sbi)
           (st := mk_scan sbi (initial_policy sbi gc_type (SSR_TYPE t)) 0)
           (cs := cs); auto.
    - intros s c s' Hs (HP & HS) Hb.
      destruct (scan_body_cases _ _ s c s' Hs Hb) as (_ & _ & Hp1 & _).
      split; [exact (same_policy_trans _ _ _ HP Hp1)|].
      apply (same_but_last_victim_trans _ _ (sc_sbi s)); [exact HS|].
      apply (scan_body_greedy_frame MAX_VICTIM_SEARCH gc_type s c s'); auto.
      destruct HP as (_ & <- & _). reflexivity.
    - split; [repeat split|apply same_but_last_victim_refl]. }
  destruct HF as ((Ha & _) & HS).
  unfold got_it in Hg. rewrite <- Ha in Hg. cbn [select_policy p_alloc_mode] in Hg.
  destruct (negb _); injection Hg as _ _ <-; exact HS.
Qed.

End GreedySelection.

(** ** The cost-benefit cost and the fast path *)

(** The value of [get_cb_cost] on the inputs in range. *)
Lemma get_cb_cost_value sbi segno :
  cb_in_range sbi segno ->
  fst (get_cb_cost sbi segno) = cb_cost_spec 0 sbi segno.
Proof.
  intros [Hs Hb Hsegno Hsegs Hsec Hmt Hsum Hmin Hmax Hvb].
  unfold get_cb_cost, cb_cost_spec.
  set (s := log_segs_per_sec sbi) in *.
  set (b := log_blocks_per_seg sbi) in *.
  set (start := Z.shiftl (GET_SECNO sbi segno) s) in *.
  assert (Hstart : 0 <= start).
  { unfold start, GET_SECNO. fold s. apply Z.shiftl_nonneg.
    apply Z.shiftr_nonneg. lia. }
  rewrite (u32_small start) by lia.
  set (n := Z.to_nat (segs_per_sec sbi)) in *.
  pose proof (section_mtime_nonneg sbi start n Hmt) as Hsum0.
  rewrite (sum_mtime_exact sbi start n) by (auto; lia).
  set (m := Z.shiftr (section_mtime sbi start n) s).
  pose proof (shiftr_nonneg_le (section_mtime sbi start n) s Hs Hsum0) as Hm.
  fold m in Hm.
  set (vb := Z.shiftr (get_valid_blocks sbi segno s) s) in *.
  destruct (utilization_range vb b Hb Hvb) as [Hu Hur]. rewrite Hu.
  set (u := Z.shiftr (vb * 100) b) in *.
  destruct (widened_bounds sbi m) as [Hlo Hhi]. cbn zeta in Hlo, Hhi.
  set (sbi2 := if max_mtime (if m <? min_mtime sbi then set_min_mtime m sbi else sbi) <? m
               then _ else _) in *.
  cbn [fst]. rewrite Hlo, Hhi.
  set (lo := Z.min (min_mtime sbi) m). set (hi := Z.max (max_mtime sbi) m).
  assert (Hlohi : 0 <= lo <= m /\ m <= hi < 2 ^ 64) by (unfold lo, hi; lia).
  destruct (Z.eqb_spec hi lo) as [Heq|Hne]; cbn [negb].
  - rewrite Z.mul_0_r. rewrite Z.quot_0_l by lia.
    rewrite Z.div_0_l by lia. apply u32_small. unfold UINT_MAX. lia.
  - rewrite (u64_small (m - lo)) by lia.
    rewrite (u64_small (100 * (m - lo))) by lia.
    rewrite (u64_small (hi - lo)) by lia.
    pose proof (age_range m lo hi ltac:(lia) ltac:(lia)) as Hq.
    rewrite (u8_small (100 - _)) by lia.
    set (age := 100 - 100 * (m - lo) / (hi - lo)) in *.
    destruct (benefit_range u age ltac:(lia) ltac:(lia)) as [Hquot Hben].
    rewrite Hquot. apply u32_small. unfold UINT_MAX. lia.
Qed.

Lemma benefit_monotone u1 u2 age1 age2 :
  0 <= u1 <= u2 -> u2 <= 100 -> 0 <= age2 <= age1 ->
  100 * (100 - u2) * age2 / (100 + u2) <= 100 * (100 - u1) * age1 / (100 + u1).
Proof.
  intros Hu Hu2 Ha.
  apply Z.le_trans with (100 * (100 - u2) * age2 / (100 + u1)).
  - apply Z.div_le_compat_l; [nia|lia].
  - apply Z.div_le_mono; [lia|nia].
Qed.

(** X8: the cost-benefit cost prefers the older and the emptier section:
    of two sections whose inputs are in range and whose mean modification
    times lie within the recorded bounds, the one that was modified no
    later and holds no more valid blocks costs no more. *)
Theorem get_cb_cost_monotone sbi segno1 segno2 :
  cb_in_range sbi segno1 -> cb_in_range sbi segno2 ->
  let s := log_segs_per_sec sbi in
  let mean segno :=
    Z.shiftr (section_mtime sbi (Z.shiftl (GET_SECNO sbi segno) s)
                (Z.to_nat (segs_per_sec sbi))) s in
  min_mtime sbi <= mean segno1 -> mean segno1 <= mean segno2 ->
  mean segno2 <= max_mtime sbi ->
  get_valid_blocks sbi segno1 s <= get_valid_blocks sbi segno2 s ->
  fst (get_cb_cost sbi segno1) <= fst (get_cb_cost sbi segno2).
Proof.
  intros H1 H2 s mean Hlo Hm Hhi Hv.
  rewrite (get_cb_cost_value sbi segno1 H1), (get_cb_cost_value sbi segno2 H2).
  unfold cb_cost_spec. fold s. fold (mean segno1). fold (mean segno2).
  rewrite !Z.min_l, !Z.max_l by lia.
  destruct H1 as [Hs Hb _ _ _ _ _ Hmin Hmax Hvb1].
  destruct H2 as [_ _ _ _ _ _ _ _ _ Hvb2]. fold s in Hvb1, Hvb2, Hs.
  set (b := log_blocks_per_seg sbi) in *.
  assert (Hpb : 0 < 2 ^ b) by (apply Z.pow_pos_nonneg; lia).
  assert (Hps : 0 < 2 ^ s) by (apply Z.pow_pos_nonneg; lia).
  assert (Hvs : Z.shiftr (get_valid_blocks sbi segno1 s) s
                <= Z.shiftr (get_valid_blocks sbi segno2 s) s).
  { rewrite !Z.shiftr_div_pow2 by lia. apply Z.div_le_mono; lia. }
  set (vb1 := Z.shiftr (get_valid_blocks sbi segno1 s) s) in *.
  set (vb2 := Z.shiftr (get_valid_blocks sbi segno2 s) s) in *.
  assert (Hu : 0 <= Z.shiftr (vb1 * 100) b <= Z.shiftr (vb2 * 100) b /\
               Z.shiftr (vb2 * 100) b <= 100).
  { rewrite !Z.shiftr_div_pow2 by lia. repeat split.
    - apply Z.div_pos; lia.
    - apply Z.div_le_mono; lia.
    - apply Z.div_le_upper_bound; lia. }
  set (u1 := Z.shiftr (vb1 * 100) b) in *.
  set (u2 := Z.shiftr (vb2 * 100) b) in *.
  destruct (Z.eqb_spec (max_mtime sbi) (min_mtime sbi)) as [Heq|Hne].
  - rewrite !Z.mul_0_r, !Z.div_0_l by lia. lia.
  - assert (Hage : 0 <= 100 - 100 * (mean segno2 - min_mtime sbi)
                              / (max_mtime sbi - min_mtime sbi)
                   <= 100 - 100 * (mean segno1 - min_mtime sbi)
                            / (max_mtime sbi - min_mtime sbi)).
    { pose proof (age_range (mean segno2) (min_mtime sbi) (max_mtime sbi)
                    ltac:(lia) ltac:(lia)).
      split; [lia|].
      assert (100 * (mean segno1 - min_mtime sbi)
                / (max_mtime sbi - min_mtime sbi)
              <= 100 * (mean segno2 - min_mtime sbi)
                 / (max_mtime sbi - min_mtime sbi))
        by (apply Z.div_le_mono; lia).
      lia. }
    pose proof (benefit_monotone u1 u2 _ _ ltac:(lia) ltac:(lia) Hage).
    lia.
Qed.

(** X9: [check_bg_victims] is first fit: either no segment of the main
    area is claimed in [victim_segmap[BG_GC]], and it returns [NULL_SEGNO]
    and changes nothing, or it returns the lowest claimed segment, clears
    the bit of that segment and of no other, and leaves the claims of the
    foreground collector, the maps of dirty segments and [last_victim] as
    they were. *)
Theorem check_bg_victims_first_fit sbi :
  ((forall j, 0 <= j < TOTAL_SEGS sbi ->
      test_bit j (victim_segmap sbi BG_GC) = false) /\
   check_bg_victims sbi = (NULL_SEGNO, sbi))
  \/
  (exists segno sbi',
     check_bg_victims sbi = (segno, sbi') /\
     0 <= segno < TOTAL_SEGS sbi /\
     test_bit segno (victim_segmap sbi BG_GC) = true /\
     (forall j, 0 <= j < segno ->
        test_bit j (victim_segmap sbi BG_GC) = false) /\
     (forall j,
        test_bit j (victim_segmap sbi' BG_GC)
        = test_bit j (victim_segmap sbi BG_GC) && negb (j =? segno)) /\
     victim_segmap sbi' FG_GC = victim_segmap sbi FG_GC /\
     dirty_segmap sbi' = dirty_segmap sbi /\
     last_victim sbi' = last_victim sbi).
Proof.
  unfold check_bg_victims.
  pose proof (find_next_bit_le (victim_segmap sbi BG_GC) (TOTAL_SEGS sbi) 0) as Hle.
  destruct (Z.ltb_spec (find_next_bit (victim_segmap sbi BG_GC) (TOTAL_SEGS sbi) 0)
              (TOTAL_SEGS sbi)) as [Hlt|Hge].
  - right. destruct (find_next_bit_found _ _ _ Hlt) as [H0 Hb].
    eexists _, _. split; [reflexivity|].
    repeat split; auto.
    + intros j Hj. apply (find_next_bit_first _ (TOTAL_SEGS sbi) 0). lia.
    + intros j. cbn. apply test_clear_bit. exact H0.
  - left. split; [|reflexivity].
    intros j Hj. apply (find_next_bit_first _ (TOTAL_SEGS sbi) 0). lia.
Qed.

Lemma section_mtime_const sbi start n T :
  (forall i, mtime (get_seg_entry sbi i) = T) ->
  section_mtime sbi start n = Z.of_nat n * T.
Proof.
  intros HT. induction n as [|n IH]; [reflexivity|].
  rewrite section_mtime_step, IH, HT. lia.
Qed.

(** With every segment modified at the time that is both bounds of the
    modification times, the cost-benefit cost is maximal and the bounds
    stay as they are. *)
Lemma get_cb_cost_flat sbi segno T :
  0 <= log_segs_per_sec sbi ->
  segs_per_sec sbi = 2 ^ log_segs_per_sec sbi ->
  0 <= segno ->
  Z.shiftl (GET_SECNO sbi segno) (log_segs_per_sec sbi)
  + 2 ^ log_segs_per_sec sbi <= 2 ^ 32 ->
  (forall i, mtime (get_seg_entry sbi i) = T) ->
  0 <= T -> 2 ^ log_segs_per_sec sbi * T < 2 ^ 64 ->
  min_mtime sbi = T -> max_mtime sbi = T ->
  get_cb_cost sbi segno = (UINT_MAX, sbi).
Proof.
  intros Hs Hn Hsegno Hfit HT HT0 Hsum Hmin Hmax.
  unfold get_cb_cost.
  set (s := log_segs_per_sec sbi) in *.
  assert (Hps : 0 < 2 ^ s) by (apply Z.pow_pos_nonneg; lia).
  set (start := Z.shiftl (GET_SECNO sbi segno) s) in *.
  assert (Hstart : 0 <= start).
  { unfold start, GET_SECNO. fold s. apply Z.shiftl_nonneg.
    apply Z.shiftr_nonneg. lia. }
  rewrite (u32_small start) by lia.
  rewrite Hn.
  assert (Hsm : sum_mtime sbi start (Z.to_nat (2 ^ s)) = 2 ^ s * T).
  { rewrite sum_mtime_exact; rewrite ?section_mtime_const with (T := T);
      rewrite ?Z2Nat.id; auto; try lia.
    intros i. rewrite HT. exact HT0. }
  rewrite Hsm.
  assert (Hm : Z.shiftr (2 ^ s * T) s = T).
  { rewrite Z.shiftr_div_pow2 by lia. rewrite Z.mul_comm.
    apply Z.div_mul. lia. }
  rewrite Hm, Hmin, Z.ltb_irrefl, Hmax, Z.ltb_irrefl, Hmax, Hmin, Z.eqb_refl.
  cbn [negb]. rewrite Z.mul_0_r, Z.quot_0_l, Z.sub_0_r.
  - reflexivity.
  - pose proof (u8_range (Z.shiftr (u32 (Z.shiftr
                  (get_valid_blocks sbi segno s) s * 100))
                  (log_blocks_per_seg sbi))). lia.
Qed.

Lemma scan_body_no_segment MAX_VICTIM_SEARCH gc_type s c s' :
  TOTAL_SEGS (sc_sbi s)
  <= find_next_bit (dirty_segmap (sc_sbi s) (p_dirty_segmap (sc_p s)))
       (TOTAL_SEGS (sc_sbi s)) (p_offset (sc_p s)) ->
  scan_body MAX_VICTIM_SEARCH gc_type s = (c, s') ->
  sc_sbi s' = sc_sbi s \/
  sc_sbi s' = set_last_victim (p_gc_mode (sc_p s)) 0 (sc_sbi s).
Proof.
  intros Hge. unfold scan_body. cbn zeta.
  apply Z.leb_le in Hge. rewrite Hge.
  destruct (negb _); intros E; inversion E; subst; cbn; auto.
Qed.

Section FlatTimes.

Variable MAX_VICTIM_SEARCH : Z.

(** X10: the background collector finds no victim while all segments
    carry the same modification time and that time is both recorded
    bounds: every section then has the age 0 and the maximal cost
    [UINT_MAX], whatever the number of its valid blocks, and a call in
    cost-benefit mode returns 0 without writing [*result]. *)
Theorem bg_selection_flat_times sbi result T :
  selector_wf sbi ->
  segs_per_sec sbi = 2 ^ log_segs_per_sec sbi ->
  (forall i, mtime (get_seg_entry sbi i) = T) ->
  0 <= T -> 2 ^ log_segs_per_sec sbi * T < 2 ^ 64 ->
  min_mtime sbi = T -> max_mtime sbi = T ->
  exists sbi',
    get_victim_by_default MAX_VICTIM_SEARCH sbi result BG_GC NO_CHECK_TYPE
    = Some (0, result, sbi') /\
    same_layout sbi sbi'.
Proof.
  intros Hwf Hn HT HT0 Hsum Hmin Hmax.
  assert (Hscan : reaches_scan sbi BG_GC NO_CHECK_TYPE)
    by (intros _ ?; discriminate).
  destruct (get_victim_scan_path MAX_VICTIM_SEARCH sbi result _ _ Hwf Hscan)
    as (cs & st & Hl & He).
  set (ps := select_policy sbi BG_GC NO_CHECK_TYPE) in *.
  pose proof (initial_scan_wf sbi BG_GC NO_CHECK_TYPE Hwf) as Hwf0.
  assert (HF : same_policy ps (sc_p st) /\ same_layout sbi (sc_sbi st) /\
               min_mtime (sc_sbi st) = T /\ max_mtime (sc_sbi st) = T /\
               p_min_segno (sc_p st) = NULL_SEGNO /\
               p_min_cost (sc_p st) = UINT_MAX).
  { apply (scan_loop_invariant MAX_VICTIM_SEARCH BG_GC
      (fun s => same_policy ps (sc_p s) /\ same_layout sbi (sc_sbi s) /\
                min_mtime (sc_sbi s) = T /\ max_mtime (sc_sbi s) = T /\
                p_min_segno (sc_p s) = NULL_SEGNO /\
                p_min_cost (sc_p s) = UINT_MAX))
      with (fuel := scan_fuel sbi)
           (st := mk_scan sbi (initial_policy sbi BG_GC NO_CHECK_TYPE) 0)
           (cs := cs); auto.
    - intros s c s' Hs (HP & HL & Hlo & Hhi & Hm & Hc) Hb.
      destruct (scan_body_cases _ _ s c s' Hs Hb) as (_ & Hl1 & Hp1 & _).
      split; [exact (same_policy_trans _ _ _ HP Hp1)|].
      split; [exact (same_layout_trans _ _ _ HL Hl1)|].
      pose proof (scan_body_min _ _ s c s' Hs Hb) as Hmn. cbn zeta in Hmn.
      destruct Hmn as [(Hge & E1 & E2)
                       |(Hlt & Hoff & Hbit & [(_ & _ & Est & E1 & E2)
                                             |(Hcand & Hst & Hcmp)])].
      + rewrite E1, E2.
        destruct (scan_body_no_segment _ _ s c s' Hge Hb) as [->| ->]; auto.
      + rewrite E1, E2, Est. auto.
      + assert (Hcost : get_gc_cost (sc_sbi s)
                          (find_next_bit
                             (dirty_segmap (sc_sbi s) (p_dirty_segmap (sc_p s)))
                             (TOTAL_SEGS (sc_sbi s)) (p_offset (sc_p s)))
                          (sc_p s)
                        = (UINT_MAX, sc_sbi s)).
        { set (segno := find_next_bit _ _ _) in *.
          unfold get_gc_cost.
          destruct HP as (Ha & Hg & _). rewrite <- Ha, <- Hg. cbn.
          destruct HL as (_ & _ & Hls & Hss & Hms & Hse & _).
          destruct Hwf as [Hs0 Ht0 Hfit0 _]. destruct Hs as [_ _ _ Ho].
          unfold TOTAL_SEGS in *.
          apply (get_cb_cost_flat (sc_sbi s) segno T);
            rewrite <- ?Hls, <- ?Hss; auto; try lia.
          - unfold GET_SECNO. rewrite <- Hls.
            pose proof (align_down_range segno (log_segs_per_sec sbi) Hs0
                          ltac:(lia)). lia.
          - intros i. unfold get_seg_entry. rewrite <- Hse. apply HT. }
        rewrite Hcost in Hst, Hcmp. cbn [fst snd] in Hst, Hcmp.
        destruct Hcmp as [(Hlt' & _)|(_ & E1 & E2)]; [lia|].
        rewrite E1, E2.
        destruct Hst as [(_ & ->)|(_ & ->)]; auto.
    - split; [repeat split|]. split; [apply same_layout_refl|]. auto. }
  destruct HF as (_ & Hlay & _ & _ & Hm & _).
  exists (sc_sbi st). rewrite He, got_it_none by exact Hm. auto.
Qed.

End FlatTimes.

(** ** The order of the start block indices *)

Lemma div_lipschitz a b d :
  0 < d -> a <= b -> 0 <= b / d - a / d <= b - a.
Proof.
  intros Hd Hab. split.
  - apply Zle_minus_le_0. apply Z.div_le_mono; lia.
  - assert (b / d <= (a + (b - a) * d) / d) by (apply Z.div_le_mono; nia).
    rewrite Z.div_add in H by lia. lia.
Qed.

Section NodeLayoutOrder.

Variables NIDS_PER_BLOCK ADDRS_PER_BLOCK ADDRS_PER_INODE : Z.

Hypothesis nids_range : 0 <= NIDS_PER_BLOCK /\ 2 * NIDS_PER_BLOCK + 4 < 2 ^ 31.

(** The value of [start_bidx_of_node] at the offsets at which no
    subtraction wraps. *)
Lemma start_bidx_of_node_value nofs :
  0 <= nofs < 2 ^ 32 ->
  wraps_at NIDS_PER_BLOCK nofs = false ->
  start_bidx_of_node NIDS_PER_BLOCK ADDRS_PER_BLOCK ADDRS_PER_INODE nofs
  = u32 (start_bidx_spec NIDS_PER_BLOCK ADDRS_PER_BLOCK ADDRS_PER_INODE nofs).
Proof.
  intros Hr Hw. destruct nids_range as [HN0 HN1].
  unfold wraps_at in Hw.
  apply orb_false_elim in Hw as [Hw H6]. apply orb_false_elim in Hw as [H3 H5].
  apply Z.eqb_neq in H3, H5, H6.
  unfold start_bidx_of_node, start_bidx_spec, bidx_spec.
  rewrite (u32_small (2 * NIDS_PER_BLOCK + 4)) by lia.
  rewrite (u32_small (NIDS_PER_BLOCK + 1)) by lia.
  destruct (Z.eqb_spec nofs 0) as [->|Hz]; [reflexivity|].
  destruct (Z.leb_spec nofs 2) as [H2|H2].
  - cbn [Z.eqb]. apply u32_mul_add_l.
  - destruct (Z.leb_spec nofs (2 * NIDS_PER_BLOCK + 4)) as [Hi|Hi]; cbn [Z.eqb].
    + rewrite (u32_small (nofs - 4)) by lia.
      rewrite u32_sub_s32. apply u32_mul_add_l.
    + rewrite (u32_small (nofs - (2 * NIDS_PER_BLOCK + 4) - 3)) by lia.
      rewrite u32_sub_s32. apply u32_mul_add_l.
Qed.

Lemma bidx_spec_range nofs :
  1 <= nofs -> wraps_at NIDS_PER_BLOCK nofs = false ->
  0 <= bidx_spec NIDS_PER_BLOCK nofs <= nofs - 1 /\
  (2 < nofs -> 2 <= bidx_spec NIDS_PER_BLOCK nofs) /\
  (nofs <= 2 * NIDS_PER_BLOCK + 4 ->
   bidx_spec NIDS_PER_BLOCK nofs <= 2 * NIDS_PER_BLOCK + 2) /\
  (2 * NIDS_PER_BLOCK + 4 < nofs ->
   2 * NIDS_PER_BLOCK + 2 <= bidx_spec NIDS_PER_BLOCK nofs).
Proof.
  intros H1 Hw. destruct nids_range as [HN0 HN1].
  unfold wraps_at in Hw.
  apply orb_false_elim in Hw as [Hw H6]. apply orb_false_elim in Hw as [H3 H5].
  apply Z.eqb_neq in H3, H5, H6.
  unfold bidx_spec.
  destruct (Z.leb_spec nofs 2); [lia|].
  destruct (Z.leb_spec nofs (2 * NIDS_PER_BLOCK + 4)).
  - pose proof (dec_le (nofs - 4) (NIDS_PER_BLOCK + 1) ltac:(lia) ltac:(lia)).
    lia.
  - pose proof (dec_le (nofs - (2 * NIDS_PER_BLOCK + 4) - 3) (NIDS_PER_BLOCK + 1)
                  ltac:(lia) ltac:(lia)).
    lia.
Qed.

Lemma bidx_spec_monotone a b :
  1 <= a <= b ->
  wraps_at NIDS_PER_BLOCK a = false -> wraps_at NIDS_PER_BLOCK b = false ->
  0 <= bidx_spec NIDS_PER_BLOCK b - bidx_spec NIDS_PER_BLOCK a <= b - a.
Proof.
  intros Hab Ha Hb. destruct nids_range as [HN0 HN1].
  pose proof (bidx_spec_range a ltac:(lia) Ha) as (Ra & Ra2 & Ram & Rau).
  pose proof (bidx_spec_range b ltac:(lia) Hb) as (Rb & Rb2 & Rbm & Rbu).
  unfold wraps_at in Ha, Hb.
  apply orb_false_elim in Ha as [Ha Ha6]. apply orb_false_elim in Ha as [Ha3 Ha5].
  apply orb_false_elim in Hb as [Hb Hb6]. apply orb_false_elim in Hb as [Hb3 Hb5].
  apply Z.eqb_neq in Ha3, Ha5, Ha6, Hb3, Hb5, Hb6.
  unfold bidx_spec in *.
  destruct (Z.leb_spec a 2), (Z.leb_spec b 2); cbv iota in *; try lia.
  destruct (Z.leb_spec a (2 * NIDS_PER_BLOCK + 4)),
           (Z.leb_spec b (2 * NIDS_PER_BLOCK + 4)); cbv iota in *; try lia.
  - pose proof (div_lipschitz (a - 4) (b - 4) (NIDS_PER_BLOCK + 1)
                  ltac:(lia) ltac:(lia)). lia.
  - assert ((a - 4) / (NIDS_PER_BLOCK + 1) < 2)
      by (apply Z.div_lt_upper_bound; lia).
    assert (0 <= (b - (2 * NIDS_PER_BLOCK + 4) - 3) / (NIDS_PER_BLOCK + 1))
      by (apply Z.div_pos; lia).
    lia.
  - pose proof (div_lipschitz (a - (2 * NIDS_PER_BLOCK + 4) - 3)
                  (b - (2 * NIDS_PER_BLOCK + 4) - 3) (NIDS_PER_BLOCK + 1)
                  ltac:(lia) ltac:(lia)). lia.
Qed.

(** X11: away from the three offsets at which the code wraps, and as long
    as the result fits in 32 bits, the start block index follows the order
    of the node offsets, from offset 0 on: a node page of a higher offset
    never starts at a lower block index.  From the inode, at offset 0, to
    offset 1 the start index advances from 0 to [ADDRS_PER_INODE]; from
    any other offset to the next it either stays (the higher offset is
    that of an indirect node, which holds no data block address) or
    advances by exactly [ADDRS_PER_BLOCK]. *)
Theorem start_bidx_of_node_monotone a b :
  0 <= ADDRS_PER_BLOCK -> 0 <= ADDRS_PER_INODE ->
  0 <= a <= b -> b < 2 ^ 32 ->
  wraps_at NIDS_PER_BLOCK a = false -> wraps_at NIDS_PER_BLOCK b = false ->
  b * ADDRS_PER_BLOCK + ADDRS_PER_INODE < 2 ^ 32 ->
  let start := start_bidx_of_node NIDS_PER_BLOCK ADDRS_PER_BLOCK ADDRS_PER_INODE in
  start a <= start b /\
  (b = a + 1 ->
   if a =? 0 then start a = 0 /\ start b = ADDRS_PER_INODE
   else start b = start a \/ start b = start a + ADDRS_PER_BLOCK).
Proof.
  intros HA HI Hab Hb32 Ha Hb Hfit start. subst start.
  rewrite !start_bidx_of_node_value by (auto; lia).
  unfold start_bidx_spec.
  destruct (Z.eqb_spec b 0) as [Hb0|Hb0].
  { assert (a = 0) by lia. subst a b. cbn [Z.eqb]. split; [lia|]. lia. }
  pose proof (bidx_spec_range b ltac:(lia) Hb) as (Rb & _).
  destruct (Z.eqb_spec a 0) as [Ha0|Ha0].
  - subst a. unfold u32 at 1. rewrite Z.mod_0_l by lia.
    set (bb := bidx_spec NIDS_PER_BLOCK b) in *.
    rewrite u32_small by nia.
    split; [nia|].
    intros ->. split; [reflexivity|].
    subst bb. unfold bidx_spec. cbn. lia.
  - pose proof (bidx_spec_range a ltac:(lia) Ha) as (Ra & _).
    pose proof (bidx_spec_monotone a b ltac:(lia) Ha Hb) as Hm.
    set (ba := bidx_spec NIDS_PER_BLOCK a) in *.
    set (bb := bidx_spec NIDS_PER_BLOCK b) in *.
    rewrite !u32_small by nia.
    split; [nia|].
    intros ->. assert (bb = ba \/ bb = ba + 1) as [->| ->] by lia; [now left|].
    right. ring.
Qed.

End NodeLayoutOrder.

(** ** The list of pinned inodes: lookup and composition *)

Section PinList.

Variables (K inode page : Type).
Variable inode_eq_dec : forall a b : inode, {a = b} + {a <> b}.
Variable ops : kernel_ops K inode page.
Variable i_ino : inode -> Z.

(** X12: [find_gc_inode] returns the inode of the first entry of the list
    whose inode number is the one asked for, and no inode (NULL) exactly
    when no entry of the list has that number. *)
Theorem find_gc_inode_first_match (ino : Z) (ilist : list (inode_entry inode)) :
  match find_gc_inode i_ino ino ilist with
  | Some i =>
      exists before after,
        pinned ilist = before ++ i :: after /\ i_ino i = ino /\
        forall j, In j before -> i_ino j <> ino
  | None => forall j, In j (pinned ilist) -> i_ino j <> ino
  end.
Proof.
  induction ilist as [|ie rest IH]; cbn [find_gc_inode].
  - intros j [].
  - destruct (Z.eqb_spec (i_ino (ie_inode ie)) ino) as [He|Hne].
    + exists [], (pinned rest). repeat split; auto.
    + destruct (find_gc_inode i_ino ino rest) as [i|].
      * destruct IH as (before & after & Hp & Hi & Hb).
        exists (ie_inode ie :: before), after.
        change (pinned (ie :: rest)) with (ie_inode ie :: pinned rest).
        rewrite Hp. repeat split; auto. intros j [<-|Hj]; auto.
      * intros j [<-|Hj]; auto.
Qed.

Lemma find_gc_inode_app ino l1 l2 :
  find_gc_inode i_ino ino (l1 ++ l2)
  = match find_gc_inode i_ino ino l1 with
    | Some i => Some i
    | None => find_gc_inode i_ino ino l2
    end.
Proof.
  induction l1 as [|ie rest IH]; [reflexivity|]. cbn.
  destruct (i_ino (ie_inode ie) =? ino); auto.
Qed.

Lemma find_gc_inode_found ino ilist j :
  find_gc_inode i_ino ino ilist = Some j ->
  In j (pinned ilist) /\ i_ino j = ino.
Proof.
  induction ilist as [|ie rest IH]; cbn [find_gc_inode]; [discriminate|].
  change (pinned (ie :: rest)) with (ie_inode ie :: pinned rest).
  destruct (Z.eqb_spec (i_ino (ie_inode ie)) ino) as [He|Hne].
  - intros E. injection E as <-. split; [now left|exact He].
  - intros E. destruct (IH E) as [Hin Hj]. split; [now right|exact Hj].
Qed.

Lemma find_gc_inode_listed i ilist :
  (forall j, In j (pinned ilist) -> i_ino j = i_ino i -> j = i) ->
  In i (pinned ilist) ->
  find_gc_inode i_ino (i_ino i) ilist = Some i.
Proof.
  induction ilist as [|ie rest IH]; intros Hinj Hin; [destruct Hin|].
  cbn in *. destruct (Z.eqb_spec (i_ino (ie_inode ie)) (i_ino i)) as [He|Hne].
  - f_equal. apply Hinj; auto.
  - destruct Hin as [<-|Hin]; [congruence|]. apply IH; auto.
Qed.

(** X13: an inode that [add_gc_inode] has added is found by its number:
    when no other inode of the list has the number of [i], looking that
    number up in the list [add_gc_inode] returns gives [i]; and a lookup
    of any other number gives what it gave before. *)
Theorem add_gc_inode_then_find (i : inode) (ilist : list (inode_entry inode))
    (w : world K) :
  (forall j, In j (pinned ilist) -> i_ino j = i_ino i -> j = i) ->
  let added := fst (fst (add_gc_inode inode_eq_dec ops i ilist w)) in
  find_gc_inode i_ino (i_ino i) added = Some i /\
  forall ino, ino <> i_ino i ->
    find_gc_inode i_ino ino added = find_gc_inode i_ino ino ilist.
Proof.
  intros Hinj. cbn zeta.
  destruct (in_dec inode_eq_dec i (pinned ilist)) as [Hin|Hin].
  - rewrite add_gc_inode_listed by exact Hin. cbn [fst].
    split; [apply find_gc_inode_listed; auto|reflexivity].
  - destruct (add_gc_inode_fresh _ _ _ inode_eq_dec ops i ilist w Hin) as [-> _].
    split.
    + rewrite find_gc_inode_app.
      destruct (find_gc_inode i_ino (i_ino i) ilist) as [j|] eqn:Hf.
      * exfalso. destruct (find_gc_inode_found _ _ _ Hf) as [Hjin Hj].
        rewrite (Hinj j Hjin Hj) in Hjin. contradiction.
      * cbn. now rewrite Z.eqb_refl.
    + intros ino Hne. rewrite find_gc_inode_app.
      destruct (find_gc_inode i_ino ino ilist); [reflexivity|].
      cbn. destruct (Z.eqb_spec (i_ino i) ino); congruence.
Qed.

Lemma count_occ_Release_nil (j : inode) :
  count_occ (event_eq_dec inode_eq_dec) [] (Release j) = 0%nat.
Proof. reflexivity. Qed.




End PinList.

(** ** What [f2fs_gc] and the worker return *)

Section CollectorOutcome.

Variables (K inode page : Type).
Variable inode_eq_dec : forall a b : inode, {a = b} + {a <> b}.
Variable ops : kernel_ops K inode page.
Variable i_ino : inode -> Z.
Variables NIDS_PER_BLOCK ADDRS_PER_BLOCK ADDRS_PER_INODE : Z.

Lemma do_garbage_collect_status segno ilist gc_type :
  post (do_garbage_collect inode_eq_dec i_ino NIDS_PER_BLOCK ADDRS_PER_BLOCK
          ADDRS_PER_INODE ops segno ilist gc_type)
    (fun r => fst r = GC_ERROR \/ fst r = GC_BLOCKED \/ fst r = GC_DONE).
Proof.
  intros w.
  destruct (do_garbage_collect_post K inode page inode_eq_dec ops i_ino
              NIDS_PER_BLOCK ADDRS_PER_BLOCK ADDRS_PER_INODE (fun _ => True)
              ltac:(intros; apply post_any) segno ilist gc_type I w)
    as [_ [[_ H]|[_ [H|H]]]]; auto.
Qed.

Lemma gc_section_status n i segno ilist gc_type status nfree :
  returned_status status ->
  post (gc_section inode_eq_dec i_ino NIDS_PER_BLOCK ADDRS_PER_BLOCK
          ADDRS_PER_INODE ops n i segno ilist gc_type status nfree)
    (fun r => returned_status (snd (fst (fst r)))).
Proof.
  revert i ilist status nfree.
  induction n as [|n IH]; intros i ilist status nfree Hs; cbn [gc_section].
  - apply post_ret. exact Hs.
  - eapply post_bind; [apply do_garbage_collect_status|].
    intros [st l] Hst. cbn [fst] in Hst.
    assert (returned_status st) by (unfold returned_status; tauto).
    destruct (negb _); [apply post_ret; assumption|apply IH; assumption].
Qed.

Lemma gc_while_status fuel nGC old_free_secs l :
  returned_status (l_status l) ->
  posto (gc_while inode_eq_dec i_ino NIDS_PER_BLOCK ADDRS_PER_BLOCK
           ADDRS_PER_INODE ops fuel nGC old_free_secs l)
    (fun l' => returned_status (l_status l')).
Proof.
  revert l. induction fuel as [|fuel IH]; intros l Hs; cbn [gc_while].
  - intros w a w' t E. discriminate.
  - eapply posto_bind; [apply posto_any|]. intros active _.
    destruct (negb active); [apply posto_lift, post_ret; exact Hs|].
    eapply posto_bind; [apply posto_any|]. intros pressed _.
    eapply posto_bind; [apply posto_any|]. intros free _.
    destruct (_ <? _); [apply posto_lift, post_ret; exact Hs|].
    eapply posto_bind; [apply posto_any|]. intros [found segno] _.
    destruct (found =? 0); [apply posto_lift, post_ret; exact Hs|].
    eapply posto_bind; [apply posto_any|]. intros sbi _.
    eapply posto_bind.
    + apply posto_lift. apply gc_section_status. exact Hs.
    + intros [[[stop status] ilist] nfree] Hl. cbn in Hl.
      destruct stop; [apply posto_lift, post_ret; exact Hl|].
      apply IH. exact Hl.
Qed.

Lemma f2fs_gc_more_status fuel nGC segno ilist gc_type :
  posto (f2fs_gc_more inode_eq_dec i_ino NIDS_PER_BLOCK ADDRS_PER_BLOCK
           ADDRS_PER_INODE ops fuel nGC segno ilist gc_type)
    (fun r => returned_status (fst r)).
Proof.
  revert segno ilist gc_type.
  induction fuel as [|fuel IH]; intros segno ilist gc_type;
    cbn [f2fs_gc_more].
  - intros w a w' t E. discriminate.
  - eapply posto_bind; [apply posto_any|]. intros pressed _.
    eapply posto_bind; [apply posto_any|]. intros old _.
    eapply posto_bind; [apply gc_while_status; now left|].
    intros l Hl. cbn in Hl.
    eapply posto_bind; [apply posto_any|]. intros pressed' _.
    destruct (_ || _); [|apply posto_lift, post_ret; exact Hl].
    eapply posto_bind; [apply posto_any|]. intros _ _.
    destruct (negb _); [apply IH|apply posto_lift, post_ret; exact Hl].
Qed.

Lemma put_gc_inode_from_sbi todo : forall ilist w,
  (forall i w, w_sbi (iput_inode ops i w) = w_sbi w) ->
  (forall w, w_sbi (kmem_cache_free ops w) = w_sbi w) ->
  w_sbi (snd (fst (put_gc_inode_from inode_eq_dec ops todo ilist w)))
  = w_sbi w.
Proof.
  induction todo as [|ie rest IH]; intros ilist w Hput Hfree;
    cbn [put_gc_inode_from]; [reflexivity|].
  unfold bind, iput, exec.
  specialize (IH (list_del inode_eq_dec ie ilist)
                (kmem_cache_free ops (iput_inode ops (ie_inode ie) w))
                Hput Hfree).
  destruct (put_gc_inode_from inode_eq_dec ops rest _ _) as [[l w2] t2].
  cbn [fst snd] in *. now rewrite IH, Hfree, Hput.
Qed.

(** X15: [f2fs_gc] returns [GC_NONE], [GC_ERROR], [GC_BLOCKED] or
    [GC_DONE], never one of the statuses [GC_OK] and [GC_NEXT] of the
    validity checks; and, in a kernel whose [iput] and slab free do not
    write the superblock information, [sbi->last_gc_status] holds the
    status returned when the function returns. *)
Theorem f2fs_gc_returned_status (fuel : nat) (nGC : Z) (w w' : world K)
    (e : gc_exit inode) (tr : list (event inode)) :
  (forall i w, w_sbi (iput_inode ops i w) = w_sbi w) ->
  (forall w, w_sbi (kmem_cache_free ops w) = w_sbi w) ->
  f2fs_gc inode_eq_dec i_ino NIDS_PER_BLOCK ADDRS_PER_BLOCK ADDRS_PER_INODE
    ops fuel nGC w = Some (e, w', tr) ->
  returned_status (exit_status e) /\
  last_gc_status (w_sbi w') = exit_status e.
Proof.
  intros Hput Hfree. unfold f2fs_gc. unfold bindo at 1.
  destruct (f2fs_gc_more _ _ _ _ _ _ _ _ _ _ _ w) as [[[[st il] w1] t1]|] eqn:Hm;
    [|discriminate].
  pose proof (f2fs_gc_more_status fuel nGC 0 [] BG_GC w (st, il) w1 t1 Hm) as Hs.
  cbn [fst] in Hs.
  unfold bindo, lift, exec, ret. cbn [fst snd].
  pose proof (put_gc_inode_from_sbi il il
                (set_sbi (set_last_gc_status st) w1) Hput Hfree) as Hsbi.
  unfold put_gc_inode.
  destruct (put_gc_inode_from inode_eq_dec ops il il _) as [[l w2] t2].
  cbn [fst snd] in Hsbi.
  intros E. injection E as <- <- _. cbn [exit_status].
  split; [exact Hs|]. rewrite Hsbi. reflexivity.
Qed.

(** X16: with nothing to collect, [f2fs_gc] returns [GC_NONE] at once:
    when the file system is not active at the call, or when the victim
    selector, called in the state of the call for the collector the round
    runs as, finds no victim, the call returns within its first round,
    whatever [nGC], with the status [GC_NONE], an empty list of pinned
    inodes and no reference taken or dropped. *)
Theorem f2fs_gc_nothing_to_collect (fuel : nat) (nGC : Z) (w : world K) :
  sb_active ops w = false \/
  fst (fst (get_victim ops 0
              (if has_not_enough_free_secs ops w then FG_GC else BG_GC)
              NO_CHECK_TYPE w)) = 0 ->
  exists w',
    f2fs_gc inode_eq_dec i_ino NIDS_PER_BLOCK ADDRS_PER_BLOCK ADDRS_PER_INODE
      ops (S fuel) nGC w
    = Some (mk_gc_exit GC_NONE [] false, w', []).
Proof.
  intros Hidle.
  assert (Hmore : exists w1,
    f2fs_gc_more inode_eq_dec i_ino NIDS_PER_BLOCK ADDRS_PER_BLOCK
      ADDRS_PER_INODE ops (S fuel) nGC 0 [] BG_GC w
    = Some ((GC_NONE, []), w1, [])).
  { cbn [f2fs_gc_more gc_while].
    unfold bindo, lift, read, ret, call, exec. cbn [fst snd app].
    destruct (has_not_enough_free_secs ops w) eqn:Hp; cbn [fst snd app];
      (destruct (sb_active ops w) eqn:Hact;
         cbn [negb fst snd app l_nfree l_segno l_gc_type];
       [ rewrite ?Hp; cbn [fst snd app];
         destruct (_ <? _); cbn [fst snd app];
         [ cbn; rewrite ?Hp; cbn; eauto | ];
         destruct Hidle as [Hin|Hnv]; [discriminate|];
         match goal with
         | |- context [get_victim ops ?r ?g ?t ?w0] =>
             destruct (get_victim ops r g t w0) as [[found sg] w1]
         end;
         cbn [fst snd] in *; subst found; cbn;
         destruct (has_not_enough_free_secs ops w1); cbn; eauto
       | cbn; rewrite ?Hp; cbn; eauto ]). }
  destruct Hmore as (w1 & Hm).
  unfold f2fs_gc. unfold bindo at 1. rewrite Hm.
  unfold bindo, lift, exec, ret, put_gc_inode. cbn. eauto.
Qed.

(** Over a call of [f2fs_gc], every reference taken on an inode is
    dropped. *)
Lemma f2fs_gc_held fuel nGC w e w' tr :
  f2fs_gc inode_eq_dec i_ino NIDS_PER_BLOCK ADDRS_PER_BLOCK ADDRS_PER_INODE
    ops fuel nGC w = Some (e, w', tr) ->
  forall j, held inode_eq_dec tr j = 0.
Proof.
  unfold f2fs_gc. unfold bindo at 1.
  destruct (f2fs_gc_more _ _ _ _ _ _ _ _ _ _ _ w) as [[[[st il] w1] t1]|] eqn:Hm;
    [|discriminate].
  unfold bindo, lift, exec, ret. cbn [fst snd].
  destruct (put_gc_inode_spec K inode page inode_eq_dec ops il
              (set_sbi (set_last_gc_status st) w1)) as [Hl Ht].
  destruct (put_gc_inode inode_eq_dec ops il _) as [[l w2] t2].
  cbn [fst snd] in Hl, Ht. subst l t2.
  intros E. injection E as _ _ <-. intros j.
  cbn [app]. rewrite app_nil_r, held_app, put_gc_inode_held.
  pose proof (f2fs_gc_more_balanced K inode page inode_eq_dec ops i_ino
                NIDS_PER_BLOCK ADDRS_PER_BLOCK ADDRS_PER_INODE
                fuel nGC 0 [] BG_GC w (st, il) w1 t1 Hm j) as Hb.
  cbn [snd] in Hb. unfold pin_count at 1 in Hb. cbn in Hb. lia.
Qed.

Section WorkerExit.

Variables GC_THREAD_MIN_SLEEP_TIME GC_THREAD_MAX_SLEEP_TIME
          GC_THREAD_NOGC_SLEEP_TIME : Z.
Variables increase_sleep_time decrease_sleep_time : Z -> Z.

(** An iteration of the worker leaves by [break] only in a state in which
    the thread is asked to stop, and holds no reference when it ends. *)
Lemma gc_thread_body_exit fuel wait_ms w t w' tr :
  gc_thread_body inode_eq_dec i_ino NIDS_PER_BLOCK ADDRS_PER_BLOCK
    ADDRS_PER_INODE GC_THREAD_MAX_SLEEP_TIME GC_THREAD_NOGC_SLEEP_TIME
    increase_sleep_time decrease_sleep_time ops fuel wait_ms w
  = Some (t, w', tr) ->
  (tick_break t = true -> kthread_should_stop ops w' = true) /\
  (tick_gc t = None -> tr = []) /\
  forall j, held inode_eq_dec tr j = 0.
Proof.
  unfold gc_thread_body, bindo, lift, read, exec, call, ret.
  destruct (try_to_freeze ops w) as [frozen w1].
  destruct frozen; cbn [fst snd app].
  { intros E; injection E as <- <- <-. cbn. repeat split; auto; discriminate. }
  destruct (kthread_should_stop ops _) eqn:Hstop; cbn [fst snd app].
  { intros E; injection E as <- <- <-. cbn. repeat split; auto. }
  destruct (test_opt_BG_GC ops _); cbn [negb fst snd app];
    [|intros E; injection E as <- <- <-; cbn; repeat split; auto; discriminate].
  destruct (mutex_trylock_gc_mutex ops _) as [locked w2].
  destruct locked; cbn [negb fst snd app];
    [|intros E; injection E as <- <- <-; cbn; repeat split; auto; discriminate].
  destruct (is_idle ops w2); cbn [negb fst snd app];
    [|intros E; injection E as <- <- <-; cbn; repeat split; auto; discriminate].
  destruct (f2fs_gc _ _ _ _ _ _ _ _ _) as [[[e w3] t3]|] eqn:Hgc;
    [|discriminate].
  intros E; injection E as <- <- <-. cbn.
  split; [discriminate|]. split; [discriminate|].
  intros j. rewrite app_nil_r. apply (f2fs_gc_held _ _ _ _ _ _ Hgc j).
Qed.

(** X17: the worker returns only when it is asked to stop: whenever
    [gc_thread_func] returns, it returns 0, [kthread_should_stop] holds in
    the state it returns in, and over its whole run every reference taken
    on an inode has been dropped. *)
Theorem gc_thread_func_exit (ticks fuel : nat) (w w' : world K) (r : Z)
    (tr : list (event inode)) :
  gc_thread_func inode_eq_dec i_ino NIDS_PER_BLOCK ADDRS_PER_BLOCK
    ADDRS_PER_INODE GC_THREAD_MIN_SLEEP_TIME GC_THREAD_MAX_SLEEP_TIME
    GC_THREAD_NOGC_SLEEP_TIME increase_sleep_time decrease_sleep_time ops
    ticks fuel w = Some (r, w', tr) ->
  r = 0 /\ kthread_should_stop ops w' = true /\
  forall j, held inode_eq_dec tr j = 0.
Proof.
  unfold gc_thread_func. generalize GC_THREAD_MIN_SLEEP_TIME as wait_ms.
  revert w w' r tr.
  induction ticks as [|ticks IH]; intros w w' r tr wait_ms;
    cbn [gc_thread_loop]; [discriminate|].
  unfold bindo at 1.
  destruct (gc_thread_body _ _ _ _ _ _ _ _ _ _ _ _ w) as [[[t w1] t1]|] eqn:Hb;
    [|discriminate].
  destruct (gc_thread_body_exit _ _ _ _ _ _ Hb) as (Hbrk & _ & Hheld).
  destruct (tick_break t).
  - unfold lift, ret. intros E; injection E as <- <- <-.
    rewrite app_nil_r. auto.
  - unfold bindo, lift, read, ret.
    destruct (kthread_should_stop ops w1) eqn:Hstop.
    + intros E; injection E as <- <- <-. rewrite !app_nil_r. auto.
    + destruct (gc_thread_loop _ _ _ _ _ _ _ _ _ _ _ _ _ w1)
        as [[[r2 w2] t2]|] eqn:Hl; [|discriminate].
      intros E; injection E as <- <- <-.
      destruct (IH _ _ _ _ _ Hl) as (Hr & Hs & Hh).
      split; [exact Hr|]. split; [exact Hs|].
      intros j. cbn [app]. rewrite held_app, Hheld, Hh. reflexivity.
Qed.

End WorkerExit.

End CollectorOutcome.

(** ** The calls of the collector *)

Section CallLogProofs.

Variables (K inode page : Type).
Variable inode_eq_dec : forall a b : inode, {a = b} + {a <> b}.
Variable page_eq_dec : forall a b : page, {a = b} + {a <> b}.
Variable ops : kernel_ops K inode page.
Variable i_ino : inode -> Z.
Variables NIDS_PER_BLOCK ADDRS_PER_BLOCK ADDRS_PER_INODE : Z.

(** *** Logs *)

Lemma page_refs_app (d1 d2 : list (kcall page)) pg :
  page_refs page_eq_dec (d1 ++ d2) pg
  = page_refs page_eq_dec d1 pg + page_refs page_eq_dec d2 pg.
Proof. induction d1 as [|c d1 IH]; cbn [app page_refs]; lia. Qed.

Lemma page_low_app (d1 d2 : list (kcall page)) pg :
  page_low page_eq_dec (d1 ++ d2) pg
  = Z.min (page_low page_eq_dec d1 pg)
      (page_refs page_eq_dec d1 pg + page_low page_eq_dec d2 pg).
Proof.
  induction d1 as [|c d1 IH]; cbn [app page_low page_refs].
  - assert (page_low page_eq_dec d2 pg <= 0)
      by (destruct d2; cbn [page_low]; lia).
    lia.
  - rewrite IH. lia.
Qed.

Lemma pages_ok_nil : pages_ok page_eq_dec [].
Proof. intros pg. split; reflexivity. Qed.

Lemma pages_ok_app d1 d2 :
  pages_ok page_eq_dec d1 -> pages_ok page_eq_dec d2 ->
  pages_ok page_eq_dec (d1 ++ d2).
Proof.
  intros H1 H2 pg. destruct (H1 pg) as [R1 L1], (H2 pg) as [R2 L2].
  rewrite page_refs_app, page_low_app. lia.
Qed.

Lemma pages_ok_other c :
  (forall pg, page_delta page_eq_dec c pg = 0) ->
  pages_ok page_eq_dec [c].
Proof. intros H pg. cbn. rewrite H. split; reflexivity. Qed.

Lemma pages_ok_bracket p u d :
  pages_ok page_eq_dec d ->
  pages_ok page_eq_dec (CallGetPage p :: d ++ [CallPutPage p u]).
Proof.
  intros H pg. destruct (H pg) as [R L].
  cbn [page_refs page_low]. rewrite page_refs_app, page_low_app, R, L.
  cbn. destruct (page_eq_dec p pg); lia.
Qed.

Lemma cp_run_app (d1 d2 : list (kcall page)) b :
  cp_run b (d1 ++ d2)
  = match cp_run b d1 with Some b' => cp_run b' d2 | None => None end.
Proof.
  revert b. induction d1 as [|c d1 IH]; intros b; cbn [app cp_run];
    [reflexivity|].
  destruct c; auto.
  - destruct b; auto.
  - destruct (Bool.eqb blocked b); auto.
Qed.

Lemma writes_nothing_nil : writes_nothing (@nil (kcall page)).
Proof. intros c []. Qed.

Lemma writes_nothing_app (d1 d2 : list (kcall page)) :
  writes_nothing d1 -> writes_nothing d2 -> writes_nothing (d1 ++ d2).
Proof.
  intros H1 H2 c Hc. apply in_app_or in Hc as [Hc|Hc];
    [apply H1|apply H2]; exact Hc.
Qed.

Lemma evacuation_log_nil gc_type :
  evacuation_log page_eq_dec gc_type false [].
Proof.
  split; [apply pages_ok_nil|]. split; [reflexivity|].
  intros _. apply writes_nothing_nil.
Qed.

Lemma evacuation_log_app gc_type b d1 d2 :
  evacuation_log page_eq_dec gc_type false d1 ->
  evacuation_log page_eq_dec gc_type b d2 ->
  evacuation_log page_eq_dec gc_type b (d1 ++ d2).
Proof.
  intros (P1 & C1 & W1) (P2 & C2 & W2).
  split; [apply pages_ok_app; assumption|]. split.
  - rewrite cp_run_app, C1. exact C2.
  - intros Hg. apply writes_nothing_app; auto.
Qed.

(** A page handed out, a run that leaves a log in order, and the page
    put. *)
Lemma evacuation_log_bracket gc_type p u d :
  evacuation_log page_eq_dec gc_type false d ->
  evacuation_log page_eq_dec gc_type false
    (CallGetPage p :: d ++ [CallPutPage p u]).
Proof.
  intros (P & C & W).
  split; [apply pages_ok_bracket; exact P|]. split.
  - cbn [cp_run]. rewrite cp_run_app, C. reflexivity.
  - intros Hg c [<-|Hc]; [exact I|].
    apply in_app_or in Hc as [Hc|[<-|[]]]; [apply W; auto|exact I].
Qed.

(** *** Runs *)

Lemma logs_ret {A} (a : A) (Q : A -> list (kcall page) -> Prop) :
  Q a [] -> logs (K := K) (inode := inode) (ret a) Q.
Proof. intros H w. exists []. split; [symmetry; apply app_nil_r|exact H]. Qed.

Lemma logs_bind {A B} (m : M (K * list (kcall page)) inode A)
    (f : A -> M (K * list (kcall page)) inode B)
    (R : A -> list (kcall page) -> Prop)
    (Q : B -> list (kcall page) -> Prop) :
  logs m R ->
  (forall a d1, R a d1 -> logs (f a) (fun b d2 => Q b (d1 ++ d2))) ->
  logs (bind m f) Q.
Proof.
  intros Hm Hf w. unfold bind. destruct (Hm w) as (d1 & E1 & HR).
  destruct (m w) as [[a w1] t1]. cbn [fst snd] in *.
  destruct (Hf a d1 HR w1) as (d2 & E2 & HQ).
  destruct (f a w1) as [[b w2] t2]. cbn [fst snd] in *.
  exists (d1 ++ d2). split; [|exact HQ].
  now rewrite E2, E1, app_assoc.
Qed.

Lemma logs_weaken {A} (m : M (K * list (kcall page)) inode A)
    (P Q : A -> list (kcall page) -> Prop) :
  logs m P -> (forall a d, P a d -> Q a d) -> logs m Q.
Proof.
  intros H HPQ w. destruct (H w) as (d & E & HP). exists d. auto.
Qed.

(** A step that leaves the log as it is. *)
Lemma logs_silent_bind {A B} (m : M (K * list (kcall page)) inode A)
    (f : A -> M (K * list (kcall page)) inode B)
    (Q : B -> list (kcall page) -> Prop) :
  logs m (fun _ d => d = []) -> (forall a, logs (f a) Q) ->
  logs (bind m f) Q.
Proof.
  intros Hm Hf. eapply logs_bind; [exact Hm|].
  intros a d1 ->. apply Hf.
Qed.

Lemma logs_read {A} (f : world (K * list (kcall page)) -> A) :
  logs (inode := inode) (read f) (fun _ d => d = []).
Proof. intros w. exists []. split; [symmetry; apply app_nil_r|reflexivity]. Qed.

Lemma logs_exec (f : world (K * list (kcall page))
                     -> world (K * list (kcall page))) ev :
  (forall w, klog (f w) = klog w ++ ev) ->
  logs (inode := inode) (exec f) (fun _ d => d = ev).
Proof. intros H w. exists ev. split; [apply H|reflexivity]. Qed.

Lemma logs_call {A} (f : world (K * list (kcall page))
                         -> A * world (K * list (kcall page))) ev :
  (forall w, klog (snd (f w)) = klog w ++ ev (fst (f w))) ->
  logs (inode := inode) (call f) (fun a d => d = ev a).
Proof.
  intros H w. unfold call. specialize (H w). destruct (f w) as [a w1].
  exists (ev a). split; [exact H|reflexivity].
Qed.

Lemma logs_iput i :
  logs (iput (logged ops) i) (fun _ d => d = []).
Proof. intros w. exists []. split; reflexivity. Qed.

Lemma logs_iget_nowait ino :
  logs (iget_nowait (logged ops) ino) (fun _ d => d = []).
Proof.
  intros w. exists []. unfold iget_nowait. cbn.
  destruct (f2fs_iget_nowait ops ino (unlogged w)) as [r w1].
  split; reflexivity.
Qed.

(** *** The evacuators *)

Ltac log_eq := cbn; rewrite <- ?app_assoc; cbn; reflexivity.

Lemma check_valid_map_log segno off :
  logs (inode := inode) (check_valid_map (logged ops) segno off)
    (fun _ d => d = []).
Proof.
  intros w. exists []. split; [symmetry; apply app_nil_r|reflexivity].
Qed.

Lemma check_dnode_log gc_type sum dni blkaddr nofs :
  logs (inode := inode) (check_dnode (logged ops) sum dni blkaddr nofs)
    (fun _ d => evacuation_log page_eq_dec gc_type false d).
Proof.
  intros w. unfold check_dnode, bind, call, read, exec, ret.
  cbn [logged get_node_page get_node_info ofs_of_node datablock_addr
       f2fs_put_page log_call log_read log_exec fst snd].
  destruct (get_node_page ops (sum_nid sum) (unlogged w)) as [[np|] w1];
    cbn [fst snd got_page].
  - destruct (get_node_info ops (sum_nid sum) _) as [dni1 w2]. cbn [fst snd].
    destruct (negb (sum_version sum =? ni_version dni1)); cbn [fst snd].
    + eexists. split; [log_eq|].
      apply (evacuation_log_bracket gc_type np 1 []), evacuation_log_nil.
    + destruct (negb _); cbn [fst snd];
        (eexists; split; [log_eq|];
         apply (evacuation_log_bracket gc_type np 1 []), evacuation_log_nil).
  - exists []. split; [log_eq|apply evacuation_log_nil].
Qed.

Lemma evacuation_log_bg gc_type b d :
  evacuation_log page_eq_dec BG_GC b d ->
  evacuation_log page_eq_dec gc_type b d.
Proof.
  intros (P & C & W). split; [exact P|]. split; [exact C|].
  intros _. apply W. reflexivity.
Qed.

(** Calls that neither hold a page nor touch the checkpoint, after a run
    that may have blocked the operations. *)
Lemma evacuation_log_then gc_type b d1 d2 :
  evacuation_log page_eq_dec gc_type b d1 ->
  pages_ok page_eq_dec d2 -> (forall b', cp_run b' d2 = Some b') ->
  (gc_type = BG_GC -> writes_nothing d2) ->
  evacuation_log page_eq_dec gc_type b (d1 ++ d2).
Proof.
  intros (P1 & C1 & W1) P2 C2 W2.
  split; [apply pages_ok_app; assumption|]. split.
  - rewrite cp_run_app, C1. apply C2.
  - intros Hg. apply writes_nothing_app; auto.
Qed.

Lemma evacuation_log_held gc_type b p u d :
  evacuation_log page_eq_dec gc_type b d ->
  evacuation_log page_eq_dec gc_type b
    (CallGetPage p :: d ++ [CallPutPage p u]).
Proof.
  intros (P & C & W).
  split; [apply pages_ok_bracket; exact P|]. split.
  - cbn [cp_run]. rewrite cp_run_app, C. reflexivity.
  - intros Hg c [<-|Hc]; [exact I|].
    apply in_app_or in Hc as [Hc|[<-|[]]]; [apply W; auto|exact I].
Qed.

Lemma check_valid_map_log_value segno off :
  logs (inode := inode) (check_valid_map (logged ops) segno off)
    (fun r d => d = [] /\ (r = GC_OK \/ r = GC_NEXT)).
Proof.
  intros w. exists []. split; [symmetry; apply app_nil_r|].
  split; [reflexivity|].
  unfold check_valid_map, bind, read, ret. cbn. destruct (negb _); auto.
Qed.

(** [move_data_page] puts the page it is given, once and as its last call,
    on every path; it writes the page itself only for the foreground
    collector. *)
Lemma move_data_page_log i pg gc_type :
  logs (move_data_page inode_eq_dec (logged ops) i pg gc_type)
    (fun _ d => exists d0,
       d = d0 ++ [CallPutPage pg 1] /\
       evacuation_log page_eq_dec gc_type false d0).
Proof.
  intros w. unfold move_data_page, bind, call, read, exec, ret.
  cbn [logged page_mapping i_mapping mapping_host PageWriteback set_page_dirty
       set_cold_data clear_cold_data clear_page_dirty_for_io S_ISDIR
       dec_page_count_dirty_dents inode_dec_dirty_dents do_write_data_page
       f2fs_put_page].
  unfold log_call, log_read, log_exec. cbn [fst snd].
  destruct (negb _); cbn [fst snd];
    [eexists; split; [log_eq|]; exists []; split;
       [reflexivity|apply evacuation_log_nil]|].
  destruct (inode_eq_dec i _); cbn [fst snd];
    [|eexists; split; [log_eq|]; exists []; split;
        [reflexivity|apply evacuation_log_nil]].
  destruct (PageWriteback ops pg _); cbn [fst snd];
    [eexists; split; [log_eq|]; exists []; split;
       [reflexivity|apply evacuation_log_nil]|].
  destruct gc_type; cbn [gc_type_eqb fst snd].
  - eexists; split; [log_eq|]; exists []; split;
      [reflexivity|apply evacuation_log_nil].
  - destruct (clear_page_dirty_for_io ops pg _) as [cleared w1].
    cbn [fst snd].
    destruct (cleared && S_ISDIR ops i); cbn [fst snd];
      (eexists; split; [log_eq|]; exists [CallWriteDataPage pg]; split;
       [reflexivity|]; split; [apply pages_ok_other; reflexivity|];
       split; [reflexivity|discriminate]).
Qed.

Ltac silent :=
  first
    [ apply logs_read | apply logs_iput | apply logs_iget_nowait
    | apply logs_ret; reflexivity
    | apply logs_exec with (ev := []); intros ?; reflexivity
    | apply logs_exec with (ev := []); intros ?; symmetry; apply app_nil_r
    | apply (logs_call _ (fun _ => [])); intros ?; reflexivity ].

Ltac skip_silent := apply logs_silent_bind; [silent|]; intros ?.

Ltac log_exec_step :=
  eapply logs_bind; [eapply logs_exec; intros ?; reflexivity|];
  intros ? ? ->; cbv beta.

Lemma evacuation_log_block :
  evacuation_log page_eq_dec BG_GC true [@CallBlockOperations page].
Proof.
  split; [apply pages_ok_other; reflexivity|]. split; [reflexivity|].
  intros _ c [<-|[]]. exact I.
Qed.

Lemma gc_node_pass_log n off initial sum segno :
  logs (inode := inode) (gc_node_pass (logged ops) n off initial sum segno)
    (fun r d =>
       evacuation_log page_eq_dec BG_GC (pass_left r) d /\
       (r = None \/ r = Some GC_BLOCKED)).
Proof.
  revert off. induction n as [|n IH]; intros off; cbn [gc_node_pass].
  - apply logs_ret. split; [apply evacuation_log_nil|now left].
  - skip_silent. destruct a.
    + log_exec_step. apply logs_ret. rewrite app_nil_r.
      split; [apply evacuation_log_block|now right].
    + eapply logs_bind; [apply check_valid_map_log_value|].
      intros err d1 (-> & [-> | ->]); cbn [gc_status_eqb app]; [|apply IH].
      destruct initial; [skip_silent; apply IH|].
      eapply logs_bind; [eapply logs_call; intros ?; reflexivity|].
      intros np d1 ->. destruct np as [node_page|]; cbn [got_page app];
        [|apply IH].
      skip_silent.
      apply logs_silent_bind; [destruct (negb _); silent|]. intros _.
      log_exec_step. skip_silent.
      eapply logs_weaken; [apply IH|]. intros r d [Hd Hr]. cbn [app].
      split; [|exact Hr].
      apply (evacuation_log_app BG_GC _
               [CallGetPage node_page; CallPutPage node_page 1] d);
        [|exact Hd].
      apply (evacuation_log_held BG_GC false node_page 1 []),
        evacuation_log_nil.
Qed.

Lemma evacuation_log_sync b d :
  evacuation_log page_eq_dec BG_GC b d ->
  evacuation_log page_eq_dec FG_GC b (d ++ [@CallSyncNodePages page]).
Proof.
  intros H. apply evacuation_log_then.
  - apply evacuation_log_bg. exact H.
  - apply pages_ok_other. reflexivity.
  - reflexivity.
  - discriminate.
Qed.

(** The evacuation of a node segment: the pages it gets it puts, it blocks
    the operations exactly when it returns [GC_BLOCKED], and it calls
    [sync_node_pages] for the foreground collector only. *)
Lemma gc_node_segment_log sum segno gc_type :
  logs (inode := inode) (gc_node_segment (logged ops) sum segno gc_type)
    (fun r d =>
       evacuation_log page_eq_dec gc_type (gc_status_eqb r GC_BLOCKED) d).
Proof.
  unfold gc_node_segment. skip_silent.
  eapply logs_bind; [apply gc_node_pass_log|].
  intros r d1 [H1 [-> | ->]]; cbn [pass_left] in H1.
  - skip_silent.
    eapply logs_bind; [apply gc_node_pass_log|].
    intros r d2 [H2 [-> | ->]]; cbn [pass_left] in H2.
    + destruct gc_type; cbn [gc_type_eqb].
      * skip_silent. apply logs_ret. rewrite app_nil_r.
        apply (evacuation_log_app BG_GC false d1 d2 H1 H2).
      * log_exec_step. apply logs_ret. rewrite app_nil_r, app_assoc.
        apply evacuation_log_sync.
        apply (evacuation_log_app BG_GC false d1 d2 H1 H2).
    + apply logs_ret. rewrite app_nil_r. apply evacuation_log_bg.
      apply (evacuation_log_app BG_GC true d1 d2 H1 H2).
  - apply logs_ret. rewrite app_nil_r. apply evacuation_log_bg. exact H1.
Qed.

Lemma logs_and_post {A} (m : M (K * list (kcall page)) inode A)
    (P : A -> list (kcall page) -> Prop) (R : A -> Prop) :
  logs m P -> post m R -> logs m (fun a d => P a d /\ R a).
Proof.
  intros HP HR w. destruct (HP w) as (d & E & H). exists d.
  split; [exact E|]. split; [exact H|apply HR].
Qed.

Lemma alloc_inode_entry_log n :
  logs (inode := inode) (alloc_inode_entry (logged ops) n)
    (fun _ d => d = []).
Proof.
  induction n as [|n IH]; cbn [alloc_inode_entry]; [silent|].
  skip_silent. skip_silent. apply IH.
Qed.

Lemma add_gc_inode_log i ilist :
  logs (add_gc_inode inode_eq_dec (logged ops) i ilist) (fun _ d => d = []).
Proof.
  unfold add_gc_inode. destruct (gc_inode_listed inode_eq_dec i ilist).
  - skip_silent. silent.
  - skip_silent. apply logs_silent_bind; [apply alloc_inode_entry_log|].
    intros _. silent.
Qed.

Lemma gc_data_pass_log n off phase sum ilist segno gc_type start_addr :
  logs (gc_data_pass inode_eq_dec i_ino NIDS_PER_BLOCK ADDRS_PER_BLOCK
          ADDRS_PER_INODE (logged ops) n off phase sum ilist segno gc_type
          start_addr)
    (fun r d =>
       evacuation_log page_eq_dec gc_type (pass_left (fst r)) d /\
       (fst r = None \/ fst r = Some GC_BLOCKED)).
Proof.
  revert off ilist. induction n as [|n IH]; intros off ilist;
    cbn [gc_data_pass].
  - apply logs_ret. split; [apply evacuation_log_nil|now left].
  - cbn zeta. skip_silent. destruct a.
    + log_exec_step. apply logs_ret. rewrite app_nil_r.
      split; [apply evacuation_log_bg, evacuation_log_block|now right].
    + eapply logs_bind; [apply check_valid_map_log_value|].
      intros err d1 (-> & [-> | ->]); cbn [gc_status_eqb app]; [|apply IH].
      destruct (phase =? 0); [skip_silent; apply IH|].
      eapply logs_bind.
      { apply logs_and_post;
          [apply (check_dnode_log gc_type)|apply check_dnode_post]. }
      intros [[err dni] nofs] d1 [Hd1 Hr]. cbn [fst] in Hr.
      assert (Hcont : forall l,
        logs (gc_data_pass inode_eq_dec i_ino NIDS_PER_BLOCK ADDRS_PER_BLOCK
                ADDRS_PER_INODE (logged ops) n (off + 1) phase sum l segno
                gc_type start_addr)
          (fun r d =>
             evacuation_log page_eq_dec gc_type (pass_left (fst r)) (d1 ++ d) /\
             (fst r = None \/ fst r = Some GC_BLOCKED))).
      { intros l. eapply logs_weaken; [apply IH|]. intros r d [Hd Hv].
        split; [|exact Hv]. apply evacuation_log_app; assumption. }
      destruct Hr as [-> | ->]; cbn [gc_status_eqb]; [|apply Hcont].
      destruct (phase =? 1); [skip_silent; apply Hcont|].
      destruct (phase =? 2).
      * skip_silent. destruct a as [i|]; [|apply Hcont].
        eapply logs_bind; [eapply logs_call; intros ?; reflexivity|].
        intros dp d2 ->. destruct dp as [data_page|]; cbn [got_page].
        -- log_exec_step.
           apply logs_silent_bind; [apply add_gc_inode_log|]. intros l.
           eapply logs_weaken; [apply IH|]. intros r d [Hd Hv].
           split; [|exact Hv]. cbn [app].
           apply evacuation_log_app; [exact Hd1|].
           apply (evacuation_log_app gc_type _
                    [CallGetPage data_page; CallPutPage data_page 0] d);
             [|exact Hd].
           apply (evacuation_log_held gc_type false data_page 0 []),
             evacuation_log_nil.
        -- skip_silent. apply Hcont.
      * destruct (find_gc_inode i_ino (ni_ino dni) ilist) as [i|];
          [|apply Hcont].
        eapply logs_bind; [eapply logs_call; intros ?; reflexivity|].
        intros dp d2 ->. destruct dp as [data_page|]; cbn [got_page];
          [|apply Hcont].
        eapply logs_bind; [apply move_data_page_log|].
        intros _ d2 (d0 & -> & Hd0). skip_silent.
        eapply logs_weaken; [apply IH|]. intros r d [Hd Hv].
        split; [|exact Hv]. cbn [app].
        apply evacuation_log_app; [exact Hd1|].
        apply (evacuation_log_app gc_type _
                 (CallGetPage data_page :: d0 ++ [CallPutPage data_page 1]) d);
          [|exact Hd].
        apply evacuation_log_held. exact Hd0.
Qed.

Lemma gc_data_phases_log phases sum ilist segno gc_type start_addr :
  logs (gc_data_phases inode_eq_dec i_ino NIDS_PER_BLOCK ADDRS_PER_BLOCK
          ADDRS_PER_INODE (logged ops) phases sum ilist segno gc_type
          start_addr)
    (fun r d =>
       evacuation_log page_eq_dec gc_type (gc_status_eqb (fst r) GC_BLOCKED) d).
Proof.
  revert ilist. induction phases as [|phase later IH]; intros ilist;
    cbn [gc_data_phases].
  - apply logs_ret. apply evacuation_log_nil.
  - skip_silent. eapply logs_bind; [apply gc_data_pass_log|].
    intros [r l] d1 [H1 Hr]. cbn [fst] in H1, Hr.
    destruct Hr as [-> | ->]; cbn [pass_left] in H1.
    + eapply logs_weaken; [apply IH|]. intros r d Hd.
      apply evacuation_log_app; assumption.
    + apply logs_ret. rewrite app_nil_r. exact H1.
Qed.

Lemma gc_data_segment_log sum ilist segno gc_type :
  logs (gc_data_segment inode_eq_dec i_ino NIDS_PER_BLOCK ADDRS_PER_BLOCK
          ADDRS_PER_INODE (logged ops) sum ilist segno gc_type)
    (fun r d =>
       evacuation_log page_eq_dec gc_type (gc_status_eqb (fst r) GC_BLOCKED) d).
Proof.
  unfold gc_data_segment. skip_silent.
  eapply logs_bind; [apply gc_data_phases_log|].
  intros [err l] d1 H1. cbn [fst] in H1.
  destruct gc_type; cbn [gc_type_eqb].
  - skip_silent. apply logs_ret. rewrite app_nil_r. exact H1.
  - log_exec_step. apply logs_ret. rewrite app_nil_r. cbn [fst].
    apply evacuation_log_then; auto.
    + apply pages_ok_other. reflexivity.
    + discriminate.
Qed.

(** The collection of a segment: every page the collector was handed out
    it has put, in order; the operations are blocked exactly when the
    status is [GC_BLOCKED]; and the background collector has written
    nothing itself. *)
Lemma do_garbage_collect_log segno ilist gc_type :
  logs (do_garbage_collect inode_eq_dec i_ino NIDS_PER_BLOCK ADDRS_PER_BLOCK
          ADDRS_PER_INODE (logged ops) segno ilist gc_type)
    (fun r d =>
       evacuation_log page_eq_dec gc_type (gc_status_eqb (fst r) GC_BLOCKED) d).
Proof.
  unfold do_garbage_collect.
  eapply logs_bind; [eapply logs_call; intros ?; reflexivity|].
  intros sp d1 ->. destruct sp as [sum_page|]; cbn [got_page].
  - skip_silent. skip_silent.
    eapply logs_bind with
      (R := fun r d => evacuation_log page_eq_dec gc_type
                         (gc_status_eqb (fst r) GC_BLOCKED) d).
    { destruct (footer_type a0).
      - eapply logs_bind; [apply gc_node_segment_log|].
        intros r d Hd. apply logs_ret. rewrite app_nil_r. exact Hd.
      - apply gc_data_segment_log.
      - apply logs_ret. apply evacuation_log_nil. }
    intros [r l] d Hd. cbn [fst] in Hd.
    skip_silent. skip_silent. log_exec_step.
    apply logs_ret. rewrite app_nil_r. cbn [fst app].
    apply evacuation_log_held. exact Hd.
  - apply logs_ret. apply evacuation_log_nil.
Qed.

(** *** The collector *)

Lemma collection_log_nil bg : collection_log page_eq_dec bg false [].
Proof.
  split; [apply pages_ok_nil|]. split; [reflexivity|].
  intros _. apply writes_nothing_nil.
Qed.

Lemma collection_log_app bg b d1 d2 :
  collection_log page_eq_dec bg false d1 ->
  collection_log page_eq_dec bg b d2 ->
  collection_log page_eq_dec bg b (d1 ++ d2).
Proof.
  intros (P1 & C1 & W1) (P2 & C2 & W2).
  split; [apply pages_ok_app; assumption|]. split.
  - rewrite cp_run_app, C1. exact C2.
  - intros Hg. apply writes_nothing_app; auto.
Qed.

Lemma evacuation_collection_log (bg : Prop) gc_type b d :
  (bg -> gc_type = BG_GC) ->
  evacuation_log page_eq_dec gc_type b d ->
  collection_log page_eq_dec bg b d.
Proof.
  intros Hbg (P & C & W). split; [exact P|]. split; [exact C|].
  intros H. apply W, Hbg, H.
Qed.

Lemma gc_section_log (bg : Prop) n i segno ilist gc_type status nfree :
  (bg -> gc_type = BG_GC) ->
  gc_status_eqb status GC_BLOCKED = false ->
  logs (gc_section inode_eq_dec i_ino NIDS_PER_BLOCK ADDRS_PER_BLOCK
          ADDRS_PER_INODE (logged ops) n i segno ilist gc_type status nfree)
    (fun r d =>
       collection_log page_eq_dec bg
         (gc_status_eqb (snd (fst (fst r))) GC_BLOCKED) d /\
       (fst (fst (fst r)) = false ->
        gc_status_eqb (snd (fst (fst r))) GC_BLOCKED = false)).
Proof.
  intros Hbg. revert i ilist status nfree.
  induction n as [|n IH]; intros i ilist status nfree Hs; cbn [gc_section].
  - apply logs_ret. cbn [fst snd]. rewrite Hs.
    split; [apply collection_log_nil|auto].
  - eapply logs_bind; [apply do_garbage_collect_log|].
    intros [st l] d1 Hd1. cbn [fst] in Hd1.
    apply (evacuation_collection_log bg) in Hd1; [|exact Hbg].
    destruct st; cbn [gc_status_eqb negb] in *;
      try (apply logs_ret; rewrite app_nil_r; cbn [fst snd];
           split; [exact Hd1|discriminate]).
    eapply logs_weaken; [apply IH; reflexivity|].
    intros r d [Hd Hv]. split; [|exact Hv].
    apply collection_log_app; assumption.
Qed.

Lemma logso_lift {A} (m : M (K * list (kcall page)) inode A) Q :
  logs m Q -> logso (lift m) Q.
Proof.
  intros H w a w' t E. unfold lift in E. destruct (H w) as (d & Ed & HQ).
  destruct (m w) as [[a1 w1] t1]. injection E as <- <- _.
  exists d. auto.
Qed.

Lemma logso_bind {A B} (m : Mo (K * list (kcall page)) inode A)
    (f : A -> Mo (K * list (kcall page)) inode B)
    (R : A -> list (kcall page) -> Prop)
    (Q : B -> list (kcall page) -> Prop) :
  logso m R ->
  (forall a d1, R a d1 -> logso (f a) (fun b d2 => Q b (d1 ++ d2))) ->
  logso (bindo m f) Q.
Proof.
  intros Hm Hf w b w' t E. unfold bindo in E.
  destruct (m w) as [[[a w1] t1]|] eqn:Em; [|discriminate].
  destruct (f a w1) as [[[b1 w2] t2]|] eqn:Ef; [|discriminate].
  injection E as <- <- _.
  destruct (Hm w a w1 t1 Em) as (d1 & E1 & HR).
  destruct (Hf a d1 HR w1 b1 w2 t2 Ef) as (d2 & E2 & HQ).
  exists (d1 ++ d2). split; [|exact HQ]. now rewrite E2, E1, app_assoc.
Qed.

Lemma logso_silent_bind {A B} (m : M (K * list (kcall page)) inode A)
    (f : A -> Mo (K * list (kcall page)) inode B) Q :
  logs m (fun _ d => d = []) -> (forall a, logso (f a) Q) ->
  logso (bindo (lift m) f) Q.
Proof.
  intros Hm Hf. eapply logso_bind; [apply logso_lift; exact Hm|].
  intros a d1 ->. apply Hf.
Qed.

Lemma logso_weaken {A} (m : Mo (K * list (kcall page)) inode A)
    (P Q : A -> list (kcall page) -> Prop) :
  logso m P -> (forall a d, P a d -> Q a d) -> logso m Q.
Proof.
  intros H HPQ w a w' t E. destruct (H w a w' t E) as (d & Ed & HP).
  exists d. auto.
Qed.

(** Whether free sections run short, read in a kernel in which they never
    do. *)
Lemma logs_pressed :
  logs (inode := inode) (read (has_not_enough_free_secs (logged ops)))
    (fun a d => d = [] /\ (never_pressed ops -> a = false)).
Proof.
  intros w. exists []. split; [symmetry; apply app_nil_r|].
  split; [reflexivity|]. intros H. apply H.
Qed.

Ltac skip_silento := apply logso_silent_bind; [silent|]; intros ?.

Section Background.

(** [bg] stands for a run that starts as the background collector in a
    kernel in which free sections never run short. *)
Variable bg : Prop.
Hypothesis bg_never_pressed : bg -> never_pressed ops.

Lemma gc_while_log fuel nGC old_free_secs l :
  gc_status_eqb (l_status l) GC_BLOCKED = false ->
  (bg -> l_gc_type l = BG_GC) ->
  logso (gc_while inode_eq_dec i_ino NIDS_PER_BLOCK ADDRS_PER_BLOCK
           ADDRS_PER_INODE (logged ops) fuel nGC old_free_secs l)
    (fun l' d =>
       collection_log page_eq_dec bg
         (gc_status_eqb (l_status l') GC_BLOCKED) d /\
       (bg -> l_gc_type l' = BG_GC)).
Proof.
  revert l. induction fuel as [|fuel IH]; intros l Hs Hg; cbn [gc_while].
  - intros w a w' t E. discriminate.
  - skip_silento.
    destruct (negb a).
    { apply logso_lift, logs_ret. rewrite Hs.
      split; [apply collection_log_nil|auto]. }
    eapply logso_bind; [apply logso_lift, logs_pressed|].
    intros pressed d1 [-> Hp]. cbn [app]. skip_silento.
    assert (Hg' : bg -> (if pressed then FG_GC else l_gc_type l) = BG_GC).
    { intros Hb. rewrite (Hp (bg_never_pressed Hb)). auto. }
    destruct (_ <? _).
    { apply logso_lift, logs_ret. cbn [l_status l_gc_type]. rewrite Hs.
      split; [apply collection_log_nil|auto]. }
    eapply logso_bind;
      [apply logso_lift; apply (logs_call _ (fun _ => [])); intros ?;
       reflexivity|].
    intros [found segno] d1 ->. cbn [app].
    destruct (found =? 0).
    { apply logso_lift, logs_ret. cbn [l_status l_gc_type]. rewrite Hs.
      split; [apply collection_log_nil|auto]. }
    skip_silento.
    eapply logso_bind.
    { apply logso_lift. apply (gc_section_log bg).
      - cbn [l_gc_type]. exact Hg'.
      - cbn [l_status]. exact Hs. }
    intros [[[stop status] ilist] nfree] d1 [Hd1 Hstop].
    cbn [fst snd] in Hd1, Hstop.
    destruct stop.
    { apply logso_lift, logs_ret. rewrite app_nil_r.
      cbn [l_status l_gc_type]. auto. }
    specialize (Hstop eq_refl). rewrite Hstop in Hd1.
    eapply logso_weaken.
    { apply IH; cbn [l_status l_gc_type]; [exact Hstop|exact Hg']. }
    intros l' d [Hd Hv]. split; [|exact Hv].
    apply collection_log_app; assumption.
Qed.

Lemma collection_log_checkpoint b d :
  collection_log page_eq_dec bg b d ->
  collection_log page_eq_dec bg false (d ++ [CallWriteCheckpoint b]).
Proof.
  intros (P & C & W). split; [|split].
  - apply pages_ok_app; [exact P|]. intros pg. cbn. auto.
  - rewrite cp_run_app, C. cbn. now destruct b.
  - intros Hb. apply writes_nothing_app; [auto|].
    intros c [<-|[]]. exact I.
Qed.

Lemma f2fs_gc_more_log fuel nGC segno ilist gc_type :
  (bg -> gc_type = BG_GC) ->
  logso (f2fs_gc_more inode_eq_dec i_ino NIDS_PER_BLOCK ADDRS_PER_BLOCK
           ADDRS_PER_INODE (logged ops) fuel nGC segno ilist gc_type)
    (fun _ d => collection_log page_eq_dec bg false d).
Proof.
  revert segno ilist gc_type.
  induction fuel as [|fuel IH]; intros segno ilist gc_type Hg;
    cbn [f2fs_gc_more].
  - intros w a w' t E. discriminate.
  - eapply logso_bind; [apply logso_lift, logs_pressed|].
    intros pressed0 d0 [-> _]. cbn [app].
    apply logso_silent_bind; [destruct pressed0; silent|]. intros old.
    eapply logso_bind.
    { apply (gc_while_log (S fuel)); cbn [l_status l_gc_type];
        [reflexivity|exact Hg]. }
    intros l d1 [Hd1 Hgl].
    eapply logso_bind; [apply logso_lift, logs_pressed|].
    intros pressed d2 [-> Hp]. cbn [app].
    set (blocked := gc_status_eqb (l_status l) GC_BLOCKED) in *.
    destruct (pressed || blocked) eqn:Hor.
    + eapply logso_bind.
      { apply logso_lift. eapply logs_exec. intros ?. reflexivity. }
      intros [] d3 ->. cbv beta.
      assert (Hb : blocked = false -> pressed = true).
      { intros Eb. rewrite Eb, orb_false_r in Hor. exact Hor. }
      apply collection_log_checkpoint in Hd1.
      destruct (negb (l_nfree l =? 0)).
      * eapply logso_weaken; [apply IH; exact Hgl|].
        intros r d Hd. cbv beta. rewrite app_assoc.
        apply collection_log_app; assumption.
      * apply logso_lift, logs_ret. rewrite !app_nil_r. exact Hd1.
    + apply orb_false_elim in Hor as [_ Hb].
      apply logso_lift, logs_ret. rewrite !app_nil_r.
      rewrite Hb in Hd1. exact Hd1.
Qed.

Lemma put_gc_inode_from_log todo ilist :
  logs (put_gc_inode_from inode_eq_dec (logged ops) todo ilist)
    (fun _ d => d = []).
Proof.
  revert ilist. induction todo as [|ie todo IH]; intros ilist;
    cbn [put_gc_inode_from].
  - apply logs_ret. reflexivity.
  - skip_silent. skip_silent. apply IH.
Qed.

Lemma f2fs_gc_log fuel nGC :
  logso (f2fs_gc inode_eq_dec i_ino NIDS_PER_BLOCK ADDRS_PER_BLOCK
           ADDRS_PER_INODE (logged ops) fuel nGC)
    (fun _ d => collection_log page_eq_dec bg false d).
Proof.
  unfold f2fs_gc.
  eapply logso_bind; [apply f2fs_gc_more_log; intros _; reflexivity|].
  intros [status ilist] d1 Hd1. cbv beta iota.
  skip_silento.
  apply logso_silent_bind; [apply put_gc_inode_from_log|]. intros il.
  apply logso_lift, logs_ret. rewrite app_nil_r. exact Hd1.
Qed.

End Background.

(** X18: along a collection no page is put that the collection did not
    get, and at the return of [f2fs_gc] every page it got has been put. *)
Theorem f2fs_gc_puts_every_page fuel nGC w e w' t :
  f2fs_gc inode_eq_dec i_ino NIDS_PER_BLOCK ADDRS_PER_BLOCK ADDRS_PER_INODE
    (logged ops) fuel nGC w = Some (e, w', t) ->
  exists d, klog w' = klog w ++ d /\ pages_ok page_eq_dec d.
Proof.
  intros E.
  destruct (f2fs_gc_log False (fun H => match H with end) fuel nGC
              w e w' t E) as (d & Ed & P & _).
  exists d. split; assumption.
Qed.


(** X20: as long as free sections do not run short, [f2fs_gc] stays the
    background collector and writes nothing itself: it calls neither
    [sync_node_pages] nor [do_write_data_page] nor [f2fs_submit_bio]. *)
Theorem f2fs_gc_background_writes_nothing fuel nGC w e w' t :
  never_pressed ops ->
  f2fs_gc inode_eq_dec i_ino NIDS_PER_BLOCK ADDRS_PER_BLOCK ADDRS_PER_INODE
    (logged ops) fuel nGC w = Some (e, w', t) ->
  exists d, klog w' = klog w ++ d /\ writes_nothing d.
Proof.
  intros Hn E.
  destruct (f2fs_gc_log True (fun _ => Hn) fuel nGC
              w e w' t E) as (d & Ed & _ & _ & W).
  exists d. split; [exact Ed|exact (W I)].
Qed.

(** X21: the evacuation of a segment by the background collector writes
    nothing itself, whatever the kernel does. *)
Theorem background_evacuation_writes_nothing segno ilist w :
  let r := do_garbage_collect inode_eq_dec i_ino NIDS_PER_BLOCK
             ADDRS_PER_BLOCK ADDRS_PER_INODE (logged ops) segno ilist BG_GC w
  in
  exists d, klog (snd (fst r)) = klog w ++ d /\ writes_nothing d /\
            pages_ok page_eq_dec d.
Proof.
  cbv zeta.
  destruct (do_garbage_collect_log segno ilist BG_GC w)
    as (d & Ed & P & _ & W).
  exists d. split; [exact Ed|]. split; [exact (W eq_refl)|exact P].
Qed.

End CallLogProofs.

(** ** The statistics: [f2fs_update_gc_metric] *)

Section GcMetric.

Variable sbi : f2fs_sb_info.
Hypothesis Hwf : metric_wf sbi.

Lemma partly_valid_test segno :
  let v := u32 (get_valid_blocks sbi segno (log_segs_per_sec sbi)) in
  (0 <? v) && (v <? blks_per_sec sbi) = true <-> partly_valid sbi segno.
Proof.
  cbv zeta. unfold partly_valid.
  rewrite andb_true_iff, Z.ltb_lt, Z.ltb_lt. tauto.
Qed.

(** The loop ends; it counts the partly valid sections it visits, and the
    valid blocks it sums lie between the count and the count times the
    blocks of a section that is not full. *)
Lemma metric_loop_spec fuel segno l :
  (Z.to_nat (TOTAL_SEGS sbi - segno) < fuel)%nat ->
  0 <= segno -> segno < TOTAL_SEGS sbi + segs_per_sec sbi ->
  0 <= m_ndirty l -> m_ndirty l * segs_per_sec sbi <= segno ->
  exists l',
    metric_loop fuel sbi segno l = Some l' /\
    m_ndirty l <= m_ndirty l' < 2 ^ 31 /\
    (m_ndirty l' = m_ndirty l <->
     forall x, visited_from sbi segno x -> ~ partly_valid sbi x) /\
    ((TOTAL_SEGS sbi + segs_per_sec sbi) * blks_per_sec sbi
     <= 2 ^ 32 * segs_per_sec sbi ->
     m_ndirty l <= m_total_vblocks l <= m_ndirty l * (blks_per_sec sbi - 1) ->
     m_ndirty l' <= m_total_vblocks l'
     <= m_ndirty l' * (blks_per_sec sbi - 1)).
Proof.
  destruct Hwf as [Hu [Ht0 Ht] Hfit].
  revert segno l. induction fuel as [|fuel IH]; intros segno l Hf H0 Hs Hn Hns;
    [lia|].
  cbn [metric_loop]. destruct (Z.ltb_spec segno (TOTAL_SEGS sbi)) as [Hlt|Hge].
  - assert (Hnext : u32 (segno + segs_per_sec sbi) = segno + segs_per_sec sbi).
    { unfold u32. apply Z.mod_small. lia. }
    rewrite Hnext.
    assert (Hnd : m_ndirty l + 1 < 2 ^ 31) by nia.
    assert (Hs32 : s32 (m_ndirty l + 1) = m_ndirty l + 1).
    { unfold s32, u32. rewrite Z.mod_small by lia.
      destruct (Z.ltb_spec (m_ndirty l + 1) (2 ^ 31)); lia. }
    set (l1 := metric_body sbi segno l).
    assert (Hl1 : (partly_valid sbi segno /\
                   m_ndirty l1 = m_ndirty l + 1 /\
                   m_total_vblocks l1
                   = u32 (m_total_vblocks l
                          + u32 (get_valid_blocks sbi segno
                                   (log_segs_per_sec sbi)))) \/
                  (~ partly_valid sbi segno /\
                   m_ndirty l1 = m_ndirty l /\
                   m_total_vblocks l1 = m_total_vblocks l)).
    { subst l1. unfold metric_body. cbv zeta.
      pose proof (partly_valid_test segno) as Hp. cbv zeta in Hp.
      destruct ((0 <? _) && (_ <? _)) eqn:Hb.
      - left. cbn. rewrite Hs32. split; [apply Hp; reflexivity|auto].
      - right. cbn. split; [|auto]. intros Hv. apply Hp in Hv. congruence. }
    destruct (IH (segno + segs_per_sec sbi) l1) as (l' & El & Hr & Hiff & Hsum).
    { replace (TOTAL_SEGS sbi - (segno + segs_per_sec sbi))
        with (TOTAL_SEGS sbi - segno - segs_per_sec sbi) by lia.
      lia. }
    { lia. }
    { lia. }
    { destruct Hl1 as [(_ & -> & _)|(_ & -> & _)]; lia. }
    { destruct Hl1 as [(_ & -> & _)|(_ & -> & _)]; nia. }
    exists l'. split; [exact El|].
    assert (Hmono : m_ndirty l <= m_ndirty l1)
      by (destruct Hl1 as [(_ & -> & _)|(_ & -> & _)]; lia).
    split; [lia|]. split.
    + split.
      * intros Heq x (j & Hj & -> & Hx).
        assert (E1 : m_ndirty l1 = m_ndirty l) by lia.
        assert (E2 : m_ndirty l' = m_ndirty l1) by lia.
        destruct (Z.eq_dec j 0) as [->|Hj0].
        { replace (segno + 0 * segs_per_sec sbi) with segno by lia.
          destruct Hl1 as [(_ & Hc & _)|(Hnp & _)]; [lia|exact Hnp]. }
        apply (proj1 Hiff E2). exists (j - 1). split; [lia|]. split; [lia|].
        exact Hx.
      * intros Hall.
        assert (Hnp : ~ partly_valid sbi segno).
        { apply Hall. exists 0. split; [lia|]. split; [lia|exact Hlt]. }
        destruct Hl1 as [(Hp & _)|(_ & E1 & _)]; [contradiction|].
        rewrite <- E1. apply (proj2 Hiff).
        intros x (j & Hj & -> & Hx). apply Hall.
        exists (j + 1). split; [lia|]. split; [lia|exact Hx].
    + intros Hcap Hsl. apply Hsum; [exact Hcap|].
      destruct Hl1 as [(Hp & -> & ->)|(_ & -> & ->)]; [|exact Hsl].
      unfold partly_valid in Hp.
      set (v := u32 (get_valid_blocks sbi segno (log_segs_per_sec sbi))) in *.
      assert (Hroom : (m_ndirty l + 1) * blks_per_sec sbi <= 2 ^ 32) by nia.
      assert (Hsmall : u32 (m_total_vblocks l + v) = m_total_vblocks l + v).
      { unfold u32 at 1. apply Z.mod_small. nia. }
      rewrite Hsmall. nia.
  - assert (Hle : m_ndirty l <= TOTAL_SEGS sbi).
    { destruct (Z_le_gt_dec (m_ndirty l) (TOTAL_SEGS sbi)) as [|Hgt];
        [assumption|].
      assert (TOTAL_SEGS sbi + segs_per_sec sbi
              <= m_ndirty l * segs_per_sec sbi) by nia.
      lia. }
    exists l. split; [reflexivity|]. split; [lia|]. split.
    + split; [|reflexivity]. intros _ x (j & Hj & -> & Hx). nia.
    + intros _ Hsl. exact Hsl.
Qed.

Lemma metric_loop_from_zero fuel :
  (Z.to_nat (TOTAL_SEGS sbi) < fuel)%nat ->
  exists l,
    metric_loop fuel sbi 0 (mk_metric_locals 0 0 0) = Some l /\
    0 <= m_ndirty l < 2 ^ 31 /\
    (m_ndirty l = 0 <->
     forall x, visited_from sbi 0 x -> ~ partly_valid sbi x) /\
    ((TOTAL_SEGS sbi + segs_per_sec sbi) * blks_per_sec sbi
     <= 2 ^ 32 * segs_per_sec sbi ->
     m_ndirty l <= m_total_vblocks l <= m_ndirty l * (blks_per_sec sbi - 1)).
Proof.
  intros Hf. pose proof Hwf as [Hu [Ht0 Ht] Hfit].
  assert (Hf0 : (Z.to_nat (TOTAL_SEGS sbi - 0) < fuel)%nat)
    by (rewrite Z.sub_0_r; exact Hf).
  destruct (metric_loop_spec fuel 0 (mk_metric_locals 0 0 0) Hf0)
    as (l & El & Hr & Hiff & Hsum); cbn [m_ndirty m_total_vblocks] in *;
    try lia.
  exists l. split; [exact El|]. split; [lia|]. split; [exact Hiff|].
  intros Hcap. apply Hsum; [exact Hcap|lia].
Qed.

(** X22: with a geometry that lets the loop end, [f2fs_update_gc_metric]
    either returns or divides by zero, and it divides by zero exactly when
    [total_sections * hblks_per_sec * hblks_per_sec], as an
    [unsigned int], is less than 100, or [si->dirty_count] is not zero
    while no section of the main area is partly valid. *)
Theorem f2fs_update_gc_metric_divide_error fuel total_sections si :
  (Z.to_nat (TOTAL_SEGS sbi) < fuel)%nat ->
  exists r,
    f2fs_update_gc_metric fuel sbi total_sections si = Some r /\
    (r = MetricDivideError <->
     u32 (u32 (total_sections * hblks_per_sec sbi) * hblks_per_sec sbi) < 100
     \/ (dirty_count si <> 0 /\
         forall x, visited_from sbi 0 x -> ~ partly_valid sbi x)).
Proof.
  intros Hf.
  destruct (metric_loop_from_zero fuel Hf) as (l & El & Hr & Hiff & _).
  unfold f2fs_update_gc_metric. rewrite El. cbv zeta.
  set (prod := u32 (u32 (total_sections * hblks_per_sec sbi)
                    * hblks_per_sec sbi)).
  assert (Hprod : 0 <= prod < 2 ^ 32)
    by (subst prod; unfold u32; apply Z.mod_pos_bound; lia).
  assert (Hdist : prod / 100 = 0 <-> prod < 100).
  { split; intros H.
    - destruct (Z_lt_le_dec prod 100) as [|Hge]; [assumption|].
      pose proof (Z.div_le_mono 100 prod 100 ltac:(lia) Hge) as Hd.
      rewrite Z.div_same in Hd by lia. lia.
    - apply Z.div_small. lia. }
  assert (Hnd : u32 (m_ndirty l) = m_ndirty l)
    by (unfold u32; apply Z.mod_small; lia).
  change (dirty_count (set_bimodal ?x si)) with (dirty_count si).
  rewrite Hnd.
  destruct (Z.eqb_spec (prod / 100) 0) as [Hz|Hz].
  - eexists. split; [reflexivity|]. split; [|reflexivity].
    intros _. left. apply Hdist, Hz.
  - destruct (Z.eqb_spec (dirty_count si) 0) as [Hd|Hd]; cbn [negb].
    + eexists. split; [reflexivity|]. split; [discriminate|].
      intros [Hlt|[Hne _]]; [apply Hdist in Hlt|]; contradiction.
    + destruct (Z.eqb_spec (m_ndirty l) 0) as [Hn|Hn].
      * eexists. split; [reflexivity|]. split; [|reflexivity].
        intros _. right. split; [exact Hd|]. apply Hiff, Hn.
      * eexists. split; [reflexivity|]. split; [discriminate|].
        intros [Hlt|[_ Hall]]; [apply Hdist in Hlt; contradiction|].
        apply Hiff in Hall. contradiction.
Qed.

(** X23: when the valid blocks of the main area fit in an [unsigned int]
    and [f2fs_update_gc_metric] returns, it has left [dirty_count] as it
    was, and [avg_vblocks] is 0 when [dirty_count] is 0 and otherwise the
    mean of the valid blocks of the partly valid sections: at least 1 and
    less than the blocks of a section. *)
Theorem f2fs_update_gc_metric_average fuel total_sections si si' :
  (TOTAL_SEGS sbi + segs_per_sec sbi) * blks_per_sec sbi
  <= 2 ^ 32 * segs_per_sec sbi ->
  f2fs_update_gc_metric fuel sbi total_sections si = Some (MetricDone si') ->
  dirty_count si' = dirty_count si /\
  (dirty_count si = 0 -> avg_vblocks si' = 0) /\
  (dirty_count si <> 0 -> 1 <= avg_vblocks si' < blks_per_sec sbi).
Proof.
  intros Hcap Hrun.
  assert (Hfuel : exists l, metric_loop fuel sbi 0 (mk_metric_locals 0 0 0)
                            = Some l).
  { unfold f2fs_update_gc_metric in Hrun.
    destruct (metric_loop fuel sbi 0 _) as [l|]; [eauto|discriminate]. }
  destruct Hfuel as (l & El).
  assert (Hspec : 0 <= m_ndirty l < 2 ^ 31 /\
                  m_ndirty l <= m_total_vblocks l
                  <= m_ndirty l * (blks_per_sec sbi - 1)).
  { destruct (metric_loop_from_zero (S (Z.to_nat (TOTAL_SEGS sbi)) + fuel))
      as (l2 & El2 & Hr & _ & Hsum); [lia|].
    assert (l2 = l); [|subst l2; auto].
    clear - El El2. revert El El2.
    generalize (mk_metric_locals 0 0 0) as l0. generalize 0 as segno.
    generalize (S (Z.to_nat (TOTAL_SEGS sbi))) as extra.
    induction fuel as [|f IH]; intros extra segno l0 E1 E2; [discriminate|].
    replace (extra + S f)%nat with (S (extra + f)) in E2 by lia.
    cbn [metric_loop] in E1, E2.
    destruct (segno <? TOTAL_SEGS sbi); [eauto|congruence]. }
  destruct Hspec as (Hr & Hsum).
  unfold f2fs_update_gc_metric in Hrun. rewrite El in Hrun. cbv zeta in Hrun.
  assert (Hnd : u32 (m_ndirty l) = m_ndirty l)
    by (unfold u32; apply Z.mod_small; lia).
  cbn [dirty_count set_bimodal] in Hrun. rewrite Hnd in Hrun.
  destruct (_ / 100 =? 0); [discriminate|].
  destruct (Z.eqb_spec (dirty_count si) 0) as [Hd|Hd]; cbn [negb] in Hrun.
  - injection Hrun as <-. cbn. split; [reflexivity|]. split; [auto|].
    intros Hne. contradiction.
  - destruct (Z.eqb_spec (m_ndirty l) 0) as [Hn|Hn]; [discriminate|].
    injection Hrun as <-. cbn. split; [reflexivity|].
    split; [intros H0; contradiction|]. intros _.
    assert (Hpos : 0 < m_ndirty l) by lia.
    split.
    + apply Z.div_le_lower_bound; lia.
    + apply Z.div_lt_upper_bound; [lia|]. nia.
Qed.

End GcMetric.

(** ** Set-up and tear-down *)

Lemma store_set_same {A} p (v : option A) s : store_set p v s p = v.
Proof. unfold store_set. now rewrite Z.eqb_refl. Qed.

Lemma store_set_other {A} p q (v : option A) s :
  q <> p -> store_set p v s q = s q.
Proof. intros H. unfold store_set. now rewrite (proj2 (Z.eqb_neq q p) H). Qed.

Lemma load_store_set_same {A} p (v : option A) s :
  p <> 0 -> load (store_set p v s) p = v.
Proof.
  intros H. unfold load. rewrite (proj2 (Z.eqb_neq p 0) H).
  apply store_set_same.
Qed.

Lemma store_update_set {A} p (f : A -> A) (v : option A) s :
  p <> 0 ->
  store_update p f (store_set p v s)
  = match v with
    | Some a => Some (store_set p (Some (f a)) (store_set p v s))
    | None => None
    end.
Proof.
  intros H. unfold store_update. now rewrite load_store_set_same by exact H.
Qed.

Lemma store_free_set {A} p (a : A) s :
  p <> 0 ->
  store_free p (store_set p (Some a) s)
  = Some (store_set p None (store_set p (Some a) s)).
Proof.
  intros H. unfold store_free. rewrite (proj2 (Z.eqb_neq p 0) H).
  now rewrite store_set_same.
Qed.

Lemma same_store_reset {A} p (chain : store A) (s : store A) :
  s p = None ->
  (forall q, q <> p -> chain q = s q) ->
  same_store (store_set p None chain) s.
Proof.
  intros Hp Hq q. destruct (Z.eq_dec q p) as [->|Hne].
  - now rewrite store_set_same.
  - rewrite store_set_other by exact Hne. now apply Hq.
Qed.

Lemma remove_first_head p l : remove_first p (p :: l) = l.
Proof. cbn. now rewrite Z.eqb_refl. Qed.

Lemma remove_first_last p l : ~ In p l -> remove_first p (l ++ [p]) = l.
Proof.
  induction l as [|q l IH]; intros Hn; cbn.
  - now rewrite Z.eqb_refl.
  - destruct (Z.eqb_spec q p) as [->|Hne].
    + exfalso. apply Hn. now left.
    + f_equal. apply IH. intros H. apply Hn. now right.
Qed.

Ltac setup_simpl :=
  repeat progress
    (cbn [set_kthreads set_gc_thread gc_thread kthreads tasks kthread_run
          kthread_stop f2fs_gc_task gc_wait_queue_head IS_ERR existsb orb
          set_gc_infos set_gc_info set_v_ops_default set_stat_infos
          gc_info v_ops_default gc_infos stat_infos f2fs_stat_list
          rsvd_segment_count overp_segment_count stat_info stat_list];
     repeat first
       [ rewrite store_update_set by assumption
       | rewrite load_store_set_same by assumption
       | rewrite store_free_set by assumption
       | rewrite store_set_same
       | rewrite Z.eqb_refl
       | rewrite remove_first_head
       | match goal with H : (_ =? 0) = false |- _ => rewrite H end ];
     cbv beta iota zeta).

Ltac restored H :=
  apply same_store_reset; [exact H|];
  let x := fresh "x" in let Hx := fresh "Hx" in
  intros x Hx; now rewrite !store_set_other by exact Hx.

(** *** The worker *)

(** X24: when [kmalloc] returns a new object and [kthread_run] a task,
    [start_gc_thread] returns 0 with [sbi->gc_thread] set to the object,
    its wait queue initialised, its task recorded and running; and
    [stop_gc_thread] then stops that task, frees the object and resets
    [sbi->gc_thread] to NULL, so that the allocated objects and the
    running threads are what they were before the start. *)
Theorem start_then_stop_gc_thread (p t : Z) (w : thread_world) :
  p <> 0 -> kthreads w p = None ->
  exists w1,
    start_gc_thread p (TaskPtr t) w = Some (0, w1) /\
    gc_thread w1 = p /\
    load (kthreads w1) p = Some (mk_gc_kthread (Some (TaskPtr t)) true) /\
    tasks w1 = t :: tasks w /\
    exists w2,
      stop_gc_thread w1 = Some w2 /\
      gc_thread w2 = 0 /\
      same_store (kthreads w2) (kthreads w) /\
      tasks w2 = tasks w.
Proof.
  intros Hp Hfresh.
  pose proof (proj2 (Z.eqb_neq p 0) Hp) as Hp0.
  unfold start_gc_thread, store_alloc. setup_simpl.
  eexists. split; [reflexivity|]. setup_simpl.
  split; [reflexivity|]. split; [reflexivity|]. split; [reflexivity|].
  unfold stop_gc_thread. setup_simpl.
  eexists. split; [reflexivity|]. setup_simpl.
  split; [reflexivity|]. split; [|reflexivity].
  restored Hfresh.
Qed.

(** X25: when it fails, [start_gc_thread] returns [-ENOMEM] with the
    allocated objects and the running threads as they were.  After a
    failure of [kmalloc] [sbi->gc_thread] is as it was; after a failure of
    [kthread_run] the object has been freed but [sbi->gc_thread] still
    holds its address, and [stop_gc_thread] then reads the freed
    object. *)
Theorem start_gc_thread_failure (p : Z) (r : task_ptr) (w : thread_world) :
  p = 0 \/ (kthreads w p = None /\ IS_ERR r = true) ->
  exists w1,
    start_gc_thread p r w = Some (- ENOMEM, w1) /\
    same_store (kthreads w1) (kthreads w) /\
    tasks w1 = tasks w /\
    (p = 0 -> gc_thread w1 = gc_thread w) /\
    (p <> 0 ->
     gc_thread w1 = p /\ load (kthreads w1) p = None /\
     stop_gc_thread w1 = None).
Proof.
  intros H.
  destruct (Z.eq_dec p 0) as [->|Hp].
  - unfold start_gc_thread, store_alloc. setup_simpl.
    eexists. split; [reflexivity|]. setup_simpl.
    split; [intros q; reflexivity|]. split; [reflexivity|].
    split; [reflexivity|]. intros Hn. contradiction.
  - destruct H as [->|[Hfresh Herr]]; [contradiction|].
    pose proof (proj2 (Z.eqb_neq p 0) Hp) as Hp0.
    destruct r as [t|errno]; [discriminate|].
    unfold start_gc_thread, store_alloc. setup_simpl.
    eexists. split; [reflexivity|]. setup_simpl.
    split; [restored Hfresh|].
    split; [reflexivity|]. split; [intros Hn; contradiction|].
    intros _. split; [reflexivity|]. split; [reflexivity|].
    unfold stop_gc_thread. setup_simpl. reflexivity.
Qed.

(** *** The manager *)

(** X26: when its allocations succeed and [secs_per_zone] is not zero,
    [build_gc_manager] returns 0 with [sbi->gc_info] set to a new object
    that holds the two counts of the checkpoint, [v_ops] set to the default
    selector and, under [CONFIG_F2FS_STAT_FS], the object linked at the
    tail of [f2fs_stat_list] and its statistics pointing back to [sbi];
    [destroy_gc_manager] then unlinks and frees what was built: the
    allocated objects and [f2fs_stat_list] are what they were before. *)
Theorem build_then_destroy_gc_manager (config_stat_fs : bool)
    (sbi rsvd overprov : Z) (raw_super : f2fs_super_block) (p q : Z)
    (w : manager_world) :
  p <> 0 -> gc_infos w p = None -> ~ In p (f2fs_stat_list w) ->
  (config_stat_fs = true ->
   q <> 0 /\ stat_infos w q = None /\ u32 (secs_per_zone raw_super) <> 0) ->
  exists w1,
    build_gc_manager config_stat_fs sbi rsvd overprov raw_super p q w
    = Some (0, w1) /\
    gc_info w1 = p /\ v_ops_default w1 = true /\
    load (gc_infos w1) p
    = Some (mk_gc_info (u32 rsvd) (u32 overprov)
              (if config_stat_fs then q else 0) config_stat_fs) /\
    f2fs_stat_list w1
    = (if config_stat_fs then f2fs_stat_list w ++ [p]
       else f2fs_stat_list w) /\
    (config_stat_fs = true ->
     exists si, load (stat_infos w1) q = Some si /\ si_sbi si = sbi /\
                main_area_sections si = s32 (section_count raw_super)) /\
    exists w2,
      destroy_gc_manager config_stat_fs w1 = Some w2 /\
      gc_info w2 = 0 /\
      same_store (gc_infos w2) (gc_infos w) /\
      same_store (stat_infos w2) (stat_infos w) /\
      f2fs_stat_list w2 = f2fs_stat_list w.
Proof.
  intros Hp Hfresh Hnin Hcfg.
  pose proof (proj2 (Z.eqb_neq p 0) Hp) as Hp0.
  destruct config_stat_fs.
  - destruct (Hcfg eq_refl) as (Hq & Hqfresh & Hz).
    pose proof (proj2 (Z.eqb_neq q 0) Hq) as Hq0.
    pose proof (proj2 (Z.eqb_neq _ 0) Hz) as Hz0.
    unfold build_gc_manager, store_alloc, stat_list_add_tail. setup_simpl.
    eexists. split; [reflexivity|]. setup_simpl.
    split; [reflexivity|]. split; [reflexivity|]. split; [reflexivity|].
    split; [reflexivity|].
    split.
    { intros _. eexists. split; [reflexivity|]. split; reflexivity. }
    unfold destroy_gc_manager, stat_list_del. setup_simpl.
    eexists. split; [reflexivity|]. setup_simpl.
    split; [reflexivity|].
    split; [restored Hfresh|]. split; [restored Hqfresh|].
    apply remove_first_last, Hnin.
  - unfold build_gc_manager, store_alloc. setup_simpl.
    eexists. split; [reflexivity|]. setup_simpl.
    split; [reflexivity|]. split; [reflexivity|]. split; [reflexivity|].
    split; [reflexivity|].
    split; [discriminate|].
    unfold destroy_gc_manager. setup_simpl.
    eexists. split; [reflexivity|]. setup_simpl.
    split; [reflexivity|].
    split; [restored Hfresh|].
    split; [intros x; reflexivity|reflexivity].
Qed.

(** X27: under [CONFIG_F2FS_STAT_FS], [destroy_gc_manager] does not
    survive a manager that is absent or half built.  With [sbi->gc_info]
    NULL it reads [gc_i->stat_info] before it tests [gc_i], where without
    the option it returns at once.  And when the second [kzalloc] of
    [build_gc_manager] fails, that function returns [-ENOMEM] with the
    first object still allocated, [sbi->gc_info] pointing to it and the
    object not linked, and [destroy_gc_manager] then writes through the
    NULL pointers of its list node. *)
Theorem destroy_gc_manager_needs_full_build (sbi rsvd overprov : Z)
    (raw_super : f2fs_super_block) (p : Z) (w : manager_world) :
  (gc_info w = 0 ->
   destroy_gc_manager true w = None /\ destroy_gc_manager false w = Some w) /\
  (p <> 0 -> gc_infos w p = None ->
   exists w1,
     build_gc_manager true sbi rsvd overprov raw_super p 0 w
     = Some (- ENOMEM, w1) /\
     gc_info w1 = p /\
     load (gc_infos w1) p
     = Some (mk_gc_info (u32 rsvd) (u32 overprov) 0 false) /\
     f2fs_stat_list w1 = f2fs_stat_list w /\
     destroy_gc_manager true w1 = None).
Proof.
  split.
  - intros H0. unfold destroy_gc_manager. cbv zeta. rewrite H0.
    split; reflexivity.
  - intros Hp Hfresh.
    pose proof (proj2 (Z.eqb_neq p 0) Hp) as Hp0.
    unfold build_gc_manager, store_alloc. setup_simpl.
    eexists. split; [reflexivity|]. setup_simpl.
    split; [reflexivity|]. split; [reflexivity|]. split; [reflexivity|].
    unfold destroy_gc_manager, stat_list_del. setup_simpl. reflexivity.
Qed.

(** *** The entries under /proc *)

Lemma remove_proc_entry_head name parent r wp w :
  remove_proc_entry name parent (mk_proc_dir_entry name parent r wp :: w) = w.
Proof.
  cbn [remove_proc_entry pde_name pde_parent].
  now rewrite String.eqb_refl, Z.eqb_refl.
Qed.

Lemma remove_proc_entry_skip name parent e w :
  String.eqb (pde_name e) name = false ->
  remove_proc_entry name parent (e :: w)
  = e :: remove_proc_entry name parent w.
Proof. intros H. cbn [remove_proc_entry]. now rewrite H. Qed.

(** X28: [f2fs_stat_init] registers all of its three entries or none: it
    returns 0 when the three calls of [create_proc_entry] succeed, with
    the entries [f2fs_stat], [f2fs_sit_stat] and [f2fs_mem_stat]
    registered under [sbi->s_proc], each with its read function and no
    write function; and when a call fails it returns [-ENOMEM] with the
    registered entries as they were before the call. *)
Theorem f2fs_stat_init_all_or_nothing (s_proc : Z) (ok1 ok2 ok3 : bool)
    (w : list proc_dir_entry) :
  f2fs_stat_init s_proc ok1 ok2 ok3 w
  = if ok1 && (ok2 && ok3) then (0, f2fs_stat_entries s_proc ++ w)
    else (- ENOMEM, w).
Proof.
  unfold f2fs_stat_init, create_proc_entry.
  destruct ok1; [|reflexivity].
  destruct ok2; cbn [negb andb set_entry_procs pde_name pde_parent].
  - destruct ok3; cbn [negb andb set_entry_procs pde_name pde_parent].
    + reflexivity.
    + now rewrite !remove_proc_entry_head.
  - now rewrite remove_proc_entry_head.
Qed.

(** X29: [f2fs_stat_exit] undoes a successful [f2fs_stat_init] only under
    a directory: with [sbi->s_proc] set, the entries registered after the
    two calls are those registered before them; with [sbi->s_proc] NULL
    [f2fs_stat_exit] removes nothing, and the three entries that
    [f2fs_stat_init] has created stay registered. *)
Theorem f2fs_stat_exit_after_init (s_proc : Z) (w : list proc_dir_entry) :
  f2fs_stat_exit s_proc (snd (f2fs_stat_init s_proc true true true w))
  = if s_proc =? 0 then f2fs_stat_entries 0 ++ w else w.
Proof.
  unfold f2fs_stat_init, create_proc_entry, f2fs_stat_exit.
  cbn [negb set_entry_procs pde_name pde_parent snd].
  destruct (Z.eqb_spec s_proc 0) as [->|Hne]; cbn [negb]; [reflexivity|].
  repeat first
    [ rewrite remove_proc_entry_head
    | rewrite remove_proc_entry_skip by reflexivity ].
  reflexivity.
Qed.

(** ** The further properties on the example states *)

Lemma ssr_selector_wf : selector_wf ssr_sbi.
Proof. constructor; cbn; intros; lia. Qed.

Lemma full_selector_wf : selector_wf full_sbi.
Proof. constructor; cbn; intros; lia. Qed.

Lemma flat_selector_wf : selector_wf flat_sbi.
Proof. constructor; cbn; intros; lia. Qed.

Lemma scan_victim_is_dirty_candidate_witness :
  exists m,
    2 = Z.shiftl
          (Z.shiftr m (p_log_ofs_unit (select_policy sample_sbi BG_GC NO_CHECK_TYPE)))
          (p_log_ofs_unit (select_policy sample_sbi BG_GC NO_CHECK_TYPE)) /\
    2 <= m < 2 + 2 ^ p_log_ofs_unit (select_policy sample_sbi BG_GC NO_CHECK_TYPE) /\
    test_bit m
      (dirty_segmap sample_sbi
         (p_dirty_segmap (select_policy sample_sbi BG_GC NO_CHECK_TYPE)))
    = true /\
    victim_candidate BG_GC sample_sbi m.
Proof.
  apply (scan_victim_is_dirty_candidate 20 sample_sbi 0 BG_GC NO_CHECK_TYPE 2
           sample_sbi_bg).
  - constructor; cbn; intros; lia.
  - intros _ Hg. discriminate Hg.
  - vm_compute. reflexivity.
Defined.

Lemma get_victim_none_changes_nothing_witness :
  match get_victim_by_default 20 full_sbi 5 FG_GC NO_CHECK_TYPE with
  | Some (found, r, sbi') =>
      (found = 0 \/ found = 1) /\
      (found = 0 -> r = 5 /\ same_layout full_sbi sbi')
  | None => False
  end.
Proof.
  destruct (get_victim_by_default 20 full_sbi 5 FG_GC NO_CHECK_TYPE)
    as [[[found r] sbi']|] eqn:E.
  - apply (get_victim_none_changes_nothing 20 full_sbi 5 FG_GC NO_CHECK_TYPE
             found r sbi').
    + constructor; cbn; intros; lia.
    + exact E.
  - vm_compute in E. discriminate.
Defined.

Lemma get_victim_nothing_dirty_witness :
  exists sbi',
    get_victim_by_default 20 sample_sbi 5 BG_GC (SSR_TYPE CURSEG_HOT_DATA)
    = Some (0, 5, sbi') /\
    same_layout sample_sbi sbi' /\
    last_victim sbi'
      (p_gc_mode (select_policy sample_sbi BG_GC (SSR_TYPE CURSEG_HOT_DATA)))
    = 0.
Proof.
  apply (get_victim_nothing_dirty 20 sample_sbi 5 BG_GC
           (SSR_TYPE CURSEG_HOT_DATA)).
  - constructor; cbn; intros; lia.
  - intros _ Hg. discriminate Hg.
  - intros j _. unfold test_bit. cbn. apply Z.testbit_0_l.
Defined.

Lemma greedy_victim_below_max_cost_witness :
  exists m,
    2 = Z.shiftl
          (Z.shiftr m (p_log_ofs_unit (select_policy sample_sbi FG_GC NO_CHECK_TYPE)))
          (p_log_ofs_unit (select_policy sample_sbi FG_GC NO_CHECK_TYPE)) /\
    victim_candidate FG_GC sample_sbi m /\
    fst (get_gc_cost sample_sbi m (select_policy sample_sbi FG_GC NO_CHECK_TYPE))
    < get_max_cost sample_sbi (select_policy sample_sbi FG_GC NO_CHECK_TYPE).
Proof.
  destruct (get_victim_by_default 20 sample_sbi 0 FG_GC NO_CHECK_TYPE)
    as [[[found r] sbi']|] eqn:E.
  - assert (H : option_map fst
                  (get_victim_by_default 20 sample_sbi 0 FG_GC NO_CHECK_TYPE)
                = Some (1, 2)) by (vm_compute; reflexivity).
    rewrite E in H. cbn in H. injection H as -> ->.
    apply (greedy_victim_below_max_cost 20 sample_sbi 0 FG_GC NO_CHECK_TYPE 2
             sbi').
    + constructor; cbn; intros; lia.
    + intros _ _. vm_compute. reflexivity.
    + reflexivity.
    + exact E.
  - vm_compute in E. discriminate.
Defined.

Lemma greedy_victim_is_minimum_witness :
  exists m,
    3 = Z.shiftl
          (Z.shiftr m
             (p_log_ofs_unit
                (select_policy ssr_sbi BG_GC (SSR_TYPE CURSEG_HOT_DATA))))
          (p_log_ofs_unit
             (select_policy ssr_sbi BG_GC (SSR_TYPE CURSEG_HOT_DATA))) /\
    victim_candidate BG_GC ssr_sbi m /\
    test_bit m
      (dirty_segmap ssr_sbi
         (p_dirty_segmap
            (select_policy ssr_sbi BG_GC (SSR_TYPE CURSEG_HOT_DATA))))
    = true /\
    forall h,
      scan_head ssr_sbi
        (select_policy ssr_sbi BG_GC (SSR_TYPE CURSEG_HOT_DATA)) h ->
      victim_candidate BG_GC ssr_sbi h ->
      fst (get_gc_cost ssr_sbi m
             (select_policy ssr_sbi BG_GC (SSR_TYPE CURSEG_HOT_DATA)))
      <= fst (get_gc_cost ssr_sbi h
                (select_policy ssr_sbi BG_GC (SSR_TYPE CURSEG_HOT_DATA))) /\
      (h < m ->
       fst (get_gc_cost ssr_sbi m
              (select_policy ssr_sbi BG_GC (SSR_TYPE CURSEG_HOT_DATA)))
       < fst (get_gc_cost ssr_sbi h
                (select_policy ssr_sbi BG_GC (SSR_TYPE CURSEG_HOT_DATA)))).
Proof.
  destruct (get_victim_by_default 20 ssr_sbi 0 BG_GC (SSR_TYPE CURSEG_HOT_DATA))
    as [[[found r] sbi']|] eqn:E.
  - assert (H : option_map
                  (fun x => (fst x, last_victim (snd x) GC_GREEDY))
                  (get_victim_by_default 20 ssr_sbi 0 BG_GC
                     (SSR_TYPE CURSEG_HOT_DATA))
                = Some ((1, 3), 0)) by (vm_compute; reflexivity).
    rewrite E in H. cbn in H. injection H as -> -> Hl.
    apply (greedy_victim_is_minimum 20 ssr_sbi 0 BG_GC
             (SSR_TYPE CURSEG_HOT_DATA) 3 sbi').
    + constructor; cbn; intros; lia.
    + intros _ Hg. discriminate Hg.
    + reflexivity.
    + lia.
    + reflexivity.
    + exact E.
    + exact Hl.
  - vm_compute in E. discriminate.
Defined.

Lemma greedy_no_victim_all_full_witness :
  get_max_cost full_sbi (select_policy full_sbi FG_GC NO_CHECK_TYPE) = 1024 /\
  forall h,
    scan_head full_sbi (select_policy full_sbi FG_GC NO_CHECK_TYPE) h ->
    victim_candidate FG_GC full_sbi h ->
    get_max_cost full_sbi (select_policy full_sbi FG_GC NO_CHECK_TYPE)
    <= fst (get_gc_cost full_sbi h
              (select_policy full_sbi FG_GC NO_CHECK_TYPE)).
Proof.
  split; [reflexivity|].
  destruct (get_victim_by_default 20 full_sbi 5 FG_GC NO_CHECK_TYPE)
    as [[[found r] sbi']|] eqn:E.
  - assert (H : option_map
                  (fun x => (fst x, last_victim (snd x) GC_GREEDY))
                  (get_victim_by_default 20 full_sbi 5 FG_GC NO_CHECK_TYPE)
                = Some ((0, 5), 0)) by (vm_compute; reflexivity).
    rewrite E in H. cbn in H. injection H as -> -> Hl.
    apply (greedy_no_victim_all_full 20 full_sbi 5 FG_GC NO_CHECK_TYPE 5 sbi').
    + constructor; cbn; intros; lia.
    + intros _ _. vm_compute. reflexivity.
    + reflexivity.
    + lia.
    + reflexivity.
    + exact E.
    + exact Hl.
  - vm_compute in E. discriminate.
Defined.

Lemma ssr_selection_claims_nothing_witness :
  match get_victim_by_default 20 ssr_sbi 0 BG_GC (SSR_TYPE CURSEG_HOT_DATA) with
  | Some (_, _, sbi') => same_but_last_victim GC_GREEDY ssr_sbi sbi'
  | None => False
  end.
Proof.
  destruct (get_victim_by_default 20 ssr_sbi 0 BG_GC (SSR_TYPE CURSEG_HOT_DATA))
    as [[[found r] sbi']|] eqn:E.
  - apply (ssr_selection_claims_nothing 20 ssr_sbi 0 BG_GC CURSEG_HOT_DATA
             found r sbi').
    + constructor; cbn; intros; lia.
    + exact E.
  - vm_compute in E. discriminate.
Defined.

Lemma sample_cb_in_range segno : 0 <= segno <= 4 -> cb_in_range sample_sbi segno.
Proof.
  intros H.
  assert (Hs : segno = 0 \/ segno = 1 \/ segno = 2 \/ segno = 3 \/ segno = 4)
    by lia.
  constructor; try (cbn; lia);
    try (intros i; cbn; destruct (i <? 4); lia);
    destruct Hs as [->|[->|[->|[->| ->]]]]; vm_compute;
    first [reflexivity | discriminate | split; discriminate].
Qed.

Lemma get_cb_cost_monotone_witness :
  fst (get_cb_cost sample_sbi 2) <= fst (get_cb_cost sample_sbi 4).
Proof.
  apply (get_cb_cost_monotone sample_sbi 2 4).
  - apply sample_cb_in_range. lia.
  - apply sample_cb_in_range. lia.
  - vm_compute. discriminate.
  - vm_compute. discriminate.
  - vm_compute. discriminate.
  - vm_compute. discriminate.
Defined.

Lemma bg_selection_flat_times_witness :
  exists sbi',
    get_victim_by_default 20 flat_sbi 5 BG_GC NO_CHECK_TYPE
    = Some (0, 5, sbi') /\
    same_layout flat_sbi sbi'.
Proof.
  apply (bg_selection_flat_times 20 flat_sbi 5 1000).
  - constructor; cbn; intros; lia.
  - reflexivity.
  - intros i. reflexivity.
  - lia.
  - cbn. lia.
  - reflexivity.
  - reflexivity.
Defined.

(** The witness uses the layout constants of the F2FS disk format. *)
Lemma start_bidx_of_node_monotone_witness :
  start_bidx_of_node 1018 1018 923 0 <= start_bidx_of_node 1018 1018 923 1 /\
  (1 = 0 + 1 ->
   if 0 =? 0
   then start_bidx_of_node 1018 1018 923 0 = 0 /\
        start_bidx_of_node 1018 1018 923 1 = 923
   else start_bidx_of_node 1018 1018 923 1 = start_bidx_of_node 1018 1018 923 0 \/
        start_bidx_of_node 1018 1018 923 1
        = start_bidx_of_node 1018 1018 923 0 + 1018).
Proof.
  apply (start_bidx_of_node_monotone 1018 1018 923); try lia; reflexivity.
Defined.

(** The first steps of the start block index: the inode, the two direct
    nodes, and the first direct node under the first indirect node, which
    starts where the indirect node does. *)
Example start_bidx_of_node_first_steps :
  map (start_bidx_of_node 1018 1018 923) [0; 1; 2; 4; 5]
  = [0; 923; 923 + 1018; 923 + 2 * 1018; 923 + 3 * 1018].
Proof. vm_compute. reflexivity. Qed.

Lemma add_gc_inode_then_find_witness :
  find_gc_inode (fun i => i) 7
    (fst (fst (add_gc_inode Z.eq_dec toy_ops 7 [mk_inode_entry 8] toy_world)))
  = Some 7 /\
  forall ino, ino <> 7 ->
    find_gc_inode (fun i => i) ino
      (fst (fst (add_gc_inode Z.eq_dec toy_ops 7 [mk_inode_entry 8] toy_world)))
    = find_gc_inode (fun i => i) ino [mk_inode_entry 8].
Proof.
  apply (add_gc_inode_then_find unit Z Z Z.eq_dec toy_ops (fun i => i) 7
           [mk_inode_entry 8] toy_world).
  intros j Hj Hn. exact Hn.
Defined.

Lemma f2fs_gc_returned_status_witness :
  match toy_gc 10 1 toy_world with
  | Some (e, w', _) =>
      returned_status (exit_status e) /\
      last_gc_status (w_sbi w') = exit_status e
  | None => False
  end.
Proof.
  destruct (toy_gc 10 1 toy_world) as [[[e w'] tr]|] eqn:E.
  - apply (f2fs_gc_returned_status unit Z Z Z.eq_dec toy_ops (fun i => i)
             1018 1018 923 10 1 toy_world w' e tr).
    + intros i w. reflexivity.
    + intros w. reflexivity.
    + exact E.
  - vm_compute in E. discriminate.
Defined.

(** On the file system whose modification times are all equal the
    kernel is active and the selector of gc.c finds no victim. *)
Lemma f2fs_gc_nothing_to_collect_witness :
  sb_active toy_ops (mk_world flat_sbi tt) = true /\
  exists w',
    f2fs_gc Z.eq_dec (fun i => i) 1018 1018 923 toy_ops 1 1
      (mk_world flat_sbi tt)
    = Some (mk_gc_exit GC_NONE [] false, w', []).
Proof.
  split; [reflexivity|].
  apply (f2fs_gc_nothing_to_collect unit Z Z Z.eq_dec toy_ops
           (fun i => i) 1018 1018 923 0 1 (mk_world flat_sbi tt)).
  right. vm_compute. reflexivity.
Defined.

Lemma gc_thread_func_exit_witness :
  match counting_worker true 5 (mk_world sample_sbi 0) with
  | Some (r, w', tr) =>
      r = 0 /\ kthread_should_stop (counting_ops true) w' = true /\
      forall j, held Z.eq_dec tr j = 0
  | None => False
  end.
Proof.
  destruct (counting_worker true 5 (mk_world sample_sbi 0))
    as [[[r w'] tr]|] eqn:E.
  - exact (gc_thread_func_exit Z Z Z Z.eq_dec (counting_ops true)
             (fun i => i) 1018 1018 923 10000 30000 10000
             toy_increase toy_decrease 5 10 (mk_world sample_sbi 0) w' r tr E).
  - vm_compute in E. discriminate.
Defined.

(** The worker of the counting kernel collects once, between its two
    waits, and returns when it is asked to stop. *)
Example counting_worker_run :
  option_map (fun r => (fst (fst r), w_kernel (snd (fst r)), snd r))
    (counting_worker true 5 (mk_world sample_sbi 0))
  = Some (0, 2,
          [Acquire 7; Acquire 8; Acquire 7; Release 7; Acquire 8; Release 8;
           Release 7; Release 8]).
Proof. vm_compute. reflexivity. Qed.

Lemma f2fs_gc_puts_every_page_witness :
  match f2fs_gc Z.eq_dec (fun i => i) 1018 1018 923 (logged toy_ops) 10 1
          logged_toy_world with
  | Some (_, w', _) =>
      exists d, klog w' = klog logged_toy_world ++ d /\ pages_ok Z.eq_dec d
  | None => False
  end.
Proof.
  destruct (f2fs_gc Z.eq_dec (fun i => i) 1018 1018 923 (logged toy_ops) 10 1
              logged_toy_world) as [[[e w'] tr]|] eqn:E.
  - exact (f2fs_gc_puts_every_page unit Z Z Z.eq_dec Z.eq_dec toy_ops
             (fun i => i) 1018 1018 923 10 1 logged_toy_world e w' tr E).
  - vm_compute in E. discriminate.
Defined.


Lemma f2fs_gc_background_writes_nothing_witness :
  match f2fs_gc Z.eq_dec (fun i => i) 1018 1018 923 (logged toy_ops) 10 1
          logged_toy_world with
  | Some (_, w', _) =>
      exists d, klog w' = klog logged_toy_world ++ d /\ writes_nothing d
  | None => False
  end.
Proof.
  destruct (f2fs_gc Z.eq_dec (fun i => i) 1018 1018 923 (logged toy_ops) 10 1
              logged_toy_world) as [[[e w'] tr]|] eqn:E.
  - apply (f2fs_gc_background_writes_nothing unit Z Z Z.eq_dec Z.eq_dec toy_ops
             (fun i => i) 1018 1018 923 10 1 logged_toy_world e w' tr).
    + intros w. reflexivity.
    + exact E.
  - vm_compute in E. discriminate.
Defined.

(** The calls of the collection of the toy world: each segment of the
    victim section has its summary page held over the passes on its two
    valid blocks. *)
Example logged_toy_gc_pages :
  option_map (fun r => length (klog (snd (fst r))))
    (logged_toy_gc 10 1 logged_toy_world)
  = Some 44%nat.
Proof. vm_compute. reflexivity. Qed.

Lemma big_metric_wf : metric_wf big_sbi.
Proof. constructor; cbn; lia. Qed.

Lemma sample_metric_wf : metric_wf sample_sbi.
Proof. constructor; cbn; lia. Qed.

(** On a main area of 65536 sections of 512 blocks the product
    [total_sections * 256 * 256] wraps to 0: the statistics divide by
    zero. *)
Lemma f2fs_update_gc_metric_divide_error_witness :
  u32 (u32 (65536 * hblks_per_sec big_sbi) * hblks_per_sec big_sbi) = 0 /\
  f2fs_update_gc_metric (S (Z.to_nat (TOTAL_SEGS big_sbi))) big_sbi 65536
    (set_dirty_count 7 zero_stat_info)
  = Some MetricDivideError.
Proof.
  split; [reflexivity|].
  destruct (f2fs_update_gc_metric_divide_error big_sbi big_metric_wf
              (S (Z.to_nat (TOTAL_SEGS big_sbi))) 65536 (set_dirty_count 7 zero_stat_info)
              (Nat.lt_succ_diag_r _)) as (r & Er & Hiff).
  rewrite Er. f_equal. apply Hiff. left. reflexivity.
Defined.

Lemma f2fs_update_gc_metric_average_witness :
  match f2fs_update_gc_metric 9 sample_sbi 4 (set_dirty_count 2 zero_stat_info) with
  | Some (MetricDone si') =>
      dirty_count si' = 2 /\
      (2 = 0 -> avg_vblocks si' = 0) /\
      (2 <> 0 -> 1 <= avg_vblocks si' < blks_per_sec sample_sbi)
  | _ => False
  end.
Proof.
  destruct (f2fs_update_gc_metric 9 sample_sbi 4 (set_dirty_count 2 zero_stat_info))
    as [[si'|]|] eqn:E.
  - apply (f2fs_update_gc_metric_average sample_sbi sample_metric_wf 9 4
             (set_dirty_count 2 zero_stat_info) si').
    + vm_compute. discriminate.
    + exact E.
  - vm_compute in E. discriminate.
  - vm_compute in E. discriminate.
Defined.

(** The statistics of the sample file system: four sections of 200 valid
    blocks each. *)
Example sample_gc_metric :
  f2fs_update_gc_metric 9 sample_sbi 4 (set_dirty_count 2 zero_stat_info)
  = Some (MetricDone (mk_stat_info 0 0 0 0 0 0 0 0 2 37 200)).
Proof. vm_compute. reflexivity. Qed.

Lemma start_then_stop_gc_thread_witness :
  exists w1,
    start_gc_thread 64 (TaskPtr 5) empty_thread_world = Some (0, w1) /\
    gc_thread w1 = 64 /\
    load (kthreads w1) 64 = Some (mk_gc_kthread (Some (TaskPtr 5)) true) /\
    tasks w1 = 5 :: tasks empty_thread_world /\
    exists w2,
      stop_gc_thread w1 = Some w2 /\
      gc_thread w2 = 0 /\
      same_store (kthreads w2) (kthreads empty_thread_world) /\
      tasks w2 = tasks empty_thread_world.
Proof.
  apply (start_then_stop_gc_thread 64 5 empty_thread_world).
  - lia.
  - reflexivity.
Defined.

Lemma start_gc_thread_failure_witness :
  exists w1,
    start_gc_thread 64 (ErrPtr 12) empty_thread_world
    = Some (- ENOMEM, w1) /\
    same_store (kthreads w1) (kthreads empty_thread_world) /\
    tasks w1 = tasks empty_thread_world /\
    (64 = 0 -> gc_thread w1 = gc_thread empty_thread_world) /\
    (64 <> 0 ->
     gc_thread w1 = 64 /\ load (kthreads w1) 64 = None /\
     stop_gc_thread w1 = None).
Proof.
  apply (start_gc_thread_failure 64 (ErrPtr 12) empty_thread_world).
  right. split; reflexivity.
Defined.

Lemma build_then_destroy_gc_manager_witness :
  exists w1,
    build_gc_manager true 4096 3 2 sample_super_block 64 128
      empty_manager_world
    = Some (0, w1) /\
    gc_info w1 = 64 /\ v_ops_default w1 = true /\
    load (gc_infos w1) 64 = Some (mk_gc_info (u32 3) (u32 2) 128 true) /\
    f2fs_stat_list w1 = f2fs_stat_list empty_manager_world ++ [64] /\
    (true = true ->
     exists si, load (stat_infos w1) 128 = Some si /\ si_sbi si = 4096 /\
                main_area_sections si
                = s32 (section_count sample_super_block)) /\
    exists w2,
      destroy_gc_manager true w1 = Some w2 /\
      gc_info w2 = 0 /\
      same_store (gc_infos w2) (gc_infos empty_manager_world) /\
      same_store (stat_infos w2) (stat_infos empty_manager_world) /\
      f2fs_stat_list w2 = f2fs_stat_list empty_manager_world.
Proof.
  apply (build_then_destroy_gc_manager true 4096 3 2 sample_super_block
           64 128 empty_manager_world).
  - lia.
  - reflexivity.
  - intros [].
  - intros _. split; [lia|]. split; [reflexivity|].
    vm_compute. discriminate.
Defined.

Lemma destroy_gc_manager_needs_full_build_witness :
  destroy_gc_manager true empty_manager_world = None /\
  destroy_gc_manager false empty_manager_world = Some empty_manager_world.
Proof.
  apply (proj1 (destroy_gc_manager_needs_full_build 4096 3 2
                  sample_super_block 64 empty_manager_world)).
  reflexivity.
Defined.

(** The statistics entries of a file system whose [s_proc] is the
    directory 7, registered over an entry of another file system. *)
Example f2fs_stat_init_sample :
  f2fs_stat_init 7 true true false
    [mk_proc_dir_entry ProcNames.f2fs_stat 9 (Some f2fs_read_gc) None]
  = (- ENOMEM,
     [mk_proc_dir_entry ProcNames.f2fs_stat 9 (Some f2fs_read_gc) None]).
Proof. vm_compute. reflexivity. Qed.
